(** * Bali Document Notation: lexer, parser, parse-tree visitors and elements

    A shallow embedding of the parsing pipeline of the Bali document
    framework:

    - the token rules of [grammar/BaliTokens.g4] together with the literal
      tokens listed in [literalNames] of the generated [BaliLanguageParser];
    - the rule functions of the generated [BaliLanguageParser];
    - the error strategy, error listener and entry points of the parser
      module ([initializeParser], [BaliErrorStrategy], [BaliErrorListener]);
    - [ParsingVisitor], which turns a parse tree into [Tree]/[Terminal] nodes;
    - [TransformingVisitor], which turns a parse tree into JavaScript objects;
    - the [Version] element.

    The ANTLR runtime itself is a dependency, not part of the sources: its
    lexer is rendered as "longest match, first rule wins", and the calls to
    [adaptivePredict] are rendered as look-ahead functions on the remaining
    tokens, one per decision of the generated parser.  Where two
    alternatives of a decision match the same tokens the look-ahead takes
    the one with the lower number, as the runtime does; what the runtime
    tells the listeners about an ambiguity is not rendered. *)

From Stdlib Require Import List String Ascii Bool Arith ZArith Lia.
Import ListNotations.
Local Open Scope string_scope.
Local Open Scope list_scope.

Set Implicit Arguments.

(* ================================================================== *)
(** * Regular expressions for the token rules *)
(* ================================================================== *)

Module Regex.

(** The operators used on the right-hand sides of [BaliTokens.g4]:
    literals, character ranges ['a'..'z'], the wildcard [.], sequencing,
    alternation [|] and the greedy loop [*]; [?] and [+] are derived. *)
Inductive re : Type :=
| Void : re
| Eps : re
| Chr : ascii -> re
| Rng : ascii -> ascii -> re
| Any : re
| Seq : re -> re -> re
| Alt : re -> re -> re
| Star : re -> re.

Definition Opt (r : re) : re := Alt r Eps.
Definition Plus (r : re) : re := Seq r (Star r).

Fixpoint Lit (s : string) : re :=
  match s with
  | EmptyString => Eps
  | String c EmptyString => Chr c
  | String c s' => Seq (Chr c) (Lit s')
  end.

Definition in_range (lo hi c : ascii) : bool :=
  Nat.leb (nat_of_ascii lo) (nat_of_ascii c) && Nat.leb (nat_of_ascii c) (nat_of_ascii hi).

(** Words of a rule, as a relation. *)
Inductive Lang : re -> list ascii -> Prop :=
| L_Eps : Lang Eps []
| L_Chr : forall c, Lang (Chr c) [c]
| L_Rng : forall lo hi c, in_range lo hi c = true -> Lang (Rng lo hi) [c]
| L_Any : forall c, Lang Any [c]
| L_Seq : forall r s u v, Lang r u -> Lang s v -> Lang (Seq r s) (u ++ v)
| L_AltL : forall r s u, Lang r u -> Lang (Alt r s) u
| L_AltR : forall r s u, Lang s u -> Lang (Alt r s) u
| L_Star0 : forall r, Lang (Star r) []
| L_StarS : forall r u v, Lang r u -> Lang (Star r) v -> Lang (Star r) (u ++ v).

Fixpoint nullable (r : re) : bool :=
  match r with
  | Void => false
  | Eps => true
  | Chr _ => false
  | Rng _ _ => false
  | Any => false
  | Seq r s => nullable r && nullable s
  | Alt r s => nullable r || nullable s
  | Star _ => true
  end.

Definition is_void (r : re) : bool :=
  match r with Void => true | _ => false end.

(** Smart constructors keep dead derivatives syntactically [Void], so
    that a scan can stop as soon as no continuation is possible. *)
Definition mkSeq (r s : re) : re :=
  match r, s with
  | Void, _ => Void
  | _, Void => Void
  | Eps, _ => s
  | _, _ => Seq r s
  end.

Definition mkAlt (r s : re) : re :=
  match r, s with
  | Void, _ => s
  | _, Void => r
  | _, _ => Alt r s
  end.

Fixpoint deriv (c : ascii) (r : re) : re :=
  match r with
  | Void => Void
  | Eps => Void
  | Chr d => if Ascii.eqb c d then Eps else Void
  | Rng lo hi => if in_range lo hi c then Eps else Void
  | Any => Eps
  | Seq r s =>
      if nullable r
      then mkAlt (mkSeq (deriv c r) s) (deriv c s)
      else mkSeq (deriv c r) s
  | Alt r s => mkAlt (deriv c r) (deriv c s)
  | Star r => mkSeq (deriv c r) (Star r)
  end.

(** Whole-word match. *)
Fixpoint matches (r : re) (w : list ascii) : bool :=
  match w with
  | [] => nullable r
  | c :: w' => matches (deriv c r) w'
  end.

(** Length of the longest prefix of [w] in the language of [r]; [n] is
    the number of characters already consumed, [best] the last
    accepting position seen. *)
Fixpoint longest (r : re) (w : list ascii) (n : nat) (best : option nat)
  : option nat :=
  let best' := if nullable r then Some n else best in
  match w with
  | [] => best'
  | c :: w' =>
      let r' := deriv c r in
      if is_void r' then best' else longest r' w' (S n) best'
  end.

Definition longest_match (r : re) (w : list ascii) : option nat :=
  match longest r w 0 None with
  | Some 0 => None
  | o => o
  end.

End Regex.

(* ================================================================== *)
(** * Tokens and token rules *)
(* ================================================================== *)

Module Tokens.
Import Regex.

Local Open Scope Z_scope.

(** Token types are the integer constants of the generated parser. *)
Definition EOF : Z := -1.
Definition T__0 : Z := 1.
Definition T__1 : Z := 2.
Definition T__2 : Z := 3.
Definition T__3 : Z := 4.
Definition T__4 : Z := 5.
Definition T__5 : Z := 6.
Definition T__6 : Z := 7.
Definition T__7 : Z := 8.
Definition T__8 : Z := 9.
Definition T__9 : Z := 10.
Definition T__10 : Z := 11.
Definition T__11 : Z := 12.
Definition T__12 : Z := 13.
Definition T__13 : Z := 14.
Definition T__14 : Z := 15.
Definition T__15 : Z := 16.
Definition T__16 : Z := 17.
Definition T__17 : Z := 18.
Definition T__18 : Z := 19.
Definition T__19 : Z := 20.
Definition T__20 : Z := 21.
Definition T__21 : Z := 22.
Definition T__22 : Z := 23.
Definition T__23 : Z := 24.
Definition T__24 : Z := 25.
Definition T__25 : Z := 26.
Definition T__26 : Z := 27.
Definition T__27 : Z := 28.
Definition T__28 : Z := 29.
Definition T__29 : Z := 30.
Definition T__30 : Z := 31.
Definition T__31 : Z := 32.
Definition T__32 : Z := 33.
Definition T__33 : Z := 34.
Definition T__34 : Z := 35.
Definition T__35 : Z := 36.
Definition T__36 : Z := 37.
Definition T__37 : Z := 38.
Definition T__38 : Z := 39.
Definition T__39 : Z := 40.
Definition T__40 : Z := 41.
Definition T__41 : Z := 42.
Definition T__42 : Z := 43.
Definition T__43 : Z := 44.
Definition T__44 : Z := 45.
Definition T__45 : Z := 46.
Definition T__46 : Z := 47.
Definition T__47 : Z := 48.
Definition T__48 : Z := 49.
Definition T__49 : Z := 50.
Definition T__50 : Z := 51.
Definition T__51 : Z := 52.
Definition T__52 : Z := 53.
Definition T__53 : Z := 54.
Definition T__54 : Z := 55.
Definition T__55 : Z := 56.
Definition T__56 : Z := 57.
Definition T__57 : Z := 58.
Definition T__58 : Z := 59.
Definition T__59 : Z := 60.
Definition T__60 : Z := 61.
Definition T__61 : Z := 62.
Definition T__62 : Z := 63.
Definition T__63 : Z := 64.
Definition T__64 : Z := 65.
Definition T__65 : Z := 66.
Definition T__66 : Z := 67.
Definition T__67 : Z := 68.
Definition SHELL : Z := 69.
Definition COMMENT : Z := 70.
Definition COMMENT_BLOCK : Z := 71.
Definition TAG : Z := 72.
Definition SYMBOL : Z := 73.
Definition FRACTION : Z := 74.
Definition CONSTANT : Z := 75.
Definition FLOAT : Z := 76.
Definition MOMENT : Z := 77.
Definition DURATION : Z := 78.
Definition RESOURCE : Z := 79.
Definition VERSION : Z := 80.
Definition BINARY : Z := 81.
Definition TEXT_BLOCK : Z := 82.
Definition TEXT : Z := 83.
Definition IDENTIFIER : Z := 84.
Definition NEWLINE : Z := 85.
Definition SPACE : Z := 86.

(** [literalNames] of the generated parser: entry [k] (from 1) is the
    text of token type [k]. *)
Definition literalNames : list string :=
  [ "["; "]"; "("; ")"; ".."; ","; ":"; "{"; "}"; ";"; "handle";
    "matching"; "with"; "finish"; ":="; "checkout"; "from"; "save"; "to";
    "discard"; "commit"; "publish"; "queue"; "on"; "wait"; "for"; "if";
    "then"; "else"; "select"; "do"; "while"; "each"; "in"; "continue";
    "break"; "return"; "throw"; "@"; "."; "!"; "^"; "-"; "/"; "*"; "//";
    "+"; "|"; "<"; "="; ">"; "is"; "matches"; "not"; "and"; "sans"; "xor";
    "or"; "?"; "i"; "undefined"; "infinity"; "e^"; "%"; "true"; "false";
    "none"; "any" ].

Record Token : Type := mkToken { ttype : Z; text : string }.

Definition getText (t : Token) : string := text t.

(** ** Characters *)

Definition ch_tab : ascii := ascii_of_nat 9.
Definition ch_lf : ascii := ascii_of_nat 10.
Definition ch_cr : ascii := ascii_of_nat 13.
Definition ch_dquote : ascii := ascii_of_nat 34.
Definition ch_squote : ascii := ascii_of_nat 39.
Definition ch_backslash : ascii := ascii_of_nat 92.

(** ** Fragments of [BaliTokens.g4] *)

Definition digit : re := Rng "0" "9".
Definition letter : re := Alt (Rng "a" "z") (Rng "A" "Z").

(* CHARACTER: . *)
Definition CHARACTER_f : re := Any.
(* NEWLINE: '\r'? '\n' *)
Definition NEWLINE_r : re := Seq (Opt (Chr ch_cr)) (Chr ch_lf).
(* SPACE: ('\t'..'\r' | ' ') *)
Definition SPACE_r : re := Alt (Rng ch_tab ch_cr) (Chr " ").
(* NATURAL: '1'..'9' ('0'..'9')* *)
Definition NATURAL_f : re := Seq (Rng "1" "9") (Star digit).
(* INTEGER: '0' | '-'? NATURAL *)
Definition INTEGER_f : re := Alt (Chr "0") (Seq (Opt (Chr "-")) NATURAL_f).
(* FRACTION: '.' ('0'..'9')* '1'..'9' *)
Definition FRACTION_r : re := Seq (Seq (Chr ".") (Star digit)) (Rng "1" "9").
(* SPAN: NATURAL FRACTION? *)
Definition SPAN_f : re := Seq NATURAL_f (Opt FRACTION_r).
(* SCHEME: ('a'..'z'|'A'..'Z') ('a'..'z'|'A'..'Z'|'0'..'9'|'+'|'-'|'.')* *)
Definition SCHEME_f : re :=
  Seq letter
      (Star (Alt letter (Alt digit (Alt (Chr "+") (Alt (Chr "-") (Chr ".")))))).
(* CONTEXT: ('!'..'=' | '?'..'~')* *)
Definition CONTEXT_f : re := Star (Alt (Rng "!" "=") (Rng "?" "~")).
(* YEARS: INTEGER *)
Definition YEARS_f : re := INTEGER_f.
(* MONTHS: (('0' '0'..'9') | ('1' '0'..'2')) *)
Definition MONTHS_f : re :=
  Alt (Seq (Chr "0") (Rng "0" "9")) (Seq (Chr "1") (Rng "0" "2")).
(* DAYS: (('0'..'2' '0'..'9') | ('3' '0'..'1')) *)
Definition DAYS_f : re :=
  Alt (Seq (Rng "0" "2") (Rng "0" "9")) (Seq (Chr "3") (Rng "0" "1")).
(* HOURS: (('0'..'1' '0'..'9') | ('2' '0'..'3')) *)
Definition HOURS_f : re :=
  Alt (Seq (Rng "0" "1") (Rng "0" "9")) (Seq (Chr "2") (Rng "0" "3")).
(* MINUTES: ('0'..'5' '0'..'9') *)
Definition MINUTES_f : re := Seq (Rng "0" "5") (Rng "0" "9").
(* SECONDS: (('0'..'5' '0'..'9') | '60') *)
Definition SECONDS_f : re := Alt (Seq (Rng "0" "5") (Rng "0" "9")) (Lit "60").
(* BASE16: '0'..'9' | 'A'..'F' *)
Definition BASE16_f : re := Alt digit (Rng "A" "F").
(* BASE32: '0'..'9' | 'A'..'D' | 'F'..'H' | 'J'..'N' | 'P'..'T' | 'V'..'Z' *)
Definition BASE32_f : re :=
  Alt digit (Alt (Rng "A" "D") (Alt (Rng "F" "H") (Alt (Rng "J" "N")
    (Alt (Rng "P" "T") (Rng "V" "Z"))))).
(* BASE64: '0'..'9' | 'A'..'Z' | 'a'..'z' | '+' | '/' *)
Definition BASE64_f : re :=
  Alt digit (Alt (Rng "A" "Z") (Alt (Rng "a" "z") (Alt (Chr "+") (Chr "/")))).

(** ** Token rules of [BaliTokens.g4] whose loops are all greedy *)

(* IDENTIFIER: ('a'..'z'|'A'..'Z') ('a'..'z'|'A'..'Z'|'0'..'9')* *)
Definition IDENTIFIER_r : re := Seq letter (Star (Alt letter digit)).
(* TAG: '#' BASE32* *)
Definition TAG_r : re := Seq (Chr "#") (Star BASE32_f).
(* SYMBOL: '$' IDENTIFIER *)
Definition SYMBOL_r : re := Seq (Chr "$") IDENTIFIER_r.
(* CONSTANT: 'e' | 'pi' | 'phi' *)
Definition CONSTANT_r : re := Alt (Chr "e") (Alt (Lit "pi") (Lit "phi")).
(* FLOAT: (INTEGER FRACTION? | '-0' FRACTION) ('E' INTEGER)? *)
Definition FLOAT_r : re :=
  Seq (Alt (Seq INTEGER_f (Opt FRACTION_r)) (Seq (Lit "-0") FRACTION_r))
      (Opt (Seq (Chr "E") INTEGER_f)).
(* MOMENT: '<' YEARS ('-' MONTHS ('-' DAYS ('T' HOURS (':' MINUTES
           (':' SECONDS FRACTION?)?)?)?)?)? '>' *)
Definition MOMENT_r : re :=
  let seconds := Seq (Chr ":") (Seq SECONDS_f (Opt FRACTION_r)) in
  let minutes := Seq (Chr ":") (Seq MINUTES_f (Opt seconds)) in
  let hours := Seq (Chr "T") (Seq HOURS_f (Opt minutes)) in
  let days := Seq (Chr "-") (Seq DAYS_f (Opt hours)) in
  let months := Seq (Chr "-") (Seq MONTHS_f (Opt days)) in
  Seq (Chr "<") (Seq YEARS_f (Seq (Opt months) (Chr ">"))).
(* DURATION:
     '~P' SPAN 'W' |
     '~P' (SPAN 'Y')? (SPAN 'M')? (SPAN 'D')?
          ('T' (SPAN 'H')? (SPAN 'M')? (SPAN 'S')?)? *)
Definition DURATION_r : re :=
  Alt (Seq (Lit "~P") (Seq SPAN_f (Chr "W")))
      (Seq (Lit "~P")
        (Seq (Opt (Seq SPAN_f (Chr "Y")))
        (Seq (Opt (Seq SPAN_f (Chr "M")))
        (Seq (Opt (Seq SPAN_f (Chr "D")))
             (Opt (Seq (Chr "T")
                  (Seq (Opt (Seq SPAN_f (Chr "H")))
                  (Seq (Opt (Seq SPAN_f (Chr "M")))
                       (Opt (Seq SPAN_f (Chr "S"))))))))))).
(* RESOURCE: '<' SCHEME ':' CONTEXT '>' *)
Definition RESOURCE_r : re :=
  Seq (Chr "<") (Seq SCHEME_f (Seq (Chr ":") (Seq CONTEXT_f (Chr ">")))).
(* VERSION: 'v' NATURAL ('.' NATURAL)* *)
Definition VERSION_r : re :=
  Seq (Seq (Chr "v") NATURAL_f) (Star (Seq (Chr ".") NATURAL_f)).
(* BINARY: '\'' (BASE64 | SPACE)* ('=' ('=')?)? SPACE* '\'' *)
Definition BINARY_r : re :=
  Seq (Chr ch_squote)
    (Seq (Star (Alt BASE64_f SPACE_r))
    (Seq (Opt (Seq (Chr "=") (Opt (Chr "="))))
    (Seq (Star SPACE_r) (Chr ch_squote)))).

End Tokens.

(* ================================================================== *)
(** * The lexer *)
(* ================================================================== *)

Module Lexer.
Import Regex Tokens.

(** A token rule is either a regular expression with greedy loops, or,
    for the three rules written with the non-greedy loop [*?], a scanner
    that returns the length of the token the rule accepts. *)
Inductive LexRule : Type :=
| Greedy : re -> LexRule
| Scanner : (list ascii -> option nat) -> LexRule.

Definition rule_match (r : LexRule) (w : list ascii) : option nat :=
  match r with
  | Greedy r => longest_match r w
  | Scanner f => f w
  end.

Definition isSpace (c : ascii) : bool :=
  in_range ch_tab ch_cr c || Ascii.eqb c " ".

(** LINE: CHARACTER*? NEWLINE -- the non-greedy loop leaves at the first
    line feed. *)
Fixpoint scanLine (w : list ascii) (n : nat) : option nat :=
  match w with
  | [] => None
  | c :: w' => if Ascii.eqb c ch_lf then Some (S n) else scanLine w' (S n)
  end.

(** SHELL: '^#!' LINE *)
Definition scanSHELL (w : list ascii) : option nat :=
  match w with
  | c1 :: c2 :: c3 :: w' =>
      if Ascii.eqb c1 "^" && Ascii.eqb c2 "#" && Ascii.eqb c3 "!"
      then scanLine w' 3 else None
  | _ => None
  end.

(** TEXT_BLOCK: DQUOTE NEWLINE CHARACTER*? NEWLINE SPACE* DQUOTE
    (DQUOTE stands for the double-quote character.)  After the opening quote and line break, the non-greedy loop leaves at
    the first quote that is preceded by a line feed and then only by
    SPACE characters; [ws] records that such a run is in progress. *)
Fixpoint scanBlockBody (w : list ascii) (n : nat) (ws : bool) : option nat :=
  match w with
  | [] => None
  | c :: w' =>
      if Ascii.eqb c ch_lf then scanBlockBody w' (S n) true
      else if ws && Ascii.eqb c ch_dquote then Some (S n)
      else scanBlockBody w' (S n) (ws && isSpace c)
  end.

Definition scanTEXT_BLOCK (w : list ascii) : option nat :=
  match w with
  | q :: c1 :: w1 =>
      if Ascii.eqb q ch_dquote then
        if Ascii.eqb c1 ch_lf then scanBlockBody w1 2 false
        else if Ascii.eqb c1 ch_cr then
          match w1 with
          | c2 :: w2 => if Ascii.eqb c2 ch_lf then scanBlockBody w2 3 false else None
          | [] => None
          end
        else None
      else None
  | _ => None
  end.

(** TEXT: DQUOTE (ESCAPE | CHARACTER)*? DQUOTE
    The loop leaves at the first quote that does not directly follow a
    backslash begun in the plain state.  A quote taken as the escape
    (backslash, quote) leaves the shorter reading (backslash as CHARACTER, quote as
    the closing quote) as the last accepted position [best], which is
    the token when no later closing quote is found. *)
Fixpoint scanTextBody (w : list ascii) (n : nat) (escaped : bool)
         (best : option nat) : option nat :=
  match w with
  | [] => best
  | c :: w' =>
      if escaped then
        scanTextBody w' (S n) false
                     (if Ascii.eqb c ch_dquote then Some (S n) else best)
      else if Ascii.eqb c ch_dquote then Some (S n)
      else scanTextBody w' (S n) (Ascii.eqb c ch_backslash) best
  end.

Definition scanTEXT (w : list ascii) : option nat :=
  match w with
  | q :: w' => if Ascii.eqb q ch_dquote then scanTextBody w' 1 false None else None
  | [] => None
  end.

Fixpoint number_from (k : Z) (l : list string) : list (Z * LexRule) :=
  match l with
  | [] => []
  | s :: l' => (k, Greedy (Lit s)) :: number_from (k + 1)%Z l'
  end.

(** The rules in the order the lexer sees them: the literal tokens of
    the parser grammar first, then the rules of [BaliTokens.g4] in
    declaration order. *)
Definition rules : list (Z * LexRule) :=
  number_from 1 literalNames ++
  [ (SHELL, Scanner scanSHELL);
    (TAG, Greedy TAG_r);
    (SYMBOL, Greedy SYMBOL_r);
    (FRACTION, Greedy FRACTION_r);
    (CONSTANT, Greedy CONSTANT_r);
    (FLOAT, Greedy FLOAT_r);
    (MOMENT, Greedy MOMENT_r);
    (DURATION, Greedy DURATION_r);
    (RESOURCE, Greedy RESOURCE_r);
    (VERSION, Greedy VERSION_r);
    (BINARY, Greedy BINARY_r);
    (TEXT_BLOCK, Scanner scanTEXT_BLOCK);
    (TEXT, Scanner scanTEXT);
    (IDENTIFIER, Greedy IDENTIFIER_r);
    (NEWLINE, Greedy NEWLINE_r);
    (SPACE, Greedy SPACE_r) ].

(** The longest match wins; among rules matching the same length the
    first one declared wins. *)
Fixpoint best_rule (rs : list (Z * LexRule)) (w : list ascii)
         (best : option (Z * nat)) : option (Z * nat) :=
  match rs with
  | [] => best
  | (ty, r) :: rs' =>
      match rule_match r w, best with
      | Some n, Some (_, m) =>
          if Nat.ltb m n then best_rule rs' w (Some (ty, n))
          else best_rule rs' w best
      | Some n, None => best_rule rs' w (Some (ty, n))
      | None, _ => best_rule rs' w best
      end
  end.

Definition nextToken (w : list ascii) : option (Z * nat) :=
  best_rule rules w None.

(** The tokens on the default channel, and, when some character starts
    no token, that character: the lexer is asked for tokens on demand,
    so the tokens before the offending character are still delivered. *)
Record TokenStream : Type :=
  mkStream { tokens : list Token; failure : option ascii }.

Fixpoint scan (fuel : nat) (w : list ascii) : TokenStream :=
  match fuel with
  | O => mkStream [] None
  | S fuel' =>
      match w with
      | [] => mkStream [] None
      | c :: _ =>
          match nextToken w with
          | None => mkStream [] (Some c)
          | Some (ty, n) =>
              let rest := scan fuel' (skipn n w) in
              if Z.eqb ty SPACE then rest   (* -> channel(HIDDEN) *)
              else mkStream
                     (mkToken ty (string_of_list_ascii (firstn n w)) :: tokens rest)
                     (failure rest)
          end
      end
  end.

Definition tokenize (source : string) : TokenStream :=
  let w := list_ascii_of_string source in
  scan (S (List.length w)) w.

(** Whole-string match of a token rule against a source string. *)
Definition lexesAs (r : re) (source : string) : bool :=
  matches r (list_ascii_of_string source).

End Lexer.


(* ================================================================== *)
(** * Parse trees *)
(* ================================================================== *)

Module ParseTrees.
Import Tokens.

(** ** Trees of the runtime, for any set of rule-context classes *)

Section Trees.
Variable C : Type.

(** A rule context owns its children in source order; [fields] holds
    the tokens stored in the labelled fields of the context ([op], [del],
    [sign], [con]) under the names of the fields. *)
Inductive AntlrTree : Type :=
| RuleNode (ctx : C) (fields : list (string * Token))
           (children : list AntlrTree)
| TerminalNode (symbol : Token).

Definition children (t : AntlrTree) : list AntlrTree :=
  match t with
  | RuleNode _ _ cs => cs
  | TerminalNode _ => []
  end.

Definition contextOf (t : AntlrTree) : option C :=
  match t with
  | RuleNode c _ _ => Some c
  | TerminalNode _ => None
  end.

(** [ctx.name] for a labelled field; absent fields are [null]. *)
Definition field (name : string) (t : AntlrTree) : option Token :=
  match t with
  | RuleNode _ fs _ =>
      match filter (fun f => String.eqb (fst f) name) fs with
      | f :: _ => Some (snd f)
      | [] => None
      end
  | TerminalNode _ => None
  end.

(** [getTypedRuleContexts]: the children that are contexts of a class. *)
Definition getTypedRuleContexts (p : C -> bool) (t : AntlrTree)
  : list AntlrTree :=
  filter (fun c => match c with
                   | RuleNode k _ _ => p k
                   | TerminalNode _ => false
                   end) (children t).

(** [getTypedRuleContext(cls, i)]: the [i]-th such child, if any. *)
Definition getTypedRuleContext (p : C -> bool) (i : nat) (t : AntlrTree)
  : option AntlrTree :=
  nth_error (getTypedRuleContexts p t) i.

(** [getToken(ttype, 0)]: the first terminal child of a token type. *)
Definition getToken (ttype : Z) (t : AntlrTree) : option Token :=
  match filter (fun c => match c with
                         | TerminalNode k => Z.eqb (Tokens.ttype k) ttype
                         | RuleNode _ _ _ => false
                         end) (children t) with
  | TerminalNode k :: _ => Some k
  | _ => None
  end.

(** An upper bound on the nesting of a tree. *)
Fixpoint height (t : AntlrTree) : nat :=
  match t with
  | TerminalNode _ => 1
  | RuleNode _ _ cs => S (fold_right (fun c h => Nat.max (height c) h) 0%nat cs)
  end.

End Trees.

Arguments TerminalNode {C} symbol.

(** ** The rule-context classes of the generated parser

    A rule with labelled alternatives only ever yields the contexts of
    its alternatives.  The rule [task] is not reachable from the entry
    points of the parser module and is left out. *)
Inductive Context : Type :=
| DocumentContext | ComponentContext | StructureContext | ParametersContext
| CompositeContext | RangeContext
| InlineArrayContext | NewlineArrayContext | EmptyArrayContext
| EmptyTableContext | NewlineTableContext | InlineTableContext
| AssociationContext | BlockContext
| EmptyProcedureContext | NewlineProcedureContext | InlineProcedureContext
| StatementContext | HandleClauseContext | FinishClauseContext
| EvaluateClauseContext | CheckoutClauseContext | SaveClauseContext
| DiscardClauseContext | CommitClauseContext | PublishClauseContext
| QueueClauseContext | WaitClauseContext | IfClauseContext
| SelectClauseContext | WhileClauseContext | WithClauseContext
| ContinueClauseContext | BreakClauseContext | ReturnClauseContext
| ThrowClauseContext | LabelContext | VariableContext | IndicesContext
| DefaultExpressionContext | MessageExpressionContext
| SubcomponentExpressionContext | ComparisonExpressionContext
| ArithmeticExpressionContext | MagnitudeExpressionContext
| LogicalExpressionContext | FactorialExpressionContext
| VariableExpressionContext | FunctionExpressionContext
| PrecedenceExpressionContext | ExponentialExpressionContext
| ComponentExpressionContext | InversionExpressionContext
| DereferenceExpressionContext | ComplementExpressionContext
| InvocationContext | NameContext | ElementContext | BinaryContext
| DurationContext | ImaginaryContext | MomentContext
| RealNumberContext | InfiniteNumberContext | UndefinedNumberContext
| ComplexNumberContext | ImaginaryNumberContext
| PercentContext
| FalseProbabilityContext | TrueProbabilityContext
| FractionalProbabilityContext
| VariableRealContext | ConstantRealContext
| ReferenceContext | SymbolContext | TagContext
| NoneTemplateContext | AnyTemplateContext
| InlineTextContext | NewlineTextContext
| VersionContext.

Scheme Equality for Context.

Definition ParseTree : Type := AntlrTree Context.

Definition isRule (c : Context) (t : ParseTree) : bool :=
  match t with
  | RuleNode c' _ _ => Context_beq c c'
  | TerminalNode _ => false
  end.

(** [instanceof ExpressionContext]: the sixteen labelled alternatives. *)
Definition isExpressionContext (c : Context) : bool :=
  match c with
  | DefaultExpressionContext | MessageExpressionContext
  | SubcomponentExpressionContext | ComparisonExpressionContext
  | ArithmeticExpressionContext | MagnitudeExpressionContext
  | LogicalExpressionContext | FactorialExpressionContext
  | VariableExpressionContext | FunctionExpressionContext
  | PrecedenceExpressionContext | ExponentialExpressionContext
  | ComponentExpressionContext | InversionExpressionContext
  | DereferenceExpressionContext | ComplementExpressionContext => true
  | _ => false
  end.

Definition isArrayContext (c : Context) : bool :=
  match c with
  | InlineArrayContext | NewlineArrayContext | EmptyArrayContext => true
  | _ => false
  end.

Definition isTableContext (c : Context) : bool :=
  match c with
  | InlineTableContext | NewlineTableContext | EmptyTableContext => true
  | _ => false
  end.

Definition isProcedureContext (c : Context) : bool :=
  match c with
  | InlineProcedureContext | NewlineProcedureContext
  | EmptyProcedureContext => true
  | _ => false
  end.

Definition isRealContext (c : Context) : bool :=
  match c with
  | VariableRealContext | ConstantRealContext => true
  | _ => false
  end.

Definition isClauseContext (c : Context) : bool :=
  match c with
  | EvaluateClauseContext | CheckoutClauseContext | SaveClauseContext
  | DiscardClauseContext | CommitClauseContext | PublishClauseContext
  | QueueClauseContext | WaitClauseContext | IfClauseContext
  | SelectClauseContext | WhileClauseContext | WithClauseContext
  | ContinueClauseContext | BreakClauseContext | ReturnClauseContext
  | ThrowClauseContext => true
  | _ => false
  end.

End ParseTrees.

(* ================================================================== *)
(** * The recognizer: token stream, error strategy and error listener *)
(* ================================================================== *)

Module Recognizer.
Import Tokens Lexer ParseTrees.

Local Open Scope Z_scope.
Local Open Scope string_scope.

(** The exceptions of the ANTLR runtime that the generated rule functions
    catch ([instanceof RecognitionException]). *)
Inductive RecognitionException : Type :=
| NoViableAltException (offendingToken : Token)
| InputMismatchException (offendingToken : Token) (expected : list Z)
| FailedPredicateException (ruleName : string) (message : string)
                           (offendingToken : Token).

(** What a JavaScript [throw] carries here: a recognition exception of the
    runtime, or a plain [Error] with its message. *)
Inductive Thrown : Type :=
| Recognition (e : RecognitionException)
| Error (message : string).

(** The state of one parse: the tokens not yet consumed, the character (if
    any) at which the lexer will fail once those tokens are used up, the
    [debug] flag shared by [BaliErrorStrategy] and [BaliErrorListener], the
    [errorRecoveryMode] flag of the strategy, and what was written with
    [console.log]. *)
Record State : Type := mkState {
  input : list Token;
  lexFailure : option ascii;
  debug : bool;
  errorRecoveryMode : bool;
  console : list string
}.

Inductive Result (A : Type) : Type :=
| Ok (a : A) (s : State)
| Raise (e : Thrown) (s : State)
| OutOfFuel.

Arguments Ok {A} a s.
Arguments Raise {A} e s.
Arguments OutOfFuel {A}.

Definition M (A : Type) : Type := State -> Result A.

Definition ret {A} (a : A) : M A := fun s => Ok a s.

Definition bind {A B} (m : M A) (f : A -> M B) : M B :=
  fun s => match m s with
           | Ok a s' => f a s'
           | Raise e s' => Raise e s'
           | OutOfFuel => OutOfFuel
           end.

Definition raise {A} (e : Thrown) : M A := fun s => Raise e s.

Declare Scope parser_scope.
Delimit Scope parser_scope with parser.
Notation "x <- m ;; k" := (bind m (fun x => k))
  (at level 61, m at next level, right associativity) : parser_scope.
Notation "m ;; k" := (bind m (fun _ => k))
  (at level 61, right associativity) : parser_scope.
Local Open Scope parser_scope.

Definition mem (x : Z) (l : list Z) : bool := existsb (Z.eqb x) l.

Definition EOF_token : Token := mkToken EOF "<EOF>".

Definition LEXER_ABORT : string :=
  "LEXER: Invalid input was detected, aborted scanning the input.".
Definition PARSER_ABORT : string :=
  "PARSER: Invalid input was detected, aborted parsing the input.".

Definition dq : string := String ch_dquote EmptyString.

Definition log (line : string) : M unit :=
  fun s => Ok tt (mkState (input s) (lexFailure s) (debug s)
                          (errorRecoveryMode s) (console s ++ [line])%list).

(** [BaliErrorListener.prototype.syntaxError]: silent unless [debug]; the
    parser passes the offending token, the lexer passes none and the
    message is replaced.  The first [console.log] of the call is recorded
    (the message cut to 160 characters); the source lines it prints after
    that for orientation are not. *)
Definition syntaxError (offendingToken : option Token) (unexpected : ascii)
           (message : string) : M unit :=
  fun s =>
    if debug s then
      let message :=
        match offendingToken with
        | Some _ => message
        | None => "LEXER: An unexpected character was encountered: "
                    ++ dq ++ String unexpected EmptyString ++ dq
        end in
      log (substring 0 160 message) s
    else Ok tt s.

(** [BaliDocumentLexer.prototype.recover]: the lexer gives up. *)
Definition lexerRecover {A} : M A := raise (Error LEXER_ABORT).

(** What the token stream does when it needs a token at a character that
    starts none: the runtime notifies the listeners, then calls [recover]. *)
Definition lexerFail {A} (c : ascii) : M A :=
  syntaxError None c EmptyString ;; lexerRecover.

(** [this._input.LT(k)], for [k >= 1]; past the last token it is [EOF]. *)
Definition LT (k : nat) : M Token :=
  fun s =>
    match nth_error (input s) (k - 1) with
    | Some t => Ok t s
    | None =>
        match lexFailure s with
        | Some c => lexerFail c s
        | None => Ok EOF_token s
        end
    end.

(** [this._input.LA(k)] *)
Definition LA (k : nat) : M Z := t <- LT k ;; ret (ttype t).

Definition getCurrentToken : M Token := LT 1.

(** [Parser.consume]: the end-of-file token is never consumed. *)
Definition consume : M unit :=
  fun s =>
    match input s with
    | _ :: rest =>
        Ok tt (mkState rest (lexFailure s) (debug s) (errorRecoveryMode s)
                       (console s))
    | [] => Ok tt s
    end.

Definition setErrorRecoveryMode (b : bool) : M unit :=
  fun s => Ok tt (mkState (input s) (lexFailure s) (debug s) b (console s)).

Definition beginErrorCondition : M unit := setErrorRecoveryMode true.
Definition endErrorCondition : M unit := setErrorRecoveryMode false.
Definition reportMatch : M unit := endErrorCondition.
Definition inErrorRecoveryMode : M bool := fun s => Ok (errorRecoveryMode s) s.
Definition getDebug : M bool := fun s => Ok (debug s) s.

(** [escapeWSAndQuote] and [getTokenErrorDisplay] of the default strategy. *)
Fixpoint escapeWS (s : string) : string :=
  match s with
  | EmptyString => EmptyString
  | String c s' =>
      if Ascii.eqb c ch_lf then String ch_backslash (String "n" (escapeWS s'))
      else if Ascii.eqb c ch_cr then String ch_backslash (String "r" (escapeWS s'))
      else if Ascii.eqb c ch_tab then String ch_backslash (String "t" (escapeWS s'))
      else String c (escapeWS s')
  end.

Definition getTokenErrorDisplay (t : Token) : string :=
  "'" ++ escapeWS (text t) ++ "'".

(** [Parser.notifyErrorListeners]: hands the message to the listener. *)
Definition notifyErrorListeners (message : string) (offendingToken : Token)
  : M unit :=
  syntaxError (Some offendingToken) " " message.

Definition tokenName (t : Z) : string :=
  if Z.eqb t EOF then "<EOF>"
  else match nth_error literalNames (Z.to_nat (t - 1)) with
       | Some l => "'" ++ l ++ "'"
       | None => "<token>"
       end.

(** [BaliErrorStrategy.prototype.reportNoViableAlternative] *)
Definition reportNoViableAlternative (offendingToken : Token) : M unit :=
  let message := "PARSER: An invalid token was encountered: "
                   ++ getTokenErrorDisplay offendingToken in
  notifyErrorListeners message offendingToken.

(** [BaliErrorStrategy.prototype.reportInputMismatch] *)
Definition reportInputMismatch (offendingToken : Token) (expected : list Z)
  : M unit :=
  let message := "PARSER: A mismatched token was encountered: " ++ dq
                   ++ getTokenErrorDisplay offendingToken ++ dq
                   ++ ", expected: "
                   ++ String.concat ", " (map tokenName expected) in
  notifyErrorListeners message offendingToken.

(** [BaliErrorStrategy.prototype.reportFailedPredicate] *)
Definition reportFailedPredicate (ruleName message : string)
           (offendingToken : Token) : M unit :=
  let message := "PARSER: A predicate match failed for rule(" ++ ruleName
                   ++ "): " ++ message in
  notifyErrorListeners message offendingToken.

(** [BaliErrorStrategy.prototype.reportError]: nothing happens unless
    [debug] is set and no error is already being handled. *)
Definition reportError (e : RecognitionException) : M unit :=
  d <- getDebug ;;
  r <- inErrorRecoveryMode ;;
  if d && negb r then
    beginErrorCondition ;;
    match e with
    | NoViableAltException t => reportNoViableAlternative t
    | InputMismatchException t expected => reportInputMismatch t expected
    | FailedPredicateException ruleName message t =>
        reportFailedPredicate ruleName message t
    end
  else ret tt.

(** [BaliErrorStrategy.prototype.recover]: records the exception in the
    contexts on the stack (they are discarded with the stack) and throws. *)
Definition recover {A} (e : RecognitionException) : M A :=
  raise (Error PARSER_ABORT).

(** [BaliErrorStrategy.prototype.recoverInline] *)
Definition recoverInline {A} (expected : list Z) : M A :=
  t <- getCurrentToken ;;
  recover (InputMismatchException t expected).

(** [BaliErrorStrategy.prototype.sync] *)
Definition sync : M unit := ret tt.

(** [Parser.match] *)
Definition match_ (ttype : Z) : M ParseTree :=
  t <- getCurrentToken ;;
  if Z.eqb (Tokens.ttype t) ttype
  then reportMatch ;; consume ;; ret (TerminalNode t)
  else recoverInline [ttype].

(** The generated test of the next token against a set of token types,
    used for the labelled operator tokens:
    [if(!(_la in set)) recoverInline else { reportMatch; consume }]. *)
Definition matchSet (set : list Z) : M ParseTree :=
  t <- getCurrentToken ;;
  if mem (Tokens.ttype t) set
  then reportMatch ;; consume ;; ret (TerminalNode t)
  else recoverInline set.

(** [throw new antlr4.error.NoViableAltException(this)] *)
Definition noViableAlt {A} : M A :=
  t <- getCurrentToken ;;
  raise (Recognition (NoViableAltException t)).

(** The [try { ... } catch (re) { ... } finally { exitRule }] around every
    rule function: a recognition exception is reported and handed to
    [recover]; anything else is thrown on. *)
Definition ruleBody (body : M ParseTree) : M ParseTree :=
  fun s =>
    match body s with
    | Raise (Recognition e) s' => (reportError e ;; recover e) s'
    | r => r
    end.

(** Look-ahead that runs part of the grammar on the coming tokens and
    then puts the recognizer back where it was.  Only a failure of the
    lexer, met while fetching the tokens looked at, is kept. *)
Definition speculate (m : M bool) : M bool :=
  fun s =>
    match m s with
    | Ok b _ => Ok b s
    | Raise (Error message) s' =>
        if String.eqb message LEXER_ABORT then Raise (Error message) s'
        else Ok false s
    | Raise (Recognition _) _ => Ok false s
    | OutOfFuel => OutOfFuel
    end.

(** [while (cond) { body }], collecting the children the body adds; each
    turn of a loop of the grammar consumes a token, which bounds the
    number of turns. *)
Fixpoint loop (n : nat) (cond : M bool) (body : M (list ParseTree))
         (acc : list ParseTree) : M (list ParseTree) :=
  match n with
  | O => fun _ => OutOfFuel
  | S n' =>
      c <- cond ;;
      if c then xs <- body ;; loop n' cond body (acc ++ xs)%list else ret acc
  end.

Definition while_ (cond : M bool) (body : M (list ParseTree))
  : M (list ParseTree) :=
  fun s => loop (S (List.length (input s))) cond body [] s.

End Recognizer.

(* ================================================================== *)
(** * The rule functions of the generated parser *)
(* ================================================================== *)

Module BaliLanguageParser.
Import Tokens Lexer ParseTrees Recognizer.

Local Open Scope Z_scope.
Local Open Scope parser_scope.

Inductive RuleIndex : Type :=
| RULE_document | RULE_component | RULE_structure | RULE_parameters
| RULE_composite | RULE_range | RULE_array | RULE_table | RULE_association
| RULE_block | RULE_procedure | RULE_statement | RULE_handleClause
| RULE_finishClause | RULE_evaluateClause | RULE_checkoutClause
| RULE_saveClause | RULE_discardClause | RULE_commitClause
| RULE_publishClause | RULE_queueClause | RULE_waitClause | RULE_ifClause
| RULE_selectClause | RULE_whileClause | RULE_withClause
| RULE_continueClause | RULE_breakClause | RULE_returnClause
| RULE_throwClause | RULE_label | RULE_variable | RULE_indices
| RULE_expression | RULE_invocation | RULE_name | RULE_element
| RULE_binary | RULE_duration | RULE_imaginary | RULE_moment | RULE_number
| RULE_percent | RULE_probability | RULE_real | RULE_reference
| RULE_symbol | RULE_tag | RULE_template | RULE_text | RULE_version.

(** A call of one rule function from another; the integer is the
    precedence argument [_p] of [expression], [0] for every other rule. *)
Definition Rec : Type := RuleIndex -> Z -> M ParseTree.

(** ** Token sets tested by the generated code *)

(** The tokens that can begin an [element] (the first [case] list of
    [component] and of [table]). *)
Definition elementStart : list Z :=
  [ T__2; T__42; T__59; T__60; T__61; T__64; T__65; T__66; T__67;
    TAG; SYMBOL; FRACTION; CONSTANT; FLOAT; MOMENT; DURATION; RESOURCE;
    VERSION; BINARY; TEXT_BLOCK; TEXT ].

(** The tokens that can begin an [expression] (the first [case] list of
    [array]; the loop tests of [array], [selectClause], [returnClause]). *)
Definition expressionStart : list Z :=
  [ T__0; T__2; T__7; T__38; T__42; T__43; T__44; T__47; T__53; T__59;
    T__60; T__61; T__64; T__65; T__66; T__67;
    TAG; SYMBOL; FRACTION; CONSTANT; FLOAT; MOMENT; DURATION; RESOURCE;
    VERSION; BINARY; TEXT_BLOCK; TEXT; IDENTIFIER ].

(** The tokens that can begin a [statement] (the loop test of the
    newline form of [procedure]). *)
Definition statementStart : list Z :=
  [ T__0; T__2; T__7; T__12; T__15; T__17; T__19; T__20; T__21; T__22;
    T__24; T__26; T__29; T__31; T__34; T__35; T__36; T__37; T__38; T__42;
    T__43; T__44; T__47; T__53; T__59; T__60; T__61; T__64; T__65; T__66;
    T__67; TAG; SYMBOL; FRACTION; CONSTANT; FLOAT; MOMENT; DURATION;
    RESOURCE; VERSION; BINARY; TEXT_BLOCK; TEXT; IDENTIFIER ].

Definition inversionOps : list Z := [ T__42; T__43; T__44 ].
Definition arithmeticOps : list Z := [ T__42; T__43; T__44; T__45; T__46 ].
Definition comparisonOps : list Z := [ T__48; T__49; T__50; T__51; T__52 ].
Definition logicalOps : list Z := [ T__54; T__55; T__56; T__57 ].

(** [localctx.sign = this.match(...)] *)
Definition signField (s : ParseTree) : list (string * Token) :=
  match s with
  | TerminalNode t => [("sign", t)]
  | RuleNode _ _ _ => []
  end.

(** ** Rules that call no other rule, or only such rules *)

(* label: IDENTIFIER *)
Definition label : M ParseTree :=
  ruleBody (t <- match_ IDENTIFIER ;; ret (RuleNode LabelContext [] [t])).

(* variable: IDENTIFIER *)
Definition variable : M ParseTree :=
  ruleBody (t <- match_ IDENTIFIER ;; ret (RuleNode VariableContext [] [t])).

(* name: IDENTIFIER *)
Definition name : M ParseTree :=
  ruleBody (t <- match_ IDENTIFIER ;; ret (RuleNode NameContext [] [t])).

(* binary: BINARY *)
Definition binary : M ParseTree :=
  ruleBody (t <- match_ BINARY ;; ret (RuleNode BinaryContext [] [t])).

(* duration: DURATION *)
Definition duration : M ParseTree :=
  ruleBody (t <- match_ DURATION ;; ret (RuleNode DurationContext [] [t])).

(* moment: MOMENT *)
Definition moment : M ParseTree :=
  ruleBody (t <- match_ MOMENT ;; ret (RuleNode MomentContext [] [t])).

(* reference: RESOURCE *)
Definition reference : M ParseTree :=
  ruleBody (t <- match_ RESOURCE ;; ret (RuleNode ReferenceContext [] [t])).

(* symbol: SYMBOL *)
Definition symbol : M ParseTree :=
  ruleBody (t <- match_ SYMBOL ;; ret (RuleNode SymbolContext [] [t])).

(* tag: TAG *)
Definition tag : M ParseTree :=
  ruleBody (t <- match_ TAG ;; ret (RuleNode TagContext [] [t])).

(* version: VERSION *)
Definition version : M ParseTree :=
  ruleBody (t <- match_ VERSION ;; ret (RuleNode VersionContext [] [t])).

(* template: 'none' | 'any' *)
Definition template : M ParseTree :=
  ruleBody (
    la <- LA 1 ;;
    if Z.eqb la T__66 then
      t <- match_ T__66 ;; ret (RuleNode NoneTemplateContext [] [t])
    else if Z.eqb la T__67 then
      t <- match_ T__67 ;; ret (RuleNode AnyTemplateContext [] [t])
    else noViableAlt).

(* text: TEXT | TEXT_BLOCK *)
Definition text : M ParseTree :=
  ruleBody (
    la <- LA 1 ;;
    if Z.eqb la TEXT then
      t <- match_ TEXT ;; ret (RuleNode InlineTextContext [] [t])
    else if Z.eqb la TEXT_BLOCK then
      t <- match_ TEXT_BLOCK ;; ret (RuleNode NewlineTextContext [] [t])
    else noViableAlt).

(* probability: 'true' | 'false' | FRACTION *)
Definition probability : M ParseTree :=
  ruleBody (
    la <- LA 1 ;;
    if Z.eqb la T__64 then
      t <- match_ T__64 ;; ret (RuleNode TrueProbabilityContext [] [t])
    else if Z.eqb la T__65 then
      t <- match_ T__65 ;; ret (RuleNode FalseProbabilityContext [] [t])
    else if Z.eqb la FRACTION then
      t <- match_ FRACTION ;; ret (RuleNode FractionalProbabilityContext [] [t])
    else noViableAlt).

(* real: sign='-'? CONSTANT | FLOAT *)
Definition real : M ParseTree :=
  ruleBody (
    la <- LA 1 ;;
    if mem la [T__42; CONSTANT] then
      _la <- LA 1 ;;
      if Z.eqb _la T__42 then
        s <- match_ T__42 ;;
        c <- match_ CONSTANT ;;
        ret (RuleNode ConstantRealContext
                      (signField s)
                      [s; c])
      else
        c <- match_ CONSTANT ;;
        ret (RuleNode ConstantRealContext [] [c])
    else if Z.eqb la FLOAT then
      t <- match_ FLOAT ;; ret (RuleNode VariableRealContext [] [t])
    else noViableAlt).

(** Decision 37, the optional prefix of [imaginary]:
    1 for [real], 2 for the sign, 3 for neither. *)
Definition predict37 : M nat :=
  la <- LA 1 ;;
  if mem la [FLOAT; CONSTANT] then ret 1%nat
  else if Z.eqb la T__42 then
    la2 <- LA 2 ;;
    if Z.eqb la2 CONSTANT then ret 1%nat
    else if Z.eqb la2 T__59 then ret 2%nat
    else noViableAlt
  else if Z.eqb la T__59 then ret 3%nat
  else noViableAlt.

(* imaginary: (real | sign='-')? 'i' *)
Definition imaginary : M ParseTree :=
  ruleBody (
    la_ <- predict37 ;;
    match la_ with
    | 1%nat =>
        r <- real ;;
        i <- match_ T__59 ;;
        ret (RuleNode ImaginaryContext [] [r; i])
    | 2%nat =>
        s <- match_ T__42 ;;
        i <- match_ T__59 ;;
        ret (RuleNode ImaginaryContext
                      (signField s)
                      [s; i])
    | _ =>
        i <- match_ T__59 ;;
        ret (RuleNode ImaginaryContext [] [i])
    end).

(** The token type that follows a [real] beginning at the next token. *)
Definition afterReal : M Z :=
  la <- LA 1 ;;
  if Z.eqb la T__42 then LA 3 else LA 2.

(** Decision 38, the alternatives of [number]. *)
Definition predict38 : M nat :=
  la <- LA 1 ;;
  if Z.eqb la T__60 then ret 1%nat
  else if Z.eqb la T__61 then ret 2%nat
  else if Z.eqb la T__2 then ret 5%nat
  else if Z.eqb la T__59 then ret 4%nat
  else if mem la [FLOAT; CONSTANT] then
    n <- afterReal ;; ret (if Z.eqb n T__59 then 4%nat else 3%nat)
  else if Z.eqb la T__42 then
    la2 <- LA 2 ;;
    if Z.eqb la2 T__59 then ret 4%nat
    else if Z.eqb la2 CONSTANT then
      n <- afterReal ;; ret (if Z.eqb n T__59 then 4%nat else 3%nat)
    else noViableAlt
  else noViableAlt.

(* number:
     'undefined' | 'infinity' | real | imaginary |
     '(' real del=(',' | 'e^') imaginary ')' *)
Definition number : M ParseTree :=
  ruleBody (
    la_ <- predict38 ;;
    match la_ with
    | 1%nat => t <- match_ T__60 ;; ret (RuleNode UndefinedNumberContext [] [t])
    | 2%nat => t <- match_ T__61 ;; ret (RuleNode InfiniteNumberContext [] [t])
    | 3%nat => r <- real ;; ret (RuleNode RealNumberContext [] [r])
    | 4%nat => i <- imaginary ;; ret (RuleNode ImaginaryNumberContext [] [i])
    | _ =>
        l <- match_ T__2 ;;
        r <- real ;;
        del <- LT 1 ;;
        d <- matchSet [T__5; T__62] ;;
        i <- imaginary ;;
        c <- match_ T__3 ;;
        ret (RuleNode ComplexNumberContext [("del", del)] [l; r; d; i; c])
    end).

(* percent: real '%' *)
Definition percent : M ParseTree :=
  ruleBody (
    r <- real ;;
    p <- match_ T__63 ;;
    ret (RuleNode PercentContext [] [r; p])).

(** ** Decisions of the rules below *)

(** Decisions 3, 13 and 36, the optional [parameters] that ends
    [structure], [block] and [element]: 1 to enter, 2 to pass. *)
Definition predictParameters : M nat :=
  la <- LA 1 ;; ret (if Z.eqb la T__2 then 1%nat else 2%nat).

(** Decision 35, the twelve alternatives of [element]. *)
Definition predict35 : M nat :=
  la <- LA 1 ;;
  if Z.eqb la BINARY then ret 1%nat
  else if Z.eqb la DURATION then ret 2%nat
  else if Z.eqb la MOMENT then ret 3%nat
  else if mem la [T__60; T__61; T__2; T__59] then ret 4%nat
  else if mem la [FRACTION; T__64; T__65] then ret 6%nat
  else if Z.eqb la RESOURCE then ret 7%nat
  else if Z.eqb la SYMBOL then ret 8%nat
  else if Z.eqb la TAG then ret 9%nat
  else if mem la [T__66; T__67] then ret 10%nat
  else if mem la [TEXT; TEXT_BLOCK] then ret 11%nat
  else if Z.eqb la VERSION then ret 12%nat
  else if mem la [FLOAT; CONSTANT] then
    n <- afterReal ;; ret (if Z.eqb n T__63 then 5%nat else 4%nat)
  else if Z.eqb la T__42 then
    la2 <- LA 2 ;;
    if Z.eqb la2 T__59 then ret 4%nat
    else if Z.eqb la2 CONSTANT then
      n <- afterReal ;; ret (if Z.eqb n T__63 then 5%nat else 4%nat)
    else noViableAlt
  else noViableAlt.

(** Whether the coming tokens are ['(' real (',' | 'e^')], the opening of
    a complex number rather than of a parenthesised expression. *)
Definition complexAhead : M bool :=
  la2 <- LA 2 ;;
  if mem la2 [FLOAT; CONSTANT] then
    la3 <- LA 3 ;; ret (mem la3 [T__5; T__62])
  else if Z.eqb la2 T__42 then
    la3 <- LA 3 ;;
    if Z.eqb la3 CONSTANT then la4 <- LA 4 ;; ret (mem la4 [T__5; T__62])
    else ret false
  else ret false.

(** Decision 32, the eight alternatives that can begin an [expression]. *)
Definition predict32 : M nat :=
  la <- LA 1 ;;
  if Z.eqb la IDENTIFIER then
    la2 <- LA 2 ;; ret (if Z.eqb la2 T__2 then 3%nat else 2%nat)
  else if Z.eqb la T__2 then
    c <- complexAhead ;; ret (if c then 1%nat else 4%nat)
  else if Z.eqb la T__38 then ret 5%nat
  else if Z.eqb la T__42 then
    la2 <- LA 2 ;; ret (if mem la2 [CONSTANT; T__59] then 1%nat else 6%nat)
  else if mem la [T__43; T__44] then ret 6%nat
  else if Z.eqb la T__47 then ret 7%nat
  else if Z.eqb la T__53 then ret 8%nat
  else if mem la (T__0 :: T__7 :: elementStart) then ret 1%nat
  else noViableAlt.

(** The precedence level tested by the predicate of the alternative that
    the next token selects in the loop of [expression]. *)
Definition operatorLevel (la : Z) : option Z :=
  if Z.eqb la T__41 then Some 8
  else if mem la arithmeticOps then Some 6
  else if mem la comparisonOps then Some 4
  else if mem la logicalOps then Some 2
  else if Z.eqb la T__58 then Some 1
  else if Z.eqb la T__39 then Some 11
  else if Z.eqb la T__0 then Some 10
  else if Z.eqb la T__40 then Some 9
  else None.

(** [Parser.precpred]: the level is at least the precedence [_p] with
    which the running call of [expression] was entered. *)
Definition precpred (_p : Z) (precedence : Z) : bool := _p <=? precedence.

(** Decision 34, the loop of [expression]: 1 when the next token is an
    operator whose precedence predicate holds, 2 to leave the loop. *)
Definition predict34 (_p : Z) : M nat :=
  la <- LA 1 ;;
  ret (match operatorLevel la with
       | Some k => if precpred _p k then 1%nat else 2%nat
       | None => 2%nat
       end).

(** Decision 33, the operator alternative inside the loop. *)
Definition predict33 : M nat :=
  la <- LA 1 ;;
  if Z.eqb la T__41 then ret 1%nat
  else if mem la arithmeticOps then ret 2%nat
  else if mem la comparisonOps then ret 3%nat
  else if mem la logicalOps then ret 4%nat
  else if Z.eqb la T__58 then ret 5%nat
  else if Z.eqb la T__39 then ret 6%nat
  else if Z.eqb la T__0 then ret 7%nat
  else if Z.eqb la T__40 then ret 8%nat
  else noViableAlt.

(** Decision 4, the alternatives of [composite]: 1 [range], 2 [array],
    3 [table].  A range is an expression followed by ['..'], an
    association is an element followed by [':']. *)
Definition predict4 (rec : Rec) : M nat :=
  la <- LA 1 ;;
  if Z.eqb la T__6 then ret 3%nat
  else if mem la [T__1; T__3] then ret 2%nat
  else if Z.eqb la NEWLINE then
    la2 <- LA 2 ;;
    if mem la2 elementStart then
      t <- speculate (consume ;; _ <- rec RULE_element 0 ;;
                      n <- LA 1 ;; ret (Z.eqb n T__6)) ;;
      ret (if t then 3%nat else 2%nat)
    else ret 2%nat
  else if mem la expressionStart then
    r <- speculate (_ <- rec RULE_expression 0 ;;
                    n <- LA 1 ;; ret (Z.eqb n T__4)) ;;
    if r then ret 1%nat
    else if mem la elementStart then
      t <- speculate (_ <- rec RULE_element 0 ;;
                      n <- LA 1 ;; ret (Z.eqb n T__6)) ;;
      ret (if t then 3%nat else 2%nat)
    else ret 2%nat
  else ret 2%nat.

(** Decision 16, the alternatives of [procedure]: 1 inline, 2 newline,
    3 empty. *)
Definition predict16 : M nat :=
  la <- LA 1 ;;
  ret (if mem la statementStart then 1%nat
       else if Z.eqb la NEWLINE then 2%nat
       else 3%nat).

(** Decision 17, the sixteen clauses that can begin a [statement]. *)
Definition predict17 : M nat :=
  la <- LA 1 ;;
  if Z.eqb la T__15 then ret 2%nat
  else if Z.eqb la T__17 then ret 3%nat
  else if Z.eqb la T__19 then ret 4%nat
  else if Z.eqb la T__20 then ret 5%nat
  else if Z.eqb la T__21 then ret 6%nat
  else if Z.eqb la T__22 then ret 7%nat
  else if Z.eqb la T__24 then ret 8%nat
  else if Z.eqb la T__26 then ret 9%nat
  else if Z.eqb la T__29 then ret 10%nat
  else if Z.eqb la T__31 then ret 11%nat
  else if Z.eqb la T__12 then ret 12%nat
  else if Z.eqb la T__34 then ret 13%nat
  else if Z.eqb la T__35 then ret 14%nat
  else if Z.eqb la T__36 then ret 15%nat
  else if Z.eqb la T__37 then ret 16%nat
  else if Z.eqb la IDENTIFIER then
    la2 <- LA 2 ;;
    if Z.eqb la2 T__6 then
      la3 <- LA 3 ;;
      if Z.eqb la3 T__31 then ret 11%nat
      else if Z.eqb la3 T__12 then ret 12%nat
      else noViableAlt
    else ret 1%nat
  else if mem la expressionStart then ret 1%nat
  else noViableAlt.

(** Decision 21, the optional recipient of [evaluateClause]:
    1 when [(symbol | variable indices) ':='] comes next, 2 otherwise. *)
Definition predict21 (rec : Rec) : M nat :=
  la <- LA 1 ;;
  if Z.eqb la SYMBOL then
    la2 <- LA 2 ;; ret (if Z.eqb la2 T__14 then 1%nat else 2%nat)
  else if Z.eqb la IDENTIFIER then
    la2 <- LA 2 ;;
    if Z.eqb la2 T__0 then
      b <- speculate (_ <- variable ;; _ <- rec RULE_indices 0 ;;
                      n <- LA 1 ;; ret (Z.eqb n T__14)) ;;
      ret (if b then 1%nat else 2%nat)
    else ret 2%nat
  else if mem la expressionStart then ret 2%nat
  else noViableAlt.

(** Decision 22, the loop of [ifClause]: 1 when ['else' 'if'] comes
    next, 2 otherwise. *)
Definition predict22 : M bool :=
  la <- LA 1 ;;
  if Z.eqb la T__28 then la2 <- LA 2 ;; ret (Z.eqb la2 T__26)
  else ret false.

Definition nextIs (t : Z) : M bool := la <- LA 1 ;; ret (Z.eqb la t).
Definition nextIn (set : list Z) : M bool := la <- LA 1 ;; ret (mem la set).

(** ** Rules *)

(* document: NEWLINE* component NEWLINE* EOF *)
Definition document (rec : Rec) : M ParseTree :=
  ruleBody (
    before <- while_ (nextIs NEWLINE) (n <- match_ NEWLINE ;; ret [n]) ;;
    c <- rec RULE_component 0 ;;
    after <- while_ (nextIs NEWLINE) (n <- match_ NEWLINE ;; ret [n]) ;;
    e <- match_ EOF ;;
    ret (RuleNode DocumentContext [] (before ++ [c] ++ after ++ [e]))).

(* component: element | structure | block *)
Definition component (rec : Rec) : M ParseTree :=
  ruleBody (
    la <- LA 1 ;;
    if mem la elementStart then
      e <- rec RULE_element 0 ;; ret (RuleNode ComponentContext [] [e])
    else if Z.eqb la T__0 then
      s <- rec RULE_structure 0 ;; ret (RuleNode ComponentContext [] [s])
    else if Z.eqb la T__7 then
      b <- rec RULE_block 0 ;; ret (RuleNode ComponentContext [] [b])
    else noViableAlt).

(* structure: '[' composite ']' parameters? *)
Definition structure (rec : Rec) : M ParseTree :=
  ruleBody (
    l <- match_ T__0 ;;
    c <- rec RULE_composite 0 ;;
    r <- match_ T__1 ;;
    la_ <- predictParameters ;;
    if Nat.eqb la_ 1 then
      p <- rec RULE_parameters 0 ;;
      ret (RuleNode StructureContext [] [l; c; r; p])
    else ret (RuleNode StructureContext [] [l; c; r])).

(* parameters: '(' composite ')' *)
Definition parameters (rec : Rec) : M ParseTree :=
  ruleBody (
    l <- match_ T__2 ;;
    c <- rec RULE_composite 0 ;;
    r <- match_ T__3 ;;
    ret (RuleNode ParametersContext [] [l; c; r])).

(* composite: range | array | table *)
Definition composite (rec : Rec) : M ParseTree :=
  ruleBody (
    la_ <- predict4 rec ;;
    match la_ with
    | 1%nat => r <- rec RULE_range 0 ;; ret (RuleNode CompositeContext [] [r])
    | 2%nat => a <- rec RULE_array 0 ;; ret (RuleNode CompositeContext [] [a])
    | _ => t <- rec RULE_table 0 ;; ret (RuleNode CompositeContext [] [t])
    end).

(* range: expression '..' expression *)
Definition range (rec : Rec) : M ParseTree :=
  ruleBody (
    a <- rec RULE_expression 0 ;;
    d <- match_ T__4 ;;
    b <- rec RULE_expression 0 ;;
    ret (RuleNode RangeContext [] [a; d; b])).

(* array:
     expression (',' expression)*  #inlineArray |
     NEWLINE (expression NEWLINE)* #newlineArray |
     /*empty array*/               #emptyArray *)
Definition array (rec : Rec) : M ParseTree :=
  ruleBody (
    la <- LA 1 ;;
    if mem la expressionStart then
      e <- rec RULE_expression 0 ;;
      more <- while_ (nextIs T__5)
                (c <- match_ T__5 ;; x <- rec RULE_expression 0 ;; ret [c; x]) ;;
      ret (RuleNode InlineArrayContext [] (e :: more))
    else if Z.eqb la NEWLINE then
      n <- match_ NEWLINE ;;
      more <- while_ (nextIn expressionStart)
                (x <- rec RULE_expression 0 ;; m <- match_ NEWLINE ;; ret [x; m]) ;;
      ret (RuleNode NewlineArrayContext [] (n :: more))
    else if mem la [T__1; T__3] then
      ret (RuleNode EmptyArrayContext [] [])
    else noViableAlt).

(* association: element ':' expression *)
Definition association (rec : Rec) : M ParseTree :=
  ruleBody (
    k <- rec RULE_element 0 ;;
    c <- match_ T__6 ;;
    v <- rec RULE_expression 0 ;;
    ret (RuleNode AssociationContext [] [k; c; v])).

(* table:
     association (',' association)*  #inlineTable |
     NEWLINE (association NEWLINE)*  #newlineTable |
     ':'                             #emptyTable *)
Definition table (rec : Rec) : M ParseTree :=
  ruleBody (
    la <- LA 1 ;;
    if mem la elementStart then
      a <- rec RULE_association 0 ;;
      more <- while_ (nextIs T__5)
                (c <- match_ T__5 ;; x <- rec RULE_association 0 ;; ret [c; x]) ;;
      ret (RuleNode InlineTableContext [] (a :: more))
    else if Z.eqb la NEWLINE then
      n <- match_ NEWLINE ;;
      more <- while_ (nextIn elementStart)
                (x <- rec RULE_association 0 ;; m <- match_ NEWLINE ;; ret [x; m]) ;;
      ret (RuleNode NewlineTableContext [] (n :: more))
    else if Z.eqb la T__6 then
      c <- match_ T__6 ;;
      ret (RuleNode EmptyTableContext [] [c])
    else noViableAlt).

(* block: '{' procedure '}' parameters? *)
Definition block (rec : Rec) : M ParseTree :=
  ruleBody (
    l <- match_ T__7 ;;
    p <- rec RULE_procedure 0 ;;
    r <- match_ T__8 ;;
    la_ <- predictParameters ;;
    if Nat.eqb la_ 1 then
      q <- rec RULE_parameters 0 ;;
      ret (RuleNode BlockContext [] [l; p; r; q])
    else ret (RuleNode BlockContext [] [l; p; r])).

(* procedure:
     statement (';' statement)*   #inlineProcedure |
     NEWLINE (statement NEWLINE)* #newlineProcedure |
     /*empty procedure*/          #emptyProcedure *)
Definition procedure (rec : Rec) : M ParseTree :=
  ruleBody (
    la_ <- predict16 ;;
    match la_ with
    | 1%nat =>
        s <- rec RULE_statement 0 ;;
        more <- while_ (nextIs T__9)
                  (c <- match_ T__9 ;; x <- rec RULE_statement 0 ;; ret [c; x]) ;;
        ret (RuleNode InlineProcedureContext [] (s :: more))
    | 2%nat =>
        n <- match_ NEWLINE ;;
        more <- while_ (nextIn statementStart)
                  (x <- rec RULE_statement 0 ;; m <- match_ NEWLINE ;; ret [x; m]) ;;
        ret (RuleNode NewlineProcedureContext [] (n :: more))
    | _ => ret (RuleNode EmptyProcedureContext [] [])
    end).

(* statement:
     (evaluateClause | checkoutClause | saveClause | discardClause |
      commitClause | publishClause | queueClause | waitClause | ifClause |
      selectClause | whileClause | withClause | continueClause |
      breakClause | returnClause | throwClause)
     handleClause* finishClause? *)
Definition statement (rec : Rec) : M ParseTree :=
  ruleBody (
    la_ <- predict17 ;;
    main <- match la_ with
            | 1%nat => rec RULE_evaluateClause 0
            | 2%nat => rec RULE_checkoutClause 0
            | 3%nat => rec RULE_saveClause 0
            | 4%nat => rec RULE_discardClause 0
            | 5%nat => rec RULE_commitClause 0
            | 6%nat => rec RULE_publishClause 0
            | 7%nat => rec RULE_queueClause 0
            | 8%nat => rec RULE_waitClause 0
            | 9%nat => rec RULE_ifClause 0
            | 10%nat => rec RULE_selectClause 0
            | 11%nat => rec RULE_whileClause 0
            | 12%nat => rec RULE_withClause 0
            | 13%nat => rec RULE_continueClause 0
            | 14%nat => rec RULE_breakClause 0
            | 15%nat => rec RULE_returnClause 0
            | _ => rec RULE_throwClause 0
            end ;;
    handles <- while_ (nextIs T__10)
                 (h <- rec RULE_handleClause 0 ;; ret [h]) ;;
    _la <- LA 1 ;;
    if Z.eqb _la T__13 then
      f <- rec RULE_finishClause 0 ;;
      ret (RuleNode StatementContext [] (main :: handles ++ [f]))
    else ret (RuleNode StatementContext [] (main :: handles))).

(* handleClause: 'handle' symbol 'matching' expression 'with' block *)
Definition handleClause (rec : Rec) : M ParseTree :=
  ruleBody (
    h <- match_ T__10 ;;
    s <- symbol ;;
    m <- match_ T__11 ;;
    e <- rec RULE_expression 0 ;;
    w <- match_ T__12 ;;
    b <- rec RULE_block 0 ;;
    ret (RuleNode HandleClauseContext [] [h; s; m; e; w; b])).

(* finishClause: 'finish' 'with' block *)
Definition finishClause (rec : Rec) : M ParseTree :=
  ruleBody (
    f <- match_ T__13 ;;
    w <- match_ T__12 ;;
    b <- rec RULE_block 0 ;;
    ret (RuleNode FinishClauseContext [] [f; w; b])).

(* evaluateClause: ((symbol | variable indices) ':=')? expression *)
Definition evaluateClause (rec : Rec) : M ParseTree :=
  ruleBody (
    la_ <- predict21 rec ;;
    if Nat.eqb la_ 1 then
      la <- LA 1 ;;
      recipient <- (if Z.eqb la SYMBOL then s <- symbol ;; ret [s]
                    else if Z.eqb la IDENTIFIER then
                      v <- variable ;; i <- rec RULE_indices 0 ;; ret [v; i]
                    else noViableAlt) ;;
      a <- match_ T__14 ;;
      e <- rec RULE_expression 0 ;;
      ret (RuleNode EvaluateClauseContext [] (recipient ++ [a; e]))
    else
      e <- rec RULE_expression 0 ;;
      ret (RuleNode EvaluateClauseContext [] [e])).

(* checkoutClause: 'checkout' symbol 'from' expression *)
Definition checkoutClause (rec : Rec) : M ParseTree :=
  ruleBody (
    c <- match_ T__15 ;;
    s <- symbol ;;
    f <- match_ T__16 ;;
    e <- rec RULE_expression 0 ;;
    ret (RuleNode CheckoutClauseContext [] [c; s; f; e])).

(* saveClause: 'save' expression 'to' expression *)
Definition saveClause (rec : Rec) : M ParseTree :=
  ruleBody (
    k <- match_ T__17 ;;
    a <- rec RULE_expression 0 ;;
    t <- match_ T__18 ;;
    b <- rec RULE_expression 0 ;;
    ret (RuleNode SaveClauseContext [] [k; a; t; b])).

(* discardClause: 'discard' expression *)
Definition discardClause (rec : Rec) : M ParseTree :=
  ruleBody (
    k <- match_ T__19 ;;
    e <- rec RULE_expression 0 ;;
    ret (RuleNode DiscardClauseContext [] [k; e])).

(* commitClause: 'commit' expression 'to' expression *)
Definition commitClause (rec : Rec) : M ParseTree :=
  ruleBody (
    k <- match_ T__20 ;;
    a <- rec RULE_expression 0 ;;
    t <- match_ T__18 ;;
    b <- rec RULE_expression 0 ;;
    ret (RuleNode CommitClauseContext [] [k; a; t; b])).

(* publishClause: 'publish' expression *)
Definition publishClause (rec : Rec) : M ParseTree :=
  ruleBody (
    k <- match_ T__21 ;;
    e <- rec RULE_expression 0 ;;
    ret (RuleNode PublishClauseContext [] [k; e])).

(* queueClause: 'queue' expression 'on' expression *)
Definition queueClause (rec : Rec) : M ParseTree :=
  ruleBody (
    k <- match_ T__22 ;;
    a <- rec RULE_expression 0 ;;
    o <- match_ T__23 ;;
    b <- rec RULE_expression 0 ;;
    ret (RuleNode QueueClauseContext [] [k; a; o; b])).

(* waitClause: 'wait' 'for' symbol 'from' expression *)
Definition waitClause (rec : Rec) : M ParseTree :=
  ruleBody (
    w <- match_ T__24 ;;
    f <- match_ T__25 ;;
    s <- symbol ;;
    m <- match_ T__16 ;;
    e <- rec RULE_expression 0 ;;
    ret (RuleNode WaitClauseContext [] [w; f; s; m; e])).

(* ifClause: 'if' expression 'then' block
             ('else' 'if' expression 'then' block)* ('else' block)? *)
Definition ifClause (rec : Rec) : M ParseTree :=
  ruleBody (
    i <- match_ T__26 ;;
    e <- rec RULE_expression 0 ;;
    t <- match_ T__27 ;;
    b <- rec RULE_block 0 ;;
    more <- while_ predict22
              (el <- match_ T__28 ;;
               i' <- match_ T__26 ;;
               e' <- rec RULE_expression 0 ;;
               t' <- match_ T__27 ;;
               b' <- rec RULE_block 0 ;;
               ret [el; i'; e'; t'; b']) ;;
    _la <- LA 1 ;;
    if Z.eqb _la T__28 then
      el <- match_ T__28 ;;
      b' <- rec RULE_block 0 ;;
      ret (RuleNode IfClauseContext [] ([i; e; t; b] ++ more ++ [el; b']))
    else ret (RuleNode IfClauseContext [] ([i; e; t; b] ++ more))).

(* selectClause: 'select' expression 'from' (expression 'do' block)+
                 ('else' block)? *)
Definition selectClause (rec : Rec) : M ParseTree :=
  ruleBody (
    k <- match_ T__29 ;;
    e <- rec RULE_expression 0 ;;
    f <- match_ T__16 ;;
    o <- rec RULE_expression 0 ;;
    d <- match_ T__30 ;;
    b <- rec RULE_block 0 ;;
    more <- while_ (nextIn expressionStart)
              (o' <- rec RULE_expression 0 ;;
               d' <- match_ T__30 ;;
               b' <- rec RULE_block 0 ;;
               ret [o'; d'; b']) ;;
    _la <- LA 1 ;;
    if Z.eqb _la T__28 then
      el <- match_ T__28 ;;
      b' <- rec RULE_block 0 ;;
      ret (RuleNode SelectClauseContext []
                    ([k; e; f; o; d; b] ++ more ++ [el; b']))
    else ret (RuleNode SelectClauseContext [] ([k; e; f; o; d; b] ++ more))).

(** The optional [label ':'] that begins [whileClause] and [withClause]. *)
Definition optionalLabel : M (list ParseTree) :=
  _la <- LA 1 ;;
  if Z.eqb _la IDENTIFIER then
    l <- label ;; c <- match_ T__6 ;; ret [l; c]
  else ret [].

(* whileClause: (label ':')? 'while' expression 'do' block *)
Definition whileClause (rec : Rec) : M ParseTree :=
  ruleBody (
    l <- optionalLabel ;;
    w <- match_ T__31 ;;
    e <- rec RULE_expression 0 ;;
    d <- match_ T__30 ;;
    b <- rec RULE_block 0 ;;
    ret (RuleNode WhileClauseContext [] (l ++ [w; e; d; b]))).

(* withClause: (label ':')? 'with' ('each' symbol 'in')? expression
               'do' block *)
Definition withClause (rec : Rec) : M ParseTree :=
  ruleBody (
    l <- optionalLabel ;;
    w <- match_ T__12 ;;
    _la <- LA 1 ;;
    each <- (if Z.eqb _la T__32 then
               k <- match_ T__32 ;; s <- symbol ;; i <- match_ T__33 ;;
               ret [k; s; i]
             else ret []) ;;
    e <- rec RULE_expression 0 ;;
    d <- match_ T__30 ;;
    b <- rec RULE_block 0 ;;
    ret (RuleNode WithClauseContext [] (l ++ [w] ++ each ++ [e; d; b]))).

(* continueClause: 'continue' ('to' label)? *)
Definition continueClause : M ParseTree :=
  ruleBody (
    k <- match_ T__34 ;;
    _la <- LA 1 ;;
    if Z.eqb _la T__18 then
      t <- match_ T__18 ;; l <- label ;;
      ret (RuleNode ContinueClauseContext [] [k; t; l])
    else ret (RuleNode ContinueClauseContext [] [k])).

(* breakClause: 'break' ('from' label)? *)
Definition breakClause : M ParseTree :=
  ruleBody (
    k <- match_ T__35 ;;
    _la <- LA 1 ;;
    if Z.eqb _la T__16 then
      f <- match_ T__16 ;; l <- label ;;
      ret (RuleNode BreakClauseContext [] [k; f; l])
    else ret (RuleNode BreakClauseContext [] [k])).

(* returnClause: 'return' expression? *)
Definition returnClause (rec : Rec) : M ParseTree :=
  ruleBody (
    k <- match_ T__36 ;;
    _la <- LA 1 ;;
    if mem _la expressionStart then
      e <- rec RULE_expression 0 ;;
      ret (RuleNode ReturnClauseContext [] [k; e])
    else ret (RuleNode ReturnClauseContext [] [k])).

(* throwClause: 'throw' expression *)
Definition throwClause (rec : Rec) : M ParseTree :=
  ruleBody (
    k <- match_ T__37 ;;
    e <- rec RULE_expression 0 ;;
    ret (RuleNode ThrowClauseContext [] [k; e])).

(* indices: '[' array ']' *)
Definition indices (rec : Rec) : M ParseTree :=
  ruleBody (
    l <- match_ T__0 ;;
    a <- rec RULE_array 0 ;;
    r <- match_ T__1 ;;
    ret (RuleNode IndicesContext [] [l; a; r])).

(* invocation: name parameters *)
Definition invocation (rec : Rec) : M ParseTree :=
  ruleBody (
    n <- name ;;
    p <- rec RULE_parameters 0 ;;
    ret (RuleNode InvocationContext [] [n; p])).

(* element: (binary | duration | moment | number | percent | probability |
             reference | symbol | tag | template | text | version)
            parameters? *)
Definition element (rec : Rec) : M ParseTree :=
  ruleBody (
    la_ <- predict35 ;;
    e <- match la_ with
         | 1%nat => binary
         | 2%nat => duration
         | 3%nat => moment
         | 4%nat => number
         | 5%nat => percent
         | 6%nat => probability
         | 7%nat => reference
         | 8%nat => symbol
         | 9%nat => tag
         | 10%nat => template
         | 11%nat => text
         | _ => version
         end ;;
    la_ <- predictParameters ;;
    if Nat.eqb la_ 1 then
      p <- rec RULE_parameters 0 ;;
      ret (RuleNode ElementContext [] [e; p])
    else ret (RuleNode ElementContext [] [e])).

(** [throw new antlr4.error.FailedPredicateException(this, ...)] unless
    the precedence predicate holds. *)
Definition checkPrecpred (_p : Z) (precedence : Z) (text : string) : M unit :=
  if precpred _p precedence then ret tt
  else
    t <- getCurrentToken ;;
    raise (Recognition (FailedPredicateException "expression" text t)).

(** The alternatives that begin an [expression]. *)
Definition expressionPrimary (rec : Rec) : M ParseTree :=
  la_ <- predict32 ;;
  match la_ with
  | 1%nat =>
      c <- rec RULE_component 0 ;;
      ret (RuleNode ComponentExpressionContext [] [c])
  | 2%nat =>
      v <- variable ;;
      ret (RuleNode VariableExpressionContext [] [v])
  | 3%nat =>
      i <- rec RULE_invocation 0 ;;
      ret (RuleNode FunctionExpressionContext [] [i])
  | 4%nat =>
      l <- match_ T__2 ;;
      e <- rec RULE_expression 0 ;;
      r <- match_ T__3 ;;
      ret (RuleNode PrecedenceExpressionContext [] [l; e; r])
  | 5%nat =>
      a <- match_ T__38 ;;
      e <- rec RULE_expression 12 ;;
      ret (RuleNode DereferenceExpressionContext [] [a; e])
  | 6%nat =>
      op <- LT 1 ;;
      o <- matchSet inversionOps ;;
      e <- rec RULE_expression 7 ;;
      ret (RuleNode InversionExpressionContext [("op", op)] [o; e])
  | 7%nat =>
      l <- match_ T__47 ;;
      e <- rec RULE_expression 0 ;;
      r <- match_ T__47 ;;
      ret (RuleNode MagnitudeExpressionContext [] [l; e; r])
  | _ =>
      n <- match_ T__53 ;;
      e <- rec RULE_expression 3 ;;
      ret (RuleNode ComplementExpressionContext [] [n; e])
  end.

(** One turn of the loop of [expression]: the context built so far
    becomes the first child of the context of the operator. *)
Definition expressionOperator (rec : Rec) (_p : Z) (localctx : ParseTree)
  : M ParseTree :=
  la_ <- predict33 ;;
  match la_ with
  | 1%nat =>
      checkPrecpred _p 8 "this.precpred(this._ctx, 8)" ;;
      o <- match_ T__41 ;;
      e <- rec RULE_expression 8 ;;
      ret (RuleNode ExponentialExpressionContext [] [localctx; o; e])
  | 2%nat =>
      checkPrecpred _p 6 "this.precpred(this._ctx, 6)" ;;
      op <- LT 1 ;;
      o <- matchSet arithmeticOps ;;
      e <- rec RULE_expression 7 ;;
      ret (RuleNode ArithmeticExpressionContext [("op", op)] [localctx; o; e])
  | 3%nat =>
      checkPrecpred _p 4 "this.precpred(this._ctx, 4)" ;;
      op <- LT 1 ;;
      o <- matchSet comparisonOps ;;
      e <- rec RULE_expression 5 ;;
      ret (RuleNode ComparisonExpressionContext [("op", op)] [localctx; o; e])
  | 4%nat =>
      checkPrecpred _p 2 "this.precpred(this._ctx, 2)" ;;
      op <- LT 1 ;;
      o <- matchSet logicalOps ;;
      e <- rec RULE_expression 3 ;;
      ret (RuleNode LogicalExpressionContext [("op", op)] [localctx; o; e])
  | 5%nat =>
      checkPrecpred _p 1 "this.precpred(this._ctx, 1)" ;;
      o <- match_ T__58 ;;
      e <- rec RULE_expression 2 ;;
      ret (RuleNode DefaultExpressionContext [] [localctx; o; e])
  | 6%nat =>
      checkPrecpred _p 11 "this.precpred(this._ctx, 11)" ;;
      o <- match_ T__39 ;;
      i <- rec RULE_invocation 0 ;;
      ret (RuleNode MessageExpressionContext [] [localctx; o; i])
  | 7%nat =>
      checkPrecpred _p 10 "this.precpred(this._ctx, 10)" ;;
      i <- rec RULE_indices 0 ;;
      ret (RuleNode SubcomponentExpressionContext [] [localctx; i])
  | _ =>
      checkPrecpred _p 9 "this.precpred(this._ctx, 9)" ;;
      o <- match_ T__40 ;;
      ret (RuleNode FactorialExpressionContext [] [localctx; o])
  end.

Fixpoint expressionLoop (n : nat) (rec : Rec) (_p : Z) (localctx : ParseTree)
  : M ParseTree :=
  match n with
  | O => fun _ => OutOfFuel
  | S n' =>
      _alt <- predict34 _p ;;
      if Nat.eqb _alt 1 then
        next <- expressionOperator rec _p localctx ;;
        expressionLoop n' rec _p next
      else ret localctx
  end.

(* expression:
     component | variable | invocation | '(' expression ')' |
     '@' expression | op=('-' | '/' | '*') expression |
     '|' expression '|' | 'not' expression |
     <assoc=right> expression '^' expression |
     expression op=('*' | '/' | '//' | '+' | '-') expression |
     expression op=('<' | '=' | '>' | 'is' | 'matches') expression |
     expression op=('and' | 'sans' | 'xor' | 'or') expression |
     expression '?' expression |
     expression '.' invocation | expression indices | expression '!' *)
Definition expression (rec : Rec) (_p : Z) : M ParseTree :=
  ruleBody (
    first <- expressionPrimary rec ;;
    fun s => expressionLoop (S (List.length (input s))) rec _p first s).

(** ** Tying the rule functions together *)

Fixpoint parse (fuel : nat) (r : RuleIndex) (_p : Z) {struct fuel}
  : M ParseTree :=
  match fuel with
  | O => fun _ => OutOfFuel
  | S fuel' =>
      let rec := parse fuel' in
      match r with
      | RULE_document => document rec
      | RULE_component => component rec
      | RULE_structure => structure rec
      | RULE_parameters => parameters rec
      | RULE_composite => composite rec
      | RULE_range => range rec
      | RULE_array => array rec
      | RULE_table => table rec
      | RULE_association => association rec
      | RULE_block => block rec
      | RULE_procedure => procedure rec
      | RULE_statement => statement rec
      | RULE_handleClause => handleClause rec
      | RULE_finishClause => finishClause rec
      | RULE_evaluateClause => evaluateClause rec
      | RULE_checkoutClause => checkoutClause rec
      | RULE_saveClause => saveClause rec
      | RULE_discardClause => discardClause rec
      | RULE_commitClause => commitClause rec
      | RULE_publishClause => publishClause rec
      | RULE_queueClause => queueClause rec
      | RULE_waitClause => waitClause rec
      | RULE_ifClause => ifClause rec
      | RULE_selectClause => selectClause rec
      | RULE_whileClause => whileClause rec
      | RULE_withClause => withClause rec
      | RULE_continueClause => continueClause
      | RULE_breakClause => breakClause
      | RULE_returnClause => returnClause rec
      | RULE_throwClause => throwClause rec
      | RULE_label => label
      | RULE_variable => variable
      | RULE_indices => indices rec
      | RULE_expression => expression rec _p
      | RULE_invocation => invocation rec
      | RULE_name => name
      | RULE_element => element rec
      | RULE_binary => binary
      | RULE_duration => duration
      | RULE_imaginary => imaginary
      | RULE_moment => moment
      | RULE_number => number
      | RULE_percent => percent
      | RULE_probability => probability
      | RULE_real => real
      | RULE_reference => reference
      | RULE_symbol => symbol
      | RULE_tag => tag
      | RULE_template => template
      | RULE_text => text
      | RULE_version => version
      end
  end.

End BaliLanguageParser.

(* ================================================================== *)
(** * Tree and Terminal nodes *)
(* ================================================================== *)

Module Nodes.

Local Open Scope Z_scope.

(** The node types named by the visitor ([types.X]). *)
Inductive NodeType : Type :=
| ARITHMETIC_EXPRESSION | ASSOCIATION | BINARY | BLOCK | BREAK_CLAUSE
| CATALOG | CHECKOUT_CLAUSE | COMMIT_CLAUSE | COMPARISON_EXPRESSION
| COMPLEMENT_EXPRESSION | COMPONENT | CONTINUE_CLAUSE | DEFAULT_EXPRESSION
| DEREFERENCE_EXPRESSION | DISCARD_CLAUSE | DURATION | EVALUATE_CLAUSE
| EXPONENTIAL_EXPRESSION | FACTORIAL_EXPRESSION | FUNCTION
| FUNCTION_EXPRESSION | HANDLE_CLAUSE | IF_CLAUSE | INDICES
| INVERSION_EXPRESSION | LIST | LOGICAL_EXPRESSION | MAGNITUDE_EXPRESSION
| MESSAGE | MESSAGE_EXPRESSION | MOMENT | NUMBER | PARAMETERS | PERCENT
| PRECEDENCE_EXPRESSION | PROBABILITY | PROCEDURE | PUBLISH_CLAUSE
| QUEUE_CLAUSE | RANGE | REFERENCE | RETURN_CLAUSE | SAVE_CLAUSE
| SELECT_CLAUSE | STATEMENT | STRUCTURE | SUBCOMPONENT
| SUBCOMPONENT_EXPRESSION | SYMBOL | TAG | TEMPLATE | TEXT | THROW_CLAUSE
| VARIABLE | VERSION | WAIT_CLAUSE | WHILE_CLAUSE | WITH_CLAUSE.

Scheme Equality for NodeType.

(** Modelled from the spec: the classes [Tree] and [Terminal] of the
    [nodes] package are not among the sources.  A [Tree] has a type, an
    ordered sequence of children, an optional operator and an integer
    size; a [Terminal] has a type and its canonical text. *)
Inductive Node : Type :=
| Tree (type : NodeType) (size : Z) (operator : option string)
       (children : list Node)
| Terminal (type : NodeType) (value : string) (size : Z).

Definition nodeType (n : Node) : NodeType :=
  match n with Tree t _ _ _ => t | Terminal t _ _ => t end.

Definition nodeSize (n : Node) : Z :=
  match n with Tree _ s _ _ => s | Terminal _ _ s => s end.

Definition nodeChildren (n : Node) : list Node :=
  match n with Tree _ _ _ cs => cs | Terminal _ _ _ => [] end.

Definition nodeOperator (n : Node) : option string :=
  match n with Tree _ _ o _ => o | Terminal _ _ _ => None end.

(** [new Tree(type, size)] *)
Definition newTree (type : NodeType) (size : Z) : Node := Tree type size None [].

(** Modelled from the spec: [new Terminal(type, value)]; the size of a
    terminal is taken to be the length of its text. *)
Definition newTerminal (type : NodeType) (value : string) : Node :=
  Terminal type value (Z.of_nat (String.length value)).

(** Modelled from the spec: [tree.addChild(node)] appends the child and
    adds its size to the aggregate size of the tree. *)
Definition addChild (tree child : Node) : Node :=
  match tree with
  | Tree t s o cs => Tree t (s + nodeSize child) o (cs ++ [child])
  | Terminal _ _ _ => tree
  end.

(** [node.size = size] *)
Definition setSize (n : Node) (size : Z) : Node :=
  match n with
  | Tree t _ o cs => Tree t size o cs
  | Terminal t v _ => Terminal t v size
  end.

(** [tree.size += k] *)
Definition addSize (n : Node) (k : Z) : Node := setSize n (nodeSize n + k).

(** [tree.operator = text] *)
Definition setOperator (n : Node) (op : string) : Node :=
  match n with
  | Tree t s _ cs => Tree t s (Some op) cs
  | Terminal _ _ _ => n
  end.

(** [node.size = size] applied to the child added last: the child is the
    same object as the one just visited. *)
Definition setLastChildSize (tree : Node) (size : Z) : Node :=
  match tree with
  | Tree t s o cs =>
      match rev cs with
      | last :: front => Tree t s o (rev front ++ [setSize last size])
      | [] => tree
      end
  | Terminal _ _ _ => tree
  end.

(** Modelled from the spec: the document object made by
    [BaliDocument.fromSource()], whose class is not among the sources:
    the previous reference, the content and the seals that
    [visitDocument] stores in it. *)
Record BaliDocument : Type := mkDocument {
  previousReference : option Node;
  documentContent : Node;
  seals : list (Node * Node)
}.

(** What [this.result] of the visitor can hold. *)
Inductive Value : Type :=
| VUndefined
| VNode (n : Node)
| VString (s : string)
| VDocument (d : BaliDocument).

End Nodes.

(* ================================================================== *)
(** * ParsingVisitor: from parse trees to nodes *)
(* ================================================================== *)

(** The visitor addresses the children of a context through accessor
    methods.  Where the generated parser above names a construct
    differently from the accessor the visitor calls, the accessor is read
    as the construct that stands in the same place of the rule:

    - [collection()] is [composite()]; [list()] is [array()];
      [catalog()] is [table()]; the context names
      ['EmptyListContext'], ['EmptyCatalogContext'] are
      [EmptyArrayContext], [EmptyTableContext];
    - [mainClause()] is the clause that begins the statement;
    - [recipient()] is the symbol, or the pair [variable indices] (the
      visitor's [subcomponent]), in front of [':='], ['from'];
    - [funxtion()], [message()] and [parameters()] of a function or
      message expression are the name and the parameters of its
      [invocation];
    - [component()] of an association is its [element()];
    - [content()] of a document is its [component()]; the parser has no
      [reference] or [seal] in a document.

    A context for which the visitor defines no method is handled by the
    [visitChildren] of the generated base visitor. *)

Module ParsingVisitor.
Import Tokens ParseTrees Nodes.

Local Open Scope Z_scope.
Local Open Scope string_scope.

(** The visitor object: [this.depth] and [this.result]. *)
Record Visitor : Type := mkVisitor { depth : nat; result : Value }.

Inductive VResult (A : Type) : Type :=
| VOk (a : A) (v : Visitor)
| VThrow (message : string)
| VOutOfFuel.

Arguments VOk {A} a v.
Arguments VThrow {A} message.
Arguments VOutOfFuel {A}.

Definition V (A : Type) : Type := Visitor -> VResult A.

Definition vret {A} (a : A) : V A := fun v => VOk a v.

Definition vbind {A B} (m : V A) (f : A -> V B) : V B :=
  fun v => match m v with
           | VOk a v' => f a v'
           | VThrow msg => VThrow msg
           | VOutOfFuel => VOutOfFuel
           end.

Declare Scope visitor_scope.
Delimit Scope visitor_scope with visitor.
Notation "x <- m ;; k" := (vbind m (fun x => k))
  (at level 61, m at next level, right associativity) : visitor_scope.
Notation "m ;; k" := (vbind m (fun _ => k))
  (at level 61, right associativity) : visitor_scope.
Local Open Scope visitor_scope.

Definition vthrow {A} (message : string) : V A := fun _ => VThrow message.

Definition getResult : V Value := fun v => VOk (result v) v.
Definition setResult (r : Value) : V unit := fun v => VOk tt (mkVisitor (depth v) r).
Definition getDepth : V nat := fun v => VOk (depth v) v.
Definition setDepth (d : nat) : V unit := fun v => VOk tt (mkVisitor d (result v)).

Definition TYPE_ERROR : string := "TypeError".

(** [this.result] where a node is needed. *)
Definition resultNode : V Node :=
  r <- getResult ;;
  match r with
  | VNode n => vret n
  | _ => vthrow TYPE_ERROR
  end.

(** [this.result] where it is appended to a string. *)
Definition resultString : V string :=
  r <- getResult ;;
  match r with
  | VString s => vret s
  | _ => vthrow TYPE_ERROR
  end.

(** [x.accept(this)] where [x] came from an accessor: a missing context
    cannot be visited. *)
Definition acceptOpt (accept : ParseTree -> V unit) (x : option ParseTree)
  : V unit :=
  match x with
  | Some t => accept t
  | None => vthrow TYPE_ERROR
  end.

(** [x.accept(this); tree.addChild(this.result);] *)
Definition visitInto (accept : ParseTree -> V unit) (x : option ParseTree)
           (tree : Node) : V Node :=
  acceptOpt accept x ;;
  n <- resultNode ;;
  vret (addChild tree n).

Definition ruleChild (c : Context) (ctx : ParseTree) : option ParseTree :=
  getTypedRuleContext (Context_beq c) 0 ctx.

Definition expressionAt (i : nat) (ctx : ParseTree) : option ParseTree :=
  getTypedRuleContext isExpressionContext i ctx.

Definition tokenText (ttype : Z) (ctx : ParseTree) : V string :=
  match getToken ttype ctx with
  | Some t => vret (getText t)
  | None => vthrow TYPE_ERROR
  end.

(** [ParsingVisitor.indentation] and [getPadding] *)
Definition indentation : string := "    ".

Fixpoint repeatString (n : nat) (s : string) : string :=
  match n with
  | O => EmptyString
  | S n' => s ++ repeatString n' s
  end.

Definition getPadding : V string :=
  d <- getDepth ;; vret (repeatString d indentation).

(** [value.replace(new RegExp(pattern, 'g'), replacement)] for a pattern
    without regular-expression operators: every occurrence, left to
    right, without overlap. *)
Fixpoint replaceAll (pattern replacement : string) (s : string) (skip : nat)
  : string :=
  match s with
  | EmptyString => EmptyString
  | String c s' =>
      match skip with
      | S k => replaceAll pattern replacement s' k
      | O =>
          if String.prefix pattern s
          then replacement ++
               replaceAll pattern replacement s' (String.length pattern - 1)
          else String c (replaceAll pattern replacement s' 0)
      end
  end.

Definition newline : string := String ch_lf EmptyString.

Definition stripPadding (padding value : string) : string :=
  replaceAll (newline ++ padding) newline value 0.

(** [visitChildren] of the generated base visitor: every child accepts
    the visitor in turn; a terminal leaves [this.result] as it is. *)
Fixpoint visitEach (accept : ParseTree -> V unit) (cs : list ParseTree)
  : V unit :=
  match cs with
  | [] => vret tt
  | TerminalNode _ :: cs' => visitEach accept cs'
  | c :: cs' => accept c ;; visitEach accept cs'
  end.

Definition visitChildren (accept : ParseTree -> V unit) (ctx : ParseTree)
  : V unit :=
  visitEach accept (children ctx).

(** [xs.forEach(function(x) { x.accept(this); tree.addChild(this.result);
    tree.size += k; }, this)] *)
Fixpoint forEachInto (accept : ParseTree -> V unit) (xs : list ParseTree)
         (k : Z) (tree : Node) : V Node :=
  match xs with
  | [] => vret tree
  | x :: xs' =>
      tree' <- visitInto accept (Some x) tree ;;
      forEachInto accept xs' k (addSize tree' k)
  end.

(** A terminal made from the text of a token of the context. *)
Definition visitToken (type : NodeType) (ttype : Z) (ctx : ParseTree)
  : V unit :=
  value <- tokenText ttype ctx ;;
  setResult (VNode (newTerminal type value)).

(** A tree with two operands and the matched operator. *)
Definition visitOperator (accept : ParseTree -> V unit) (type : NodeType)
           (size : Z) (ctx : ParseTree) : V unit :=
  let tree := newTree type size in
  tree <- visitInto accept (expressionAt 0 ctx) tree ;;
  match field "op" ctx with
  | Some op =>
      let tree := setOperator tree (getText op) in
      tree <- visitInto accept (expressionAt 1 ctx) tree ;;
      setResult (VNode tree)
  | None => vthrow TYPE_ERROR
  end.

(** A tree whose children are the two expressions of the context. *)
Definition visitTwoExpressions (accept : ParseTree -> V unit)
           (type : NodeType) (size : Z) (ctx : ParseTree) : V unit :=
  let tree := newTree type size in
  tree <- visitInto accept (expressionAt 0 ctx) tree ;;
  tree <- visitInto accept (expressionAt 1 ctx) tree ;;
  setResult (VNode tree).

(** A tree whose only child is the expression of the context. *)
Definition visitOneExpression (accept : ParseTree -> V unit)
           (type : NodeType) (size : Z) (ctx : ParseTree) : V unit :=
  let tree := newTree type size in
  tree <- visitInto accept (expressionAt 0 ctx) tree ;;
  setResult (VNode tree).

(* arithmeticExpression: expression op=('*' | '/' | '//' | '+' | '-') expression *)
Definition visitArithmeticExpression accept ctx : V unit :=
  visitOperator accept ARITHMETIC_EXPRESSION 3 ctx.

(* association: component ':' expression *)
Definition visitAssociation (accept : ParseTree -> V unit) (ctx : ParseTree)
  : V unit :=
  let tree := newTree ASSOCIATION 2 in
  tree <- visitInto accept (ruleChild ElementContext ctx) tree ;;
  tree <- visitInto accept (expressionAt 0 ctx) tree ;;
  setResult (VNode tree).

(* binary: BINARY *)
Definition visitBinary (ctx : ParseTree) : V unit :=
  value <- tokenText Tokens.BINARY ctx ;;
  padding <- getPadding ;;
  setResult (VNode (newTerminal BINARY (stripPadding padding value))).

(* block: '{' procedure '}' *)
Definition visitBlock (accept : ParseTree -> V unit) (ctx : ParseTree)
  : V unit :=
  let tree := newTree BLOCK 2 in
  tree <- visitInto accept (getTypedRuleContext isProcedureContext 0 ctx) tree ;;
  let tree := setLastChildSize tree 100 in
  setResult (VNode tree).

(* breakClause: 'break' 'loop' *)
Definition visitBreakClause (ctx : ParseTree) : V unit :=
  setResult (VNode (newTree BREAK_CLAUSE 10)).

(* catalog:
     association (',' association)* |
     NEWLINE (association NEWLINE)* |
     ':' /*empty catalog*/ *)
Definition visitCatalog (accept : ParseTree -> V unit) (ctx : ParseTree)
  : V unit :=
  let tree := newTree CATALOG 0 in
  match contextOf ctx with
  | Some EmptyTableContext => setResult (VNode tree)
  | _ =>
      let associations := getTypedRuleContexts (Context_beq AssociationContext) ctx in
      d <- getDepth ;;
      setDepth (S d) ;;
      tree <- forEachInto accept associations 2 tree ;;
      d <- getDepth ;;
      setDepth (Nat.pred d) ;;
      setResult (VNode tree)
  end.

(* checkoutClause: 'checkout' recipient 'from' expression *)
Definition visitCheckoutClause (accept : ParseTree -> V unit) (ctx : ParseTree)
  : V unit :=
  let tree := newTree CHECKOUT_CLAUSE 15 in
  tree <- visitInto accept (ruleChild SymbolContext ctx) tree ;;
  tree <- visitInto accept (expressionAt 0 ctx) tree ;;
  setResult (VNode tree).

(* commitClause: 'commit' expression 'to' expression *)
Definition visitCommitClause accept ctx : V unit :=
  visitTwoExpressions accept COMMIT_CLAUSE 11 ctx.

(* comparisonExpression: expression op=('<' | '=' | '>' | 'is' | 'matches') expression *)
Definition visitComparisonExpression accept ctx : V unit :=
  visitOperator accept COMPARISON_EXPRESSION 9 ctx.

(* complementExpression: 'not' expression *)
Definition visitComplementExpression accept ctx : V unit :=
  visitOneExpression accept COMPLEMENT_EXPRESSION 4 ctx.

(* complexNumber: '(' real del=(',' | 'e^') imaginary ')' *)
Definition visitComplexNumber (accept : ParseTree -> V unit) (ctx : ParseTree)
  : V unit :=
  match field "del" ctx with
  | None => vthrow TYPE_ERROR
  | Some del =>
      let delimiter := getText del in
      acceptOpt accept (getTypedRuleContext isRealContext 0 ctx) ;;
      re <- resultString ;;
      acceptOpt accept (ruleChild ImaginaryContext ctx) ;;
      im <- resultString ;;
      let value := "(" ++ re
                       ++ (if String.eqb delimiter "," then ", " else " e^")
                       ++ im ++ ")" in
      setResult (VNode (newTerminal NUMBER value))
  end.

(* component: state parameters? *)
Definition visitComponent (accept : ParseTree -> V unit) (ctx : ParseTree)
  : V unit :=
  let tree := newTree COMPONENT 0 in
  tree <- forEachInto accept (children ctx) 0 tree ;;
  setResult (VNode tree).

(* constantReal: sign='-'? CONSTANT *)
Definition visitConstantReal (ctx : ParseTree) : V unit :=
  let string := match field "sign" ctx with Some _ => "-" | None => EmptyString end in
  c <- tokenText CONSTANT ctx ;;
  setResult (VString (string ++ c)).

(* continueClause: 'continue' 'loop' *)
Definition visitContinueClause (ctx : ParseTree) : V unit :=
  setResult (VNode (newTree CONTINUE_CLAUSE 13)).

(* defaultExpression: expression '?' expression *)
Definition visitDefaultExpression accept ctx : V unit :=
  visitTwoExpressions accept DEFAULT_EXPRESSION 3 ctx.

(* dereferenceExpression: '@' expression *)
Definition visitDereferenceExpression accept ctx : V unit :=
  visitOneExpression accept DEREFERENCE_EXPRESSION 1 ctx.

(* discardClause: 'discard' expression *)
Definition visitDiscardClause accept ctx : V unit :=
  visitOneExpression accept DISCARD_CLAUSE 8 ctx.

(* document: NEWLINE* (reference NEWLINE)? content (NEWLINE seal)* NEWLINE* EOF *)
Definition visitDocument (accept : ParseTree -> V unit) (ctx : ParseTree)
  : V unit :=
  acceptOpt accept (ruleChild ComponentContext ctx) ;;
  documentContent <- resultNode ;;
  setResult (VDocument (mkDocument None documentContent [])).

(* duration: DURATION *)
Definition visitDuration (ctx : ParseTree) : V unit :=
  visitToken DURATION Tokens.DURATION ctx.

(** The recipient of an assignment: the symbol, or the [variable indices]
    in front of [':='] as the visitor's
    [subcomponent: variable indices]. *)
Definition visitSubcomponent (accept : ParseTree -> V unit) (ctx : ParseTree)
  : V unit :=
  let tree := newTree SUBCOMPONENT 0 in
  tree <- visitInto accept (ruleChild VariableContext ctx) tree ;;
  tree <- visitInto accept (ruleChild IndicesContext ctx) tree ;;
  setResult (VNode tree).

(* evaluateClause: (recipient ':=')? expression *)
Definition visitEvaluateClause (accept : ParseTree -> V unit) (ctx : ParseTree)
  : V unit :=
  let tree := newTree EVALUATE_CLAUSE 0 in
  tree <- match ruleChild SymbolContext ctx, ruleChild VariableContext ctx with
          | Some s, _ =>
              tree <- visitInto accept (Some s) tree ;;
              vret (addSize tree 4)
          | None, Some _ =>
              visitSubcomponent accept ctx ;;
              n <- resultNode ;;
              vret (addSize (addChild tree n) 4)
          | None, None => vret tree
          end ;;
  tree <- visitInto accept (expressionAt 0 ctx) tree ;;
  setResult (VNode tree).

(* exponentialExpression: <assoc=right> expression '^' expression *)
Definition visitExponentialExpression accept ctx : V unit :=
  visitTwoExpressions accept EXPONENTIAL_EXPRESSION 3 ctx.

(* factorialExpression: expression '!' *)
Definition visitFactorialExpression accept ctx : V unit :=
  visitOneExpression accept FACTORIAL_EXPRESSION 1 ctx.

(* falseProbability: 'false' *)
Definition visitFalseProbability (ctx : ParseTree) : V unit :=
  setResult (VNode (newTerminal PROBABILITY "false")).

(* fractionalProbability: FRACTION *)
Definition visitFractionalProbability (ctx : ParseTree) : V unit :=
  visitToken PROBABILITY FRACTION ctx.

(* funxtion: IDENTIFIER *)
Definition visitFunxtion (ctx : ParseTree) : V unit :=
  visitToken FUNCTION IDENTIFIER ctx.

(* message: IDENTIFIER *)
Definition visitMessage (ctx : ParseTree) : V unit :=
  visitToken MESSAGE IDENTIFIER ctx.

Definition invocationName (ctx : ParseTree) : option ParseTree :=
  match ruleChild InvocationContext ctx with
  | Some i => ruleChild NameContext i
  | None => None
  end.

Definition invocationParameters (ctx : ParseTree) : option ParseTree :=
  match ruleChild InvocationContext ctx with
  | Some i => ruleChild ParametersContext i
  | None => None
  end.

(** [x.accept(this)] for the name of an invocation, visited as [how]. *)
Definition visitName (how : ParseTree -> V unit) (x : option ParseTree)
  : V unit :=
  match x with
  | Some n => how n
  | None => vthrow TYPE_ERROR
  end.

(* functionExpression: function parameters *)
Definition visitFunctionExpression (accept : ParseTree -> V unit)
           (ctx : ParseTree) : V unit :=
  let tree := newTree FUNCTION_EXPRESSION 0 in
  visitName visitFunxtion (invocationName ctx) ;;
  f <- resultNode ;;
  let tree := addChild tree f in
  tree <- visitInto accept (invocationParameters ctx) tree ;;
  setResult (VNode tree).

(* handleClause: 'handle' symbol 'matching' expression 'with' block *)
Definition visitHandleClause (accept : ParseTree -> V unit) (ctx : ParseTree)
  : V unit :=
  let tree := newTree HANDLE_CLAUSE 100 in
  tree <- visitInto accept (ruleChild SymbolContext ctx) tree ;;
  tree <- visitInto accept (expressionAt 0 ctx) tree ;;
  tree <- visitInto accept (ruleChild BlockContext ctx) tree ;;
  setResult (VNode tree).

(** [for (i = 0; i < expressions.length; i++) { expressions[i] ...;
    blocks[i] ... }] *)
Fixpoint visitPairs (accept : ParseTree -> V unit)
         (expressions blocks : list ParseTree) (tree : Node) : V Node :=
  match expressions with
  | [] => vret tree
  | e :: es =>
      tree <- visitInto accept (Some e) tree ;;
      tree <- visitInto accept (hd_error blocks) tree ;;
      visitPairs accept es (tl blocks) tree
  end.

(* ifClause: 'if' expression 'then' block ('else' 'if' expression 'then' block)* ('else' block)? *)
Definition visitIfClause (accept : ParseTree -> V unit) (ctx : ParseTree)
  : V unit :=
  let tree := newTree IF_CLAUSE 100 in
  let expressions := getTypedRuleContexts isExpressionContext ctx in
  let blocks := getTypedRuleContexts (Context_beq BlockContext) ctx in
  let hasElseBlock := Nat.ltb (List.length expressions) (List.length blocks) in
  tree <- visitPairs accept expressions blocks tree ;;
  tree <- (if hasElseBlock
           then visitInto accept (nth_error blocks (List.length blocks - 1)) tree
           else vret tree) ;;
  setResult (VNode tree).

(* imaginary: (real | sign='-')? 'i' *)
Definition visitImaginary (accept : ParseTree -> V unit) (ctx : ParseTree)
  : V unit :=
  match getTypedRuleContext isRealContext 0 ctx with
  | Some real =>
      accept real ;;
      r <- resultString ;;
      let string :=
        if isRule ConstantRealContext real then r ++ " " else r in
      setResult (VString (string ++ "i"))
  | None =>
      match field "sign" ctx with
      | Some _ => setResult (VString ("-" ++ "i"))
      | None => setResult (VString "i")
      end
  end.

(* imaginaryNumber: imaginary *)
Definition visitImaginaryNumber (accept : ParseTree -> V unit) (ctx : ParseTree)
  : V unit :=
  acceptOpt accept (ruleChild ImaginaryContext ctx) ;;
  value <- resultString ;;
  setResult (VNode (newTerminal NUMBER value)).

(* indices: '[' list ']' *)
Definition visitIndices (accept : ParseTree -> V unit) (ctx : ParseTree)
  : V unit :=
  let tree := newTree INDICES 2 in
  tree <- visitInto accept (getTypedRuleContext isArrayContext 0 ctx) tree ;;
  setResult (VNode tree).

(* infiniteNumber: 'infinity' *)
Definition visitInfiniteNumber (ctx : ParseTree) : V unit :=
  setResult (VNode (newTerminal NUMBER "infinity")).

(* inlineText: TEXT *)
Definition visitInlineText (ctx : ParseTree) : V unit :=
  visitToken TEXT Tokens.TEXT ctx.

(* inversionExpression: op=('-' | '/' | '*') expression *)
Definition visitInversionExpression (accept : ParseTree -> V unit)
           (ctx : ParseTree) : V unit :=
  let tree := newTree INVERSION_EXPRESSION 1 in
  match field "op" ctx with
  | Some op =>
      let tree := setOperator tree (getText op) in
      tree <- visitInto accept (expressionAt 0 ctx) tree ;;
      setResult (VNode tree)
  | None => vthrow TYPE_ERROR
  end.

(* list:
     expression (',' expression)* |
     NEWLINE (expression NEWLINE)* |
     /*empty list*/ *)
Definition visitList (accept : ParseTree -> V unit) (ctx : ParseTree)
  : V unit :=
  let tree := newTree LIST 0 in
  match contextOf ctx with
  | Some EmptyArrayContext => setResult (VNode tree)
  | _ =>
      let expressions := getTypedRuleContexts isExpressionContext ctx in
      d <- getDepth ;;
      setDepth (S d) ;;
      tree <- forEachInto accept expressions 2 tree ;;
      d <- getDepth ;;
      setDepth (Nat.pred d) ;;
      setResult (VNode tree)
  end.

(* logicalExpression: expression op=('and' | 'sans' | 'xor' | 'or') expression *)
Definition visitLogicalExpression accept ctx : V unit :=
  visitOperator accept LOGICAL_EXPRESSION 6 ctx.

(* magnitudeExpression: '|' expression '|' *)
Definition visitMagnitudeExpression accept ctx : V unit :=
  visitOneExpression accept MAGNITUDE_EXPRESSION 2 ctx.

(* messageExpression: expression '.' message parameters *)
Definition visitMessageExpression (accept : ParseTree -> V unit)
           (ctx : ParseTree) : V unit :=
  let tree := newTree MESSAGE_EXPRESSION 1 in
  tree <- visitInto accept (expressionAt 0 ctx) tree ;;
  visitName visitMessage (invocationName ctx) ;;
  m <- resultNode ;;
  let tree := addChild tree m in
  tree <- visitInto accept (invocationParameters ctx) tree ;;
  setResult (VNode tree).

(* moment: MOMENT *)
Definition visitMoment (ctx : ParseTree) : V unit :=
  visitToken MOMENT Tokens.MOMENT ctx.

(* newlineText: TEXT_BLOCK *)
Definition visitNewlineText (ctx : ParseTree) : V unit :=
  value <- tokenText TEXT_BLOCK ctx ;;
  padding <- getPadding ;;
  let terminal := newTerminal TEXT (stripPadding padding value) in
  setResult (VNode (setSize terminal 100)).

(* noneTemplate: 'none' *)
Definition visitNoneTemplate (ctx : ParseTree) : V unit :=
  setResult (VNode (newTerminal TEMPLATE "none")).

(* anyTemplate: 'any' *)
Definition visitAnyTemplate (ctx : ParseTree) : V unit :=
  setResult (VNode (newTerminal TEMPLATE "any")).

(* parameters: '(' collection ')' *)
Definition visitParameters (accept : ParseTree -> V unit) (ctx : ParseTree)
  : V unit :=
  let tree := newTree PARAMETERS 2 in
  tree <- visitInto accept (ruleChild CompositeContext ctx) tree ;;
  setResult (VNode tree).

(* percent: real '%' *)
Definition visitPercent (accept : ParseTree -> V unit) (ctx : ParseTree)
  : V unit :=
  acceptOpt accept (getTypedRuleContext isRealContext 0 ctx) ;;
  r <- resultString ;;
  setResult (VNode (newTerminal PERCENT (r ++ "%"))).

(* precedenceExpression: '(' expression ')' *)
Definition visitPrecedenceExpression accept ctx : V unit :=
  visitOneExpression accept PRECEDENCE_EXPRESSION 2 ctx.

(* procedure:
     statement (';' statement)*   |
     NEWLINE (statement NEWLINE)* |
     /*empty statements*/ *)
Definition visitProcedure (accept : ParseTree -> V unit) (ctx : ParseTree)
  : V unit :=
  let tree := newTree PROCEDURE 0 in
  match contextOf ctx with
  | Some EmptyProcedureContext => setResult (VNode tree)
  | _ =>
      let statements := getTypedRuleContexts (Context_beq StatementContext) ctx in
      d <- getDepth ;;
      setDepth (S d) ;;
      tree <- forEachInto accept statements 2 tree ;;
      d <- getDepth ;;
      setDepth (Nat.pred d) ;;
      setResult (VNode tree)
  end.

(* publishClause: 'publish' expression *)
Definition visitPublishClause accept ctx : V unit :=
  visitOneExpression accept PUBLISH_CLAUSE 8 ctx.

(* queueClause: 'queue' expression 'on' expression *)
Definition visitQueueClause accept ctx : V unit :=
  visitTwoExpressions accept QUEUE_CLAUSE 10 ctx.

(* range: expression '..' expression *)
Definition visitRange accept ctx : V unit :=
  visitTwoExpressions accept RANGE 2 ctx.

(* realNumber: real *)
Definition visitRealNumber (accept : ParseTree -> V unit) (ctx : ParseTree)
  : V unit :=
  acceptOpt accept (getTypedRuleContext isRealContext 0 ctx) ;;
  value <- resultString ;;
  setResult (VNode (newTerminal NUMBER value)).

(* reference: RESOURCE *)
Definition visitReference (ctx : ParseTree) : V unit :=
  visitToken REFERENCE RESOURCE ctx.

(* returnClause: 'return' expression? *)
Definition visitReturnClause (accept : ParseTree -> V unit) (ctx : ParseTree)
  : V unit :=
  let tree := newTree RETURN_CLAUSE 6 in
  match expressionAt 0 ctx with
  | Some expression =>
      tree <- visitInto accept (Some expression) tree ;;
      setResult (VNode (addSize tree 1))
  | None => setResult (VNode tree)
  end.

(* saveClause: 'save' expression 'to' expression *)
Definition visitSaveClause accept ctx : V unit :=
  visitTwoExpressions accept SAVE_CLAUSE 9 ctx.

(* selectClause: 'select' expression 'from' (expression 'do' block)+ ('else' block)? *)
Definition visitSelectClause (accept : ParseTree -> V unit) (ctx : ParseTree)
  : V unit :=
  let tree := newTree SELECT_CLAUSE 100 in
  let expressions := getTypedRuleContexts isExpressionContext ctx in
  let selector := hd_error expressions in
  let expressions := tl expressions in
  let blocks := getTypedRuleContexts (Context_beq BlockContext) ctx in
  let hasElseBlock := Nat.ltb (List.length expressions) (List.length blocks) in
  tree <- visitInto accept selector tree ;;
  tree <- visitPairs accept expressions blocks tree ;;
  tree <- (if hasElseBlock
           then visitInto accept (nth_error blocks (List.length blocks - 1)) tree
           else vret tree) ;;
  setResult (VNode tree).

(* statement: mainClause handleClause* *)
Definition visitStatement (accept : ParseTree -> V unit) (ctx : ParseTree)
  : V unit :=
  let tree := newTree STATEMENT 0 in
  tree <- visitInto accept (getTypedRuleContext isClauseContext 0 ctx) tree ;;
  let handleClauses := getTypedRuleContexts (Context_beq HandleClauseContext) ctx in
  tree <- forEachInto accept handleClauses 1 tree ;;
  setResult (VNode tree).

(* structure: '[' collection ']' *)
Definition visitStructure (accept : ParseTree -> V unit) (ctx : ParseTree)
  : V unit :=
  let tree := newTree STRUCTURE 2 in
  tree <- visitInto accept (ruleChild CompositeContext ctx) tree ;;
  setResult (VNode tree).

(* subcomponentExpression: expression indices *)
Definition visitSubcomponentExpression (accept : ParseTree -> V unit)
           (ctx : ParseTree) : V unit :=
  let tree := newTree SUBCOMPONENT_EXPRESSION 0 in
  tree <- visitInto accept (expressionAt 0 ctx) tree ;;
  tree <- visitInto accept (ruleChild IndicesContext ctx) tree ;;
  setResult (VNode tree).

(* symbol: SYMBOL *)
Definition visitSymbol (ctx : ParseTree) : V unit :=
  visitToken SYMBOL Tokens.SYMBOL ctx.

(* tag: TAG *)
Definition visitTag (ctx : ParseTree) : V unit :=
  visitToken TAG Tokens.TAG ctx.

(* throwClause: 'throw' expression *)
Definition visitThrowClause accept ctx : V unit :=
  visitOneExpression accept THROW_CLAUSE 6 ctx.

(* trueProbability: 'true' *)
Definition visitTrueProbability (ctx : ParseTree) : V unit :=
  setResult (VNode (newTerminal PROBABILITY "true")).

(* undefinedNumber: 'undefined' *)
Definition visitUndefinedNumber (ctx : ParseTree) : V unit :=
  setResult (VNode (newTerminal NUMBER "undefined")).

(* variable: IDENTIFIER *)
Definition visitVariable (ctx : ParseTree) : V unit :=
  visitToken VARIABLE IDENTIFIER ctx.

(* variableReal: FLOAT *)
Definition visitVariableReal (ctx : ParseTree) : V unit :=
  value <- tokenText FLOAT ctx ;;
  setResult (VString value).

(* version: VERSION *)
Definition visitVersion (ctx : ParseTree) : V unit :=
  visitToken VERSION Tokens.VERSION ctx.

(* waitClause: 'wait' 'for' recipient 'from' expression *)
Definition visitWaitClause (accept : ParseTree -> V unit) (ctx : ParseTree)
  : V unit :=
  let tree := newTree WAIT_CLAUSE 15 in
  tree <- visitInto accept (ruleChild SymbolContext ctx) tree ;;
  tree <- visitInto accept (expressionAt 0 ctx) tree ;;
  setResult (VNode tree).

(* whileClause: 'while' expression 'do' block *)
Definition visitWhileClause (accept : ParseTree -> V unit) (ctx : ParseTree)
  : V unit :=
  let tree := newTree WHILE_CLAUSE 100 in
  tree <- visitInto accept (expressionAt 0 ctx) tree ;;
  tree <- visitInto accept (ruleChild BlockContext ctx) tree ;;
  setResult (VNode tree).

(* withClause: 'with' ('each' symbol 'in')? expression 'do' block *)
Definition visitWithClause (accept : ParseTree -> V unit) (ctx : ParseTree)
  : V unit :=
  let tree := newTree WITH_CLAUSE 100 in
  tree <- match ruleChild SymbolContext ctx with
          | Some symbol => visitInto accept (Some symbol) tree
          | None => vret tree
          end ;;
  tree <- visitInto accept (expressionAt 0 ctx) tree ;;
  tree <- visitInto accept (ruleChild BlockContext ctx) tree ;;
  setResult (VNode tree).

(** [ctx.accept(visitor)]: the method of the visitor named after the
    context, or [visitChildren] where the visitor defines none. *)
Definition dispatch (accept : ParseTree -> V unit) (ctx : ParseTree) : V unit :=
  match ctx with
  | TerminalNode _ => vret tt
  | RuleNode c _ _ =>
      match c with
      | DocumentContext => visitDocument accept ctx
      | ComponentContext => visitComponent accept ctx
      | StructureContext => visitStructure accept ctx
      | ParametersContext => visitParameters accept ctx
      | RangeContext => visitRange accept ctx
      | InlineArrayContext | NewlineArrayContext | EmptyArrayContext =>
          visitList accept ctx
      | InlineTableContext | NewlineTableContext | EmptyTableContext =>
          visitCatalog accept ctx
      | AssociationContext => visitAssociation accept ctx
      | BlockContext => visitBlock accept ctx
      | InlineProcedureContext | NewlineProcedureContext
      | EmptyProcedureContext => visitProcedure accept ctx
      | StatementContext => visitStatement accept ctx
      | HandleClauseContext => visitHandleClause accept ctx
      | EvaluateClauseContext => visitEvaluateClause accept ctx
      | CheckoutClauseContext => visitCheckoutClause accept ctx
      | SaveClauseContext => visitSaveClause accept ctx
      | DiscardClauseContext => visitDiscardClause accept ctx
      | CommitClauseContext => visitCommitClause accept ctx
      | PublishClauseContext => visitPublishClause accept ctx
      | QueueClauseContext => visitQueueClause accept ctx
      | WaitClauseContext => visitWaitClause accept ctx
      | IfClauseContext => visitIfClause accept ctx
      | SelectClauseContext => visitSelectClause accept ctx
      | WhileClauseContext => visitWhileClause accept ctx
      | WithClauseContext => visitWithClause accept ctx
      | ContinueClauseContext => visitContinueClause ctx
      | BreakClauseContext => visitBreakClause ctx
      | ReturnClauseContext => visitReturnClause accept ctx
      | ThrowClauseContext => visitThrowClause accept ctx
      | VariableContext => visitVariable ctx
      | IndicesContext => visitIndices accept ctx
      | DefaultExpressionContext => visitDefaultExpression accept ctx
      | MessageExpressionContext => visitMessageExpression accept ctx
      | SubcomponentExpressionContext => visitSubcomponentExpression accept ctx
      | ComparisonExpressionContext => visitComparisonExpression accept ctx
      | ArithmeticExpressionContext => visitArithmeticExpression accept ctx
      | MagnitudeExpressionContext => visitMagnitudeExpression accept ctx
      | LogicalExpressionContext => visitLogicalExpression accept ctx
      | FactorialExpressionContext => visitFactorialExpression accept ctx
      | FunctionExpressionContext => visitFunctionExpression accept ctx
      | PrecedenceExpressionContext => visitPrecedenceExpression accept ctx
      | ExponentialExpressionContext => visitExponentialExpression accept ctx
      | InversionExpressionContext => visitInversionExpression accept ctx
      | DereferenceExpressionContext => visitDereferenceExpression accept ctx
      | ComplementExpressionContext => visitComplementExpression accept ctx
      | BinaryContext => visitBinary ctx
      | DurationContext => visitDuration ctx
      | ImaginaryContext => visitImaginary accept ctx
      | MomentContext => visitMoment ctx
      | RealNumberContext => visitRealNumber accept ctx
      | InfiniteNumberContext => visitInfiniteNumber ctx
      | UndefinedNumberContext => visitUndefinedNumber ctx
      | ComplexNumberContext => visitComplexNumber accept ctx
      | ImaginaryNumberContext => visitImaginaryNumber accept ctx
      | PercentContext => visitPercent accept ctx
      | FalseProbabilityContext => visitFalseProbability ctx
      | TrueProbabilityContext => visitTrueProbability ctx
      | FractionalProbabilityContext => visitFractionalProbability ctx
      | VariableRealContext => visitVariableReal ctx
      | ConstantRealContext => visitConstantReal ctx
      | ReferenceContext => visitReference ctx
      | SymbolContext => visitSymbol ctx
      | TagContext => visitTag ctx
      | NoneTemplateContext => visitNoneTemplate ctx
      | AnyTemplateContext => visitAnyTemplate ctx
      | InlineTextContext => visitInlineText ctx
      | NewlineTextContext => visitNewlineText ctx
      | VersionContext => visitVersion ctx
      | CompositeContext | FinishClauseContext | LabelContext
      | VariableExpressionContext | ComponentExpressionContext
      | InvocationContext | NameContext | ElementContext =>
          visitChildren accept ctx
      end
  end.

Fixpoint accept (fuel : nat) (ctx : ParseTree) {struct fuel} : V unit :=
  match fuel with
  | O => fun _ => VOutOfFuel
  | S fuel' => dispatch (accept fuel') ctx
  end.

(** [convertParseTree]: a fresh visitor walks the tree; its [result] is
    the answer. *)
Definition convertParseTree (antlrTree : ParseTree) : VResult Value :=
  let visitor := mkVisitor 0 VUndefined in
  match accept (S (height antlrTree)) antlrTree visitor with
  | VOk _ v => VOk (result v) v
  | VThrow msg => VThrow msg
  | VOutOfFuel => VOutOfFuel
  end.

End ParsingVisitor.

(* ================================================================== *)
(** * The parser module: entry points *)
(* ================================================================== *)

Module Parser.
Import Tokens Lexer ParseTrees Recognizer BaliLanguageParser Nodes ParsingVisitor.

(** [initializeParser(source, debug)]: a lexer over the characters, one
    error listener for lexer and parser, a token stream, a parser with
    the fail-fast error strategy. *)
Definition initializeParser (source : string) (debug : bool) : State :=
  let chars := tokenize source in
  mkState (tokens chars) (failure chars) debug false [].

(** How a call of an entry point ends: it returns a value, or it throws;
    [Unfinished] is the fuel of this embedding running out. *)
Inductive Outcome : Type :=
| Returned (value : Value)
| Threw (message : string)
| Unfinished.

(** [var parser = initializeParser(source, debug);
     var antlrTree = parser.rule();
     var baliTree = convertParseTree(antlrTree);
     return baliTree;]
    together with what was written to the console. *)
Definition parseWith (fuel : nat) (rule : RuleIndex) (source : string)
           (debug : bool) : Outcome * list string :=
  let parser := initializeParser source debug in
  match parse fuel rule 0 parser with
  | Ok antlrTree s =>
      match convertParseTree antlrTree with
      | VOk baliTree _ => (Returned baliTree, console s)
      | VThrow message => (Threw message, console s)
      | VOutOfFuel => (Unfinished, console s)
      end
  | Raise (Error message) s => (Threw message, console s)
  | Raise (Recognition _) s => (Threw "RecognitionException", console s)
  | OutOfFuel => (Unfinished, [])
  end.

(** Enough fuel for the nesting of rule calls that a source of this many
    tokens can cause. *)
Definition fuelFor (source : string) : nat :=
  16 + 8 * List.length (tokens (tokenize source)).

Definition parseRule (rule : RuleIndex) (source : string) (debug : bool)
  : Outcome * list string :=
  parseWith (fuelFor source) rule source debug.

Definition parseDocument := parseRule RULE_document.
Definition parseComponent := parseRule RULE_component.
Definition parseParameters := parseRule RULE_parameters.
Definition parseElement := parseRule RULE_element.
Definition parseStructure := parseRule RULE_structure.
Definition parseRange := parseRule RULE_range.
Definition parseList := parseRule RULE_array.
Definition parseCatalog := parseRule RULE_table.
Definition parseProcedure := parseRule RULE_procedure.
Definition parseExpression := parseRule RULE_expression.


End Parser.

(* ================================================================== *)
(** * TransformingVisitor: from parse trees to JavaScript objects *)
(* ================================================================== *)

(** [ParseTreeToObject] walks parse trees of the grammar that the
    comments over its methods spell out; the contexts below are the ones
    those methods are named after.  The classes of the [objects] package
    that it instantiates are not among the sources, so the objects are
    kept as the constructor calls that make them. *)

Module ParseTreeToObject.
Import Tokens ParseTrees.

Local Open Scope string_scope.

Inductive Context : Type :=
| AnyAnyContext | NoneAnyContext
| InlineArrayContext | NewlineArrayContext | EmptyArrayContext
| InlineTableContext | NewlineTableContext | EmptyTableContext
| AssociationContext | KeyContext | ValueContext | RangeContext
| BinaryContext | BlockTextContext | InlineTextContext
| ComplexNumberContext | ImaginaryNumberContext | RealNumberContext
| InfiniteNumberContext | UndefinedNumberContext
| ConstantRealContext | VariableRealContext | ImaginaryContext
| PercentContext | MomentContext | ReferenceContext | SymbolContext
| TagContext | VersionContext
| TrueProbabilityContext | FalseProbabilityContext
| FractionalProbabilityContext
| DocumentContext | LiteralContext | ElementContext | StructureContext
| CompositeContext | ParametersContext | BlockContext
(* expressions *)
| DocumentExpressionContext
| ArithmeticExpressionContext | ComparisonExpressionContext
| ComplementExpressionContext | ComponentExpressionContext
| DefaultExpressionContext | DereferenceExpressionContext
| ExponentialExpressionContext | FactorialExpressionContext
| FunctionExpressionContext | InversionExpressionContext
| LogicalExpressionContext | MagnitudeExpressionContext
| MessageExpressionContext | PrecedenceExpressionContext
| VariableExpressionContext | IndicesContext
(* statements *)
| AssigneeContext | BreakFromContext | CheckoutDocumentContext
| CommitDraftContext | ComponentContext | ConditionContext
| ContinueToContext | DiscardDraftContext | DraftContext
| EmptyStatementsContext | EvaluateExpressionContext | EventContext
| XceptionContext | ExceptionClauseContext | FinalClauseContext
| IfThenContext | InlineStatementsContext | LabelContext | LocationContext
| MainClauseContext | MessageContext | NewlineStatementsContext
| OptionContext | PublishEventContext | QueueContext | QueueMessageContext
| ResultContext | ReturnResultContext | SaveDraftContext | ScriptContext
| SelectFromContext | SelectionContext | SequenceContext | StatementContext
| TemplateContext | ThrowExceptionContext | VariableContext
| WaitForMessageContext | WhileLoopContext | WithLoopContext.

Scheme Equality for Context.

Definition ParseTree : Type := AntlrTree Context.

(** [ctx.constructor.name] *)
Definition constructorName (c : Context) : string :=
  match c with
  | InlineArrayContext => "InlineArrayContext"
  | NewlineArrayContext => "NewlineArrayContext"
  | EmptyArrayContext => "EmptyArrayContext"
  | InlineTableContext => "InlineTableContext"
  | NewlineTableContext => "NewlineTableContext"
  | EmptyTableContext => "EmptyTableContext"
  | _ => "Context"
  end.

(** [instanceof ExpressionContext] in this grammar. *)
Definition isExpressionContext (c : Context) : bool :=
  match c with
  | DocumentExpressionContext
  | ArithmeticExpressionContext | ComparisonExpressionContext
  | ComplementExpressionContext | ComponentExpressionContext
  | DefaultExpressionContext | DereferenceExpressionContext
  | ExponentialExpressionContext | FactorialExpressionContext
  | FunctionExpressionContext | InversionExpressionContext
  | LogicalExpressionContext | MagnitudeExpressionContext
  | MessageExpressionContext | PrecedenceExpressionContext
  | VariableExpressionContext => true
  | _ => false
  end.

Definition isRealContext (c : Context) : bool :=
  match c with
  | ConstantRealContext | VariableRealContext => true
  | _ => false
  end.

(** The values the visitor leaves in [this.result]: strings, static
    instances such as [objects.Any.ANY], objects made with
    [new objects.Class(arguments)] and possibly given a [parameters]
    property afterwards, arrays, and the literal
    [{ key: key, value: value }]. *)
Inductive JsValue : Type :=
| JsUndefined
| JsString (s : string)
| JsStatic (name : string) (parameters : option JsValue)
| JsNew (class : string) (arguments : list JsValue)
        (parameters : option JsValue)
| JsArray (items : list JsValue)
| JsAssociation (key value : JsValue).

Record Visitor : Type := mkVisitor { result : JsValue; console : list string }.

Inductive TResult (A : Type) : Type :=
| TOk (a : A) (v : Visitor)
| TThrow (message : string)
| TOutOfFuel.

Arguments TOk {A} a v.
Arguments TThrow {A} message.
Arguments TOutOfFuel {A}.

Definition T (A : Type) : Type := Visitor -> TResult A.

Definition tret {A} (a : A) : T A := fun v => TOk a v.

Definition tbind {A B} (m : T A) (f : A -> T B) : T B :=
  fun v => match m v with
           | TOk a v' => f a v'
           | TThrow msg => TThrow msg
           | TOutOfFuel => TOutOfFuel
           end.

Declare Scope transformer_scope.
Delimit Scope transformer_scope with transformer.
Notation "x <- m ;; k" := (tbind m (fun x => k))
  (at level 61, m at next level, right associativity) : transformer_scope.
Notation "m ;; k" := (tbind m (fun _ => k))
  (at level 61, right associativity) : transformer_scope.
Local Open Scope transformer_scope.

Definition tthrow {A} (message : string) : T A := fun _ => TThrow message.

Definition EXPRESSIONS_ERROR : string :=
  "TRANSFORMER: Bali expressions cannot be transformed into JavaScript objects.".
Definition STATEMENTS_ERROR : string :=
  "TRANSFORMER: Bali statements cannot be transformed into JavaScript objects.".
Definition TYPE_ERROR : string := "TypeError".

Definition getResult : T JsValue := fun v => TOk (result v) v.
Definition setResult (r : JsValue) : T unit :=
  fun v => TOk tt (mkVisitor r (console v)).
Definition consoleLog (line : string) : T unit :=
  fun v => TOk tt (mkVisitor (result v) (console v ++ [line])%list).

Definition resultString : T string :=
  r <- getResult ;;
  match r with
  | JsString s => tret s
  | _ => tthrow TYPE_ERROR
  end.

Definition acceptOpt (accept : ParseTree -> T unit) (x : option ParseTree)
  : T unit :=
  match x with
  | Some t => accept t
  | None => tthrow TYPE_ERROR
  end.

Definition ruleChild (c : Context) (ctx : ParseTree) : option ParseTree :=
  getTypedRuleContext (Context_beq c) 0 ctx.

Definition tokenText (ttype : Z) (ctx : ParseTree) : T string :=
  match getToken ttype ctx with
  | Some t => tret (getText t)
  | None => tthrow TYPE_ERROR
  end.

(** [object.parameters = value]; the file is in strict mode, where a
    property cannot be put on a value that is not an object. *)
Definition setParameters (object parameters : JsValue) : T JsValue :=
  match object with
  | JsStatic name _ => tret (JsStatic name (Some parameters))
  | JsNew class arguments _ => tret (JsNew class arguments (Some parameters))
  | _ => tthrow TYPE_ERROR
  end.

(** [this.result = new objects.Class(ctx.TOKEN().getText())] *)
Definition visitToken (class : string) (ttype : Z) (ctx : ParseTree) : T unit :=
  s <- tokenText ttype ctx ;;
  setResult (JsNew class [JsString s] None).

(** [visitChildren] of the generated base visitor. *)
Fixpoint visitEach (accept : ParseTree -> T unit) (cs : list ParseTree)
  : T unit :=
  match cs with
  | [] => tret tt
  | TerminalNode _ :: cs' => visitEach accept cs'
  | c :: cs' => accept c ;; visitEach accept cs'
  end.

Definition visitChildren (accept : ParseTree -> T unit) (ctx : ParseTree)
  : T unit :=
  visitEach accept (children ctx).

(** [for (i = 0; i < xs.length; i++) { xs[i].accept(this);
    value.push(this.result); }] *)
Fixpoint collect (accept : ParseTree -> T unit) (xs : list ParseTree)
         (value : list JsValue) : T (list JsValue) :=
  match xs with
  | [] => tret value
  | x :: xs' =>
      accept x ;;
      r <- getResult ;;
      collect accept xs' (value ++ [r])%list
  end.

(* treat all arrays the same *)
Definition visitArray (accept : ParseTree -> T unit) (ctx : ParseTree)
  : T unit :=
  match ctx with
  | TerminalNode _ => tthrow TYPE_ERROR
  | RuleNode c _ _ =>
      let type := constructorName c in
      value <- (if String.eqb type "EmptyArrayContext" then tret []
                else collect accept
                       (getTypedRuleContexts (Context_beq ValueContext) ctx) []) ;;
      setResult (JsNew "Composite" [JsArray value; JsString type] None)
  end.

(* treat all tables the same *)
Definition visitTable (accept : ParseTree -> T unit) (ctx : ParseTree)
  : T unit :=
  match ctx with
  | TerminalNode _ => tthrow TYPE_ERROR
  | RuleNode c _ _ =>
      let type := constructorName c in
      consoleLog ("visitTable: " ++ type) ;;
      value <- (if String.eqb type "EmptyTableContext" then tret []
                else collect accept
                       (getTypedRuleContexts (Context_beq AssociationContext) ctx)
                       []) ;;
      setResult (JsNew "Composite" [JsArray value; JsString type] None)
  end.

(* association: key ':' value *)
Definition visitAssociation (accept : ParseTree -> T unit) (ctx : ParseTree)
  : T unit :=
  acceptOpt accept (ruleChild KeyContext ctx) ;;
  key <- getResult ;;
  acceptOpt accept (ruleChild ValueContext ctx) ;;
  value <- getResult ;;
  setResult (JsAssociation key value).

(* complexNumber: '(' real del=(',' | 'e^') imaginary ')' *)
Definition visitComplexNumber (accept : ParseTree -> T unit) (ctx : ParseTree)
  : T unit :=
  acceptOpt accept (getTypedRuleContext isRealContext 0 ctx) ;;
  re <- resultString ;;
  match field "del" ctx with
  | None => tthrow TYPE_ERROR
  | Some del =>
      acceptOpt accept (ruleChild ImaginaryContext ctx) ;;
      im <- resultString ;;
      setResult (JsNew "Complex"
                       [JsString ("(" ++ re ++ getText del ++ im ++ ")")] None)
  end.

(* constantReal: sign='-'? con=('e' | 'pi' | 'phi') *)
Definition visitConstantReal (ctx : ParseTree) : T unit :=
  let string := match field "sign" ctx with Some _ => "-" | None => EmptyString end in
  match field "con" ctx with
  | Some con => setResult (JsString (string ++ getText con))
  | None => tthrow TYPE_ERROR
  end.

(** [literal.parameters = this.result] when the context has parameters. *)
Definition withParameters (accept : ParseTree -> T unit) (ctx : ParseTree)
           (object : JsValue) : T unit :=
  match ruleChild ParametersContext ctx with
  | Some parameters =>
      accept parameters ;;
      p <- getResult ;;
      object <- setParameters object p ;;
      setResult object
  | None => setResult object
  end.

(* document: literal parameters? *)
Definition visitDocument (accept : ParseTree -> T unit) (ctx : ParseTree)
  : T unit :=
  acceptOpt accept (ruleChild LiteralContext ctx) ;;
  literal <- getResult ;;
  withParameters accept ctx literal.

(* key: element parameters? *)
Definition visitKey (accept : ParseTree -> T unit) (ctx : ParseTree)
  : T unit :=
  acceptOpt accept (ruleChild ElementContext ctx) ;;
  element <- getResult ;;
  withParameters accept ctx element.

(* imaginary: (real | sign='-')? 'i' *)
Definition visitImaginary (accept : ParseTree -> T unit) (ctx : ParseTree)
  : T unit :=
  match getTypedRuleContext isRealContext 0 ctx with
  | Some real =>
      accept real ;;
      r <- resultString ;;
      let string := match field "con" real with
                    | Some _ => r ++ " "
                    | None => r
                    end in
      setResult (JsString (string ++ "i"))
  | None =>
      match field "sign" ctx with
      | Some _ => setResult (JsString ("-" ++ "i"))
      | None => setResult (JsString "i")
      end
  end.

(* imaginaryNumber: imaginary *)
Definition visitImaginaryNumber (accept : ParseTree -> T unit) (ctx : ParseTree)
  : T unit :=
  acceptOpt accept (ruleChild ImaginaryContext ctx) ;;
  im <- resultString ;;
  setResult (JsNew "Complex" [JsString ("(0, " ++ im ++ ")")] None).

(* percent: real '%' *)
Definition visitPercent (accept : ParseTree -> T unit) (ctx : ParseTree)
  : T unit :=
  acceptOpt accept (getTypedRuleContext isRealContext 0 ctx) ;;
  string <- resultString ;;
  setResult (JsNew "Percent" [JsString (string ++ "%")] None).

(* range: value '..' value *)
Definition visitRange (accept : ParseTree -> T unit) (ctx : ParseTree)
  : T unit :=
  acceptOpt accept (getTypedRuleContext (Context_beq ValueContext) 0 ctx) ;;
  firstValue <- getResult ;;
  acceptOpt accept (getTypedRuleContext (Context_beq ValueContext) 1 ctx) ;;
  lastValue <- getResult ;;
  setResult (JsNew "Range" [firstValue; lastValue] None).

(* realNumber: real *)
Definition visitRealNumber (accept : ParseTree -> T unit) (ctx : ParseTree)
  : T unit :=
  acceptOpt accept (getTypedRuleContext isRealContext 0 ctx) ;;
  r <- getResult ;;
  setResult (JsNew "Complex" [r] None).

(* variableReal: FLOAT *)
Definition visitVariableReal (ctx : ParseTree) : T unit :=
  s <- tokenText FLOAT ctx ;;
  setResult (JsString s).

(** [ctx.accept(visitor)] *)
Definition dispatch (accept : ParseTree -> T unit) (ctx : ParseTree) : T unit :=
  match ctx with
  | TerminalNode _ => tret tt
  | RuleNode c _ _ =>
      match c with
      (* anyAny: 'any' *)
      | AnyAnyContext => setResult (JsStatic "Any.ANY" None)
      (* noneAny: 'none' *)
      | NoneAnyContext => setResult (JsStatic "Any.NONE" None)
      (* inlineArray, newlineArray, emptyArray: delegate to abstract type *)
      | InlineArrayContext | NewlineArrayContext | EmptyArrayContext =>
          visitArray accept ctx
      (* inlineTable, newlineTable: delegate to abstract type *)
      | InlineTableContext | NewlineTableContext => visitTable accept ctx
      (* emptyTable: ':' *)
      | EmptyTableContext =>
          consoleLog "visitEmptyTable" ;; visitTable accept ctx
      | AssociationContext => visitAssociation accept ctx
      | KeyContext => visitKey accept ctx
      (* value: expression *)
      | ValueContext =>
          acceptOpt accept (getTypedRuleContext isExpressionContext 0 ctx)
      | RangeContext => visitRange accept ctx
      (* binary: BINARY *)
      | BinaryContext => visitToken "Binary" BINARY ctx
      (* blockText: TEXT_BLOCK *)
      | BlockTextContext => visitToken "Text" TEXT_BLOCK ctx
      (* inlineText: TEXT *)
      | InlineTextContext => visitToken "Text" TEXT ctx
      | ComplexNumberContext => visitComplexNumber accept ctx
      | ImaginaryNumberContext => visitImaginaryNumber accept ctx
      | RealNumberContext => visitRealNumber accept ctx
      (* infiniteNumber: 'infinity' *)
      | InfiniteNumberContext => setResult (JsStatic "Complex.INFINITY" None)
      (* undefinedNumber: 'undefined' *)
      | UndefinedNumberContext => setResult (JsStatic "Complex.UNDEFINED" None)
      | ConstantRealContext => visitConstantReal ctx
      | VariableRealContext => visitVariableReal ctx
      | ImaginaryContext => visitImaginary accept ctx
      | PercentContext => visitPercent accept ctx
      (* moment: MOMENT *)
      | MomentContext => visitToken "Moment" MOMENT ctx
      (* reference: RESOURCE *)
      | ReferenceContext => visitToken "Reference" RESOURCE ctx
      (* symbol: SYMBOL *)
      | SymbolContext => visitToken "Symbol" SYMBOL ctx
      (* tag: TAG *)
      | TagContext => visitToken "Tag" TAG ctx
      (* version: VERSION *)
      | VersionContext => visitToken "Version" VERSION ctx
      (* trueProbability: 'true' *)
      | TrueProbabilityContext => setResult (JsStatic "Probability.TRUE" None)
      (* falseProbability: 'false' *)
      | FalseProbabilityContext => setResult (JsStatic "Probability.FALSE" None)
      (* fractionalProbability: FRACTION *)
      | FractionalProbabilityContext => visitToken "Probability" FRACTION ctx
      | DocumentContext => visitDocument accept ctx
      (* literal, element, composite: delegate to concrete type *)
      | LiteralContext | ElementContext | CompositeContext =>
          visitChildren accept ctx
      (* structure: '[' composite ']' and parameters: '(' composite ')' *)
      | StructureContext | ParametersContext =>
          acceptOpt accept (ruleChild CompositeContext ctx)
      (* documentExpression: document *)
      | DocumentExpressionContext =>
          acceptOpt accept (ruleChild DocumentContext ctx)
      | ArithmeticExpressionContext | ComparisonExpressionContext
      | ComplementExpressionContext | ComponentExpressionContext
      | DefaultExpressionContext | DereferenceExpressionContext
      | ExponentialExpressionContext | FactorialExpressionContext
      | FunctionExpressionContext | InversionExpressionContext
      | LogicalExpressionContext | MagnitudeExpressionContext
      | MessageExpressionContext | PrecedenceExpressionContext
      | VariableExpressionContext | IndicesContext =>
          tthrow EXPRESSIONS_ERROR
      | BlockContext
      | AssigneeContext | BreakFromContext | CheckoutDocumentContext
      | CommitDraftContext | ComponentContext | ConditionContext
      | ContinueToContext | DiscardDraftContext | DraftContext
      | EmptyStatementsContext | EvaluateExpressionContext | EventContext
      | XceptionContext | ExceptionClauseContext | FinalClauseContext
      | IfThenContext | InlineStatementsContext | LabelContext
      | LocationContext | MainClauseContext | MessageContext
      | NewlineStatementsContext | OptionContext | PublishEventContext
      | QueueContext | QueueMessageContext | ResultContext
      | ReturnResultContext | SaveDraftContext | ScriptContext
      | SelectFromContext | SelectionContext | SequenceContext
      | StatementContext | TemplateContext | ThrowExceptionContext
      | VariableContext | WaitForMessageContext | WhileLoopContext
      | WithLoopContext =>
          tthrow STATEMENTS_ERROR
      end
  end.

Fixpoint accept (fuel : nat) (ctx : ParseTree) {struct fuel} : T unit :=
  match fuel with
  | O => fun _ => TOutOfFuel
  | S fuel' => dispatch (accept fuel') ctx
  end.

(** How a transformation ends. *)
Inductive Outcome : Type :=
| Returned (object : JsValue)
| Threw (message : string)
| Unfinished.

(** [ParseTreeToObject.prototype.generateJavaScriptObject] *)
Definition generateJavaScriptObject (parseTree : ParseTree) : Outcome :=
  let visitor := mkVisitor JsUndefined [] in
  match accept (S (height parseTree)) parseTree visitor with
  | TOk _ v => Returned (result v)
  | TThrow message => Threw message
  | TOutOfFuel => Unfinished
  end.

(** ** Parse trees of this grammar for some sources *)

Definition terminal (ttype : Z) (text : string) : ParseTree :=
  TerminalNode (mkToken ttype text).

(** An element as a document: [document: literal], [literal: element]. *)
Definition elementDocument (e : ParseTree) : ParseTree :=
  RuleNode DocumentContext []
    [RuleNode LiteralContext [] [RuleNode ElementContext [] [e]]].

(** A real number written as a FLOAT token. *)
Definition floatNumber (text : string) : ParseTree :=
  RuleNode RealNumberContext []
    [RuleNode VariableRealContext [] [terminal FLOAT text]].

(** An item of an array: [value: expression], here a document. *)
Definition valueOf (document : ParseTree) : ParseTree :=
  RuleNode ValueContext [] [RuleNode DocumentExpressionContext [] [document]].

(** A structure as a document: [document: literal],
    [literal: structure], [structure: '[' composite ']']. *)
Definition structureDocument (composite : ParseTree) : ParseTree :=
  RuleNode DocumentContext []
    [RuleNode LiteralContext []
       [RuleNode StructureContext []
          [terminal T__0 "["; RuleNode CompositeContext [] [composite];
           terminal T__1 "]"]]].

(** The parse tree of the source [5]. *)
Definition tree_5 : ParseTree := elementDocument (floatNumber "5").

(** The parse tree of the source [[1,2,3]]. *)
Definition tree_1_2_3 : ParseTree :=
  structureDocument
    (RuleNode InlineArrayContext []
       [valueOf (elementDocument (floatNumber "1")); terminal T__5 ",";
        valueOf (elementDocument (floatNumber "2")); terminal T__5 ",";
        valueOf (elementDocument (floatNumber "3"))]).

(** The parse tree of a block, [block: '{' statements '}'], as a
    document: [literal: block]. *)
Definition blockDocument (statements : ParseTree) : ParseTree :=
  RuleNode DocumentContext []
    [RuleNode LiteralContext []
       [RuleNode BlockContext []
          [terminal T__7 "{"; statements; terminal T__8 "}"]]].

End ParseTreeToObject.

(* ================================================================== *)
(** * The Version element *)
(* ================================================================== *)

Module Elements.

Local Open Scope Z_scope.
Local Open Scope string_scope.

(** The attributes of the exception the constructor throws. *)
Record Exception : Type := mkException {
  module_ : string;
  procedure_ : string;
  exception_ : string;
  parameter_ : list Z;
  text_ : string
}.

(** A version element: [getValue()] returns a copy of its levels. *)
Record Version : Type := mkVersion { getValue : list Z }.

(** [value.indexOf(0) >= 0] *)
Definition hasZero (value : list Z) : bool := existsb (Z.eqb 0) value.

(** [const Version = function(value, parameters, debug)]:
    [value = value || [1]], then an array holding a zero level is
    refused. *)
Definition newVersion (value : option (list Z)) : Version + Exception :=
  let value := match value with Some v => v | None => [1] end in
  if hasZero value then
    inr (mkException "/bali/elements/Version" "$version" "$invalidParameter"
                     value
                     "An invalid version value was passed to the constructor.")
  else inl (mkVersion value).

(** [Version.prototype.getSize] *)
Definition getSize (v : Version) : nat := List.length (getValue v).

(** ** The methods of a version

    Levels and the [level] argument are taken to be integers, the only
    numbers the notation writes in a version. *)

Local Open Scope Z_scope.

(** The loop of [Version.prototype.comparedTo], begun at some index: the
    two lists are the levels from that index on. *)
Fixpoint compareLevels (thisLevels thatLevels : list Z) : Z :=
  match thisLevels, thatLevels with
  | x :: thisRest, y :: thatRest =>
      if x <? y then -1
      else if x >? y then 1
      else compareLevels thisRest thatRest
  | [], _ :: _ => -1  (* thisLevels.length < thatLevels.length *)
  | _ :: _, [] => 1   (* thisLevels.length > thatLevels.length *)
  | [], [] => 0
  end.

(** [Version.prototype.comparedTo], for [that] undefined or a version. *)
Definition comparedTo (this : Version) (that : option Version) : Z :=
  match that with
  | None => 1  (* anything is greater than nothing *)
  | Some that => compareLevels (getValue this) (getValue that)
  end.

(** [Version.prototype.isEmpty] and [Version.prototype.toBoolean] *)
Definition isEmpty (v : Version) : bool := false.
Definition toBoolean (v : Version) : bool := true.

(** [levels[index]++] on an array of numbers: an index outside the array
    changes none of its elements (a negative one sets a property that is
    not an element; the caller has excluded those at or past the end). *)
Fixpoint incrementAt (index : nat) (levels : list Z) : list Z :=
  match levels, index with
  | [], _ => []
  | x :: rest, O => (x + 1) :: rest
  | x :: rest, S index' => x :: incrementAt index' rest
  end.

Definition increment (index : Z) (levels : list Z) : list Z :=
  if index <? 0 then levels else incrementAt (Z.to_nat index) levels.

(** [levels.splice(start)]: everything from [start] on is removed; a
    negative [start] counts from the end. *)
Definition splice (start : Z) (levels : list Z) : list Z :=
  let len := Z.of_nat (List.length levels) in
  let actual := if start <? 0 then Z.max (len + start) 0 else Z.min start len in
  firstn (Z.to_nat actual) levels.

(** The levels that [Version.prototype.nextVersion] hands to the
    constructor; [level] is [None] for a call without argument. *)
Definition nextLevels (levels : list Z) (level : option Z) : list Z :=
  let len := Z.of_nat (List.length levels) in
  let index :=
    match level with
    | Some l => if l =? 0 then len - 1 else l - 1  (* level ? level - 1 : ... *)
    | None => len - 1
    end in
  if index <? len
  then splice (index + 1) (increment index levels)
  else (levels ++ [1])%list.

(** [Version.prototype.nextVersion] *)
Definition nextVersion (this : Version) (level : option Z)
  : Version + Exception :=
  newVersion (Some (nextLevels (getValue this) level)).

(** The loop of [Version.prototype.validNextVersion], begun at some
    index: the two lists are the levels from that index on, so
    [nextLevels.length === index + 1] says that one level is left. *)
Fixpoint validNextLevels (currentLevels nextLevels : list Z) : bool :=
  match currentLevels, nextLevels with
  | currentLevel :: currentRest, nextLevel :: nextRest =>
      if currentLevel =? nextLevel
      then validNextLevels currentRest nextRest
      else (nextLevel =? currentLevel + 1)
           && (Nat.eqb (List.length nextRest) 0)
  | _, _ =>
      (* nextLevels.length === index + 1 && nextLevels[index] === 1 *)
      match nextLevels with
      | [nextLevel] => nextLevel =? 1
      | _ => false
      end
  end.

(** [Version.prototype.validNextVersion] *)
Definition validNextVersion (this nextVersion : Version) : bool :=
  validNextLevels (getValue this) (getValue nextVersion).

(** ** [VersionIterator]: the levels and the slot in front of the next
    one; [toSlot] accepts any number. *)
Record VersionIterator : Type :=
  mkIterator { iteratorLevels : list Z; slot : Z }.

Definition getIterator (this : Version) : VersionIterator :=
  mkIterator (getValue this) 0.

Definition iteratorSize (i : VersionIterator) : Z :=
  Z.of_nat (List.length (iteratorLevels i)).

Definition toStart (i : VersionIterator) : VersionIterator :=
  mkIterator (iteratorLevels i) 0.

Definition toSlot (i : VersionIterator) (newSlot : Z) : VersionIterator :=
  mkIterator (iteratorLevels i) newSlot.

Definition toEnd (i : VersionIterator) : VersionIterator :=
  mkIterator (iteratorLevels i) (iteratorSize i).

Definition hasPrevious (i : VersionIterator) : bool := 0 <? slot i.

Definition hasNext (i : VersionIterator) : bool := slot i <? iteratorSize i.

(** [levels[k]]: [undefined] outside the array. *)
Definition levelAt (levels : list Z) (k : Z) : option Z :=
  if k <? 0 then None else nth_error levels (Z.to_nat k).

(** [getPrevious]: [levels[--slot]], or [undefined] at the start. *)
Definition getPrevious (i : VersionIterator) : option Z * VersionIterator :=
  if hasPrevious i
  then (levelAt (iteratorLevels i) (slot i - 1),
        mkIterator (iteratorLevels i) (slot i - 1))
  else (None, i).

(** [getNext]: [levels[slot++]], or [undefined] at the end. *)
Definition getNext (i : VersionIterator) : option Z * VersionIterator :=
  if hasNext i
  then (levelAt (iteratorLevels i) (slot i),
        mkIterator (iteratorLevels i) (slot i + 1))
  else (None, i).

(** [while (iterator.hasNext()) { ... iterator.getNext() ... }], the way
    the callers of an iterator walk it, collecting what [getNext]
    returns; the walk is over after as many turns as there are levels. *)
Fixpoint collectNext (turns : nat) (i : VersionIterator)
  : list (option Z) * VersionIterator :=
  match turns with
  | O => ([], i)
  | S turns' =>
      if hasNext i
      then let (x, i') := getNext i in
           let (xs, i'') := collectNext turns' i' in
           (x :: xs, i'')
      else ([], i)
  end.


End Elements.

(** * Collections ([src/abstractions/Collection.js])

    The abstract collection leaves the items to its subclass: it reaches
    them through [this.getIterator()] only.  The iterator is rendered by
    the list of the items it returns, from its first [getNext] to the one
    after which [hasNext] is false; [isEqualTo] is the comparison of the
    candidates, whatever the items are; [validateType] is taken to
    return. *)
Module Collection.

Section Items.

Variable Item : Type.
Variable isEqualTo : Item -> Item -> bool.

(** The loop of [Collection.prototype.getIndex]: [index] counts the
    candidates seen so far. *)
Fixpoint getIndexFrom (index : nat) (candidates : list Item) (item : Item)
  : nat :=
  match candidates with
  | [] => 0  (* not found *)
  | candidate :: rest =>
      let index := S index in
      if isEqualTo candidate item then index
      else getIndexFrom index rest item
  end.

(** [Collection.prototype.getIndex] *)
Definition getIndex (this : list Item) (item : Item) : nat :=
  getIndexFrom 0 this item.

(** [Collection.prototype.containsItem] *)
Definition containsItem (this : list Item) (item : Item) : bool :=
  Nat.ltb 0 (getIndex this item).

(** The [items] argument of [containsAny] and [containsAll]: an array,
    an object with a [getIterator] (given by what its iterator returns),
    or anything else, [undefined] included. *)
Inductive Items : Type :=
| ArrayOf (items : list Item)
| SequentialOf (items : list Item)
| Neither.

(** [items.forEach(function(item) { result = this.containsItem(item);
    if (result) return; }, this)]: the [return] leaves the callback, not
    the loop, so every item is visited and the last assignment stays. *)
Fixpoint forEachContains (this items : list Item) (result : bool) : bool :=
  match items with
  | [] => result
  | item :: rest => forEachContains this rest (containsItem this item)
  end.

(** [while (iterator.hasNext()) { ...; result = this.containsItem(item);
    if (result) break; }] *)
Fixpoint whileAny (this items : list Item) (result : bool) : bool :=
  match items with
  | [] => result
  | item :: rest =>
      let result := containsItem this item in
      if result then result else whileAny this rest result
  end.

(** [... if (!result) break; }] *)
Fixpoint whileAll (this items : list Item) (result : bool) : bool :=
  match items with
  | [] => result
  | item :: rest =>
      let result := containsItem this item in
      if negb result then result else whileAll this rest result
  end.

(** [Collection.prototype.containsAny] *)
Definition containsAny (this : list Item) (items : Items) : bool :=
  let result := false in
  match items with
  | ArrayOf items => forEachContains this items result
  | SequentialOf items => whileAny this items result
  | Neither => result
  end.

(** [Collection.prototype.containsAll]; the callback of its [forEach]
    differs from the one of [containsAny] in the test before [return]
    only, which changes nothing. *)
Definition containsAll (this : list Item) (items : Items) : bool :=
  let result := false in
  match items with
  | ArrayOf items => forEachContains this items result
  | SequentialOf items => whileAll this items result
  | Neither => result
  end.

End Items.

End Collection.

(** * Queues ([src/collections/Queue.js])

    [Composite.asComponent] and the [complexity] of a component are not
    part of the file: [asComponent] is taken to return, and complexities
    to be integers.  [base] is the complexity that the constructor of
    [Collection] leaves. *)
Module Queue.

Local Open Scope Z_scope.
Local Open Scope string_scope.

Section Components.

Variable Item : Type.
Variable Component : Type.
Variable asComponent : Item -> Component.
Variable complexityOf : Component -> Z.

(** The fields of a queue that the file reads and writes. *)
Record Queue : Type := mkQueue {
  capacity : Z;
  array : list Component;
  complexity : Z
}.

(** [function Queue(parameters)] *)
Definition newQueue (base : Z) : Queue :=
  mkQueue 1024 [] (base + 2).

(** [Queue.prototype.getSize] *)
Definition getSize (q : Queue) : Z := Z.of_nat (List.length (array q)).

(** [Queue.prototype.toArray] *)
Definition toArray (q : Queue) : list Component := array q.

(** [Queue.prototype.addItem]: the new state, or the message of the
    [Error] thrown. *)
Definition addItem (q : Queue) (item : Item) : Queue + string :=
  let item := asComponent item in
  if (Z.of_nat (List.length (array q)) <? capacity q)%Z then
    let q := mkQueue (capacity q) (array q ++ [item])
                     (complexity q + complexityOf item) in
    inl (if (getSize q >? 1)%Z
         then mkQueue (capacity q) (array q) (complexity q + 2)
         else q)
  else inr "QUEUE: Attempted to add an item to a full queue.".

(** [Queue.prototype.removeItem] *)
Definition removeItem (q : Queue) : (Component * Queue) + string :=
  match array q with
  | item :: rest =>  (* size > 0; splice(0, 1)[0] *)
      let q := mkQueue (capacity q) rest (complexity q - complexityOf item) in
      inl (item, if (getSize q >? 0)%Z
                 then mkQueue (capacity q) (array q) (complexity q - 2)
                 else q)
  | [] => inr "QUEUE: Attempted to remove an item from an empty queue."
  end.

(** [Queue.prototype.firstItem] *)
Definition firstItem (q : Queue) : Component + string :=
  match array q with
  | item :: _ => inl item
  | [] => inr "QUEUE: Attempted to access the first item in an empty queue."
  end.

(** [Queue.prototype.removeAll]; [this.array.splice(0)] removes every
    item. *)
Definition removeAll (q : Queue) : Queue :=
  let size := getSize q in
  let q := if (size >? 1)%Z
           then mkQueue (capacity q) (array q) (complexity q - (size - 1) * 2)
           else q in
  mkQueue (capacity q) [] (complexity q).

(** The argument of [Queue.fromCollection], by the name of its
    constructor: an array; a list, queue or set, given by what its
    iterator returns from the start; a stack, given by what its iterator
    returns from the end backwards; or anything else. *)
Inductive Seed : Type :=
| SeedArray (items : list Item)
| SeedForward (items : list Item)
| SeedStack (itemsFromEnd : list Item)
| SeedOther (type : string).

(** The three loops of [fromCollection] call [queue.addItem] on one item
    after the other; the exception of a call ends the loop. *)
Fixpoint addEach (q : Queue) (items : list Item) : Queue + string :=
  match items with
  | [] => inl q
  | item :: rest =>
      match addItem q item with
      | inl q => addEach q rest
      | inr e => inr e
      end
  end.

(** [Queue.fromCollection] *)
Definition fromCollection (base : Z) (collection : Seed) : Queue + string :=
  let queue := newQueue base in
  match collection with
  | SeedArray items => addEach queue items
  | SeedForward items => addEach queue items
  | SeedStack items => addEach queue items
  | SeedOther type =>
      inr ("QUEUE: A queue cannot be initialized using a collection of type: "
           ++ type)
  end.

(** A client that calls [removeItem] a number of times, keeping what the
    calls return. *)
Fixpoint removeItems (count : nat) (q : Queue)
  : (list Component * Queue) + string :=
  match count with
  | O => inl ([], q)
  | S count' =>
      match removeItem q with
      | inl (item, q) =>
          match removeItems count' q with
          | inl (items, q) => inl (item :: items, q)
          | inr e => inr e
          end
      | inr e => inr e
      end
  end.

(** What [complexity] accounts for: the two delimiters, every item, and
    a separator between two items. *)
Definition accounted (base : Z) (q : Queue) : Z :=
  base + 2
  + fold_right Z.add 0 (map complexityOf (array q))
  + 2 * Z.max (getSize q - 1) 0.

End Components.

End Queue.

(* ================================================================== *)
(** * Notions used to state properties of the parser *)
(* ================================================================== *)

Module TokenShapes.

(** The digits ['0'..'9'] and ['1'..'9']. *)
Definition isDigit (c : ascii) : Prop := Regex.in_range "0" "9" c = true.
Definition isNonzeroDigit (c : ascii) : Prop := Regex.in_range "1" "9" c = true.

(** A run of digits, possibly empty. *)
Definition digits (w : list ascii) : Prop := Forall isDigit w.

(** A natural number as written: a nonzero digit, then digits. *)
Definition natural (w : list ascii) : Prop :=
  exists d ds, w = d :: ds /\ isNonzeroDigit d /\ digits ds.

(** A fraction as written: a dot, digits, and a last digit that is not
    zero. *)
Definition fraction (w : list ascii) : Prop :=
  exists ds d, w = "."%char :: ds ++ [d] /\ digits ds /\ isNonzeroDigit d.

(** The levels of a version after the first, each behind its dot. *)
Definition dotted (levels : list (list ascii)) : list ascii :=
  List.concat (map (fun level => "."%char :: level) levels).

(** The value of a version: a natural number, and further natural
    numbers each behind a dot. *)
Definition versionValue (w : list ascii) : Prop :=
  exists level levels,
    w = level ++ dotted levels /\ natural level /\ Forall natural levels.

(** A version as written: the letter v, then its value. *)
Definition version (w : list ascii) : Prop :=
  exists value, w = "v"%char :: value /\ versionValue value.

(** The text of the token for a version value. *)
Definition versionLiteral (value : string) : string := String "v" value.

End TokenShapes.

Module TreeShapes.
Import ParseTrees Recognizer BaliLanguageParser Parser.


(** The parse tree that a rule function returns for a source, before the
    visitor converts it. *)
Definition parseTree (rule : RuleIndex) (source : string) : option ParseTree :=
  match parse (fuelFor source) rule 0 (initializeParser source false) with
  | Ok antlrTree _ => Some antlrTree
  | _ => None
  end.

End TreeShapes.

Module Examples.
Import Nodes.

Local Open Scope Z_scope.

(** A component holding one number. *)
Definition numberComponent (text : string) : Node :=
  Tree COMPONENT 1 None [Terminal NUMBER text 1].




(** The value of a document that is one terminal element. *)
Definition elementValue (type : NodeType) (text : string) : Value :=
  let size := Z.of_nat (String.length text) in
  VDocument
    (mkDocument None (Tree COMPONENT size None [Terminal type text size]) []).



End Examples.

Module Fuel.
Import Tokens ParseTrees Recognizer BaliLanguageParser.

(** The number of tokens not yet consumed. *)
Definition remaining (s : State) : nat := List.length (input s).

(** How many rule functions can be entered, from a rule, before a token
    is consumed: a rule calls a rule of lower rank, or has matched a
    token first. *)
Definition rank (r : RuleIndex) : nat :=
  match r with
  | RULE_procedure => 5
  | RULE_composite | RULE_statement => 4
  | RULE_range | RULE_array | RULE_evaluateClause => 3
  | RULE_document | RULE_expression | RULE_table => 2
  | RULE_component | RULE_association => 1
  | _ => 0
  end.

(** The rules that cannot succeed without consuming a token: all but
    those with an empty alternative. *)
Definition nonempty (r : RuleIndex) : bool :=
  match r with
  | RULE_composite | RULE_array | RULE_procedure => false
  | _ => true
  end.

Definition consumed (r : RuleIndex) : nat := if nonempty r then 1 else 0.

(** Fuel that one token can cost. *)
Definition perToken : nat := 6.

(** A computation started with at most [L] tokens left (fewer than [L]
    when [strict]) does not run out of fuel, and when it returns it has
    consumed at least [k] tokens. *)
Definition Advances {A : Type} (L : nat) (strict : bool) (k : nat) (m : M A)
  : Prop :=
  forall s,
    (if strict then remaining s < L else remaining s <= L) ->
    match m s with
    | Ok _ s' => remaining s' + k <= remaining s
    | Raise _ _ => True
    | OutOfFuel => False
    end.

(** The fuel [fuel] is enough for every call of [rec] whose rule and
    remaining tokens it covers. *)
Definition Sufficient (rec : Rec) (fuel : nat) : Prop :=
  forall r p s,
    rank r + perToken * remaining s < fuel ->
    match rec r p s with
    | Ok _ s' => remaining s' + consumed r <= remaining s
    | Raise _ _ => True
    | OutOfFuel => False
    end.

(** What [match] and the test of a token set have in common. *)
Definition matchIf (test : Token -> bool) (expected : list Z) : M ParseTree :=
  bind getCurrentToken (fun t =>
    if test t
    then bind reportMatch (fun _ => bind consume (fun _ => ret (TerminalNode t)))
    else recoverInline expected).


(** A step of the visitor that does not run out of fuel. *)
Definition Finishes {A : Type} (m : ParsingVisitor.V A) : Prop :=
  forall v, m v <> ParsingVisitor.VOutOfFuel.

(** Trees, optional trees and lists of trees of height at most [h]. *)
Definition Low (h : nat) (t : ParseTree) : Prop := height t <= h.

Definition OptLow (h : nat) (x : option ParseTree) : Prop :=
  forall t, x = Some t -> Low h t.

Definition AllLow (h : nat) (xs : list ParseTree) : Prop := Forall (Low h) xs.

End Fuel.

(** * What a parse tree covers

    The vocabulary of the statement that a rule function puts every token
    it consumes into the tree it returns. *)
Module Yield.
Import Tokens ParseTrees Recognizer.

Local Open Scope Z_scope.

(** The tokens at the terminal nodes of a tree, from left to right,
    without the end-of-file token (which is matched but never consumed). *)
Fixpoint leaves (t : ParseTree) : list Token :=
  match t with
  | TerminalNode k => if Z.eqb (ttype k) EOF then [] else [k]
  | RuleNode _ _ cs => flat_map leaves cs
  end.

(** No token of the stream has the type of the end of file; the lexer
    emits none. *)
Definition noEOF (ts : list Token) : Prop :=
  Forall (fun t => ttype t <> EOF) ts.

(** A computation that returns without consuming a token; no
    computation of the recognizer changes the failure that awaits it at
    the end of the tokens. *)
Definition Silent {A : Type} (m : M A) : Prop :=
  forall s a s', m s = Ok a s' ->
    input s' = input s /\ lexFailure s' = lexFailure s.

(** When the computation returns [a], the tokens [yield a] are the
    tokens [pre] followed by the ones it consumed, and the stream is
    still without an end-of-file token. *)
Definition Tracks {A : Type} (yield : A -> list Token) (pre : list Token)
           (m : M A) : Prop :=
  forall s a s', noEOF (input s) -> m s = Ok a s' ->
    (yield a ++ input s' = pre ++ input s)%list /\ noEOF (input s')
    /\ lexFailure s' = lexFailure s.

End Yield.

(** * What the tokens of a source cover *)
Module Layout.
Import Tokens Lexer.

(** The characters [w] are the texts of the tokens [ts], in order, with
    white space (the SPACE tokens, which go to the hidden channel)
    before, between and after them, and nothing else. *)
Inductive Covers : list ascii -> list Token -> Prop :=
| Covers_nil : Covers [] []
| Covers_space : forall c w ts,
    isSpace c = true -> Covers w ts -> Covers (c :: w) ts
| Covers_token : forall t w ts,
    Covers w ts ->
    Covers (list_ascii_of_string (text t) ++ w) (t :: ts).

End Layout.

(** * Precedence in the trees of expressions

    The vocabulary of the statement that the tree of an expression groups
    its operators by the precedence levels of the generated parser. *)
Module Precedence.
Import Tokens ParseTrees Recognizer BaliLanguageParser.

Local Open Scope Z_scope.

(** The level of the contexts made in the loop of [expression]: the
    number in the [precpred(this._ctx, n)] of their alternative. *)
Definition levelOf (c : Context) : option Z :=
  match c with
  | MessageExpressionContext => Some 11
  | SubcomponentExpressionContext => Some 10
  | FactorialExpressionContext => Some 9
  | ExponentialExpressionContext => Some 8
  | ArithmeticExpressionContext => Some 6
  | ComparisonExpressionContext => Some 4
  | LogicalExpressionContext => Some 2
  | DefaultExpressionContext => Some 1
  | _ => None
  end.

(** The precedence [expression(n)] with which the operand to the right
    of the operator of a context is parsed. *)
Definition operandLevel (c : Context) : option Z :=
  match c with
  | DereferenceExpressionContext => Some 12
  | ExponentialExpressionContext => Some 8
  | InversionExpressionContext => Some 7
  | ArithmeticExpressionContext => Some 7
  | ComparisonExpressionContext => Some 5
  | ComplementExpressionContext => Some 3
  | LogicalExpressionContext => Some 3
  | DefaultExpressionContext => Some 2
  | _ => None
  end.

Definition rootLevel (t : ParseTree) : option Z :=
  match t with
  | RuleNode c _ _ => levelOf c
  | TerminalNode _ => None
  end.

(** The operator at the root of [t], if the loop made one, has at least
    the level [p]. *)
Definition bindsAt (p : Z) (t : ParseTree) : bool :=
  match rootLevel t with
  | Some k => p <=? k
  | None => true
  end.

(** The levels an operator must stay below to take [t] as its left
    operand: the precedence of the last operand of [t], which has taken
    every operator from that level on; any level when [t] does not end
    in an operand. *)
Definition closes (t : ParseTree) : Z :=
  match t with
  | RuleNode c _ _ =>
      match operandLevel c with
      | Some q => q
      | None => 13
      end
  | TerminalNode _ => 13
  end.

(** The operands of one node are grouped by precedence. *)
Definition grouped (c : Context) (cs : list ParseTree) : bool :=
  match levelOf c, operandLevel c, cs with
  | Some k, Some q, [l; _; r] => (k <? closes l) && bindsAt q r
  | Some k, None, l :: _ => k <? closes l
  | None, Some q, [_; r] => bindsAt q r
  | None, None, _ => true
  | _, _, _ => false
  end.

(** Every node of the tree is grouped by precedence. *)
Fixpoint respects (t : ParseTree) : bool :=
  match t with
  | TerminalNode _ => true
  | RuleNode c _ cs => grouped c cs && forallb respects cs
  end.

(** The level of the operator that the next token is, if it is one. *)
Definition nextLevel (s : State) : option Z :=
  match input s with
  | t :: _ => operatorLevel (ttype t)
  | [] => None
  end.

(** The next token is no operator of level [q] or more. *)
Definition stops (q : Z) (s : State) : Prop :=
  match nextLevel s with
  | Some k => k < q
  | None => True
  end.

(** A computation whose results all have a property. *)
Definition Makes {A : Type} (P : A -> Prop) (m : M A) : Prop :=
  forall s a s', m s = Ok a s' -> P a.

(** What a call of a rule function returns: a tree grouped by
    precedence and, from [expression(p)], one whose root binds at [p],
    with no operator of level [p] or more coming next. *)
Definition Grouped (r : RuleIndex) (p : Z) (m : M ParseTree) : Prop :=
  forall s t s', m s = Ok t s' ->
    respects t = true
    /\ (r = RULE_expression -> bindsAt p t = true /\ stops p s').

End Precedence.

(** * The labelled fields of the contexts *)
Module Labels.
Import Tokens ParseTrees.

(** The labelled fields that a context with these children has: [op],
    [del] and [sign] hold the token of the terminal child they name; a
    context whose rule has such a label of an operator or a delimiter
    has no other form. *)
Definition labelsOf (c : Context) (cs : list ParseTree)
  : option (list (string * Token)) :=
  match c with
  | ArithmeticExpressionContext | ComparisonExpressionContext
  | LogicalExpressionContext =>
      match cs with
      | [_; TerminalNode k; _] => Some [("op", k)]
      | _ => None
      end
  | InversionExpressionContext =>
      match cs with
      | [TerminalNode k; _] => Some [("op", k)]
      | _ => None
      end
  | ComplexNumberContext =>
      match cs with
      | [_; _; TerminalNode k; _; _] => Some [("del", k)]
      | _ => None
      end
  | ConstantRealContext | ImaginaryContext =>
      match cs with
      | [TerminalNode k; _] => Some [("sign", k)]
      | _ => Some []
      end
  | _ => Some []
  end.

(** Every context of the tree has the fields of its children. *)
Fixpoint labelled (t : ParseTree) : Prop :=
  match t with
  | TerminalNode _ => True
  | RuleNode c fs cs =>
      labelsOf c cs = Some fs
      /\ fold_right (fun x rest => labelled x /\ rest) True cs
  end.

Definition allLabelled (ts : list ParseTree) : Prop :=
  fold_right (fun x rest => labelled x /\ rest) True ts.

(** What [match] returns: the node of a token. *)
Definition terminal (t : ParseTree) : Prop := exists k, t = TerminalNode k.

End Labels.

Module Coherence.
Import Tokens Recognizer.

(** Two recognizers stand at the same place of the same token stream;
    they may differ in [debug], [errorRecoveryMode] and [console]. *)
Definition sim (s1 s2 : State) : Prop :=
  input s1 = input s2 /\ lexFailure s1 = lexFailure s2.

(** Nothing has been reported yet. *)
Definition quiet (s : State) : Prop := console s = [].

(** The two messages with which a parse is abandoned. *)
Definition abortMessage (message : string) : Prop :=
  message = LEXER_ABORT \/ message = PARSER_ABORT.

(** From [s] to the failure [s']: at most one report was printed, and
    none without [debug]. *)
Definition failFast (s s' : State) : Prop :=
  List.length (console s') <= 1 /\ (debug s = false -> console s' = []).

(** A computation of the recognizer behaves the same from two similar
    quiet states: the same value and similar quiet states afterwards, or
    the same exception.  A plain [Error] is one of the two abort
    messages, thrown after at most one report; a recognition exception
    leaves the recognizer quiet, and a [strict] computation (a whole rule
    function) lets none escape. *)
Definition Coherent {A : Type} (strict : bool) (m : M A) : Prop :=
  forall s1 s2, sim s1 s2 -> quiet s1 -> quiet s2 ->
    match m s1, m s2 with
    | Ok a1 t1, Ok a2 t2 =>
        a1 = a2 /\ sim t1 t2 /\ quiet t1 /\ quiet t2 /\
        debug t1 = debug s1 /\ debug t2 = debug s2
    | Raise (Error m1) t1, Raise (Error m2) t2 =>
        m1 = m2 /\ abortMessage m1 /\ failFast s1 t1 /\ failFast s2 t2
    | Raise (Recognition e1) t1, Raise (Recognition e2) t2 =>
        strict = false /\ e1 = e2 /\ sim t1 t2 /\ quiet t1 /\ quiet t2 /\
        debug t1 = debug s1 /\ debug t2 = debug s2
    | OutOfFuel, OutOfFuel => True
    | _, _ => False
    end.

End Coherence.

(* ================================================================== *)
(** * Properties of the regular-expression matcher *)
(* ================================================================== *)

Module RegexFacts.
Import Regex.

Lemma Lang_Void_inv : forall w, ~ Lang Void w.
Proof. intros w H; inversion H. Qed.

Lemma Lang_Eps_inv : forall w, Lang Eps w -> w = [].
Proof. intros w H; inversion H; reflexivity. Qed.

Lemma Lang_Chr_inv : forall c w, Lang (Chr c) w -> w = [c].
Proof. intros c w H; inversion H; reflexivity. Qed.

Lemma Lang_Rng_inv :
  forall lo hi w, Lang (Rng lo hi) w -> exists c, w = [c] /\ in_range lo hi c = true.
Proof. intros lo hi w H; inversion H; subst; eauto. Qed.

Lemma Lang_Seq_inv :
  forall r s w, Lang (Seq r s) w ->
                exists u v, w = u ++ v /\ Lang r u /\ Lang s v.
Proof. intros r s w H; inversion H; subst; eauto. Qed.

Lemma Lang_Alt_inv : forall r s w, Lang (Alt r s) w -> Lang r w \/ Lang s w.
Proof. intros r s w H; inversion H; subst; auto. Qed.

Lemma nullable_spec : forall r, nullable r = true <-> Lang r [].
Proof.
  induction r; simpl.
  - split; intro H; [discriminate | inversion H].
  - split; intro H; [constructor | reflexivity].
  - split; intro H; [discriminate | inversion H].
  - split; intro H; [discriminate | inversion H].
  - split; intro H; [discriminate | inversion H].
  - split; intro H.
    + apply andb_true_iff in H as [H1 H2].
      change (@nil ascii) with (@nil ascii ++ []).
      constructor; [apply IHr1 | apply IHr2]; assumption.
    + apply Lang_Seq_inv in H as (u & v & E & Hu & Hv).
      symmetry in E; apply app_eq_nil in E as [-> ->].
      apply andb_true_iff; split; [apply IHr1 | apply IHr2]; assumption.
  - split; intro H.
    + apply orb_true_iff in H as [H | H].
      * apply L_AltL, IHr1, H.
      * apply L_AltR, IHr2, H.
    + apply orb_true_iff.
      apply Lang_Alt_inv in H as [H | H];
        [left; apply IHr1 | right; apply IHr2]; assumption.
  - split; intro H; [constructor | reflexivity].
Qed.

Lemma Lang_mkSeq : forall r s w, Lang (mkSeq r s) w <-> Lang (Seq r s) w.
Proof.
  intros r s w; split; intro H.
  - destruct r; destruct s; simpl in H;
      try solve [inversion H]; try exact H;
      try (change w with ([] ++ w); constructor; [constructor | exact H]).
  - apply Lang_Seq_inv in H as (u & v & -> & Hu & Hv).
    destruct r; destruct s; simpl;
      try solve [inversion Hu]; try solve [inversion Hv];
      try (constructor; assumption);
      try (apply Lang_Eps_inv in Hu; subst; simpl; exact Hv).
Qed.

Lemma Lang_mkAlt : forall r s w, Lang (mkAlt r s) w <-> Lang (Alt r s) w.
Proof.
  intros r s w; split; intro H.
  - destruct r; destruct s; simpl in H; try exact H;
      try solve [inversion H];
      try solve [apply L_AltL; exact H];
      try solve [apply L_AltR; exact H].
  - apply Lang_Alt_inv in H as [H | H];
      destruct r; destruct s; simpl;
        try solve [inversion H]; try exact H;
        try solve [apply L_AltL; exact H];
        try solve [apply L_AltR; exact H].
Qed.

Lemma Lang_Star_cons :
  forall r c w, Lang (Star r) (c :: w) ->
                exists u v, w = u ++ v /\ Lang r (c :: u) /\ Lang (Star r) v.
Proof.
  intros r c w H.
  remember (Star r) as sr eqn:E; remember (c :: w) as cw eqn:Ew.
  revert c w Ew.
  induction H; intros c' w' Ew; try discriminate.
  inversion E; subst r0.
  destruct u as [|a u].
  - simpl in Ew. apply IHLang2; auto.
  - simpl in Ew. inversion Ew; subst. exists u, v. auto.
Qed.

Lemma deriv_spec : forall r c w, Lang (deriv c r) w <-> Lang r (c :: w).
Proof.
  induction r; intros c w; simpl.
  - split; intro H; inversion H.
  - split; intro H; inversion H.
  - destruct (Ascii.eqb c a) eqn:E.
    + apply Ascii.eqb_eq in E; subst. split; intro H.
      * apply Lang_Eps_inv in H; subst; constructor.
      * apply Lang_Chr_inv in H. inversion H; constructor.
    + split; intro H; [inversion H|].
      apply Lang_Chr_inv in H. inversion H; subst.
      rewrite Ascii.eqb_refl in E; discriminate.
  - destruct (in_range a a0 c) eqn:E.
    + split; intro H.
      * apply Lang_Eps_inv in H; subst; constructor; exact E.
      * apply Lang_Rng_inv in H as (d & Hd & _). inversion Hd; constructor.
    + split; intro H; [inversion H|].
      apply Lang_Rng_inv in H as (d & Hd & Hr). inversion Hd; subst.
      congruence.
  - split; intro H.
    + apply Lang_Eps_inv in H; subst; constructor.
    + inversion H; constructor.
  - destruct (nullable r1) eqn:N.
    + rewrite Lang_mkAlt. split; intro H.
      * apply Lang_Alt_inv in H as [H | H].
        -- apply Lang_mkSeq, Lang_Seq_inv in H as (u & v & -> & Hu & Hv).
           change (c :: u ++ v) with ((c :: u) ++ v).
           constructor; [apply IHr1; exact Hu | exact Hv].
        -- change (c :: w) with ([] ++ c :: w).
           constructor; [apply nullable_spec; exact N | apply IHr2; exact H].
      * apply Lang_Seq_inv in H as (u & v & E & Hu & Hv).
        destruct u as [|a u]; simpl in E.
        -- subst v. apply L_AltR, IHr2, Hv.
        -- inversion E; subst. apply L_AltL, Lang_mkSeq.
           constructor; [apply IHr1; exact Hu | exact Hv].
    + rewrite Lang_mkSeq. split; intro H.
      * apply Lang_Seq_inv in H as (u & v & -> & Hu & Hv).
        change (c :: u ++ v) with ((c :: u) ++ v).
        constructor; [apply IHr1; exact Hu | exact Hv].
      * apply Lang_Seq_inv in H as (u & v & E & Hu & Hv).
        destruct u as [|a u]; simpl in E.
        -- apply nullable_spec in Hu. congruence.
        -- inversion E; subst.
           constructor; [apply IHr1; exact Hu | exact Hv].
  - rewrite Lang_mkAlt. split; intro H.
    + apply Lang_Alt_inv in H as [H | H];
        [apply L_AltL, IHr1 | apply L_AltR, IHr2]; exact H.
    + apply Lang_Alt_inv in H as [H | H];
        [apply L_AltL, IHr1 | apply L_AltR, IHr2]; exact H.
  - rewrite Lang_mkSeq. split; intro H.
    + apply Lang_Seq_inv in H as (u & v & -> & Hu & Hv).
      change (c :: u ++ v) with ((c :: u) ++ v).
      constructor; [apply IHr; exact Hu | exact Hv].
    + apply Lang_Star_cons in H as (u & v & -> & Hu & Hv).
      constructor; [apply IHr; exact Hu | exact Hv].
Qed.

(** The matcher decides the language of a rule. *)
Lemma matches_spec : forall w r, matches r w = true <-> Lang r w.
Proof.
  induction w as [|c w IH]; intro r; simpl.
  - apply nullable_spec.
  - rewrite IH. apply deriv_spec.
Qed.

(** A prefix reported by [longest] is a word of the rule. *)
Lemma longest_sound :
  forall w r n best m,
    longest r w n best = Some m ->
    best = Some m \/ (n <= m /\ Lang r (firstn (m - n) w)).
Proof.
  induction w as [|c w IH]; intros r n best m; simpl.
  - destruct (nullable r) eqn:N; intro H.
    + inversion H; subst. right. split; [lia|].
      rewrite Nat.sub_diag. apply nullable_spec. exact N.
    + left; exact H.
  - destruct (is_void (deriv c r)) eqn:V.
    + destruct (nullable r) eqn:N; intro H.
      * inversion H; subst. right. split; [lia|].
        rewrite Nat.sub_diag. apply nullable_spec. exact N.
      * left; exact H.
    + intro H. apply IH in H as [H | [Hle H]].
      * destruct (nullable r) eqn:N.
        -- inversion H; subst. right. split; [lia|].
           rewrite Nat.sub_diag. apply nullable_spec. exact N.
        -- left; exact H.
      * right. split; [lia|].
        replace (m - n) with (S (m - S n)) by lia. simpl.
        apply deriv_spec. exact H.
Qed.

Lemma longest_match_sound :
  forall r w m, longest_match r w = Some m -> Lang r (firstn m w).
Proof.
  unfold longest_match. intros r w m H.
  destruct (longest r w 0 None) as [k|] eqn:E; [|discriminate].
  assert (k = m) as -> by (destruct k; [discriminate | inversion H; reflexivity]).
  apply longest_sound in E as [E | [_ E]]; [discriminate|].
  rewrite Nat.sub_0_r in E. exact E.
Qed.

End RegexFacts.

(* ================================================================== *)
(** * Properties of the lexer *)
(* ================================================================== *)

Module LexerFacts.
Import Regex Tokens Lexer TokenShapes RegexFacts.

Lemma Lang_Star_inv :
  forall r w, Lang (Star r) w ->
              exists us, w = List.concat us /\ Forall (Lang r) us.
Proof.
  intros r w H. remember (Star r) as sr eqn:E.
  induction H; try discriminate.
  - exists []. split; [reflexivity | constructor].
  - inversion E; subst r0.
    destruct (IHLang2 eq_refl) as (us & -> & F).
    exists (u :: us). split; [reflexivity | constructor; assumption].
Qed.

Lemma Lang_Star_concat :
  forall r us, Forall (Lang r) us -> Lang (Star r) (List.concat us).
Proof.
  intros r us F. induction F as [|u us Hu _ IH]; simpl.
  - constructor.
  - constructor; assumption.
Qed.

Lemma Lang_Star_Rng :
  forall lo hi w,
    Lang (Star (Rng lo hi)) w <-> Forall (fun c => in_range lo hi c = true) w.
Proof.
  intros lo hi w. split.
  - intro H. apply Lang_Star_inv in H as (us & -> & F).
    induction F as [|u us Hu _ IH]; simpl; [constructor|].
    apply Lang_Rng_inv in Hu as (c & -> & Hc). simpl.
    constructor; assumption.
  - intro F. induction F as [|c w Hc _ IH].
    + constructor.
    + change (c :: w) with ([c] ++ w). constructor; [constructor; exact Hc | exact IH].
Qed.

Lemma Lang_digits : forall w, Lang (Star digit) w <-> digits w.
Proof. intro w. apply Lang_Star_Rng. Qed.

Lemma Lang_NATURAL : forall w, Lang NATURAL_f w <-> natural w.
Proof.
  intro w. unfold NATURAL_f, natural. split.
  - intro H. apply Lang_Seq_inv in H as (u & v & -> & Hu & Hv).
    apply Lang_Rng_inv in Hu as (d & -> & Hd).
    exists d, v. split; [reflexivity|]. split; [exact Hd | apply Lang_digits; exact Hv].
  - intros (d & ds & -> & Hd & Hds).
    change (d :: ds) with ([d] ++ ds).
    constructor; [constructor; exact Hd | apply Lang_digits; exact Hds].
Qed.

Lemma Lang_FRACTION : forall w, Lang FRACTION_r w <-> fraction w.
Proof.
  intro w. unfold FRACTION_r, fraction. split.
  - intro H. apply Lang_Seq_inv in H as (u & v & -> & Hu & Hv).
    apply Lang_Seq_inv in Hu as (u1 & u2 & -> & Hu1 & Hu2).
    apply Lang_Chr_inv in Hu1 as ->.
    apply Lang_Rng_inv in Hv as (d & -> & Hd).
    exists u2, d. split; [reflexivity|]. split; [apply Lang_digits; exact Hu2 | exact Hd].
  - intros (ds & d & -> & Hds & Hd).
    change ("."%char :: ds ++ [d]) with ((["."%char] ++ ds) ++ [d]).
    constructor; [|constructor; exact Hd].
    constructor; [constructor | apply Lang_digits; exact Hds].
Qed.

Lemma Lang_dotted :
  forall w, Lang (Star (Seq (Chr ".") NATURAL_f)) w
            <-> exists levels, w = dotted levels /\ Forall natural levels.
Proof.
  intro w. split.
  - intro H. apply Lang_Star_inv in H as (us & -> & F).
    induction F as [|u us Hu _ (levels & E & N)].
    + exists []. split; [reflexivity | constructor].
    + apply Lang_Seq_inv in Hu as (a & b & -> & Ha & Hb).
      apply Lang_Chr_inv in Ha as ->. apply Lang_NATURAL in Hb.
      exists (b :: levels). split; [|constructor; assumption].
      simpl. unfold dotted in E. rewrite E. reflexivity.
  - intros (levels & -> & F). unfold dotted.
    apply Lang_Star_concat.
    induction F as [|level levels Hl _ IH]; simpl; constructor; [|exact IH].
    change ("."%char :: level) with (["."%char] ++ level).
    constructor; [constructor | apply Lang_NATURAL; exact Hl].
Qed.

Lemma Lang_VERSION : forall w, Lang VERSION_r w <-> version w.
Proof.
  intro w. unfold VERSION_r, version, versionValue. split.
  - intro H. apply Lang_Seq_inv in H as (u & v & -> & Hu & Hv).
    apply Lang_Seq_inv in Hu as (u1 & u2 & -> & Hu1 & Hu2).
    apply Lang_Chr_inv in Hu1 as ->.
    apply Lang_NATURAL in Hu2. apply Lang_dotted in Hv as (levels & -> & F).
    exists (u2 ++ dotted levels). split; [reflexivity|].
    exists u2, levels. split; [reflexivity|]. split; assumption.
  - intros (value & -> & level & levels & -> & N & F).
    change ("v"%char :: level ++ dotted levels)
      with ((["v"%char] ++ level) ++ dotted levels).
    constructor.
    + constructor; [constructor | apply Lang_NATURAL; exact N].
    + apply Lang_dotted. exists levels. split; [reflexivity | exact F].
Qed.

Lemma versionLiteral_spec :
  forall value,
    lexesAs VERSION_r (versionLiteral value) = true
    <-> versionValue (list_ascii_of_string value).
Proof.
  intro value. unfold lexesAs. rewrite matches_spec, Lang_VERSION.
  unfold version, versionLiteral. simpl. split.
  - intros (v & E & V). injection E as <-. exact V.
  - intro V. exists (list_ascii_of_string value). split; [reflexivity | exact V].
Qed.

Lemma lexesAs_spec :
  forall r source, lexesAs r source = true <-> Lang r (list_ascii_of_string source).
Proof. intros r source. apply matches_spec. Qed.

(** ** The rule behind an emitted token *)

Lemma best_rule_In :
  forall rs w best ty n,
    best_rule rs w best = Some (ty, n) ->
    best = Some (ty, n) \/ exists r, In (ty, r) rs /\ rule_match r w = Some n.
Proof.
  induction rs as [|[ty' r'] rs IH]; intros w best ty n H.
  - left; exact H.
  - cbn [best_rule] in H.
    destruct (rule_match r' w) as [k|] eqn:E.
    + destruct best as [[ty0 m]|].
      * destruct (Nat.ltb m k).
        -- apply IH in H as [H | (r & I & M)].
           ++ inversion H; subst. right. exists r'. split; [left; reflexivity | exact E].
           ++ right. exists r. split; [right; exact I | exact M].
        -- apply IH in H as [H | (r & I & M)]; [left; exact H|].
           right. exists r. split; [right; exact I | exact M].
      * apply IH in H as [H | (r & I & M)].
        -- inversion H; subst. right. exists r'. split; [left; reflexivity | exact E].
        -- right. exists r. split; [right; exact I | exact M].
    + apply IH in H as [H | (r & I & M)]; [left; exact H|].
      right. exists r. split; [right; exact I | exact M].
Qed.

Lemma nextToken_rule :
  forall w ty n,
    nextToken w = Some (ty, n) ->
    exists r, In (ty, r) rules /\ rule_match r w = Some n.
Proof.
  intros w ty n. unfold nextToken. generalize rules. intros rs H.
  apply best_rule_In in H. destruct H as [H | H]; [discriminate H | exact H].
Qed.

#[local] Opaque nextToken.

(** Every token delivered was cut from the input by [nextToken]. *)
Lemma scan_tokens :
  forall fuel w t,
    In t (tokens (scan fuel w)) ->
    exists w' n, nextToken w' = Some (ttype t, n)
                 /\ text t = string_of_list_ascii (firstn n w').
Proof.
  induction fuel as [|fuel IH]; intros w t H; [contradiction|].
  destruct w as [|c w]; [contradiction|].
  cbn [scan] in H.
  destruct (nextToken (c :: w)) as [[ty n]|] eqn:E; [|contradiction].
  destruct (Z.eqb ty SPACE).
  - apply IH in H. exact H.
  - cbn [tokens] in H. destruct H as [<- | H].
    + exists (c :: w), n. split; [exact E | reflexivity].
    + apply IH in H. exact H.
Qed.

Lemma rules_FRACTION :
  forall r, In (FRACTION, r) rules -> r = Greedy FRACTION_r.
Proof.
  intros r H. unfold rules in H. simpl in H.
  repeat (destruct H as [H | H];
          [first [discriminate H | injection H as <-; reflexivity]|]).
  contradiction.
Qed.

Lemma rules_VERSION :
  forall r, In (VERSION, r) rules -> r = Greedy VERSION_r.
Proof.
  intros r H. unfold rules in H. simpl in H.
  repeat (destruct H as [H | H];
          [first [discriminate H | injection H as <-; reflexivity]|]).
  contradiction.
Qed.

Lemma token_of_rule :
  forall ty rx fuel w t,
    (forall r, In (ty, r) rules -> r = Greedy rx) ->
    In t (tokens (scan fuel w)) -> ttype t = ty ->
    Lang rx (list_ascii_of_string (text t)).
Proof.
  intros ty rx fuel w t U H T.
  apply scan_tokens in H as (w' & n & N & ->).
  rewrite list_ascii_of_string_of_list_ascii.
  apply nextToken_rule in N as (r & I & M).
  rewrite T in I. apply U in I. subst r.
  apply longest_match_sound. exact M.
Qed.


(** ** The fuel of the lexer is enough *)

Lemma scanLine_longer :
  forall w n m, scanLine w n = Some m -> n < m.
Proof.
  induction w as [|c w IH]; intros n m H; simpl in H; [discriminate|].
  destruct (Ascii.eqb c ch_lf).
  - inversion H. lia.
  - apply IH in H. lia.
Qed.

Lemma scanBlockBody_longer :
  forall w n ws m, scanBlockBody w n ws = Some m -> n < m.
Proof.
  induction w as [|c w IH]; intros n ws m H; simpl in H; [discriminate|].
  destruct (Ascii.eqb c ch_lf).
  - apply IH in H. lia.
  - destruct (ws && Ascii.eqb c ch_dquote).
    + inversion H. lia.
    + apply IH in H. lia.
Qed.

Lemma scanTextBody_longer :
  forall w n escaped best m,
    scanTextBody w n escaped best = Some m -> best = Some m \/ n < m.
Proof.
  induction w as [|c w IH]; intros n escaped best m H; simpl in H; [left; exact H|].
  destruct escaped.
  - apply IH in H. destruct H as [H | H]; [|right; lia].
    destruct (Ascii.eqb c ch_dquote); [|left; exact H].
    inversion H. right. lia.
  - destruct (Ascii.eqb c ch_dquote).
    + inversion H. right. lia.
    + apply IH in H. destruct H as [H | H]; [left; exact H | right; lia].
Qed.

Lemma longest_match_positive :
  forall r w n, longest_match r w = Some n -> 1 <= n.
Proof.
  intros r w n H. unfold longest_match in H.
  destruct (longest r w 0 None) as [[|k]|]; try discriminate H.
  inversion H. lia.
Qed.

Lemma scanner_positive :
  forall f w n,
    f = scanSHELL \/ f = scanTEXT_BLOCK \/ f = scanTEXT ->
    f w = Some n -> 1 <= n.
Proof.
  intros f w n [-> | [-> | ->]] H.
  - unfold scanSHELL in H.
    destruct w as [|c1 [|c2 [|c3 w]]]; try discriminate H.
    destruct (Ascii.eqb c1 "^" && Ascii.eqb c2 "#" && Ascii.eqb c3 "!");
      [|discriminate H].
    apply scanLine_longer in H. lia.
  - unfold scanTEXT_BLOCK in H.
    destruct w as [|q [|c1 w1]]; try discriminate H.
    destruct (Ascii.eqb q ch_dquote); [|discriminate H].
    destruct (Ascii.eqb c1 ch_lf).
    + apply scanBlockBody_longer in H. lia.
    + destruct (Ascii.eqb c1 ch_cr); [|discriminate H].
      destruct w1 as [|c2 w2]; [discriminate H|].
      destruct (Ascii.eqb c2 ch_lf); [|discriminate H].
      apply scanBlockBody_longer in H. lia.
  - unfold scanTEXT in H. destruct w as [|q w]; [discriminate H|].
    destruct (Ascii.eqb q ch_dquote); [|discriminate H].
    apply scanTextBody_longer in H. destruct H as [H | H]; [discriminate H | lia].
Qed.

Lemma rules_scanners :
  forall ty f,
    In (ty, Scanner f) rules ->
    f = scanSHELL \/ f = scanTEXT_BLOCK \/ f = scanTEXT.
Proof.
  intros ty f H. unfold rules in H. simpl in H.
  repeat (destruct H as [H | H];
          [first [discriminate H | injection H as _ <-; auto]|]).
  contradiction.
Qed.

Lemma nextToken_positive :
  forall w ty n, nextToken w = Some (ty, n) -> 1 <= n.
Proof.
  intros w ty n H. apply nextToken_rule in H as ([r | f] & I & M); simpl in M.
  - apply longest_match_positive in M. exact M.
  - apply rules_scanners in I. exact (@scanner_positive f w n I M).
Qed.

(** Past the length of the input, more fuel changes nothing. *)
Lemma scan_fuel :
  forall fuel fuel' w,
    List.length w < fuel -> List.length w < fuel' -> scan fuel w = scan fuel' w.
Proof.
  induction fuel as [|fuel IH]; intros fuel' w H H'; [lia|].
  destruct fuel' as [|fuel']; [lia|].
  destruct w as [|c w]; [reflexivity|].
  cbn [scan].
  destruct (nextToken (c :: w)) as [[ty n]|] eqn:E; [|reflexivity].
  apply nextToken_positive in E.
  assert (L : List.length (skipn n (c :: w)) < List.length (c :: w)).
  { rewrite length_skipn. cbn [List.length]. lia. }
  cbn [List.length] in *.
  rewrite (IH fuel' (skipn n (c :: w))); [reflexivity | lia | lia].
Qed.

Lemma tokenize_fuel :
  forall source fuel,
    String.length source < fuel ->
    scan fuel (list_ascii_of_string source) = tokenize source.
Proof.
  intros source fuel H. unfold tokenize.
  assert (E : List.length (list_ascii_of_string source) = String.length source).
  { clear H. induction source as [|c s IH]; simpl; [reflexivity | rewrite IH; reflexivity]. }
  apply scan_fuel; rewrite E; lia.
Qed.

(** C8: the words of the FRACTION rule are a dot, digits and a last
    digit from 1 to 9, so no word ending in the digit 0 is one, and every
    FRACTION token the lexer delivers has that form; [.5] and [.125] are
    FRACTION tokens and documents, [.10] is not: the lexer cuts it into
    the FRACTION [.1] and the FLOAT [0], and the document is refused. *)
Theorem FRACTION_ends_in_a_nonzero_digit :
  (forall source,
      lexesAs FRACTION_r source = true
      <-> fraction (list_ascii_of_string source))
  /\ (forall w, matches FRACTION_r (w ++ ["0"%char]) = false)
  /\ (forall fuel w t,
        In t (tokens (scan fuel w)) -> ttype t = FRACTION ->
        fraction (list_ascii_of_string (text t)))
  /\ lexesAs FRACTION_r ".5" = true
  /\ lexesAs FRACTION_r ".125" = true
  /\ lexesAs FRACTION_r ".10" = false
  /\ tokenize ".5" = mkStream [mkToken FRACTION ".5"] None
  /\ tokenize ".125" = mkStream [mkToken FRACTION ".125"] None
  /\ tokenize ".10" = mkStream [mkToken FRACTION ".1"; mkToken FLOAT "0"] None
  /\ Parser.parseDocument ".5" false
     = (Parser.Returned (Examples.elementValue Nodes.PROBABILITY ".5"), [])
  /\ Parser.parseDocument ".125" false
     = (Parser.Returned (Examples.elementValue Nodes.PROBABILITY ".125"), [])
  /\ Parser.parseDocument ".10" false
     = (Parser.Threw Recognizer.PARSER_ABORT, []).
Proof.
  split.
  { intro source. rewrite lexesAs_spec. apply Lang_FRACTION. }
  split.
  { intro w. destruct (matches FRACTION_r (w ++ ["0"%char])) eqn:E; [|reflexivity].
    apply matches_spec in E. apply Lang_FRACTION in E.
    destruct E as (ds & d & E & _ & N).
    change ("."%char :: ds ++ [d]) with (("."%char :: ds) ++ [d]) in E.
    apply app_inj_tail in E. destruct E as [_ <-].
    vm_compute in N. discriminate N. }
  split.
  { intros fuel w t I T. apply Lang_FRACTION.
    exact (@token_of_rule FRACTION FRACTION_r fuel w t rules_FRACTION I T). }
  repeat split; vm_compute; reflexivity.
Qed.

End LexerFacts.

(* ================================================================== *)
(** * The recognizer is coherent *)
(* ================================================================== *)

Module CoherenceFacts.
Import Tokens Lexer ParseTrees Recognizer BaliLanguageParser Coherence.

Local Open Scope Z_scope.
Local Open Scope parser_scope.

Lemma Coherent_weaken :
  forall A (m : M A), Coherent true m -> Coherent false m.
Proof.
  intros A m H s1 s2 Hs Q1 Q2. specialize (H s1 s2 Hs Q1 Q2).
  destruct (m s1) as [a1 t1|[e1|m1] t1|], (m s2) as [a2 t2|[e2|m2] t2|];
    try exact H.
  destruct H as [H _]; discriminate.
Qed.

Lemma Coherent_ret : forall b A (a : A), Coherent b (ret a).
Proof.
  intros b A a s1 s2 Hs Q1 Q2. simpl. repeat split; auto; apply Hs.
Qed.

Lemma Coherent_bind :
  forall b A B (m : M A) (f : A -> M B),
    Coherent b m -> (forall a, Coherent b (f a)) -> Coherent b (bind m f).
Proof.
  intros b A B m f Hm Hf s1 s2 Hs Q1 Q2. unfold bind.
  specialize (Hm s1 s2 Hs Q1 Q2).
  destruct (m s1) as [a1 t1|[e1|m1] t1|], (m s2) as [a2 t2|[e2|m2] t2|];
    try exact Hm; try contradiction.
  destruct Hm as (-> & Ht & Qt1 & Qt2 & D1 & D2).
  specialize (Hf a2 t1 t2 Ht Qt1 Qt2).
  destruct (f a2 t1) as [b1 u1|[e1|m1] u1|], (f a2 t2) as [b2 u2|[e2|m2] u2|];
    try exact Hf; try contradiction.
  - destruct Hf as (? & ? & ? & ? & ? & ?). repeat split; auto; try apply H0; congruence.
  - destruct Hf as (? & ? & ? & ? & ? & ? & ?). repeat split; auto; try apply H1; congruence.
  - destruct Hf as (? & ? & [? ?] & [? ?]).
    repeat split; auto; intros; [apply H2 | apply H4]; congruence.
Qed.

Ltac open_states :=
  match goal with
  | Hs : sim ?s1 ?s2, Q1 : quiet ?s1, Q2 : quiet ?s2 |- _ =>
      destruct s1 as [i1 l1 d1 r1 c1], s2 as [i2 l2 d2 r2 c2];
      unfold sim, quiet in Hs, Q1, Q2; simpl in Hs, Q1, Q2;
      destruct Hs as [? ?]; subst
  end.

Lemma Coherent_LT : forall b k, Coherent b (LT k).
Proof.
  intros b k s1 s2 Hs Q1 Q2. open_states. unfold LT. simpl.
  destruct (nth_error i2 (k - 1)).
  - repeat split; auto.
  - destruct l2 as [c|].
    + unfold lexerFail, bind, syntaxError, lexerRecover, raise, log. simpl.
      destruct d1, d2; simpl;
        (split; [reflexivity|]); (split; [left; reflexivity|]);
        unfold failFast; simpl;
        repeat split; auto; try lia; try discriminate.
    + repeat split; auto.
Qed.

Lemma Coherent_LA : forall b k, Coherent b (LA k).
Proof.
  intros. unfold LA. apply Coherent_bind; [apply Coherent_LT|intro; apply Coherent_ret].
Qed.

Lemma Coherent_consume : forall b, Coherent b consume.
Proof.
  intros b s1 s2 Hs Q1 Q2. open_states. unfold consume. simpl.
  destruct i2; simpl; repeat split; auto.
Qed.

Lemma Coherent_setErrorRecoveryMode : forall b x, Coherent b (setErrorRecoveryMode x).
Proof.
  intros b x s1 s2 Hs Q1 Q2. open_states. simpl. repeat split; auto.
Qed.

Lemma Coherent_recover : forall b A e, Coherent b (@recover A e).
Proof.
  intros b A e s1 s2 Hs Q1 Q2. open_states. unfold recover, raise.
  split; [reflexivity|]. split; [right; reflexivity|].
  unfold failFast. simpl. repeat split; auto.
Qed.

Lemma Coherent_raise_recognition :
  forall A e, Coherent false (@raise A (Recognition e)).
Proof.
  intros A e s1 s2 Hs Q1 Q2. unfold raise. repeat split; auto; apply Hs.
Qed.

Lemma reportError_failFast :
  forall e s, quiet s -> exists u, reportError e s = Ok tt u /\ failFast s u.
Proof.
  intros e [i l d r c] Q. unfold quiet in Q; simpl in Q; subst c.
  unfold reportError, bind, getDebug, inErrorRecoveryMode. simpl.
  destruct d; simpl.
  - destruct r; simpl.
    + eexists; split; [reflexivity|]. split; simpl; [lia | auto].
    + destruct e; simpl; eexists; (split; [reflexivity|]);
        split; simpl; try lia; discriminate.
  - eexists; split; [reflexivity|]. split; simpl; [lia | auto].
Qed.

Lemma Coherent_ruleBody :
  forall b body, Coherent false body -> Coherent b (ruleBody body).
Proof.
  intros b body H s1 s2 Hs Q1 Q2. unfold ruleBody.
  specialize (H s1 s2 Hs Q1 Q2).
  destruct (body s1) as [a1 t1|[e1|m1] t1|], (body s2) as [a2 t2|[e2|m2] t2|];
    try exact H; try contradiction.
  destruct H as (_ & -> & Ht & Qt1 & Qt2 & D1 & D2).
  destruct (@reportError_failFast e2 t1 Qt1) as (u1 & E1 & [F1 G1]).
  destruct (@reportError_failFast e2 t2 Qt2) as (u2 & E2 & [F2 G2]).
  unfold bind. rewrite E1, E2. unfold recover, raise.
  split; [reflexivity|]. split; [right; reflexivity|].
  split; split; auto; intro X; [apply G1 | apply G2]; congruence.
Qed.


Lemma Coherent_getCurrentToken : forall b, Coherent b getCurrentToken.
Proof. intro b. apply Coherent_LT. Qed.

Lemma Coherent_reportMatch : forall b, Coherent b reportMatch.
Proof. intro b. apply Coherent_setErrorRecoveryMode. Qed.

Lemma Coherent_recoverInline : forall b A set, Coherent b (@recoverInline A set).
Proof.
  intros b A set. unfold recoverInline.
  apply Coherent_bind; [apply Coherent_getCurrentToken | intro; apply Coherent_recover].
Qed.

Lemma Coherent_noViableAlt : forall A, Coherent false (@noViableAlt A).
Proof.
  intro A. unfold noViableAlt.
  apply Coherent_bind;
    [apply Coherent_getCurrentToken | intro; apply Coherent_raise_recognition].
Qed.

Lemma Coherent_speculate :
  forall b b' m, Coherent b' m -> Coherent b (speculate m).
Proof.
  intros b b' m H s1 s2 Hs Q1 Q2. unfold speculate.
  specialize (H s1 s2 Hs Q1 Q2).
  destruct (m s1) as [a1 t1|[e1|m1] t1|], (m s2) as [a2 t2|[e2|m2] t2|];
    try exact H; try contradiction.
  - destruct H as (-> & _). repeat split; auto; apply Hs.
  - repeat split; auto; apply Hs.
  - destruct H as (-> & A & F1 & F2).
    destruct (String.eqb m2 LEXER_ABORT).
    + repeat split; auto; try apply F1; apply F2.
    + repeat split; auto; apply Hs.
Qed.

Lemma Coherent_bound :
  forall b A (f : nat -> M A),
    (forall n, Coherent b (f n)) ->
    Coherent b (fun s => f (S (List.length (input s))) s).
Proof.
  intros b A f H s1 s2 Hs Q1 Q2.
  replace (input s2) with (input s1) by apply Hs.
  exact (H _ s1 s2 Hs Q1 Q2).
Qed.

Lemma Coherent_OutOfFuel : forall b A, Coherent b (fun _ => @OutOfFuel A).
Proof. intros b A s1 s2 _ _ _. exact I. Qed.

Lemma Coherent_loop :
  forall b n cond body acc,
    Coherent b cond -> Coherent b body -> Coherent b (loop n cond body acc).
Proof.
  intros b n cond body acc Hc Hb. revert acc.
  induction n as [|n IH]; intro acc; simpl.
  - apply Coherent_OutOfFuel.
  - apply Coherent_bind; [exact Hc|]. intros [|]; [|apply Coherent_ret].
    apply Coherent_bind; [exact Hb|]. intro xs. apply IH.
Qed.

Lemma Coherent_while :
  forall b cond body,
    Coherent b cond -> Coherent b body -> Coherent b (while_ cond body).
Proof.
  intros b cond body Hc Hb. unfold while_.
  apply Coherent_bound with (f := fun n => loop n cond body []).
  intro n. apply Coherent_loop; assumption.
Qed.

Create HintDb coh.

#[export] Hint Resolve Coherent_ret Coherent_LT Coherent_LA Coherent_consume
  Coherent_getCurrentToken Coherent_reportMatch Coherent_recoverInline
  Coherent_noViableAlt Coherent_raise_recognition Coherent_recover : coh.

(** One step of a proof that a computation built from coherent parts is
    coherent. *)
Ltac coh_step :=
  lazy beta iota;
  match goal with
  | |- Coherent _ (ret _) => apply Coherent_ret
  | |- Coherent _ (bind _ _) => apply Coherent_bind; [|intros]
  | |- Coherent _ (ruleBody _) => apply Coherent_ruleBody
  | |- Coherent _ (speculate _) => apply Coherent_speculate with (b' := false)
  | |- Coherent _ (while_ _ _) => apply Coherent_while
  | |- Coherent _ (match ?x with _ => _ end) => destruct x
  | H : forall r p, Coherent true (?rec r p) |- Coherent true (?rec _ _) =>
      apply H
  | H : forall r p, Coherent true (?rec r p) |- Coherent false (?rec _ _) =>
      apply Coherent_weaken, H
  | |- _ => solve [auto with coh]
  end.

Ltac coh := repeat coh_step.

Lemma Coherent_match : forall b t, Coherent b (match_ t).
Proof. intros b t. unfold match_. coh. Qed.

Lemma Coherent_matchSet : forall b set, Coherent b (matchSet set).
Proof. intros b set. unfold matchSet. coh. Qed.

#[export] Hint Resolve Coherent_match Coherent_matchSet : coh.

Lemma Coherent_checkPrecpred :
  forall p k text, Coherent false (checkPrecpred p k text).
Proof. intros p k text. unfold checkPrecpred. coh. Qed.

Lemma Coherent_nextIs : forall b t, Coherent b (nextIs t).
Proof. intros b t. unfold nextIs. coh. Qed.

Lemma Coherent_nextIn : forall b set, Coherent b (nextIn set).
Proof. intros b set. unfold nextIn. coh. Qed.

#[export] Hint Resolve Coherent_checkPrecpred Coherent_nextIs Coherent_nextIn : coh.

(** ** The rules and decisions that call no rule through [rec] *)

Lemma Coherent_label : forall b, Coherent b label.
Proof. intros. unfold label. coh. Qed.
#[export] Hint Resolve Coherent_label : coh.

Lemma Coherent_variable : forall b, Coherent b variable.
Proof. intros. unfold variable. coh. Qed.
#[export] Hint Resolve Coherent_variable : coh.

Lemma Coherent_name : forall b, Coherent b name.
Proof. intros. unfold name. coh. Qed.
#[export] Hint Resolve Coherent_name : coh.

Lemma Coherent_binary : forall b, Coherent b binary.
Proof. intros. unfold binary. coh. Qed.
#[export] Hint Resolve Coherent_binary : coh.

Lemma Coherent_duration : forall b, Coherent b duration.
Proof. intros. unfold duration. coh. Qed.
#[export] Hint Resolve Coherent_duration : coh.

Lemma Coherent_moment : forall b, Coherent b moment.
Proof. intros. unfold moment. coh. Qed.
#[export] Hint Resolve Coherent_moment : coh.

Lemma Coherent_reference : forall b, Coherent b reference.
Proof. intros. unfold reference. coh. Qed.
#[export] Hint Resolve Coherent_reference : coh.

Lemma Coherent_symbol : forall b, Coherent b symbol.
Proof. intros. unfold symbol. coh. Qed.
#[export] Hint Resolve Coherent_symbol : coh.

Lemma Coherent_tag : forall b, Coherent b tag.
Proof. intros. unfold tag. coh. Qed.
#[export] Hint Resolve Coherent_tag : coh.

Lemma Coherent_version : forall b, Coherent b version.
Proof. intros. unfold version. coh. Qed.
#[export] Hint Resolve Coherent_version : coh.

Lemma Coherent_template : forall b, Coherent b template.
Proof. intros. unfold template. coh. Qed.
#[export] Hint Resolve Coherent_template : coh.

Lemma Coherent_text : forall b, Coherent b text.
Proof. intros. unfold text. coh. Qed.
#[export] Hint Resolve Coherent_text : coh.

Lemma Coherent_probability : forall b, Coherent b probability.
Proof. intros. unfold probability. coh. Qed.
#[export] Hint Resolve Coherent_probability : coh.

Lemma Coherent_real : forall b, Coherent b real.
Proof. intros. unfold real. coh. Qed.
#[export] Hint Resolve Coherent_real : coh.

Lemma Coherent_predict37 : Coherent false predict37.
Proof. intros. unfold predict37. coh. Qed.
#[export] Hint Resolve Coherent_predict37 : coh.

Lemma Coherent_imaginary : forall b, Coherent b imaginary.
Proof. intros. unfold imaginary. coh. Qed.
#[export] Hint Resolve Coherent_imaginary : coh.

Lemma Coherent_afterReal : forall b, Coherent b afterReal.
Proof. intros. unfold afterReal. coh. Qed.
#[export] Hint Resolve Coherent_afterReal : coh.

Lemma Coherent_predict38 : Coherent false predict38.
Proof. intros. unfold predict38. coh. Qed.
#[export] Hint Resolve Coherent_predict38 : coh.

Lemma Coherent_number : forall b, Coherent b number.
Proof. intros. unfold number. coh. Qed.
#[export] Hint Resolve Coherent_number : coh.

Lemma Coherent_percent : forall b, Coherent b percent.
Proof. intros. unfold percent. coh. Qed.
#[export] Hint Resolve Coherent_percent : coh.

Lemma Coherent_predictParameters : forall b, Coherent b predictParameters.
Proof. intros. unfold predictParameters. coh. Qed.
#[export] Hint Resolve Coherent_predictParameters : coh.

Lemma Coherent_predict35 : Coherent false predict35.
Proof. intros. unfold predict35. coh. Qed.
#[export] Hint Resolve Coherent_predict35 : coh.

Lemma Coherent_complexAhead : forall b, Coherent b complexAhead.
Proof. intros. unfold complexAhead. coh. Qed.
#[export] Hint Resolve Coherent_complexAhead : coh.

Lemma Coherent_predict32 : Coherent false predict32.
Proof. intros. unfold predict32. coh. Qed.
#[export] Hint Resolve Coherent_predict32 : coh.

Lemma Coherent_predict34 : forall b p, Coherent b (predict34 p).
Proof. intros. unfold predict34. coh. Qed.
#[export] Hint Resolve Coherent_predict34 : coh.

Lemma Coherent_predict33 : Coherent false predict33.
Proof. intros. unfold predict33. coh. Qed.
#[export] Hint Resolve Coherent_predict33 : coh.

Lemma Coherent_predict16 : forall b, Coherent b predict16.
Proof. intros. unfold predict16. coh. Qed.
#[export] Hint Resolve Coherent_predict16 : coh.

Lemma Coherent_predict17 : Coherent false predict17.
Proof. intros. unfold predict17. coh. Qed.
#[export] Hint Resolve Coherent_predict17 : coh.

Lemma Coherent_predict22 : forall b, Coherent b predict22.
Proof. intros. unfold predict22. coh. Qed.
#[export] Hint Resolve Coherent_predict22 : coh.

Lemma Coherent_optionalLabel : forall b, Coherent b optionalLabel.
Proof. intros. unfold optionalLabel. coh. Qed.
#[export] Hint Resolve Coherent_optionalLabel : coh.

Lemma Coherent_continueClause : forall b, Coherent b continueClause.
Proof. intros. unfold continueClause. coh. Qed.
#[export] Hint Resolve Coherent_continueClause : coh.

Lemma Coherent_breakClause : forall b, Coherent b breakClause.
Proof. intros. unfold breakClause. coh. Qed.
#[export] Hint Resolve Coherent_breakClause : coh.


(** ** The rules that call other rules, given that the calls are coherent *)

Section Rules.

Variable rec : Rec.
Hypothesis Hrec : forall r p, Coherent true (rec r p).


Lemma Coherent_predict4 : Coherent false (predict4 rec).
Proof. intros. unfold predict4. coh. Qed.

Lemma Coherent_predict21 : Coherent false (predict21 rec).
Proof. intros. unfold predict21. coh. Qed.

Hint Resolve Coherent_predict4 Coherent_predict21 : coh.

Lemma Coherent_document : forall b, Coherent b (document rec).
Proof. intros. unfold document. coh. Qed.

Lemma Coherent_component : forall b, Coherent b (component rec).
Proof. intros. unfold component. coh. Qed.

Lemma Coherent_structure : forall b, Coherent b (structure rec).
Proof. intros. unfold structure. coh. Qed.

Lemma Coherent_parameters : forall b, Coherent b (parameters rec).
Proof. intros. unfold parameters. coh. Qed.

Lemma Coherent_composite : forall b, Coherent b (composite rec).
Proof. intros. unfold composite. coh. Qed.

Lemma Coherent_range : forall b, Coherent b (range rec).
Proof. intros. unfold range. coh. Qed.

Lemma Coherent_array : forall b, Coherent b (array rec).
Proof. intros. unfold array. coh. Qed.

Lemma Coherent_table : forall b, Coherent b (table rec).
Proof. intros. unfold table. coh. Qed.

Lemma Coherent_association : forall b, Coherent b (association rec).
Proof. intros. unfold association. coh. Qed.

Lemma Coherent_block : forall b, Coherent b (block rec).
Proof. intros. unfold block. coh. Qed.

Lemma Coherent_procedure : forall b, Coherent b (procedure rec).
Proof. intros. unfold procedure. coh. Qed.

Lemma Coherent_statement : forall b, Coherent b (statement rec).
Proof. intros. unfold statement. coh. Qed.

Lemma Coherent_handleClause : forall b, Coherent b (handleClause rec).
Proof. intros. unfold handleClause. coh. Qed.

Lemma Coherent_finishClause : forall b, Coherent b (finishClause rec).
Proof. intros. unfold finishClause. coh. Qed.

Lemma Coherent_evaluateClause : forall b, Coherent b (evaluateClause rec).
Proof. intros. unfold evaluateClause. coh. Qed.

Lemma Coherent_checkoutClause : forall b, Coherent b (checkoutClause rec).
Proof. intros. unfold checkoutClause. coh. Qed.

Lemma Coherent_saveClause : forall b, Coherent b (saveClause rec).
Proof. intros. unfold saveClause. coh. Qed.

Lemma Coherent_discardClause : forall b, Coherent b (discardClause rec).
Proof. intros. unfold discardClause. coh. Qed.

Lemma Coherent_commitClause : forall b, Coherent b (commitClause rec).
Proof. intros. unfold commitClause. coh. Qed.

Lemma Coherent_publishClause : forall b, Coherent b (publishClause rec).
Proof. intros. unfold publishClause. coh. Qed.

Lemma Coherent_queueClause : forall b, Coherent b (queueClause rec).
Proof. intros. unfold queueClause. coh. Qed.

Lemma Coherent_waitClause : forall b, Coherent b (waitClause rec).
Proof. intros. unfold waitClause. coh. Qed.

Lemma Coherent_ifClause : forall b, Coherent b (ifClause rec).
Proof. intros. unfold ifClause. coh. Qed.

Lemma Coherent_selectClause : forall b, Coherent b (selectClause rec).
Proof. intros. unfold selectClause. coh. Qed.

Lemma Coherent_whileClause : forall b, Coherent b (whileClause rec).
Proof. intros. unfold whileClause. coh. Qed.

Lemma Coherent_withClause : forall b, Coherent b (withClause rec).
Proof. intros. unfold withClause. coh. Qed.

Lemma Coherent_returnClause : forall b, Coherent b (returnClause rec).
Proof. intros. unfold returnClause. coh. Qed.

Lemma Coherent_throwClause : forall b, Coherent b (throwClause rec).
Proof. intros. unfold throwClause. coh. Qed.

Lemma Coherent_indices : forall b, Coherent b (indices rec).
Proof. intros. unfold indices. coh. Qed.

Lemma Coherent_invocation : forall b, Coherent b (invocation rec).
Proof. intros. unfold invocation. coh. Qed.

Lemma Coherent_element : forall b, Coherent b (element rec).
Proof. intros. unfold element. coh. Qed.

Lemma Coherent_expressionPrimary : Coherent false (expressionPrimary rec).
Proof. intros. unfold expressionPrimary. coh. Qed.

Lemma Coherent_expressionOperator : forall p localctx, Coherent false (expressionOperator rec p localctx).
Proof. intros. unfold expressionOperator. coh. Qed.


Lemma Coherent_expressionLoop :
  forall n p localctx, Coherent false (expressionLoop n rec p localctx).
Proof.
  induction n as [|n IH]; intros p localctx; simpl.
  - apply Coherent_OutOfFuel.
  - apply Coherent_bind; [apply Coherent_predict34|]. intro alt.
    destruct (Nat.eqb alt 1); [|apply Coherent_ret].
    apply Coherent_bind; [apply Coherent_expressionOperator|].
    intro next. apply IH.
Qed.

Lemma Coherent_expression : forall b p, Coherent b (expression rec p).
Proof.
  intros b p. unfold expression. apply Coherent_ruleBody.
  apply Coherent_bind; [apply Coherent_expressionPrimary|]. intro first.
  apply Coherent_bound with (f := fun n => expressionLoop n rec p first).
  intro n. apply Coherent_expressionLoop.
Qed.

End Rules.

#[export] Hint Resolve Coherent_document Coherent_component
  Coherent_structure Coherent_parameters Coherent_composite Coherent_range
  Coherent_array Coherent_table Coherent_association Coherent_block
  Coherent_procedure Coherent_statement Coherent_handleClause
  Coherent_finishClause Coherent_evaluateClause Coherent_checkoutClause
  Coherent_saveClause Coherent_discardClause Coherent_commitClause
  Coherent_publishClause Coherent_queueClause Coherent_waitClause
  Coherent_ifClause Coherent_selectClause Coherent_whileClause
  Coherent_withClause Coherent_returnClause Coherent_throwClause
  Coherent_indices Coherent_invocation Coherent_element Coherent_expression :
  coh.

(** Every rule function, with any fuel, is coherent: its outcome does not
    depend on [debug], it writes nothing unless it throws, and what it
    throws is one of the two abort errors. *)
Lemma Coherent_parse : forall fuel r p, Coherent true (parse fuel r p).
Proof.
  induction fuel as [|fuel IH]; intros r p.
  - apply Coherent_OutOfFuel.
  - destruct r; simpl; auto with coh.
Qed.

End CoherenceFacts.

(* ================================================================== *)
(** * The fuel of the parser is enough *)
(* ================================================================== *)

Module FuelFacts.
Import Tokens Lexer ParseTrees Recognizer BaliLanguageParser Fuel.

Local Open Scope parser_scope.

Lemma Advances_ret : forall A L a (x : A), Advances L a 0 (ret x).
Proof. intros A L a x s _. simpl. lia. Qed.

Lemma Advances_sub :
  forall A L a k k' (m : M A), Advances L a k m -> k' <= k -> Advances L a k' m.
Proof.
  intros A L a k k' m H Hk s Hs. specialize (H s Hs).
  destruct (m s); auto. lia.
Qed.

Lemma Advances_strict :
  forall A L k (m : M A), Advances L false k m -> Advances L true k m.
Proof.
  intros A L k m H s Hs. apply H. simpl in *. lia.
Qed.

Lemma Advances_bind0 :
  forall A B L a k (m : M A) (f : A -> M B),
    Advances L a 0 m -> (forall x, Advances L a k (f x)) ->
    Advances L a k (bind m f).
Proof.
  intros A B L a k m f Hm Hf s Hs. unfold bind.
  specialize (Hm s Hs). destruct (m s) as [x s1| |]; auto.
  assert (Hs1 : if a then remaining s1 < L else remaining s1 <= L)
    by (destruct a; lia).
  specialize (Hf x s1 Hs1). destruct (f x s1); auto. lia.
Qed.

Lemma Advances_bind1 :
  forall A B L a k (m : M A) (f : A -> M B),
    Advances L a 1 m -> (forall x, Advances L true 0 (f x)) -> k <= 1 ->
    Advances L a k (bind m f).
Proof.
  intros A B L a k m f Hm Hf Hk s Hs. unfold bind.
  specialize (Hm s Hs). destruct (m s) as [x s1| |]; auto.
  assert (Hs1 : remaining s1 < L) by (destruct a; lia).
  specialize (Hf x s1 Hs1). destruct (f x s1); auto. lia.
Qed.

Lemma Advances_raise : forall A L a k e, Advances L a k (@raise A e).
Proof. intros A L a k e s _. exact I. Qed.

Lemma Advances_recover : forall A L a k e, Advances L a k (@recover A e).
Proof. intros A L a k e s _. exact I. Qed.

Lemma LT_cases :
  forall n s,
    (exists t, LT n s = Ok t s) \/ (exists e s', LT n s = Raise e s').
Proof.
  intros n s. unfold LT.
  destruct (nth_error (input s) (n - 1)); [left; eauto|].
  destruct (lexFailure s) as [c|]; [|left; eauto].
  right. unfold lexerFail, bind, syntaxError, log, lexerRecover, raise.
  destruct (debug s); eauto.
Qed.

Lemma recoverInline_raises :
  forall A set s, exists e s', @recoverInline A set s = Raise e s'.
Proof.
  intros A set s. unfold recoverInline, bind, getCurrentToken.
  destruct (LT_cases 1 s) as [[t E] | (e & s' & E)]; rewrite E;
    unfold recover, raise; eauto.
Qed.

Lemma Advances_LT : forall L a n, Advances L a 0 (LT n).
Proof.
  intros L a n s _.
  destruct (LT_cases n s) as [[t E] | (e & s' & E)]; rewrite E; [lia | exact I].
Qed.

Lemma Advances_LA : forall L a n, Advances L a 0 (LA n).
Proof.
  intros L a n. unfold LA.
  apply Advances_bind0; [apply Advances_LT | intro; apply Advances_ret].
Qed.

Lemma Advances_consume : forall L a, Advances L a 0 consume.
Proof.
  intros L a s _. unfold consume, remaining.
  destruct (input s) eqn:E; simpl; rewrite ?E; simpl; lia.
Qed.

Lemma Advances_setErrorRecoveryMode :
  forall L a b, Advances L a 0 (setErrorRecoveryMode b).
Proof. intros L a b s _. unfold remaining. simpl. lia. Qed.

Lemma Advances_recoverInline :
  forall A L a k set, Advances L a k (@recoverInline A set).
Proof.
  intros A L a k set s _. unfold recoverInline, bind, getCurrentToken.
  destruct (LT_cases 1 s) as [[t E] | (e & s' & E)]; rewrite E; exact I.
Qed.

Lemma Advances_noViableAlt : forall A L a k, Advances L a k (@noViableAlt A).
Proof.
  intros A L a k s _. unfold noViableAlt, bind, getCurrentToken.
  destruct (LT_cases 1 s) as [[t E] | (e & s' & E)]; rewrite E; exact I.
Qed.

(** Closes a goal about a run that ends in [recoverInline]. *)
Ltac raises :=
  match goal with
  | |- context [@recoverInline ?A ?x ?s] =>
      let e := fresh "e" in
      let s' := fresh "s" in
      let R := fresh "R" in
      destruct (recoverInline_raises A x s) as (e & s' & R);
      rewrite R; exact Logic.I
  end.

Lemma LT1_cases :
  forall s,
    (exists t rest, input s = t :: rest /\ LT 1 s = Ok t s)
    \/ (input s = [] /\ LT 1 s = Ok EOF_token s)
    \/ (exists e s', LT 1 s = Raise e s').
Proof.
  intro s. unfold LT. destruct (input s) as [|t rest] eqn:I; simpl.
  - destruct (lexFailure s) as [c|]; [|right; left; split; reflexivity].
    right; right. unfold lexerFail, bind, syntaxError, log, lexerRecover, raise.
    destruct (debug s); eauto.
  - left. exists t, rest. split; reflexivity.
Qed.

Lemma consume_cons :
  forall s t rest,
    input s = t :: rest ->
    exists s', (reportMatch ;; consume) s = Ok tt s' /\ input s' = rest.
Proof.
  intros s t rest I.
  unfold bind, reportMatch, endErrorCondition, setErrorRecoveryMode, consume.
  simpl. rewrite I. eexists. split; reflexivity.
Qed.

Lemma consume_nil :
  forall s,
    input s = [] ->
    exists s', (reportMatch ;; consume) s = Ok tt s' /\ input s' = [].
Proof.
  intros s I.
  unfold bind, reportMatch, endErrorCondition, setErrorRecoveryMode, consume.
  simpl. rewrite I. eexists. split; reflexivity.
Qed.

Lemma Advances_matchIf :
  forall L a test expected,
    test EOF_token = false -> Advances L a 1 (matchIf test expected).
Proof.
  intros L a test expected N s _. unfold matchIf, getCurrentToken.
  unfold bind at 1.
  destruct (LT1_cases s) as [(t & rest & I & E) | [[I E] | (e' & s'' & E)]];
    rewrite E; cbv beta iota; [| rewrite N; raises | exact Logic.I].
  destruct (test t); [|raises].
  destruct (consume_cons s I) as (s1 & C & I1).
  unfold bind in C |- *.
  destruct (reportMatch s) as [u s0| |]; try discriminate C.
  rewrite C. unfold ret, remaining. rewrite I, I1. simpl. lia.
Qed.

(** A token other than the end of the input is matched by consuming it. *)
Lemma Advances_matchSet :
  forall L a set, mem EOF set = false -> Advances L a 1 (matchSet set).
Proof.
  intros L a set N.
  exact (@Advances_matchIf L a (fun t => mem (ttype t) set) set N).
Qed.

Lemma Advances_match :
  forall L a t, t <> EOF -> Advances L a 1 (match_ t).
Proof.
  intros L a t N.
  apply (@Advances_matchIf L a (fun t0 => Z.eqb (ttype t0) t) [t]).
  change (ttype EOF_token) with EOF.
  destruct (Z.eqb_spec EOF t); congruence.
Qed.

Lemma Advances_match_EOF : forall L a, Advances L a 0 (match_ EOF).
Proof.
  intros L a s _. unfold match_, getCurrentToken.
  unfold bind at 1.
  destruct (LT1_cases s) as [(t & rest & I & E) | [[I E] | (e' & s'' & E)]];
    rewrite E; cbv beta iota; [| | exact Logic.I].
  - destruct (Z.eqb (ttype t) EOF); [|raises].
    destruct (consume_cons s I) as (s1 & C & I1).
    unfold bind in C |- *.
    destruct (reportMatch s) as [u s0| |]; try discriminate C.
    rewrite C. unfold ret, remaining. rewrite I, I1. simpl. lia.
  - change (Z.eqb (ttype EOF_token) EOF) with true. cbv iota.
    destruct (consume_nil s I) as (s1 & C & I1).
    unfold bind in C |- *.
    destruct (reportMatch s) as [u s0| |]; try discriminate C.
    rewrite C. unfold ret, remaining. rewrite I, I1. simpl. lia.
Qed.

Lemma reportError_returns :
  forall e s, exists s', reportError e s = Ok tt s'.
Proof.
  intros e s. unfold reportError, bind, getDebug, inErrorRecoveryMode.
  destruct (debug s && negb (errorRecoveryMode s)); [|eexists; reflexivity].
  unfold beginErrorCondition, setErrorRecoveryMode.
  destruct e; unfold reportNoViableAlternative, reportInputMismatch,
    reportFailedPredicate, notifyErrorListeners, syntaxError, log; simpl;
    destruct (debug s); eexists; reflexivity.
Qed.

Lemma Advances_ruleBody :
  forall L a k body, Advances L a k body -> Advances L a k (ruleBody body).
Proof.
  intros L a k body H s Hs. specialize (H s Hs). unfold ruleBody.
  destruct (body s) as [t s1|[e|msg] s1|]; auto.
  unfold bind. destruct (reportError_returns e s1) as [s2 E]. rewrite E.
  exact Logic.I.
Qed.

Lemma Advances_speculate :
  forall L a k m, Advances L a k m -> Advances L a 0 (speculate m).
Proof.
  intros L a k m H s Hs. specialize (H s Hs). unfold speculate.
  destruct (m s) as [b s1|[e|msg] s1|]; auto; try lia.
  destruct (String.eqb msg LEXER_ABORT); [exact Logic.I | lia].
Qed.

Lemma loop_advances :
  forall L a cond body,
    Advances L a 0 cond -> Advances L a 1 body ->
    forall n acc s,
      (if a then remaining s < L else remaining s <= L) ->
      remaining s < n ->
      match loop n cond body acc s with
      | Ok _ s' => remaining s' <= remaining s
      | Raise _ _ => True
      | OutOfFuel => False
      end.
Proof.
  intros L a cond body Hc Hb.
  induction n as [|n IH]; intros acc s Hs Hn; [lia|].
  simpl. unfold bind at 1.
  specialize (Hc s Hs). destruct (cond s) as [c s1| |]; auto.
  destruct c; [|simpl; lia].
  assert (Hs1 : if a then remaining s1 < L else remaining s1 <= L)
    by (destruct a; lia).
  unfold bind. specialize (Hb s1 Hs1). destruct (body s1) as [xs s2| |]; auto.
  assert (Hs2 : if a then remaining s2 < L else remaining s2 <= L)
    by (destruct a; lia).
  assert (Hn2 : remaining s2 < n) by lia.
  specialize (IH (acc ++ xs)%list s2 Hs2 Hn2).
  destruct (loop n cond body (acc ++ xs) s2); auto. lia.
Qed.

Lemma Advances_while :
  forall L a cond body,
    Advances L a 0 cond -> Advances L a 1 body ->
    Advances L a 0 (while_ cond body).
Proof.
  intros L a cond body Hc Hb s Hs. unfold while_.
  pose proof (@loop_advances L a cond body Hc Hb (S (List.length (input s))) [] s Hs) as H.
  unfold remaining in H at 1.
  specialize (H (Nat.lt_succ_diag_r _)).
  destruct (loop (S (List.length (input s))) cond body [] s); auto. lia.
Qed.


Lemma checkPrecpred_advances :
  forall L a p k text, Advances L a 0 (checkPrecpred p k text).
Proof.
  intros L a p k text. unfold checkPrecpred.
  destruct (precpred p k); [apply Advances_ret|].
  apply Advances_bind0; [apply Advances_LT | intro; apply Advances_raise].
Qed.

Create HintDb adv.

#[export] Hint Resolve Advances_ret Advances_LT Advances_LA Advances_consume
  Advances_setErrorRecoveryMode Advances_recover Advances_recoverInline
  Advances_noViableAlt Advances_raise Advances_match_EOF
  checkPrecpred_advances : adv.

Ltac notEOF :=
  let H := fresh in intro H; vm_compute in H; discriminate H.

Ltac side :=
  unfold perToken, consumed in *; simpl rank in *; simpl nonempty in *;
  cbv iota; lia.

(** One step of a proof that a computation built from parts that advance
    advances; [call] settles the calls of other rules. *)
Ltac adv_step call :=
  lazy beta iota;
  match goal with
  | |- Advances _ _ _ (ret _) => apply Advances_ret
  | |- Advances _ _ _ (bind _ _) =>
      first [ apply Advances_bind1; [solve [repeat adv_step call] | intros | lia]
            | apply Advances_bind0; [|intros] ]
  | |- Advances _ _ _ (ruleBody _) => apply Advances_ruleBody
  | |- Advances _ _ _ (speculate _) => apply Advances_speculate with (k := 0)
  | |- Advances _ _ _ (while_ _ _) => apply Advances_while
  | |- Advances _ _ _ (match_ EOF) => apply Advances_match_EOF
  | |- Advances _ _ _ (match_ _) =>
      apply Advances_sub with (k := 1); [apply Advances_match; notEOF | lia]
  | |- Advances _ _ _ (matchSet _) =>
      apply Advances_sub with (k := 1);
      [apply Advances_matchSet; reflexivity | lia]
  | |- Advances _ _ _ (match ?x with _ => _ end) => destruct x
  | |- _ => call
  | |- _ => solve [auto with adv]
  | |- _ => apply Advances_sub with (k := 1); [solve [auto with adv] | lia]
  end.

Ltac adv := repeat adv_step ltac:(idtac; fail).

(** ** The rules and decisions that call no rule through [rec] *)

Lemma nextIs_advances : forall L a t, Advances L a 0 (nextIs t).
Proof. intros. unfold nextIs. adv. Qed.
#[export] Hint Resolve nextIs_advances : adv.

Lemma nextIn_advances : forall L a set, Advances L a 0 (nextIn set).
Proof. intros. unfold nextIn. adv. Qed.
#[export] Hint Resolve nextIn_advances : adv.

Lemma label_advances : forall L a, Advances L a 1 label.
Proof. intros. unfold label. adv. Qed.
#[export] Hint Resolve label_advances : adv.

Lemma variable_advances : forall L a, Advances L a 1 variable.
Proof. intros. unfold variable. adv. Qed.
#[export] Hint Resolve variable_advances : adv.

Lemma name_advances : forall L a, Advances L a 1 name.
Proof. intros. unfold name. adv. Qed.
#[export] Hint Resolve name_advances : adv.

Lemma binary_advances : forall L a, Advances L a 1 binary.
Proof. intros. unfold binary. adv. Qed.
#[export] Hint Resolve binary_advances : adv.

Lemma duration_advances : forall L a, Advances L a 1 duration.
Proof. intros. unfold duration. adv. Qed.
#[export] Hint Resolve duration_advances : adv.

Lemma moment_advances : forall L a, Advances L a 1 moment.
Proof. intros. unfold moment. adv. Qed.
#[export] Hint Resolve moment_advances : adv.

Lemma reference_advances : forall L a, Advances L a 1 reference.
Proof. intros. unfold reference. adv. Qed.
#[export] Hint Resolve reference_advances : adv.

Lemma symbol_advances : forall L a, Advances L a 1 symbol.
Proof. intros. unfold symbol. adv. Qed.
#[export] Hint Resolve symbol_advances : adv.

Lemma tag_advances : forall L a, Advances L a 1 tag.
Proof. intros. unfold tag. adv. Qed.
#[export] Hint Resolve tag_advances : adv.

Lemma version_advances : forall L a, Advances L a 1 version.
Proof. intros. unfold version. adv. Qed.
#[export] Hint Resolve version_advances : adv.

Lemma template_advances : forall L a, Advances L a 1 template.
Proof. intros. unfold template. adv. Qed.
#[export] Hint Resolve template_advances : adv.

Lemma text_advances : forall L a, Advances L a 1 text.
Proof. intros. unfold text. adv. Qed.
#[export] Hint Resolve text_advances : adv.

Lemma probability_advances : forall L a, Advances L a 1 probability.
Proof. intros. unfold probability. adv. Qed.
#[export] Hint Resolve probability_advances : adv.

Lemma real_advances : forall L a, Advances L a 1 real.
Proof. intros. unfold real. adv. Qed.
#[export] Hint Resolve real_advances : adv.

Lemma predict37_advances : forall L a, Advances L a 0 predict37.
Proof. intros. unfold predict37. adv. Qed.
#[export] Hint Resolve predict37_advances : adv.

Lemma imaginary_advances : forall L a, Advances L a 1 imaginary.
Proof. intros. unfold imaginary. adv. Qed.
#[export] Hint Resolve imaginary_advances : adv.

Lemma afterReal_advances : forall L a, Advances L a 0 afterReal.
Proof. intros. unfold afterReal. adv. Qed.
#[export] Hint Resolve afterReal_advances : adv.

Lemma predict38_advances : forall L a, Advances L a 0 predict38.
Proof. intros. unfold predict38. adv. Qed.
#[export] Hint Resolve predict38_advances : adv.

Lemma number_advances : forall L a, Advances L a 1 number.
Proof. intros. unfold number. adv. Qed.
#[export] Hint Resolve number_advances : adv.

Lemma percent_advances : forall L a, Advances L a 1 percent.
Proof. intros. unfold percent. adv. Qed.
#[export] Hint Resolve percent_advances : adv.

Lemma predictParameters_advances : forall L a, Advances L a 0 predictParameters.
Proof. intros. unfold predictParameters. adv. Qed.
#[export] Hint Resolve predictParameters_advances : adv.

Lemma predict35_advances : forall L a, Advances L a 0 predict35.
Proof. intros. unfold predict35. adv. Qed.
#[export] Hint Resolve predict35_advances : adv.

Lemma complexAhead_advances : forall L a, Advances L a 0 complexAhead.
Proof. intros. unfold complexAhead. adv. Qed.
#[export] Hint Resolve complexAhead_advances : adv.

Lemma predict32_advances : forall L a, Advances L a 0 predict32.
Proof. intros. unfold predict32. adv. Qed.
#[export] Hint Resolve predict32_advances : adv.

Lemma predict33_advances : forall L a, Advances L a 0 predict33.
Proof. intros. unfold predict33. adv. Qed.
#[export] Hint Resolve predict33_advances : adv.

Lemma predict16_advances : forall L a, Advances L a 0 predict16.
Proof. intros. unfold predict16. adv. Qed.
#[export] Hint Resolve predict16_advances : adv.

Lemma predict17_advances : forall L a, Advances L a 0 predict17.
Proof. intros. unfold predict17. adv. Qed.
#[export] Hint Resolve predict17_advances : adv.

Lemma predict22_advances : forall L a, Advances L a 0 predict22.
Proof. intros. unfold predict22. adv. Qed.
#[export] Hint Resolve predict22_advances : adv.

Lemma optionalLabel_advances : forall L a, Advances L a 0 optionalLabel.
Proof. intros. unfold optionalLabel. adv. Qed.
#[export] Hint Resolve optionalLabel_advances : adv.

Lemma continueClause_advances : forall L a, Advances L a 1 continueClause.
Proof. intros. unfold continueClause. adv. Qed.
#[export] Hint Resolve continueClause_advances : adv.

Lemma breakClause_advances : forall L a, Advances L a 1 breakClause.
Proof. intros. unfold breakClause. adv. Qed.
#[export] Hint Resolve breakClause_advances : adv.

Lemma predict34_advances : forall L a p, Advances L a 0 (predict34 p).
Proof. intros. unfold predict34. adv. Qed.
#[export] Hint Resolve predict34_advances : adv.


Lemma rank_bound : forall r, rank r < perToken.
Proof. intro r. unfold perToken. destruct r; simpl; lia. Qed.

(** ** The rules that call other rules, given fuel enough for the calls *)

Section Rules.

Variable rec : Rec.
Variable fuel : nat.
Hypothesis Hrec : Sufficient rec fuel.

Lemma rec_advances_strict :
  forall L r p k,
    perToken * L <= fuel -> k <= consumed r -> Advances L true k (rec r p).
Proof.
  intros L r p k Hf Hk s Hs. cbv beta iota in Hs.
  pose proof (rank_bound r) as B.
  assert (E : rank r + perToken * remaining s < fuel)
    by (unfold perToken in *; lia).
  pose proof (Hrec r p s E) as G. destruct (rec r p s); auto. lia.
Qed.

Lemma rec_advances_lower :
  forall L r p k,
    rank r + perToken * L < fuel -> k <= consumed r ->
    Advances L false k (rec r p).
Proof.
  intros L r p k Hf Hk s Hs. cbv beta iota in Hs.
  assert (E : rank r + perToken * remaining s < fuel)
    by (unfold perToken in *; lia).
  pose proof (Hrec r p s E) as G. destruct (rec r p s); auto. lia.
Qed.

Ltac call :=
  match goal with
  | |- Advances _ true _ (rec _ _) => apply rec_advances_strict; side
  | |- Advances _ false _ (rec _ _) => apply rec_advances_lower; side
  end.

Ltac advr := repeat adv_step ltac:(idtac; call).


Lemma predict4_advances :
  forall L, rank RULE_composite + perToken * L <= fuel ->
            Advances L false 0 (predict4 rec).
Proof. intros L Hf. unfold predict4. cbn [consumed nonempty]. advr. Qed.

Lemma predict21_advances :
  forall L, rank RULE_evaluateClause + perToken * L <= fuel ->
            Advances L false 0 (predict21 rec).
Proof. intros L Hf. unfold predict21. cbn [consumed nonempty]. advr. Qed.

Hint Resolve predict4_advances predict21_advances : adv.

Lemma document_advances :
  forall L, rank RULE_document + perToken * L <= fuel ->
            Advances L false (consumed RULE_document) (document rec).
Proof. intros L Hf. unfold document. cbn [consumed nonempty]. advr. Qed.

Lemma component_advances :
  forall L, rank RULE_component + perToken * L <= fuel ->
            Advances L false (consumed RULE_component) (component rec).
Proof. intros L Hf. unfold component. cbn [consumed nonempty]. advr. Qed.

Lemma structure_advances :
  forall L, rank RULE_structure + perToken * L <= fuel ->
            Advances L false (consumed RULE_structure) (structure rec).
Proof. intros L Hf. unfold structure. cbn [consumed nonempty]. advr. Qed.

Lemma parameters_advances :
  forall L, rank RULE_parameters + perToken * L <= fuel ->
            Advances L false (consumed RULE_parameters) (parameters rec).
Proof. intros L Hf. unfold parameters. cbn [consumed nonempty]. advr. Qed.

Lemma composite_advances :
  forall L, rank RULE_composite + perToken * L <= fuel ->
            Advances L false (consumed RULE_composite) (composite rec).
Proof. intros L Hf. unfold composite. cbn [consumed nonempty]. advr. Qed.

Lemma range_advances :
  forall L, rank RULE_range + perToken * L <= fuel ->
            Advances L false (consumed RULE_range) (range rec).
Proof. intros L Hf. unfold range. cbn [consumed nonempty]. advr. Qed.

Lemma array_advances :
  forall L, rank RULE_array + perToken * L <= fuel ->
            Advances L false (consumed RULE_array) (array rec).
Proof. intros L Hf. unfold array. cbn [consumed nonempty]. advr. Qed.

Lemma table_advances :
  forall L, rank RULE_table + perToken * L <= fuel ->
            Advances L false (consumed RULE_table) (table rec).
Proof. intros L Hf. unfold table. cbn [consumed nonempty]. advr. Qed.

Lemma association_advances :
  forall L, rank RULE_association + perToken * L <= fuel ->
            Advances L false (consumed RULE_association) (association rec).
Proof. intros L Hf. unfold association. cbn [consumed nonempty]. advr. Qed.

Lemma block_advances :
  forall L, rank RULE_block + perToken * L <= fuel ->
            Advances L false (consumed RULE_block) (block rec).
Proof. intros L Hf. unfold block. cbn [consumed nonempty]. advr. Qed.

Lemma procedure_advances :
  forall L, rank RULE_procedure + perToken * L <= fuel ->
            Advances L false (consumed RULE_procedure) (procedure rec).
Proof. intros L Hf. unfold procedure. cbn [consumed nonempty]. advr. Qed.

Lemma statement_advances :
  forall L, rank RULE_statement + perToken * L <= fuel ->
            Advances L false (consumed RULE_statement) (statement rec).
Proof. intros L Hf. unfold statement. cbn [consumed nonempty]. advr. Qed.

Lemma handleClause_advances :
  forall L, rank RULE_handleClause + perToken * L <= fuel ->
            Advances L false (consumed RULE_handleClause) (handleClause rec).
Proof. intros L Hf. unfold handleClause. cbn [consumed nonempty]. advr. Qed.

Lemma finishClause_advances :
  forall L, rank RULE_finishClause + perToken * L <= fuel ->
            Advances L false (consumed RULE_finishClause) (finishClause rec).
Proof. intros L Hf. unfold finishClause. cbn [consumed nonempty]. advr. Qed.

Lemma evaluateClause_advances :
  forall L, rank RULE_evaluateClause + perToken * L <= fuel ->
            Advances L false (consumed RULE_evaluateClause) (evaluateClause rec).
Proof. intros L Hf. unfold evaluateClause. cbn [consumed nonempty]. advr. Qed.

Lemma checkoutClause_advances :
  forall L, rank RULE_checkoutClause + perToken * L <= fuel ->
            Advances L false (consumed RULE_checkoutClause) (checkoutClause rec).
Proof. intros L Hf. unfold checkoutClause. cbn [consumed nonempty]. advr. Qed.

Lemma saveClause_advances :
  forall L, rank RULE_saveClause + perToken * L <= fuel ->
            Advances L false (consumed RULE_saveClause) (saveClause rec).
Proof. intros L Hf. unfold saveClause. cbn [consumed nonempty]. advr. Qed.

Lemma discardClause_advances :
  forall L, rank RULE_discardClause + perToken * L <= fuel ->
            Advances L false (consumed RULE_discardClause) (discardClause rec).
Proof. intros L Hf. unfold discardClause. cbn [consumed nonempty]. advr. Qed.

Lemma commitClause_advances :
  forall L, rank RULE_commitClause + perToken * L <= fuel ->
            Advances L false (consumed RULE_commitClause) (commitClause rec).
Proof. intros L Hf. unfold commitClause. cbn [consumed nonempty]. advr. Qed.

Lemma publishClause_advances :
  forall L, rank RULE_publishClause + perToken * L <= fuel ->
            Advances L false (consumed RULE_publishClause) (publishClause rec).
Proof. intros L Hf. unfold publishClause. cbn [consumed nonempty]. advr. Qed.

Lemma queueClause_advances :
  forall L, rank RULE_queueClause + perToken * L <= fuel ->
            Advances L false (consumed RULE_queueClause) (queueClause rec).
Proof. intros L Hf. unfold queueClause. cbn [consumed nonempty]. advr. Qed.

Lemma waitClause_advances :
  forall L, rank RULE_waitClause + perToken * L <= fuel ->
            Advances L false (consumed RULE_waitClause) (waitClause rec).
Proof. intros L Hf. unfold waitClause. cbn [consumed nonempty]. advr. Qed.

Lemma ifClause_advances :
  forall L, rank RULE_ifClause + perToken * L <= fuel ->
            Advances L false (consumed RULE_ifClause) (ifClause rec).
Proof. intros L Hf. unfold ifClause. cbn [consumed nonempty]. advr. Qed.

Lemma selectClause_advances :
  forall L, rank RULE_selectClause + perToken * L <= fuel ->
            Advances L false (consumed RULE_selectClause) (selectClause rec).
Proof. intros L Hf. unfold selectClause. cbn [consumed nonempty]. advr. Qed.

Lemma whileClause_advances :
  forall L, rank RULE_whileClause + perToken * L <= fuel ->
            Advances L false (consumed RULE_whileClause) (whileClause rec).
Proof. intros L Hf. unfold whileClause. cbn [consumed nonempty]. advr. Qed.

Lemma withClause_advances :
  forall L, rank RULE_withClause + perToken * L <= fuel ->
            Advances L false (consumed RULE_withClause) (withClause rec).
Proof. intros L Hf. unfold withClause. cbn [consumed nonempty]. advr. Qed.

Lemma returnClause_advances :
  forall L, rank RULE_returnClause + perToken * L <= fuel ->
            Advances L false (consumed RULE_returnClause) (returnClause rec).
Proof. intros L Hf. unfold returnClause. cbn [consumed nonempty]. advr. Qed.

Lemma throwClause_advances :
  forall L, rank RULE_throwClause + perToken * L <= fuel ->
            Advances L false (consumed RULE_throwClause) (throwClause rec).
Proof. intros L Hf. unfold throwClause. cbn [consumed nonempty]. advr. Qed.

Lemma indices_advances :
  forall L, rank RULE_indices + perToken * L <= fuel ->
            Advances L false (consumed RULE_indices) (indices rec).
Proof. intros L Hf. unfold indices. cbn [consumed nonempty]. advr. Qed.

Lemma invocation_advances :
  forall L, rank RULE_invocation + perToken * L <= fuel ->
            Advances L false (consumed RULE_invocation) (invocation rec).
Proof. intros L Hf. unfold invocation. cbn [consumed nonempty]. advr. Qed.

Lemma element_advances :
  forall L, rank RULE_element + perToken * L <= fuel ->
            Advances L false (consumed RULE_element) (element rec).
Proof. intros L Hf. unfold element. cbn [consumed nonempty]. advr. Qed.

Lemma expressionPrimary_advances :
  forall L, rank RULE_expression + perToken * L <= fuel ->
            Advances L false 1 (expressionPrimary rec).
Proof. intros L Hf. unfold expressionPrimary. cbn [consumed nonempty]. advr. Qed.


Lemma expressionOperator_advances :
  forall L p localctx,
    perToken * L <= fuel ->
    Advances L true 1 (expressionOperator rec p localctx).
Proof. intros L p localctx Hf. unfold expressionOperator. advr. Qed.

Lemma expressionLoop_advances :
  forall L, perToken * L <= fuel ->
  forall n p localctx s,
    remaining s < L -> remaining s < n ->
    match expressionLoop n rec p localctx s with
    | Ok _ s' => remaining s' <= remaining s
    | Raise _ _ => True
    | OutOfFuel => False
    end.
Proof.
  intros L Hf. induction n as [|n IH]; intros p localctx s Hs Hn; [lia|].
  simpl. unfold bind at 1.
  pose proof (@predict34_advances L true p s Hs) as P.
  destruct (predict34 p s) as [alt s1| |]; auto.
  destruct (Nat.eqb alt 1); [|simpl; lia].
  assert (Hs1 : remaining s1 < L) by lia.
  unfold bind.
  pose proof (@expressionOperator_advances L p localctx Hf s1 Hs1) as O.
  destruct (expressionOperator rec p localctx s1) as [next s2| |]; auto.
  assert (Hs2 : remaining s2 < L) by lia.
  assert (Hn2 : remaining s2 < n) by lia.
  specialize (IH p next s2 Hs2 Hn2).
  destruct (expressionLoop n rec p next s2); auto. lia.
Qed.

Lemma expression_advances :
  forall L p, rank RULE_expression + perToken * L <= fuel ->
              Advances L false (consumed RULE_expression) (expression rec p).
Proof.
  intros L p Hf. unfold expression. apply Advances_ruleBody.
  intros s Hs. cbv beta iota in Hs. unfold bind.
  pose proof (@expressionPrimary_advances L Hf s Hs) as P.
  destruct (expressionPrimary rec s) as [first s1| |]; auto.
  assert (Hf' : perToken * L <= fuel) by lia.
  assert (Hs1 : remaining s1 < L) by lia.
  pose proof (@expressionLoop_advances L Hf' (S (List.length (input s1))) p first s1 Hs1) as E.
  unfold remaining in E at 1. specialize (E (Nat.lt_succ_diag_r _)).
  destruct (expressionLoop (S (List.length (input s1))) rec p first s1); auto.
  cbn [consumed nonempty]. lia.
Qed.

End Rules.

(** With fuel above the rank of the rule plus [perToken] for each token
    left, a rule function does not run out of fuel. *)
Lemma parse_sufficient : forall fuel, Sufficient (parse fuel) fuel.
Proof.
  induction fuel as [|fuel IH]; intros r p s H; [lia|].
  assert (Hf : rank r + perToken * remaining s <= fuel) by lia.
  assert (Hs : remaining s <= remaining s) by lia.
  destruct r; cbn [parse];
    first
      [ exact (@expression_advances (parse fuel) fuel IH (remaining s) p Hf s Hs)
      | exact (@document_advances (parse fuel) fuel IH (remaining s) Hf s Hs)
      | exact (@component_advances (parse fuel) fuel IH (remaining s) Hf s Hs)
      | exact (@structure_advances (parse fuel) fuel IH (remaining s) Hf s Hs)
      | exact (@parameters_advances (parse fuel) fuel IH (remaining s) Hf s Hs)
      | exact (@composite_advances (parse fuel) fuel IH (remaining s) Hf s Hs)
      | exact (@range_advances (parse fuel) fuel IH (remaining s) Hf s Hs)
      | exact (@array_advances (parse fuel) fuel IH (remaining s) Hf s Hs)
      | exact (@table_advances (parse fuel) fuel IH (remaining s) Hf s Hs)
      | exact (@association_advances (parse fuel) fuel IH (remaining s) Hf s Hs)
      | exact (@block_advances (parse fuel) fuel IH (remaining s) Hf s Hs)
      | exact (@procedure_advances (parse fuel) fuel IH (remaining s) Hf s Hs)
      | exact (@statement_advances (parse fuel) fuel IH (remaining s) Hf s Hs)
      | exact (@handleClause_advances (parse fuel) fuel IH (remaining s) Hf s Hs)
      | exact (@finishClause_advances (parse fuel) fuel IH (remaining s) Hf s Hs)
      | exact (@evaluateClause_advances (parse fuel) fuel IH (remaining s) Hf s Hs)
      | exact (@checkoutClause_advances (parse fuel) fuel IH (remaining s) Hf s Hs)
      | exact (@saveClause_advances (parse fuel) fuel IH (remaining s) Hf s Hs)
      | exact (@discardClause_advances (parse fuel) fuel IH (remaining s) Hf s Hs)
      | exact (@commitClause_advances (parse fuel) fuel IH (remaining s) Hf s Hs)
      | exact (@publishClause_advances (parse fuel) fuel IH (remaining s) Hf s Hs)
      | exact (@queueClause_advances (parse fuel) fuel IH (remaining s) Hf s Hs)
      | exact (@waitClause_advances (parse fuel) fuel IH (remaining s) Hf s Hs)
      | exact (@ifClause_advances (parse fuel) fuel IH (remaining s) Hf s Hs)
      | exact (@selectClause_advances (parse fuel) fuel IH (remaining s) Hf s Hs)
      | exact (@whileClause_advances (parse fuel) fuel IH (remaining s) Hf s Hs)
      | exact (@withClause_advances (parse fuel) fuel IH (remaining s) Hf s Hs)
      | exact (@returnClause_advances (parse fuel) fuel IH (remaining s) Hf s Hs)
      | exact (@throwClause_advances (parse fuel) fuel IH (remaining s) Hf s Hs)
      | exact (@indices_advances (parse fuel) fuel IH (remaining s) Hf s Hs)
      | exact (@invocation_advances (parse fuel) fuel IH (remaining s) Hf s Hs)
      | exact (@element_advances (parse fuel) fuel IH (remaining s) Hf s Hs)
      | exact (@label_advances (remaining s) false s Hs)
      | exact (@variable_advances (remaining s) false s Hs)
      | exact (@name_advances (remaining s) false s Hs)
      | exact (@binary_advances (remaining s) false s Hs)
      | exact (@duration_advances (remaining s) false s Hs)
      | exact (@moment_advances (remaining s) false s Hs)
      | exact (@reference_advances (remaining s) false s Hs)
      | exact (@symbol_advances (remaining s) false s Hs)
      | exact (@tag_advances (remaining s) false s Hs)
      | exact (@version_advances (remaining s) false s Hs)
      | exact (@template_advances (remaining s) false s Hs)
      | exact (@text_advances (remaining s) false s Hs)
      | exact (@probability_advances (remaining s) false s Hs)
      | exact (@real_advances (remaining s) false s Hs)
      | exact (@imaginary_advances (remaining s) false s Hs)
      | exact (@number_advances (remaining s) false s Hs)
      | exact (@percent_advances (remaining s) false s Hs)
      | exact (@continueClause_advances (remaining s) false s Hs)
      | exact (@breakClause_advances (remaining s) false s Hs) ].
Qed.

Lemma parse_never_out_of_fuel :
  forall fuel r p s,
    rank r + perToken * remaining s < fuel -> parse fuel r p s <> OutOfFuel.
Proof.
  intros fuel r p s H E. pose proof (@parse_sufficient fuel r p s H) as S.
  rewrite E in S. exact S.
Qed.

End FuelFacts.

(* ================================================================== *)
(** * The fuel of the visitor is enough *)
(* ================================================================== *)

Module VisitorFacts.
Import Tokens ParseTrees Nodes ParsingVisitor Fuel.

Local Open Scope visitor_scope.

Lemma height_pos : forall t : ParseTree, 1 <= height t.
Proof. intros [c f cs | k]; simpl; lia. Qed.

Lemma children_low :
  forall h (ctx : ParseTree), height ctx <= S h -> AllLow h (children ctx).
Proof.
  intros h [c f cs | k] H; simpl in *; [|constructor].
  apply le_S_n in H. unfold AllLow. revert H.
  induction cs as [|x cs IH]; simpl; intro H; constructor.
  - unfold Low. lia.
  - apply IH. lia.
Qed.

Lemma filter_low :
  forall h (p : ParseTree -> bool) xs, AllLow h xs -> AllLow h (filter p xs).
Proof.
  intros h p xs H. unfold AllLow in *. rewrite Forall_forall in *.
  intros x I. apply filter_In in I. apply H. apply I.
Qed.

Lemma getTypedRuleContexts_low :
  forall h (p : Context -> bool) (ctx : ParseTree),
    height ctx <= S h -> AllLow h (getTypedRuleContexts p ctx).
Proof.
  intros h p ctx H. unfold getTypedRuleContexts.
  apply filter_low. apply children_low. exact H.
Qed.

Lemma tl_low : forall h xs, AllLow h xs -> AllLow h (tl xs).
Proof. intros h [|x xs] H; simpl; [exact H | inversion H; assumption]. Qed.

Lemma nth_error_low :
  forall h xs n, AllLow h xs -> OptLow h (nth_error xs n).
Proof.
  intros h xs n H t E. apply nth_error_In in E.
  unfold AllLow in H. rewrite Forall_forall in H. apply H. exact E.
Qed.

Lemma hd_error_low : forall h xs, AllLow h xs -> OptLow h (hd_error xs).
Proof.
  intros h [|x xs] H t E; simpl in E; [discriminate|].
  inversion E; subst. inversion H; assumption.
Qed.

Lemma getTypedRuleContext_low :
  forall h (p : Context -> bool) i (ctx : ParseTree),
    height ctx <= S h -> OptLow h (getTypedRuleContext p i ctx).
Proof.
  intros h p i ctx H. unfold getTypedRuleContext.
  apply nth_error_low. apply getTypedRuleContexts_low. exact H.
Qed.

Lemma ruleChild_low :
  forall h c ctx, height ctx <= S h -> OptLow h (ruleChild c ctx).
Proof. intros h c ctx H. apply getTypedRuleContext_low. exact H. Qed.

Lemma expressionAt_low :
  forall h i ctx, height ctx <= S h -> OptLow h (expressionAt i ctx).
Proof. intros h i ctx H. apply getTypedRuleContext_low. exact H. Qed.

Lemma Low_S : forall h t, Low h t -> height t <= S h.
Proof. unfold Low. intros. lia. Qed.

Lemma invocationName_low :
  forall h ctx, height ctx <= S h -> OptLow h (invocationName ctx).
Proof.
  intros h ctx H. unfold invocationName.
  destruct (ruleChild InvocationContext ctx) as [i|] eqn:E; [|intros t D; discriminate D].
  apply ruleChild_low. apply Low_S. exact (@ruleChild_low h InvocationContext ctx H i E).
Qed.

Lemma invocationParameters_low :
  forall h ctx, height ctx <= S h -> OptLow h (invocationParameters ctx).
Proof.
  intros h ctx H. unfold invocationParameters.
  destruct (ruleChild InvocationContext ctx) as [i|] eqn:E; [|intros t D; discriminate D].
  apply ruleChild_low. apply Low_S. exact (@ruleChild_low h InvocationContext ctx H i E).
Qed.

Lemma Some_low : forall h x t, OptLow h x -> x = Some t -> OptLow h (Some t).
Proof. intros h x t H E u D. injection D as <-. apply H. exact E. Qed.

Lemma Finishes_vret : forall A (a : A), Finishes (vret a).
Proof. intros A a v. discriminate. Qed.

Lemma Finishes_vthrow : forall A message, Finishes (@vthrow A message).
Proof. intros A message v. discriminate. Qed.

Lemma Finishes_vbind :
  forall A B (m : V A) (f : A -> V B),
    Finishes m -> (forall a, Finishes (f a)) -> Finishes (vbind m f).
Proof.
  intros A B m f Hm Hf v. unfold vbind.
  specialize (Hm v). destruct (m v) as [a v'| |]; try discriminate.
  - apply Hf.
  - contradiction.
Qed.

Lemma Finishes_getResult : Finishes getResult.
Proof. intro v. discriminate. Qed.

Lemma Finishes_setResult : forall r, Finishes (setResult r).
Proof. intros r v. discriminate. Qed.

Lemma Finishes_getDepth : Finishes getDepth.
Proof. intro v. discriminate. Qed.

Lemma Finishes_setDepth : forall d, Finishes (setDepth d).
Proof. intros d v. discriminate. Qed.

Create HintDb fin.

#[export] Hint Resolve Finishes_vret Finishes_vthrow Finishes_getResult
  Finishes_setResult Finishes_getDepth Finishes_setDepth : fin.

#[export] Hint Resolve children_low getTypedRuleContexts_low tl_low
  nth_error_low hd_error_low getTypedRuleContext_low ruleChild_low
  expressionAt_low invocationName_low invocationParameters_low : fin.

#[export] Hint Unfold resultNode resultString tokenText getPadding
  visitToken visitOperator visitTwoExpressions visitOneExpression
  visitArithmeticExpression visitAssociation visitBinary visitBlock
  visitBreakClause visitCatalog visitCheckoutClause visitCommitClause
  visitComparisonExpression visitComplementExpression visitComplexNumber
  visitComponent visitConstantReal visitContinueClause
  visitDefaultExpression visitDereferenceExpression visitDiscardClause
  visitDocument visitDuration visitSubcomponent visitEvaluateClause
  visitExponentialExpression visitFactorialExpression visitFalseProbability
  visitFractionalProbability visitFunxtion visitMessage visitName
  visitFunctionExpression visitHandleClause visitIfClause visitImaginary
  visitImaginaryNumber visitIndices visitInfiniteNumber visitInlineText
  visitInversionExpression visitList visitLogicalExpression
  visitMagnitudeExpression visitMessageExpression visitMoment
  visitNewlineText visitNoneTemplate visitAnyTemplate visitParameters
  visitPercent visitPrecedenceExpression visitProcedure visitPublishClause
  visitQueueClause visitRange visitRealNumber visitReference
  visitReturnClause visitSaveClause visitSelectClause visitStatement
  visitStructure visitSubcomponentExpression visitSymbol visitTag
  visitThrowClause visitTrueProbability visitUndefinedNumber visitVariable
  visitVariableReal visitVersion visitWaitClause visitWhileClause
  visitWithClause visitChildren : fin.

Section Visits.

Variable accept : ParseTree -> V unit.
Variable h : nat.
Hypothesis Haccept : forall t, Low h t -> Finishes (accept t).

Lemma Finishes_acceptOpt :
  forall x, OptLow h x -> Finishes (acceptOpt accept x).
Proof.
  intros [t|] H; simpl; [|apply Finishes_vthrow].
  apply Haccept. apply H. reflexivity.
Qed.

Lemma Finishes_visitInto :
  forall x tree, OptLow h x -> Finishes (visitInto accept x tree).
Proof.
  intros x tree H. unfold visitInto, resultNode.
  apply Finishes_vbind; [apply Finishes_acceptOpt; exact H|]. intros _.
  apply Finishes_vbind; [|intro; apply Finishes_vret].
  apply Finishes_vbind; [apply Finishes_getResult|].
  intros [| | |]; auto with fin.
Qed.

Lemma Finishes_forEachInto :
  forall xs k tree, AllLow h xs -> Finishes (forEachInto accept xs k tree).
Proof.
  induction xs as [|x xs IH]; intros k tree H; simpl.
  - apply Finishes_vret.
  - inversion H; subst. apply Finishes_vbind.
    + apply Finishes_visitInto. intros t E. inversion E; subst. assumption.
    + intro tree'. apply IH. assumption.
Qed.

Lemma Finishes_visitEach :
  forall cs, AllLow h cs -> Finishes (visitEach accept cs).
Proof.
  induction cs as [|c cs IH]; intro H; simpl.
  - apply Finishes_vret.
  - inversion H; subst. destruct c as [k f ks | t].
    + apply Finishes_vbind; [apply Haccept; assumption | intro; apply IH; assumption].
    + apply IH; assumption.
Qed.

Lemma Finishes_visitPairs :
  forall es bs tree,
    AllLow h es -> AllLow h bs -> Finishes (visitPairs accept es bs tree).
Proof.
  induction es as [|e es IH]; intros bs tree He Hb; simpl.
  - apply Finishes_vret.
  - inversion He; subst. apply Finishes_vbind.
    + apply Finishes_visitInto. intros t E. inversion E; subst. assumption.
    + intro tree1. apply Finishes_vbind.
      * apply Finishes_visitInto. apply hd_error_low. exact Hb.
      * intro tree2. apply IH; [assumption | apply tl_low; exact Hb].
Qed.

(** One step of a proof that a visit method finishes. *)
Ltac fin_step :=
  cbv zeta; lazy beta iota;
  match goal with
  | |- Finishes (vbind _ _) => apply Finishes_vbind; [|intros]
  | |- Finishes (acceptOpt accept _) => apply Finishes_acceptOpt
  | |- Finishes (visitInto accept _ _) => apply Finishes_visitInto
  | |- Finishes (forEachInto accept _ _ _) => apply Finishes_forEachInto
  | |- Finishes (visitEach accept _) => apply Finishes_visitEach
  | |- Finishes (visitPairs accept _ _ _) => apply Finishes_visitPairs
  | |- Finishes (accept _) => apply Haccept
  | |- Finishes (match ?x with _ => _ end) => destruct x eqn:?
  | |- Finishes _ => solve [auto with fin]
  | |- Finishes _ => progress autounfold with fin
  | |- OptLow _ (Some _) => eapply Some_low; [|eassumption]
  | |- Low _ _ =>
      match goal with
      | E : ?x = Some ?t |- Low _ ?t =>
          let L := fresh "L" in
          cut (OptLow h x); [intro L; exact (L t E) | auto with fin]
      end
  | |- _ => solve [auto with fin]
  end.

Ltac fin := repeat fin_step.

Lemma Finishes_dispatch :
  forall ctx, height ctx <= S h -> Finishes (dispatch accept ctx).
Proof.
  intros ctx H. unfold dispatch.
  destruct ctx as [c f cs | k]; [|apply Finishes_vret].
  destruct c; fin.
Qed.

End Visits.

Lemma Finishes_accept :
  forall fuel t, height t <= fuel -> Finishes (accept fuel t).
Proof.
  induction fuel as [|fuel IH]; intros t H.
  - pose proof (height_pos t). lia.
  - simpl. apply Finishes_dispatch with (h := fuel); [|exact H].
    intros u L. apply IH. exact L.
Qed.

Lemma convertParseTree_finishes :
  forall antlrTree, convertParseTree antlrTree <> VOutOfFuel.
Proof.
  intro t. unfold convertParseTree.
  pose proof (@Finishes_accept (S (height t)) t (Nat.le_succ_diag_r _)
                (mkVisitor 0 VUndefined)) as F.
  destruct (accept (S (height t)) t (mkVisitor 0 VUndefined));
    [discriminate | discriminate | contradiction].
Qed.

End VisitorFacts.

(* ================================================================== *)
(** * Properties of the parser entry points *)
(* ================================================================== *)

Module ParserFacts.
Import Tokens Lexer ParseTrees Recognizer BaliLanguageParser Nodes.
Import ParsingVisitor Parser TreeShapes Examples Coherence CoherenceFacts.
Import Fuel FuelFacts VisitorFacts.

Lemma initializeParser_sim :
  forall source d1 d2,
    sim (initializeParser source d1) (initializeParser source d2).
Proof. intros; split; reflexivity. Qed.

Lemma initializeParser_quiet :
  forall source d, quiet (initializeParser source d).
Proof. intros; reflexivity. Qed.

(** An entry point returns or throws: with the fuel it is run with,
    neither the rule functions nor the visitor are cut short. *)
Lemma parseRule_finishes :
  forall rule source debug, fst (parseRule rule source debug) <> Unfinished.
Proof.
  intros rule source dbg. unfold parseRule, parseWith.
  assert (F : rank rule
              + perToken * remaining (initializeParser source dbg)
              < fuelFor source).
  { pose proof (rank_bound rule) as B.
    unfold fuelFor, remaining, initializeParser, perToken in *. simpl. lia. }
  pose proof (@parse_never_out_of_fuel (fuelFor source) rule 0
                (initializeParser source dbg) F) as P.
  destruct (parse (fuelFor source) rule 0 (initializeParser source dbg))
    as [a t|[e|m] t|]; try discriminate; [|contradiction].
  pose proof (convertParseTree_finishes a) as C.
  destruct (convertParseTree a); try discriminate. contradiction.
Qed.

(** C9: for every source, every rule and every amount of fuel, the
    outcome of the entry point (the value returned, or the message of the
    error thrown) is the same with [debug] set and with [debug] clear;
    the entry point does return or throw; without [debug] nothing is
    printed. *)
Theorem debug_does_not_change_outcome :
  forall fuel rule source,
    fst (parseWith fuel rule source true) = fst (parseWith fuel rule source false)
    /\ fst (parseRule rule source true) = fst (parseRule rule source false)
    /\ fst (parseRule rule source true) <> Unfinished
    /\ snd (parseWith fuel rule source false) = [].
Proof.
  assert (E : forall fuel rule source,
             fst (parseWith fuel rule source true)
             = fst (parseWith fuel rule source false)).
  { intros fuel rule source. unfold parseWith.
    pose proof (@Coherent_parse fuel rule 0
                  (initializeParser source true) (initializeParser source false)
                  (initializeParser_sim source true false)
                  (initializeParser_quiet source true)
                  (initializeParser_quiet source false)) as H.
    destruct (parse fuel rule 0 (initializeParser source true))
      as [a1 t1|[e1|m1] t1|],
      (parse fuel rule 0 (initializeParser source false))
      as [a2 t2|[e2|m2] t2|]; try contradiction.
    - destruct H as (-> & _). destruct (convertParseTree a2); reflexivity.
    - destruct H as (H & _). discriminate.
    - destruct H as (-> & _). reflexivity.
    - reflexivity. }
  intros fuel rule source. split; [apply E|]. split; [unfold parseRule; apply E|].
  split; [apply parseRule_finishes|].
  unfold parseWith.
  pose proof (@Coherent_parse fuel rule 0
                (initializeParser source false) (initializeParser source false)
                (initializeParser_sim source false false)
                (initializeParser_quiet source false)
                (initializeParser_quiet source false)) as H.
  destruct (parse fuel rule 0 (initializeParser source false))
    as [a t|[e|m] t|].
  - destruct H as (_ & _ & Q & _). destruct (convertParseTree a); exact Q.
  - destruct H as (H & _). discriminate.
  - destruct H as (_ & _ & [_ F] & _). apply F. reflexivity.
  - reflexivity.
Qed.

Lemma ruleBody_returns :
  forall body s tree s', ruleBody body s = Ok tree s' -> body s = Ok tree s'.
Proof.
  intros body s tree s' H. unfold ruleBody in H.
  destruct (body s) as [t u|[e|m] u|]; try exact H; try discriminate H.
  unfold bind in H. destruct (reportError_returns e u) as [u' E].
  rewrite E in H. discriminate H.
Qed.

Lemma ruleBody_throws :
  forall body s e s',
    body s = Raise e s' -> exists message s'', ruleBody body s = Raise (Error message) s''.
Proof.
  intros body s e s' H. unfold ruleBody. rewrite H.
  destruct e as [e|m]; [|eauto].
  unfold bind. destruct (reportError_returns e s') as [u E]. rewrite E.
  unfold recover, raise. eauto.
Qed.

Lemma recoverInline_aborts :
  forall set s, exists message s',
    @recoverInline ParseTree set s = Raise (Error message) s'
    /\ abortMessage message.
Proof.
  intros set s. unfold recoverInline, bind, getCurrentToken, LT.
  destruct (nth_error (input s) (1 - 1)).
  - exists PARSER_ABORT, s. split; [reflexivity | right; reflexivity].
  - destruct (lexFailure s) as [c|].
    + unfold lexerFail, bind, syntaxError.
      destruct (debug s); eexists; eexists;
        (split; [reflexivity | left; reflexivity]).
    + exists PARSER_ABORT, s. split; [reflexivity | right; reflexivity].
Qed.

Lemma parse_fail_fast :
  forall fuel rule source debug,
    match parse fuel rule 0 (initializeParser source debug) with
    | Ok _ s => console s = []
    | Raise (Error message) s =>
        abortMessage message /\ List.length (console s) <= 1
        /\ (debug = false -> console s = [])
    | Raise (Recognition _) _ => False
    | OutOfFuel => True
    end.
Proof.
  intros fuel rule source dbg.
  pose proof (@Coherent_parse fuel rule 0
                (initializeParser source dbg) (initializeParser source dbg)
                (initializeParser_sim source dbg dbg)
                (initializeParser_quiet source dbg)
                (initializeParser_quiet source dbg)) as H.
  destruct (parse fuel rule 0 (initializeParser source dbg))
    as [a t|[e|m] t|].
  - destruct H as (_ & _ & Q & _). exact Q.
  - destruct H as (H & _). discriminate H.
  - destruct H as (_ & A & [L F] & _). auto.
  - exact I.
Qed.

Lemma parseWith_outcome :
  forall fuel rule source debug,
    parse fuel rule 0 (initializeParser source debug) <> OutOfFuel ->
    (exists value, parseWith fuel rule source debug = (Returned value, []))
    \/ (exists message report,
          parseWith fuel rule source debug = (Threw message, report)
          /\ (abortMessage message \/ report = [])
          /\ List.length report <= 1
          /\ (debug = false -> report = [])).
Proof.
  intros fuel rule source dbg F.
  pose proof (parse_fail_fast fuel rule source dbg) as P.
  unfold parseWith.
  destruct (parse fuel rule 0 (initializeParser source dbg))
    as [a t|[e|m] t|].
  - pose proof (convertParseTree_finishes a) as C.
    destruct (convertParseTree a) as [value v|message|].
    + left. exists value. rewrite P. reflexivity.
    + right. exists message, (@nil string). rewrite P.
      split; [reflexivity|]. split; [right; reflexivity|].
      split; [simpl; lia | reflexivity].
    + contradiction.
  - contradiction.
  - right. exists m, (console t). destruct P as (A & L & Q).
    split; [reflexivity|]. split; [left; exact A|]. split; assumption.
  - contradiction.
Qed.

Lemma parseRule_fuel :
  forall rule source debug,
    parse (fuelFor source) rule 0 (initializeParser source debug) <> OutOfFuel.
Proof.
  intros rule source dbg. apply parse_never_out_of_fuel.
  pose proof (rank_bound rule) as B.
  unfold fuelFor, remaining, initializeParser, perToken in *. simpl. lia.
Qed.

(** C4: a parse never recovers from an error.  An entry point either
    returns a value, having reported nothing, or throws, after at most
    one report and after none without [debug].  From the start of any
    source and with any fuel, a rule function either returns with
    nothing reported, or throws one of the two abort errors; a
    recognition exception never reaches the caller.  A rule function
    returns only if its body did, and throws if its body threw; the
    strategy's [recover] and the lexer's [recover] always throw,
    [recoverInline] never supplies a token, and [sync] leaves the
    recognizer as it is. *)
Theorem parsing_is_fail_fast :
  forall rule source debug,
    ((exists value, parseRule rule source debug = (Returned value, []))
     \/ (exists message report,
           parseRule rule source debug = (Threw message, report)
           /\ (abortMessage message \/ report = [])
           /\ List.length report <= 1
           /\ (debug = false -> report = [])))
    /\ (forall fuel,
          match parse fuel rule 0 (initializeParser source debug) with
          | Ok _ s => console s = []
          | Raise (Error message) s =>
              abortMessage message /\ List.length (console s) <= 1
              /\ (debug = false -> console s = [])
          | Raise (Recognition _) _ => False
          | OutOfFuel => True
          end)
    /\ (forall body s tree s',
          ruleBody body s = Ok tree s' -> body s = Ok tree s')
    /\ (forall body s e s',
          body s = Raise e s' ->
          exists message s'', ruleBody body s = Raise (Error message) s'')
    /\ (forall e s, @recover ParseTree e s = Raise (Error PARSER_ABORT) s)
    /\ (forall s, @lexerRecover Token s = Raise (Error LEXER_ABORT) s)
    /\ (forall set s, exists message s',
          @recoverInline ParseTree set s = Raise (Error message) s'
          /\ abortMessage message)
    /\ (forall s, sync s = Ok tt s).
Proof.
  intros rule source dbg.
  split.
  { unfold parseRule. apply parseWith_outcome. apply parseRule_fuel. }
  split; [intro fuel; apply parse_fail_fast|].
  split; [exact ruleBody_returns|].
  split; [exact ruleBody_throws|].
  split; [reflexivity|]. split; [reflexivity|].
  split; [exact recoverInline_aborts | reflexivity].
Qed.


(** ** Layout and round trips *)





(** ** Precedence and associativity of the operators *)

Lemma mem_In : forall x l, mem x l = true <-> In x l.
Proof.
  intros x l. unfold mem. rewrite existsb_exists. split.
  - intros (y & I & E). apply Z.eqb_eq in E. subst. exact I.
  - intro I. exists x. split; [exact I | apply Z.eqb_refl].
Qed.

Lemma operatorLevel_arithmetic :
  forall la, mem la arithmeticOps = true -> operatorLevel la = Some 6%Z.
Proof.
  intros la H. apply mem_In in H. unfold arithmeticOps in H. simpl in H.
  repeat (destruct H as [H | H]; [subst la; reflexivity|]).
  contradiction.
Qed.

Lemma operatorLevel_lowest :
  forall la k, operatorLevel la = Some k ->
               (1 <= k)%Z /\ (k = 1%Z -> la = T__58).
Proof.
  intros la k. unfold operatorLevel.
  repeat match goal with
         | |- context [if ?c then _ else _] => destruct c eqn:?
         end;
    intro H; inversion H; subst; split; try lia; intro K;
    first [discriminate K | apply Z.eqb_eq; assumption].
Qed.

(** The loop of [expression] entered with precedence [p], looking at an
    operator token. *)
Lemma predict34_at :
  forall p t rest lf d r c,
    predict34 p (mkState (t :: rest) lf d r c)
    = Ok (match operatorLevel (ttype t) with
          | Some k => if precpred p k then 1%nat else 2%nat
          | None => 2%nat
          end) (mkState (t :: rest) lf d r c).
Proof. intros. reflexivity. Qed.

(** C2, as stated, fails for its first example: the right operand of the
    node for [2 + 3 * 4] is not an arithmetic expression. *)
Lemma product_is_not_the_right_operand :
  ~ exists size operator left size' operator' children',
      fst (parseExpression "2 + 3 * 4" false)
      = Returned (VNode (Tree ARITHMETIC_EXPRESSION size operator
                              [left; Tree ARITHMETIC_EXPRESSION size' operator'
                                          children'])).
Proof.
  intros (size & operator & left & size' & operator' & children' & H).
  vm_compute in H. discriminate H.
Qed.

(** C2, amended: the five arithmetic operators share one precedence level
    and group from the left, so [2 + 3 * 4] is the product of [2 + 3] and
    [4]; [^] groups from the right, so [2 ^ 3 ^ 2] is [2] to the power
    [3 ^ 2]. *)
Theorem arithmetic_is_one_level_exponent_groups_right :
  parseExpression "2 + 3 * 4" false
  = (Returned
       (VNode
          (Tree ARITHMETIC_EXPRESSION 9 (Some "*")
             [Tree ARITHMETIC_EXPRESSION 5 (Some "+")
                [numberComponent "2"; numberComponent "3"];
              numberComponent "4"])), [])
  /\ parseExpression "2 ^ 3 ^ 2" false
     = (Returned
          (VNode
             (Tree EXPONENTIAL_EXPRESSION 9 None
                [numberComponent "2";
                 Tree EXPONENTIAL_EXPRESSION 5 None
                   [numberComponent "3"; numberComponent "2"]])), [])
  /\ (forall la, mem la arithmeticOps = true -> operatorLevel la = Some 6%Z)
  /\ operatorLevel T__41 = Some 8%Z
  /\ (forall t rest lf d r c,
        mem (ttype t) arithmeticOps = true ->
        predict34 7 (mkState (t :: rest) lf d r c)
        = Ok 2%nat (mkState (t :: rest) lf d r c))
  /\ (forall t rest lf d r c,
        ttype t = T__41 ->
        predict34 8 (mkState (t :: rest) lf d r c)
        = Ok 1%nat (mkState (t :: rest) lf d r c)).
Proof.
  split; [vm_compute; reflexivity|].
  split; [vm_compute; reflexivity|].
  split; [exact operatorLevel_arithmetic|].
  split; [reflexivity|].
  split.
  - intros t rest lf d r c H. rewrite predict34_at.
    rewrite (operatorLevel_arithmetic _ H). reflexivity.
  - intros t rest lf d r c H. rewrite predict34_at. rewrite H. reflexivity.
Qed.

(** C5, as stated, fails: [a ? b ? c] is not [a ? (b ? c)]; its second
    operand is the variable [c]. *)
Lemma default_does_not_group_right :
  ~ exists size operator left size' operator' children',
      fst (parseExpression "a ? b ? c" false)
      = Returned (VNode (Tree DEFAULT_EXPRESSION size operator
                              [left; Tree DEFAULT_EXPRESSION size' operator'
                                          children'])).
Proof.
  intros (size & operator & left & size' & operator' & children' & H).
  vm_compute in H. discriminate H.
Qed.

(** C5, amended: [?] has the lowest precedence level, 1, below the
    logical operators, and groups from the left: [a ? b ? c] is
    [(a ? b) ? c]. *)
Theorem default_is_lowest_and_groups_left :
  operatorLevel T__58 = Some 1%Z
  /\ (forall la k, operatorLevel la = Some k ->
                   (1 <= k)%Z /\ (k = 1%Z -> la = T__58))
  /\ (forall la, mem la logicalOps = true -> operatorLevel la = Some 2%Z)
  /\ parseExpression "a ? b ? c" false
     = (Returned
          (VNode
             (Tree DEFAULT_EXPRESSION 9 None
                [Tree DEFAULT_EXPRESSION 5 None
                   [Terminal VARIABLE "a" 1; Terminal VARIABLE "b" 1];
                 Terminal VARIABLE "c" 1])), [])
  /\ parseExpression "a or b ? c" false
     = (Returned
          (VNode
             (Tree DEFAULT_EXPRESSION 12 None
                [Tree LOGICAL_EXPRESSION 8 (Some "or")
                   [Terminal VARIABLE "a" 1; Terminal VARIABLE "b" 1];
                 Terminal VARIABLE "c" 1])), [])
  /\ parseExpression "a ? b or c" false
     = (Returned
          (VNode
             (Tree DEFAULT_EXPRESSION 12 None
                [Terminal VARIABLE "a" 1;
                 Tree LOGICAL_EXPRESSION 8 (Some "or")
                   [Terminal VARIABLE "b" 1; Terminal VARIABLE "c" 1]])), [])
  /\ (forall t rest lf d r c,
        ttype t = T__58 ->
        predict34 2 (mkState (t :: rest) lf d r c)
        = Ok 2%nat (mkState (t :: rest) lf d r c)).
Proof.
  split; [reflexivity|].
  split; [exact operatorLevel_lowest|].
  split.
  { intros la H. apply mem_In in H. unfold logicalOps in H. simpl in H.
    repeat (destruct H as [H | H]; [subst la; reflexivity|]).
    contradiction. }
  split; [vm_compute; reflexivity|].
  split; [vm_compute; reflexivity|].
  split; [vm_compute; reflexivity|].
  intros t rest lf d r c H. rewrite predict34_at. rewrite H. reflexivity.
Qed.

(** ** Statements and collections *)




End ParserFacts.

(* ================================================================== *)
(** * Properties of the transforming visitor *)
(* ================================================================== *)

Module TransformerFacts.
Import Tokens ParseTrees ParseTreeToObject.

(** C3, as stated, fails for blocks: the document that is a block with
    no statements is not transformed into an object. *)
Lemma block_is_not_transformed :
  ~ exists object,
      generateJavaScriptObject
        (blockDocument (RuleNode EmptyStatementsContext [] []))
      = Returned object.
Proof. intros [object H]. vm_compute in H. discriminate H. Qed.

(** C3, amended: every expression other than a document used as an
    expression, and every list of indices, is refused with the error
    for expressions; every block is refused with the error for
    statements; binary, moment, reference, symbol, tag, version, text,
    probability, template and number elements become objects made from
    the text of their token; the source [5] becomes the number made from
    the text [5], and the source [[1,2,3]] becomes a composite holding
    the numbers made from [1], [2] and [3], in that order. *)
Theorem expressions_and_blocks_are_refused :
  (forall c fields children,
      isExpressionContext c = true -> c <> DocumentExpressionContext ->
      generateJavaScriptObject (RuleNode c fields children)
      = Threw EXPRESSIONS_ERROR)
  /\ (forall fields children,
        generateJavaScriptObject (RuleNode IndicesContext fields children)
        = Threw EXPRESSIONS_ERROR)
  /\ (forall fields children,
        generateJavaScriptObject (RuleNode BlockContext fields children)
        = Threw STATEMENTS_ERROR)
  /\ (forall statements,
        generateJavaScriptObject (blockDocument statements)
        = Threw STATEMENTS_ERROR)
  /\ (forall text,
        generateJavaScriptObject
          (elementDocument (RuleNode BinaryContext [] [terminal BINARY text]))
        = Returned (JsNew "Binary" [JsString text] None))
  /\ (forall text,
        generateJavaScriptObject
          (elementDocument (RuleNode MomentContext [] [terminal MOMENT text]))
        = Returned (JsNew "Moment" [JsString text] None))
  /\ (forall text,
        generateJavaScriptObject
          (elementDocument (RuleNode ReferenceContext [] [terminal RESOURCE text]))
        = Returned (JsNew "Reference" [JsString text] None))
  /\ (forall text,
        generateJavaScriptObject
          (elementDocument (RuleNode SymbolContext [] [terminal SYMBOL text]))
        = Returned (JsNew "Symbol" [JsString text] None))
  /\ (forall text,
        generateJavaScriptObject
          (elementDocument (RuleNode TagContext [] [terminal TAG text]))
        = Returned (JsNew "Tag" [JsString text] None))
  /\ (forall text,
        generateJavaScriptObject
          (elementDocument (RuleNode VersionContext [] [terminal VERSION text]))
        = Returned (JsNew "Version" [JsString text] None))
  /\ (forall text,
        generateJavaScriptObject
          (elementDocument (RuleNode InlineTextContext [] [terminal TEXT text]))
        = Returned (JsNew "Text" [JsString text] None))
  /\ (forall text,
        generateJavaScriptObject
          (elementDocument (RuleNode BlockTextContext [] [terminal TEXT_BLOCK text]))
        = Returned (JsNew "Text" [JsString text] None))
  /\ (forall text,
        generateJavaScriptObject
          (elementDocument
             (RuleNode FractionalProbabilityContext [] [terminal FRACTION text]))
        = Returned (JsNew "Probability" [JsString text] None))
  /\ generateJavaScriptObject
       (elementDocument (RuleNode TrueProbabilityContext [] [terminal T__64 "true"]))
     = Returned (JsStatic "Probability.TRUE" None)
  /\ generateJavaScriptObject
       (elementDocument (RuleNode NoneAnyContext [] [terminal T__66 "none"]))
     = Returned (JsStatic "Any.NONE" None)
  /\ (forall text,
        generateJavaScriptObject (elementDocument (floatNumber text))
        = Returned (JsNew "Complex" [JsString text] None))
  /\ generateJavaScriptObject tree_5
     = Returned (JsNew "Complex" [JsString "5"] None)
  /\ generateJavaScriptObject tree_1_2_3
     = Returned
         (JsNew "Composite"
            [JsArray [JsNew "Complex" [JsString "1"] None;
                      JsNew "Complex" [JsString "2"] None;
                      JsNew "Complex" [JsString "3"] None];
             JsString "InlineArrayContext"] None).
Proof.
  split.
  { intros c fields children E N.
    destruct c; try discriminate E; try reflexivity.
    exfalso; apply N; reflexivity. }
  repeat split; intros; reflexivity.
Qed.

End TransformerFacts.

(* ================================================================== *)
(** * Properties of versions *)
(* ================================================================== *)

Module VersionFacts.
Import Regex Tokens Lexer Recognizer BaliLanguageParser Parser.
Import Elements TokenShapes Examples RegexFacts LexerFacts.

Lemma hasZero_In : forall value, hasZero value = true <-> In 0%Z value.
Proof.
  intro value. unfold hasZero. rewrite existsb_exists. split.
  - intros (x & I & E). apply Z.eqb_eq in E. subst x. exact I.
  - intro I. exists 0%Z. split; [exact I | reflexivity].
Qed.

(** C10: a version value is accepted as a VERSION token, written behind
    the letter v, exactly when it is made of natural numbers separated by
    dots, each beginning with a digit from 1 to 9, and every VERSION
    token the lexer delivers has that form; the values [1.0], [1.0.2]
    and [1.] are not accepted and as documents they are refused, while
    [42], [41.6] and [2.13.5] are accepted and kept as they are; the
    constructor refuses exactly the arrays of levels that hold a zero
    and keeps the others unchanged. *)
Theorem version_levels_are_not_zero :
  (forall value,
      lexesAs VERSION_r (versionLiteral value) = true
      <-> versionValue (list_ascii_of_string value))
  /\ (forall source,
        lexesAs VERSION_r source = true
        <-> TokenShapes.version (list_ascii_of_string source))
  /\ (forall fuel w t,
        In t (tokens (scan fuel w)) -> ttype t = Tokens.VERSION ->
        TokenShapes.version (list_ascii_of_string (Tokens.text t)))
  /\ lexesAs VERSION_r (versionLiteral "1.0") = false
  /\ lexesAs VERSION_r (versionLiteral "1.0.2") = false
  /\ lexesAs VERSION_r (versionLiteral "1.") = false
  /\ lexesAs VERSION_r (versionLiteral "42") = true
  /\ lexesAs VERSION_r (versionLiteral "41.6") = true
  /\ lexesAs VERSION_r (versionLiteral "2.13.5") = true
  /\ parseDocument (versionLiteral "1.0") false = (Threw PARSER_ABORT, [])
  /\ parseDocument (versionLiteral "1.0.2") false = (Threw PARSER_ABORT, [])
  /\ parseDocument (versionLiteral "1.") false = (Threw PARSER_ABORT, [])
  /\ parseDocument (versionLiteral "42") false
     = (Returned (elementValue Nodes.VERSION (versionLiteral "42")), [])
  /\ parseDocument (versionLiteral "41.6") false
     = (Returned (elementValue Nodes.VERSION (versionLiteral "41.6")), [])
  /\ parseDocument (versionLiteral "2.13.5") false
     = (Returned (elementValue Nodes.VERSION (versionLiteral "2.13.5")), [])
  /\ (forall value, In 0%Z value ->
                    exists exception, newVersion (Some value) = inr exception)
  /\ (forall value, ~ In 0%Z value ->
                    newVersion (Some value) = inl (mkVersion value))
  /\ newVersion (Some [42%Z]) = inl (mkVersion [42%Z])
  /\ newVersion (Some [41%Z; 6%Z]) = inl (mkVersion [41%Z; 6%Z])
  /\ newVersion (Some [2%Z; 13%Z; 5%Z]) = inl (mkVersion [2%Z; 13%Z; 5%Z])
  /\ (exists exception, newVersion (Some [1%Z; 0%Z]) = inr exception)
  /\ (exists exception, newVersion (Some [1%Z; 0%Z; 2%Z]) = inr exception)
  /\ newVersion None = inl (mkVersion [1%Z]).
Proof.
  split; [exact versionLiteral_spec|].
  split.
  { intro source. rewrite lexesAs_spec. apply Lang_VERSION. }
  split.
  { intros fuel w t I T. apply Lang_VERSION.
    exact (@token_of_rule Tokens.VERSION VERSION_r fuel w t rules_VERSION I T). }
  do 12 (split; [vm_compute; reflexivity|]).
  split.
  { intros value I. apply hasZero_In in I. unfold newVersion. rewrite I.
    eexists. reflexivity. }
  split.
  { intros value N. unfold newVersion.
    destruct (hasZero value) eqn:E; [|reflexivity].
    apply hasZero_In in E. contradiction. }
  do 3 (split; [reflexivity|]).
  split; [eexists; reflexivity|].
  split; [eexists; reflexivity|].
  reflexivity.
Qed.

End VersionFacts.

(** * Versions: ordering, next versions and the iterator *)
Module VersionMethodFacts.

Import Elements.
Local Open Scope Z_scope.

Lemma compareLevels_antisym (a b : list Z) :
  compareLevels a b = - compareLevels b a.
Proof.
  revert b; induction a as [|x a IH]; intros [|y b]; simpl; try reflexivity.
  destruct (x <? y) eqn:A, (y <? x) eqn:B, (x >? y) eqn:C, (y >? x) eqn:D;
    try reflexivity; try apply IH; lia.
Qed.

Lemma compareLevels_range (a b : list Z) :
  compareLevels a b = -1 \/ compareLevels a b = 0 \/ compareLevels a b = 1.
Proof.
  revert b; induction a as [|x a IH]; intros [|y b]; simpl; auto.
  destruct (x <? y); auto. destruct (x >? y); auto.
Qed.

Lemma compareLevels_eq (a b : list Z) :
  compareLevels a b = 0 <-> a = b.
Proof.
  revert b; induction a as [|x a IH]; intros [|y b]; simpl;
    try (split; [discriminate|discriminate]); try tauto.
  destruct (x <? y) eqn:A; [split; [discriminate | intros [= -> ->]; lia]|].
  destruct (x >? y) eqn:B; [split; [discriminate | intros [= -> ->]; lia]|].
  rewrite IH. assert (x = y) by lia. subst. split; [intros ->; reflexivity | intros [= ->]; reflexivity].
Qed.

Lemma compareLevels_trans (a b c : list Z) :
  compareLevels a b = -1 -> compareLevels b c = -1 -> compareLevels a c = -1.
Proof.
  revert b c; induction a as [|x a IH]; intros [|y b] [|z c]; simpl;
    try discriminate; try reflexivity.
  destruct (x <? y) eqn:A.
  - intros _. destruct (y <? z) eqn:B.
    + intros _. assert ((x <? z) = true) as -> by lia. reflexivity.
    + destruct (y >? z) eqn:C; [discriminate|]. intros _.
      assert ((x <? z) = true) as -> by lia. reflexivity.
  - destruct (x >? y) eqn:A'; [discriminate|]. intros H1.
    destruct (y <? z) eqn:B.
    + intros _. assert ((x <? z) = true) as -> by lia. reflexivity.
    + destruct (y >? z) eqn:C; [discriminate|]. intros H2.
      assert ((x <? z) = false) as -> by lia.
      assert ((x >? z) = false) as -> by lia. eauto.
Qed.

Lemma incrementAt_spec (k : nat) (l : list Z) (x : Z) :
  nth_error l k = Some x ->
  incrementAt k l = (firstn k l ++ (x + 1) :: skipn (S k) l)%list.
Proof.
  revert l; induction k as [|k IH]; intros [|y l]; simpl; try discriminate.
  - intros [= ->]. reflexivity.
  - intros H. rewrite (IH _ H). reflexivity.
Qed.

Lemma nextLevels_inside (l : list Z) (k : nat) (x : Z) :
  nth_error l k = Some x ->
  nextLevels l (Some (Z.of_nat k + 1)) = (firstn k l ++ [x + 1])%list.
Proof.
  intros H.
  assert (k < List.length l)%nat as Hk by (apply nth_error_Some; congruence).
  unfold nextLevels.
  replace (Z.of_nat k + 1 =? 0) with false by lia.
  replace (Z.of_nat k + 1 - 1) with (Z.of_nat k) by lia.
  replace (Z.of_nat k <? Z.of_nat (List.length l)) with true by lia.
  unfold increment. replace (Z.of_nat k <? 0) with false by lia.
  rewrite Nat2Z.id, (@incrementAt_spec k l x H).
  unfold splice.
  replace (Z.of_nat k + 1 <? 0) with false by lia.
  rewrite length_app, length_firstn. cbn [List.length]. rewrite length_skipn.
  replace (Z.to_nat _) with (List.length (firstn k l ++ [x + 1]))
    by (rewrite length_app, length_firstn; simpl; lia).
  change (firstn k l ++ x + 1 :: skipn (S k) l)%list
    with (firstn k l ++ ([x + 1] ++ skipn (S k) l))%list.
  rewrite app_assoc, firstn_app, Nat.sub_diag, firstn_all. simpl.
  apply app_nil_r.
Qed.


Lemma validNextLevels_spec (c n : list Z) :
  validNextLevels c n = true <->
  (exists k x, nth_error c k = Some x /\ n = (firstn k c ++ [x + 1])%list)
  \/ n = (c ++ [1])%list.
Proof.
  revert n; induction c as [|y c IH]; intros n.
  - simpl. split.
    + destruct n as [|z [|? ?]]; try discriminate.
      intros H. right. f_equal. lia.
    + intros [(k & x & H & _)| -> ]; [destruct k; discriminate|reflexivity].
  - destruct n as [|z n]; cbn [validNextLevels].
    + split; [discriminate|].
      intros [(k & x & _ & H)|H]; [destruct k|]; discriminate.
    + destruct (y =? z) eqn:E.
      * apply Z.eqb_eq in E. subst z. rewrite IH. split.
        -- intros [(k & x & H & ->)| -> ]; [left; exists (S k), x; auto | right; auto].
        -- intros [(k & x & H & K)| K].
           ++ destruct k as [|k]; simpl in H, K.
              ** injection H as ->. injection K as K _. lia.
              ** injection K as ->. left; eauto.
           ++ injection K as ->. right; reflexivity.
      * apply Z.eqb_neq in E. split.
        -- intros H. apply andb_true_iff in H. destruct H as [H1 H2].
           apply Z.eqb_eq in H1. apply Nat.eqb_eq in H2.
           destruct n; [|discriminate]. subst z.
           left. exists O, y. auto.
        -- intros [(k & x & H & K)| K].
           ++ destruct k as [|k]; simpl in H, K.
              ** injection H as ->. injection K as -> ->. rewrite Z.eqb_refl. reflexivity.
              ** injection K as K _. congruence.
           ++ injection K as K _. congruence.
Qed.

Lemma hasZero_false (l : list Z) : hasZero l = false <-> ~ In 0 l.
Proof.
  unfold hasZero. induction l as [|x l IH]; simpl; [tauto|].
  rewrite orb_false_iff, IH.
  split.
  - intros [A B] [C|C]; [subst; discriminate | tauto].
  - intros H. split; [|tauto]. destruct x; try reflexivity. tauto.
Qed.


Lemma compareLevels_greater_inside (c : list Z) (k : nat) (x : Z) :
  nth_error c k = Some x -> compareLevels (firstn k c ++ [x + 1]) c = 1.
Proof.
  revert c; induction k as [|k IH]; intros [|y c]; simpl; try discriminate.
  - intros [= ->]. replace (x + 1 <? x) with false by lia.
    replace (x + 1 >? x) with true by lia. reflexivity.
  - intros H. replace (y <? y) with false by lia.
    replace (y >? y) with false by lia. auto.
Qed.

Lemma compareLevels_greater_outside (c : list Z) (x : Z) :
  compareLevels (c ++ [x]) c = 1.
Proof.
  induction c as [|y c IH]; simpl; [reflexivity|].
  replace (y <? y) with false by lia.
  replace (y >? y) with false by lia. auto.
Qed.

Lemma validNextLevels_greater (c n : list Z) :
  validNextLevels c n = true -> compareLevels n c = 1.
Proof.
  intros H. apply validNextLevels_spec in H.
  destruct H as [(k & x & H & ->)| ->].
  - apply compareLevels_greater_inside; assumption.
  - apply compareLevels_greater_outside.
Qed.

Lemma compareLevels_prefix (c : list Z) (n : nat) :
  (n < List.length c)%nat -> compareLevels (firstn n c) c = -1.
Proof.
  revert c; induction n as [|n IH]; intros [|y c]; simpl; try lia; auto.
  intros H. replace (y <? y) with false by lia.
  replace (y >? y) with false by lia. apply IH. lia.
Qed.

(** X1: [comparedTo] between two versions answers -1, 0 or 1, and
    comparing them the other way round answers the opposite number. *)
Theorem comparedTo_is_antisymmetric (a b : Version) :
  comparedTo a (Some b) = - comparedTo b (Some a)
  /\ (comparedTo a (Some b) = -1 \/ comparedTo a (Some b) = 0
      \/ comparedTo a (Some b) = 1).
Proof.
  split; [apply compareLevels_antisym | apply compareLevels_range].
Qed.

(** X2: [comparedTo] answers 0 exactly when the two versions have the
    same levels. *)
Theorem comparedTo_zero_iff_same_levels (a b : Version) :
  comparedTo a (Some b) = 0 <-> getValue a = getValue b.
Proof. apply compareLevels_eq. Qed.

(** X3: the order of [comparedTo] is transitive: a version below a
    second one that is below a third is below the third. *)
Theorem comparedTo_is_transitive (a b c : Version) :
  comparedTo a (Some b) = -1 -> comparedTo b (Some c) = -1 ->
  comparedTo a (Some c) = -1.
Proof. apply compareLevels_trans. Qed.

Lemma comparedTo_is_transitive_witness :
  comparedTo (mkVersion [1; 2]) (Some (mkVersion [1; 2; 1])) = -1
  /\ comparedTo (mkVersion [1; 2; 1]) (Some (mkVersion [1; 3])) = -1
  /\ comparedTo (mkVersion [1; 2]) (Some (mkVersion [1; 3])) = -1.
Proof.
  split; [reflexivity|]. split; [reflexivity|].
  apply (@comparedTo_is_transitive (mkVersion [1; 2]) (mkVersion [1; 2; 1])
           (mkVersion [1; 3])); reflexivity.
Defined.



(** X5: a version that [validNextVersion] accepts compares greater
    than the current one. *)
Theorem valid_next_version_is_greater (v w : Version) :
  validNextVersion v w = true ->
  comparedTo w (Some v) = 1 /\ comparedTo v (Some w) = -1.
Proof.
  intros H. apply validNextLevels_greater in H. rename H into G.
  unfold comparedTo. split; [assumption|].
  rewrite compareLevels_antisym, G. reflexivity.
Qed.

Lemma valid_next_version_is_greater_witness :
  validNextVersion (mkVersion [5; 7]) (mkVersion [5; 7; 1]) = true
  /\ comparedTo (mkVersion [5; 7; 1]) (Some (mkVersion [5; 7])) = 1
  /\ comparedTo (mkVersion [5; 7]) (Some (mkVersion [5; 7; 1])) = -1.
Proof.
  split; [reflexivity|].
  apply (@valid_next_version_is_greater (mkVersion [5; 7]) (mkVersion [5; 7; 1])).
  reflexivity.
Defined.


Lemma In_firstn (n : nat) (l : list Z) (x : Z) : In x (firstn n l) -> In x l.
Proof.
  intros H. rewrite <- (firstn_skipn n l). apply in_or_app. left; exact H.
Qed.


Lemma positive_hasZero (l : list Z) : Forall (fun x => 0 < x) l -> hasZero l = false.
Proof.
  intros H. apply hasZero_false. intros K.
  rewrite Forall_forall in H. apply H in K. lia.
Qed.

Lemma positive_firstn (n : nat) (l : list Z) : Forall (fun x => 0 < x) l -> Forall (fun x => 0 < x) (firstn n l).
Proof.
  intros H. rewrite Forall_forall in *.
  intros x K. apply H. eapply In_firstn; eauto.
Qed.

Lemma positive_incrementAt (k : nat) (l : list Z) :
  Forall (fun x => 0 < x) l -> Forall (fun x => 0 < x) (incrementAt k l).
Proof.
  revert l; induction k as [|k IH]; intros [|y l] H; simpl; auto;
    inversion H; subst; constructor; auto; lia.
Qed.

Lemma positive_nextLevels (l : list Z) (level : option Z) :
  Forall (fun x => 0 < x) l -> Forall (fun x => 0 < x) (nextLevels l level).
Proof.
  intros H. unfold nextLevels.
  match goal with |- Forall (fun x => 0 < x) (if ?c then _ else _) => destruct c end.
  - unfold splice. apply positive_firstn. unfold increment.
    match goal with |- Forall (fun x => 0 < x) (if ?c then _ else _) => destruct c end;
      [assumption | apply positive_incrementAt; assumption].
  - apply Forall_app. split; [assumption|].
    constructor; [lia | constructor].
Qed.

(** X6: when every level is positive, [nextVersion] throws for no
    [level] argument, and every level of the version it returns is
    positive. *)
Theorem nextVersion_of_positive_levels (v : Version) (level : option Z) :
  Forall (fun x => 0 < x) (getValue v) ->
  exists w, nextVersion v level = inl w
            /\ Forall (fun x => 0 < x) (getValue w).
Proof.
  intros H. exists (mkVersion (nextLevels (getValue v) level)).
  pose proof (@positive_nextLevels _ level H) as P.
  split; [|exact P].
  unfold nextVersion, newVersion. rewrite (positive_hasZero P). reflexivity.
Qed.

Lemma nextVersion_of_positive_levels_witness :
  Forall (fun x => 0 < x) (getValue (mkVersion [5; 7]))
  /\ exists w, nextVersion (mkVersion [5; 7]) (Some 1) = inl w
               /\ Forall (fun x => 0 < x) (getValue w).
Proof.
  assert (Forall (fun x => 0 < x) (getValue (mkVersion [5; 7]))) as H
    by (repeat constructor).
  split; [exact H|].
  apply (@nextVersion_of_positive_levels (mkVersion [5; 7]) (Some 1) H).
Defined.

Lemma nextLevels_negative (l : list Z) (level : Z) :
  level < 0 ->
  nextLevels l (Some level)
  = firstn (Z.to_nat (Z.of_nat (List.length l) + level)) l.
Proof.
  intros H. unfold nextLevels.
  replace (level =? 0) with false by lia.
  replace (level - 1 <? Z.of_nat (List.length l)) with true
    by (symmetry; apply Z.ltb_lt; lia).
  unfold increment. replace (level - 1 <? 0) with true by lia.
  unfold splice. replace (level - 1 + 1) with level by lia.
  replace (level <? 0) with true by lia.
  f_equal. lia.
Qed.

Lemma hasZero_firstn (n : nat) (l : list Z) :
  hasZero l = false -> hasZero (firstn n l) = false.
Proof.
  rewrite !hasZero_false. intros H K. apply H. eapply In_firstn; eauto.
Qed.

Lemma validNextLevels_longer (c n : list Z) :
  validNextLevels c n = true -> (List.length n <= List.length c + 1)%nat.
Proof.
  intros H. apply validNextLevels_spec in H.
  destruct H as [(k & x & H & ->)| ->].
  - rewrite length_app, length_firstn. simpl. lia.
  - rewrite length_app. simpl. lia.
Qed.

(** X7: at a negative [level], [nextVersion] increments nothing: it
    returns the version of the first [size + level] levels (none when
    that is negative), which compares lower than the current one and is
    refused by [validNextVersion]. *)
Theorem nextVersion_at_negative_level (v : Version) (level : Z) :
  level < 0 -> hasZero (getValue v) = false -> getValue v <> [] ->
  exists w,
    nextVersion v (Some level) = inl w
    /\ getValue w = firstn (Z.to_nat (Z.of_nat (getSize v) + level)) (getValue v)
    /\ comparedTo w (Some v) = -1
    /\ validNextVersion v w = false.
Proof.
  intros L Z N. unfold nextVersion, getSize.
  rewrite nextLevels_negative by assumption.
  set (n := Z.to_nat (Z.of_nat (List.length (getValue v)) + level)).
  assert (n < List.length (getValue v))%nat as Hn.
  { destruct (getValue v); [congruence|]. simpl List.length in *. lia. }
  exists (mkVersion (firstn n (getValue v))).
  unfold newVersion. rewrite (@hasZero_firstn n _ Z).
  split; [reflexivity|]. split; [reflexivity|].
  pose proof (@compareLevels_prefix (getValue v) n Hn) as P.
  split; [exact P|].
  destruct (validNextVersion v (mkVersion (firstn n (getValue v)))) eqn:V;
    [|reflexivity].
  apply validNextLevels_greater in V. simpl getValue in V.
  unfold comparedTo in P. simpl getValue in P. congruence.
Qed.

Lemma nextVersion_at_negative_level_witness :
  -1 < 0 /\ hasZero (getValue (mkVersion [1; 2; 3])) = false
  /\ getValue (mkVersion [1; 2; 3]) <> []
  /\ exists w,
    nextVersion (mkVersion [1; 2; 3]) (Some (-1)) = inl w
    /\ getValue w
       = firstn (Z.to_nat (Z.of_nat (getSize (mkVersion [1; 2; 3])) + -1))
                (getValue (mkVersion [1; 2; 3]))
    /\ comparedTo w (Some (mkVersion [1; 2; 3])) = -1
    /\ validNextVersion (mkVersion [1; 2; 3]) w = false.
Proof.
  split; [lia|]. split; [reflexivity|]. split; [discriminate|].
  apply (@nextVersion_at_negative_level (mkVersion [1; 2; 3]) (-1));
    [lia | reflexivity | discriminate].
Defined.

(** X8: without a [level], and at level 0, [nextVersion] does what it
    does at the last level: it hands the constructor the levels with the
    last one incremented (so it throws when the last level is -1). *)
Theorem nextVersion_without_level (init : list Z) (x : Z) :
  nextVersion (mkVersion (init ++ [x])) None
  = newVersion (Some (init ++ [x + 1]))
  /\ nextVersion (mkVersion (init ++ [x])) (Some 0)
     = nextVersion (mkVersion (init ++ [x])) None
  /\ nextVersion (mkVersion (init ++ [x])) None
     = nextVersion (mkVersion (init ++ [x]))
                   (Some (Z.of_nat (getSize (mkVersion (init ++ [x]))))).
Proof.
  assert (nth_error (init ++ [x]) (List.length init) = Some x) as N
    by (rewrite nth_error_app2, Nat.sub_diag by lia; reflexivity).
  pose proof (@nextLevels_inside _ _ _ N) as E.
  rewrite firstn_app, Nat.sub_diag, firstn_all in E. simpl in E.
  rewrite app_nil_r in E.
  assert (Z.of_nat (List.length init) + 1
          = Z.of_nat (List.length (init ++ [x]))) as L
    by (rewrite length_app; simpl; lia).
  assert (nextLevels (init ++ [x]) None = (init ++ [x + 1])%list) as D.
  { rewrite <- E. unfold nextLevels. rewrite <- L.
    replace (Z.of_nat (List.length init) + 1 =? 0) with false by lia.
    reflexivity. }
  unfold nextVersion, getSize. simpl getValue.
  split; [rewrite D; reflexivity|]. split; [reflexivity|].
  rewrite <- L, E, D. reflexivity.
Qed.

Lemma levelAt_nat (l : list Z) (k : nat) :
  levelAt l (Z.of_nat k) = nth_error l k.
Proof.
  unfold levelAt.
  replace (Z.of_nat k <? 0) with false by (symmetry; apply Z.ltb_ge; lia).
  rewrite Nat2Z.id. reflexivity.
Qed.

Lemma collectNext_from (pre post : list Z) :
  collectNext (List.length post)
              (mkIterator (pre ++ post) (Z.of_nat (List.length pre)))
  = (map Some post,
     mkIterator (pre ++ post) (Z.of_nat (List.length (pre ++ post)))).
Proof.
  revert pre; induction post as [|x post IH]; intros pre.
  - simpl. rewrite app_nil_r. reflexivity.
  - cbn [collectNext List.length].
    unfold hasNext, getNext, hasNext, iteratorSize. cbn [slot iteratorLevels].
    replace (Z.of_nat (List.length pre) <? Z.of_nat (List.length (pre ++ x :: post)))
      with true
      by (symmetry; apply Z.ltb_lt; rewrite length_app; cbn [List.length]; lia).
    rewrite levelAt_nat, nth_error_app2, Nat.sub_diag by lia. cbn [nth_error].
    replace (Z.of_nat (List.length pre) + 1)
      with (Z.of_nat (List.length (pre ++ [x])))
      by (rewrite length_app; cbn [List.length]; lia).
    replace (pre ++ x :: post)%list with ((pre ++ [x]) ++ post)%list
      by (rewrite <- app_assoc; reflexivity).
    rewrite IH. reflexivity.
Qed.

(** X9: walked from the start with [hasNext] and [getNext], the
    iterator of a version yields its levels in order and stops at the
    end, where [getNext] returns [undefined] and leaves the slot. *)
Theorem iterator_yields_the_levels (v : Version) :
  collectNext (getSize v) (getIterator v)
  = (map Some (getValue v), toEnd (getIterator v))
  /\ hasNext (toEnd (getIterator v)) = false
  /\ getNext (toEnd (getIterator v)) = (None, toEnd (getIterator v)).
Proof.
  split.
  - apply (collectNext_from [] (getValue v)).
  - unfold getNext, hasNext, toEnd. cbn [slot].
    rewrite Z.ltb_irrefl. auto.
Qed.

(** X10: at a slot that is not negative and has a next level,
    [getNext] returns that level and a following [getPrevious] returns
    the same level and puts the iterator back. *)
Theorem getNext_then_getPrevious (i : VersionIterator) :
  0 <= slot i -> hasNext i = true ->
  exists level,
    fst (getNext i) = Some level
    /\ getPrevious (snd (getNext i)) = (Some level, i).
Proof.
  intros S H. unfold getNext. rewrite H. cbn [fst snd].
  unfold hasNext, iteratorSize in H. apply Z.ltb_lt in H.
  destruct (levelAt (iteratorLevels i) (slot i)) as [x|] eqn:E.
  - exists x. split; [reflexivity|].
    unfold getPrevious, hasPrevious. cbn [slot iteratorLevels].
    replace (0 <? slot i + 1) with true by lia.
    replace (slot i + 1 - 1) with (slot i) by lia.
    rewrite E. destruct i; reflexivity.
  - unfold levelAt in E. replace (slot i <? 0) with false in E by lia.
    apply nth_error_None in E. lia.
Qed.

Lemma getNext_then_getPrevious_witness :
  0 <= slot (getIterator (mkVersion [5; 7]))
  /\ hasNext (getIterator (mkVersion [5; 7])) = true
  /\ exists level,
    fst (getNext (getIterator (mkVersion [5; 7]))) = Some level
    /\ getPrevious (snd (getNext (getIterator (mkVersion [5; 7]))))
       = (Some level, getIterator (mkVersion [5; 7])).
Proof.
  split; [simpl; lia|]. split; [reflexivity|].
  apply (@getNext_then_getPrevious (getIterator (mkVersion [5; 7])));
    [simpl; lia | reflexivity].
Defined.

End VersionMethodFacts.

(** * Collections: searching for items *)
Module CollectionFacts.

Import Collection.

Section Items.

Variable Item : Type.
Variable isEqualTo : Item -> Item -> bool.

Lemma getIndexFrom_spec (n : nat) (candidates : list Item) (item : Item) :
  match getIndexFrom isEqualTo n candidates item with
  | O => forall c, In c candidates -> isEqualTo c item = false
  | S k =>
      exists j c, k = n + j /\ nth_error candidates j = Some c
        /\ isEqualTo c item = true
        /\ forall i c', i < j -> nth_error candidates i = Some c' ->
                        isEqualTo c' item = false
  end.
Proof.
  revert n; induction candidates as [|c candidates IH]; intros n; simpl.
  - tauto.
  - destruct (isEqualTo c item) eqn:E.
    + exists 0, c. repeat split; auto; try lia.
    + specialize (IH (S n)).
      destruct (getIndexFrom isEqualTo (S n) candidates item) as [|k].
      * intros c' [<-|H]; auto.
      * destruct IH as (j & c' & -> & N & T & F).
        exists (S j), c'. repeat split; auto; try lia.
        intros [|i] c'' L; simpl; [congruence|].
        apply F. lia.
Qed.

(** X11: [getIndex] returns 0 exactly when no item of the collection
    is equal to the given one; otherwise it returns the position,
    counted from 1, of the first item that is. *)
Theorem getIndex_is_the_first_equal_item (this : list Item) (item : Item) :
  match getIndex isEqualTo this item with
  | O => forall c, In c this -> isEqualTo c item = false
  | S k =>
      exists c, nth_error this k = Some c
        /\ isEqualTo c item = true
        /\ forall i c', i < k -> nth_error this i = Some c' ->
                        isEqualTo c' item = false
  end.
Proof.
  unfold getIndex. pose proof (getIndexFrom_spec 0 this item) as H.
  destruct (getIndexFrom isEqualTo 0 this item) as [|k]; [exact H|].
  destruct H as (j & c & -> & H). exists c. exact H.
Qed.

Lemma containsItem_spec (this : list Item) (item : Item) :
  containsItem isEqualTo this item = true
  <-> exists c, In c this /\ isEqualTo c item = true.
Proof.
  unfold containsItem.
  pose proof (getIndex_from_spec := getIndexFrom_spec 0 this item).
  unfold getIndex.
  destruct (getIndexFrom isEqualTo 0 this item) as [|k]; simpl.
  - split; [discriminate|]. intros (c & I & E).
    rewrite (getIndex_from_spec c I) in E. discriminate.
  - split; [|reflexivity]. intros _.
    destruct getIndex_from_spec as (j & c & _ & N & E & _).
    exists c. split; [eapply nth_error_In; eauto | exact E].
Qed.

Lemma forEachContains_last (this items : list Item) (x : Item) (r : bool) :
  forEachContains isEqualTo this (items ++ [x]) r
  = containsItem isEqualTo this x.
Proof.
  revert r; induction items as [|y items IH]; intros r; simpl; auto.
Qed.

(** X12: on an array, [containsAny] and [containsAll] both answer
    whether the last item of the array is in the collection, whatever
    the items before it, and false for the empty array. *)
Theorem contains_on_an_array_is_about_the_last_item
  (this items : list Item) (last : Item) :
  containsAny isEqualTo this (ArrayOf (items ++ [last]))
  = containsItem isEqualTo this last
  /\ containsAll isEqualTo this (ArrayOf (items ++ [last]))
     = containsItem isEqualTo this last
  /\ containsAny isEqualTo this (ArrayOf []) = false
  /\ containsAll isEqualTo this (ArrayOf []) = false.
Proof.
  unfold containsAny, containsAll. rewrite !forEachContains_last. auto.
Qed.

Lemma whileAny_spec (this items : list Item) :
  whileAny isEqualTo this items false
  = existsb (containsItem isEqualTo this) items.
Proof.
  induction items as [|x items IH]; simpl; auto.
  destruct (containsItem isEqualTo this x); auto.
Qed.

Lemma whileAll_spec (this items : list Item) (x : Item) (r : bool) :
  whileAll isEqualTo this (x :: items) r
  = forallb (containsItem isEqualTo this) (x :: items).
Proof.
  revert x r; induction items as [|y items IH]; intros x r.
  - simpl. destruct (containsItem isEqualTo this x); auto.
  - cbn [whileAll forallb]. cbn [whileAll forallb] in IH.
    destruct (containsItem isEqualTo this x); simpl; auto.
Qed.

(** X13: on a sequence with an iterator, [containsAny] answers
    whether some item of the sequence is in the collection, and
    [containsAll] whether the sequence is not empty and every item of it
    is in the collection. *)
Theorem contains_on_a_sequence (this items : list Item) :
  (containsAny isEqualTo this (SequentialOf items) = true
   <-> exists item, In item items
         /\ exists c, In c this /\ isEqualTo c item = true)
  /\ (containsAll isEqualTo this (SequentialOf items) = true
      <-> items <> []
          /\ forall item, In item items ->
               exists c, In c this /\ isEqualTo c item = true).
Proof.
  unfold containsAny, containsAll. split.
  - rewrite whileAny_spec, existsb_exists.
    split; intros (x & I & H); exists x; (split; [exact I|]);
      apply containsItem_spec; exact H.
  - destruct items as [|x items].
    + simpl. split; [discriminate | intros [H _]; congruence].
    + rewrite whileAll_spec, forallb_forall. split.
      * intros H. split; [discriminate|].
        intros y I. apply containsItem_spec. auto.
      * intros [_ H] y I. apply containsItem_spec. auto.
Qed.

End Items.

End CollectionFacts.

(** * Queues: capacity, order and complexity *)
Module QueueFacts.

Import Queue.
Local Open Scope Z_scope.

Section Components.

Variable Item : Type.
Variable Component : Type.
Variable asComponent : Item -> Component.
Variable complexityOf : Component -> Z.


Lemma total_app (a b : list Component) :
  fold_right Z.add 0 (map complexityOf (a ++ b))
  = fold_right Z.add 0 (map complexityOf a)
    + fold_right Z.add 0 (map complexityOf b).
Proof. induction a as [|x a IH]; simpl; lia. Qed.

Lemma addItem_inl (q q' : Queue Component) (item : Item) :
  addItem asComponent complexityOf q item = inl q' ->
  getSize q < capacity q
  /\ capacity q' = capacity q
  /\ array q' = (array q ++ [asComponent item])%list
  /\ complexity q'
     = complexity q + complexityOf (asComponent item)
       + (match array q with [] => 0 | _ => 2 end).
Proof.
  unfold addItem, getSize. cbn [array capacity complexity].
  destruct (Z.of_nat (List.length (array q)) <? capacity q) eqn:E;
    [|discriminate].
  apply Z.ltb_lt in E. rewrite length_app. cbn [List.length].
  destruct (array q) as [|x l] eqn:A; cbn [List.length Nat.add].
  - simpl. intros [= <-]. simpl. repeat split; auto. lia.
  - replace (Z.of_nat (S (List.length l + 1)) >? 1) with true
      by (symmetry; apply Z.gtb_lt; lia).
    intros [= <-]. cbn [array capacity complexity]. repeat split; auto.
Qed.

Lemma addItem_inr (q : Queue Component) (item : Item) (e : string) :
  addItem asComponent complexityOf q item = inr e ->
  capacity q <= getSize q
  /\ e = "QUEUE: Attempted to add an item to a full queue."%string.
Proof.
  unfold addItem, getSize.
  destruct (Z.of_nat (List.length (array q)) <? capacity q) eqn:E;
    [discriminate|].
  apply Z.ltb_ge in E. intros [= <-]. auto.
Qed.

Lemma removeItem_inl (q q' : Queue Component) (item : Component) :
  removeItem complexityOf q = inl (item, q') ->
  array q = item :: array q'
  /\ capacity q' = capacity q
  /\ complexity q'
     = complexity q - complexityOf item - (match array q' with [] => 0 | _ => 2 end).
Proof.
  unfold removeItem, getSize. destruct (array q) as [|x l]; [discriminate|].
  cbn [array capacity complexity].
  destruct l as [|y l]; cbn [List.length].
  - simpl. intros [= <- <-]. simpl. repeat split; auto. lia.
  - replace (Z.of_nat (S (List.length l)) >? 0) with true
      by (symmetry; apply Z.gtb_lt; lia).
    intros [= <- <-]. simpl. auto.
Qed.

Lemma accounted_add (base : Z) (q q' : Queue Component) (item : Item) :
  complexity q = accounted complexityOf base q ->
  addItem asComponent complexityOf q item = inl q' ->
  complexity q' = accounted complexityOf base q'.
Proof.
  intros I H. apply addItem_inl in H. destruct H as (_ & _ & A & C).
  unfold accounted, getSize in *. rewrite C, A, I, total_app, length_app.
  cbn [List.length map fold_right].
  destruct (array q); cbn [List.length]; lia.
Qed.

Lemma accounted_remove (base : Z) (q q' : Queue Component) (item : Component) :
  complexity q = accounted complexityOf base q ->
  removeItem complexityOf q = inl (item, q') ->
  complexity q' = accounted complexityOf base q'.
Proof.
  intros I H. apply removeItem_inl in H. destruct H as (A & _ & C).
  unfold accounted, getSize in *. rewrite C, I, A.
  cbn [List.length map fold_right].
  destruct (array q'); cbn [List.length]; lia.
Qed.


Lemma addEach_inl (items : list Item) (q q' : Queue Component) :
  addEach asComponent complexityOf q items = inl q' ->
  capacity q' = capacity q
  /\ array q' = (array q ++ map asComponent items)%list
  /\ (items <> [] -> getSize q' <= capacity q).
Proof.
  revert q; induction items as [|x items IH]; intros q; cbn [addEach].
  - intros [= <-]. rewrite app_nil_r. repeat split; auto. congruence.
  - destruct (addItem asComponent complexityOf q x) as [q1|e] eqn:A;
      [|discriminate].
    intros H. apply IH in H. apply addItem_inl in A.
    destruct A as (L & C1 & A1 & _), H as (C & A & B).
    rewrite C, C1, A, A1, <- app_assoc. repeat split; auto.
    intros _. destruct items as [|y items].
    + unfold getSize in *. rewrite A, A1, app_nil_r, length_app.
      cbn [List.length map]. lia.
    + rewrite <- C1. apply B. discriminate.
Qed.

Lemma addEach_room (items : list Item) (q : Queue Component) :
  getSize q + Z.of_nat (List.length items) <= capacity q ->
  exists q', addEach asComponent complexityOf q items = inl q'.
Proof.
  revert q; induction items as [|x items IH]; intros q H; cbn [addEach].
  - eauto.
  - destruct (addItem asComponent complexityOf q x) as [q1|e] eqn:A.
    + apply IH. apply addItem_inl in A. destruct A as (_ & -> & A & _).
      unfold getSize in *. rewrite A, length_app.
      cbn [List.length] in *. lia.
    + apply addItem_inr in A. cbn [List.length] in H. lia.
Qed.

Lemma addEach_full (items : list Item) (q : Queue Component) :
  getSize q <= capacity q ->
  capacity q < getSize q + Z.of_nat (List.length items) ->
  addEach asComponent complexityOf q items
  = inr "QUEUE: Attempted to add an item to a full queue."%string.
Proof.
  revert q; induction items as [|x items IH]; intros q I H; cbn [addEach].
  - cbn [List.length] in H. lia.
  - destruct (addItem asComponent complexityOf q x) as [q1|e] eqn:A.
    + apply addItem_inl in A. destruct A as (L & C & A & _).
      assert (getSize q1 = getSize q + 1) as G
        by (unfold getSize; rewrite A, length_app; cbn [List.length]; lia).
      apply IH; rewrite C, G; [lia|]. cbn [List.length] in H. lia.
    + apply addItem_inr in A. destruct A as [_ ->]. reflexivity.
Qed.

Lemma addEach_accounted (base : Z) (items : list Item) (q q' : Queue Component) :
  complexity q = accounted complexityOf base q ->
  addEach asComponent complexityOf q items = inl q' ->
  complexity q' = accounted complexityOf base q'.
Proof.
  revert q; induction items as [|x items IH]; intros q I; cbn [addEach].
  - intros [= <-]. exact I.
  - destruct (addItem asComponent complexityOf q x) as [q1|e] eqn:A;
      [|discriminate].
    apply IH. exact (@accounted_add _ _ _ _ I A).
Qed.

(** X15: [Queue.fromCollection] on an array returns a queue exactly
    when the array has at most 1024 items: the queue then holds the
    components of the items in the order of the array, with its
    complexity accounted for; a longer array makes it throw the error of
    a full queue. *)
Theorem fromCollection_of_an_array (base : Z) (items : list Item) :
  match fromCollection asComponent complexityOf base (SeedArray items) with
  | inl q =>
      Z.of_nat (List.length items) <= 1024
      /\ toArray q = map asComponent items
      /\ capacity q = 1024
      /\ complexity q = accounted complexityOf base q
  | inr e =>
      1024 < Z.of_nat (List.length items)
      /\ e = "QUEUE: Attempted to add an item to a full queue."%string
  end.
Proof.
  unfold fromCollection.
  assert (complexity (newQueue Component base)
          = accounted complexityOf base (newQueue Component base)) as I
    by (unfold accounted, newQueue, getSize; simpl; lia).
  destruct (Z_le_gt_dec (Z.of_nat (List.length items)) 1024) as [L|L].
  - destruct (@addEach_room items (newQueue Component base)) as [q E];
      [unfold getSize; simpl; lia|].
    rewrite E. pose proof (addEach_inl _ _ E) as (C & A & _).
    repeat split; auto. exact (@addEach_accounted _ _ _ _ I E).
  - rewrite addEach_full; [split; [lia|reflexivity] | |];
      unfold getSize; simpl; lia.
Qed.

Lemma removeItems_all (base : Z) (l : list Component) (q : Queue Component) :
  array q = l ->
  complexity q = accounted complexityOf base q ->
  removeItems complexityOf (List.length l) q
  = inl (l, mkQueue (capacity q) [] (base + 2)).
Proof.
  revert q; induction l as [|x l IH]; intros q A I; cbn [removeItems List.length].
  - destruct q as [c a k]. simpl in *. subst a.
    unfold accounted, getSize in I. simpl in I.
    assert (k = base + 2) as -> by lia. reflexivity.
  - destruct (removeItem complexityOf q) as [[y q1]|e] eqn:R.
    + pose proof (@accounted_remove _ _ _ _ I R) as I1.
      apply removeItem_inl in R. destruct R as (A1 & C & _).
      rewrite A in A1. injection A1 as <- A1.
      rewrite (IH q1 (eq_sym A1) I1), C. reflexivity.
    + unfold removeItem in R. rewrite A in R. discriminate.
Qed.

(** X16: a queue is first in, first out: as many calls of
    [removeItem] as the seeding array had items return the components in
    the order of the array, and leave the queue as the constructor made
    it, complexity included; the next [removeItem] throws. *)
Theorem queue_is_first_in_first_out (base : Z) (items : list Item) (q : Queue Component) :
  fromCollection asComponent complexityOf base (SeedArray items) = inl q ->
  removeItems complexityOf (List.length items) q
  = inl (map asComponent items, newQueue Component base)
  /\ removeItem complexityOf (newQueue Component base)
     = inr "QUEUE: Attempted to remove an item from an empty queue."%string.
Proof.
  intros H. split; [|reflexivity].
  unfold fromCollection in H.
  assert (complexity (newQueue Component base)
          = accounted complexityOf base (newQueue Component base)) as I
    by (unfold accounted, newQueue, getSize; simpl; lia).
  pose proof (@addEach_accounted _ _ _ _ I H) as I'.
  apply addEach_inl in H. destruct H as (C & A & _). simpl in A.
  rewrite <- (length_map asComponent items).
  rewrite (@removeItems_all base _ q A I'), C. reflexivity.
Qed.

(** X17: [firstItem] returns what [removeItem] would remove, which is
    the head of [toArray]; the two throw together, each with its own
    message, exactly on the empty queue. *)
Theorem firstItem_is_what_removeItem_returns (q : Queue Component) :
  match firstItem q, removeItem complexityOf q with
  | inl first, inl (removed, q') =>
      first = removed /\ toArray q = (removed :: toArray q')%list
      /\ getSize q' = getSize q - 1
  | inr e, inr e' =>
      getSize q = 0
      /\ e = "QUEUE: Attempted to access the first item in an empty queue."%string
      /\ e' = "QUEUE: Attempted to remove an item from an empty queue."%string
  | _, _ => False
  end.
Proof.
  destruct (removeItem complexityOf q) as [[y q']|e] eqn:R.
  - apply removeItem_inl in R. destruct R as (A & _).
    unfold firstItem, toArray, getSize. rewrite A. cbn [List.length].
    repeat split; auto. lia.
  - unfold removeItem in R. unfold firstItem, getSize.
    destruct (array q); [|discriminate]. injection R as <-. auto.
Qed.

(** X18: [removeAll] empties the queue and takes the separators off
    its complexity, but not the items: the complexity it leaves is that
    of a new queue plus the complexities of the removed items, so it is
    accounted for only when those sum to zero. *)
Theorem removeAll_keeps_the_complexity_of_the_items
  (base : Z) (q : Queue Component) :
  complexity q = accounted complexityOf base q ->
  toArray (removeAll q) = []
  /\ capacity (removeAll q) = capacity q
  /\ complexity (removeAll q)
     = complexity (newQueue Component base)
       + fold_right Z.add 0 (map complexityOf (toArray q))
  /\ (complexity (removeAll q) = accounted complexityOf base (removeAll q)
      <-> fold_right Z.add 0 (map complexityOf (toArray q)) = 0).
Proof.
  intros I. unfold removeAll, toArray.
  assert (complexity
            (if getSize q >? 1
             then mkQueue (capacity q) (array q)
                          (complexity q - (getSize q - 1) * 2)
             else q)
          = base + 2 + fold_right Z.add 0 (map complexityOf (array q))) as C.
  { destruct (getSize q >? 1) eqn:G; cbn [complexity]; rewrite I;
      unfold accounted.
    - apply Z.gtb_lt in G. lia.
    - assert (getSize q <= 1)
        by (destruct (Z.gtb_spec (getSize q) 1); [discriminate | lia]).
      lia. }
  assert (capacity
            (if getSize q >? 1
             then mkQueue (capacity q) (array q)
                          (complexity q - (getSize q - 1) * 2)
             else q) = capacity q) as K
    by (destruct (getSize q >? 1); reflexivity).
  cbn [array capacity complexity]. rewrite C, K.
  unfold accounted, getSize. cbn [array List.length map fold_right].
  repeat split; auto; intros; simpl in *; lia.
Qed.

End Components.


Lemma queue_is_first_in_first_out_witness :
  fromCollection (fun s : string => s) (fun s => Z.of_nat (String.length s))
                 0 (SeedArray ["a"; "bc"; "a"]%string)
  = inl (mkQueue 1024 ["a"; "bc"; "a"]%string 10)
  /\ removeItems (fun s => Z.of_nat (String.length s)) 3
                 (mkQueue 1024 ["a"; "bc"; "a"]%string 10)
     = inl (["a"; "bc"; "a"]%string, newQueue string 0)
  /\ removeItem (fun s => Z.of_nat (String.length s)) (newQueue string 0)
     = inr "QUEUE: Attempted to remove an item from an empty queue."%string.
Proof.
  split; [reflexivity|].
  apply (@queue_is_first_in_first_out string string (fun s => s)
           (fun s => Z.of_nat (String.length s)) 0
           ["a"; "bc"; "a"]%string (mkQueue 1024 ["a"; "bc"; "a"]%string 10)).
  reflexivity.
Defined.

Lemma removeAll_keeps_the_complexity_of_the_items_witness :
  complexity (mkQueue 1024 ["a"; "bc"]%string 7)
  = accounted (fun s => Z.of_nat (String.length s)) 0
              (mkQueue 1024 ["a"; "bc"]%string 7)
  /\ toArray (removeAll (mkQueue 1024 ["a"; "bc"]%string 7)) = []
  /\ capacity (removeAll (mkQueue 1024 ["a"; "bc"]%string 7)) = 1024
  /\ complexity (removeAll (mkQueue 1024 ["a"; "bc"]%string 7))
     = complexity (newQueue string 0)
       + fold_right Z.add 0
           (map (fun s => Z.of_nat (String.length s))
                (toArray (mkQueue 1024 ["a"; "bc"]%string 7)))
  /\ (complexity (removeAll (mkQueue 1024 ["a"; "bc"]%string 7))
      = accounted (fun s => Z.of_nat (String.length s)) 0
                  (removeAll (mkQueue 1024 ["a"; "bc"]%string 7))
      <-> fold_right Z.add 0
            (map (fun s => Z.of_nat (String.length s))
                 (toArray (mkQueue 1024 ["a"; "bc"]%string 7))) = 0).
Proof.
  split; [reflexivity|].
  apply (@removeAll_keeps_the_complexity_of_the_items string
           (fun s => Z.of_nat (String.length s)) 0
           (mkQueue 1024 ["a"; "bc"]%string 7)).
  reflexivity.
Defined.

End QueueFacts.

(* ================================================================== *)
(** * The lexer: longest match and coverage *)
(* ================================================================== *)

Module MunchFacts.
Import Regex Tokens Lexer Layout.

(** ** The longest prefix *)

Lemma Lang_Void_none w : ~ Lang Void w.
Proof. intros H. inversion H. Qed.

Lemma is_void_spec r : is_void r = true -> r = Void.
Proof. destruct r; simpl; congruence. Qed.

Lemma longest_some w : forall r n b,
  b <= n -> exists m, longest r w n (Some b) = Some m /\ b <= m.
Proof.
  induction w as [|c w IH]; intros r n b H; simpl.
  - destruct (nullable r); eauto.
  - destruct (is_void (deriv c r)).
    + destruct (nullable r); eauto.
    + destruct (nullable r).
      * destruct (IH (deriv c r) (S n) n) as (m & E & L); [lia|].
        exists m. split; [exact E | lia].
      * destruct (IH (deriv c r) (S n) b) as (m & E & L); [lia|]. eauto.
Qed.

(** [longest] misses no prefix that is a word of the rule. *)
Lemma longest_complete w : forall r n best k,
  k <= List.length w -> Lang r (firstn k w) ->
  exists m, longest r w n best = Some m /\ n + k <= m.
Proof.
  induction w as [|c w IH]; intros r n best k K L.
  - simpl in K. assert (k = 0) as -> by lia. simpl in L.
    apply RegexFacts.nullable_spec in L. simpl. rewrite L. exists n. split; [reflexivity | lia].
  - destruct k as [|k].
    + simpl in L. apply RegexFacts.nullable_spec in L. simpl. rewrite L.
      destruct (is_void (deriv c r)).
      * exists n. split; [reflexivity | lia].
      * destruct (@longest_some w (deriv c r) (S n) n) as (m & E & M); [lia|].
        exists m. split; [exact E | lia].
    + cbn [firstn] in L. apply RegexFacts.deriv_spec in L.
      cbn [longest]. destruct (is_void (deriv c r)) eqn:V.
      * apply is_void_spec in V. rewrite V in L.
        destruct (Lang_Void_none L).
      * cbn [List.length] in K.
        destruct (IH (deriv c r) (S n) (if nullable r then Some n else best) k)
          as (m & E & M); [lia | exact L |].
        exists m. split; [exact E | lia].
Qed.

Lemma longest_match_complete r w k :
  1 <= k -> k <= List.length w -> Lang r (firstn k w) ->
  exists m, longest_match r w = Some m /\ k <= m.
Proof.
  intros P K L. destruct (@longest_complete w r 0 None k K L) as (m & E & M).
  unfold longest_match. rewrite E. exists m.
  destruct m as [|m]; [lia|]. split; [reflexivity | lia].
Qed.

(** ** The choice among the rules *)






#[local] Opaque nextToken.



(** ** The tokens and the white space make up the source *)

Lemma rules_SPACE :
  forall r, In (SPACE, r) rules -> r = Greedy SPACE_r.
Proof.
  intros r H. unfold rules in H. simpl in H.
  repeat (destruct H as [H | H];
          [first [discriminate H | injection H as <-; reflexivity]|]).
  contradiction.
Qed.

Lemma Lang_SPACE w : Lang SPACE_r w -> exists c, w = [c] /\ isSpace c = true.
Proof.
  unfold SPACE_r, isSpace. intros H. inversion H as [| | | | |? ? ? L|? ? ? L| |]; subst.
  - inversion L; subst. eexists. split; [reflexivity|].
    apply orb_true_iff. left. assumption.
  - inversion L; subst. eexists. split; [reflexivity|]. reflexivity.
Qed.

Lemma hidden_token w n :
  nextToken w = Some (SPACE, n) ->
  exists c, w = c :: skipn n w /\ isSpace c = true.
Proof.
  intros H. apply LexerFacts.nextToken_rule in H. destruct H as (r & I & M).
  apply rules_SPACE in I. subst r. cbn [rule_match] in M.
  apply RegexFacts.longest_match_sound in M. apply Lang_SPACE in M.
  destruct M as (c & F & S). exists c. split; [|exact S].
  rewrite <- (firstn_skipn n w) at 1. rewrite F. reflexivity.
Qed.

Lemma scan_covers fuel : forall w,
  List.length w < fuel ->
  match failure (scan fuel w) with
  | None => Covers w (tokens (scan fuel w))
  | Some c =>
      exists pre rest,
        w = pre ++ c :: rest
        /\ Covers pre (tokens (scan fuel w))
        /\ nextToken (c :: rest) = None
  end.
Proof.
  induction fuel as [|fuel IH]; intros w H; [lia|].
  destruct w as [|c w]; [constructor|].
  cbn [scan].
  destruct (nextToken (c :: w)) as [[ty n]|] eqn:E.
  - pose proof (@LexerFacts.nextToken_positive _ _ _ E) as P.
    assert (List.length (skipn n (c :: w)) < fuel) as L
      by (rewrite length_skipn; cbn [List.length] in *; lia).
    specialize (IH _ L).
    destruct (Z.eqb_spec ty SPACE) as [-> | D].
    + apply hidden_token in E. destruct E as (c' & W & S).
      destruct (failure (scan fuel (skipn n (c :: w)))) as [bad|].
      * destruct IH as (pre & rest & X & Y & Z).
        exists (c' :: pre), rest. split; [|split; [|exact Z]].
        -- rewrite W at 1. rewrite X. reflexivity.
        -- apply Covers_space; assumption.
      * rewrite W at 1. apply Covers_space; assumption.
    + cbn [failure tokens].
      assert (c :: w
              = list_ascii_of_string
                  (text (mkToken ty (string_of_list_ascii (firstn n (c :: w)))))
                ++ skipn n (c :: w))%list as W.
      { cbn [text]. rewrite list_ascii_of_string_of_list_ascii.
        symmetry. apply firstn_skipn. }
      destruct (failure (scan fuel (skipn n (c :: w)))) as [bad|].
      * destruct IH as (pre & rest & X & Y & Z).
        exists (list_ascii_of_string
                  (text (mkToken ty (string_of_list_ascii (firstn n (c :: w)))))
                ++ pre)%list, rest.
        split; [|split; [|exact Z]].
        -- rewrite W at 1. rewrite X at 1. rewrite app_assoc. reflexivity.
        -- apply Covers_token. exact Y.
      * rewrite W at 1. apply Covers_token. exact IH.
  - cbn [failure tokens]. exists [], w. repeat split; auto. constructor.
Qed.

(** X22: the tokens the lexer delivers cover the source: the source is
    the texts of the tokens in order, with nothing but white space
    before, between and after them, up to the end or up to the first
    character at which no rule matches. *)
Theorem tokens_and_spaces_cover_the_source (source : string) :
  match failure (tokenize source) with
  | None =>
      Covers (list_ascii_of_string source) (tokens (tokenize source))
  | Some c =>
      exists pre rest,
        list_ascii_of_string source = (pre ++ c :: rest)%list
        /\ Covers pre (tokens (tokenize source))
        /\ nextToken (c :: rest) = None
  end.
Proof. unfold tokenize. apply scan_covers. lia. Qed.

End MunchFacts.

(* ================================================================== *)
(** * Parse trees cover the tokens consumed *)
(* ================================================================== *)

Module YieldFacts.
Import Tokens Lexer ParseTrees Recognizer BaliLanguageParser Yield.

Local Open Scope Z_scope.
Local Open Scope parser_scope.

Lemma noEOF_suffix (a b : list Token) : noEOF (a ++ b) -> noEOF b.
Proof. unfold noEOF. intros H. apply Forall_app in H. tauto. Qed.

(** ** Computations that consume nothing *)

Lemma Silent_ret A (a : A) : Silent (ret a).
Proof. intros s x s' [= _ <-]. split; reflexivity. Qed.

Lemma Silent_bind A B (m : M A) (f : A -> M B) :
  Silent m -> (forall a, Silent (f a)) -> Silent (bind m f).
Proof.
  intros Hm Hf s b s'. unfold bind.
  destruct (m s) as [a s1| |] eqn:E; try discriminate.
  intros H. destruct (Hf a s1 b s' H) as [E1 F1].
  destruct (Hm s a s1 E) as [E0 F0]. split; congruence.
Qed.

Lemma Silent_raise A e : Silent (@raise A e).
Proof. intros s a s'. discriminate. Qed.

Lemma Silent_LT k : Silent (LT k).
Proof.
  intros s a s'. unfold LT.
  destruct (nth_error (input s) (k - 1)); [intros [= _ <-]; split; reflexivity|].
  destruct (lexFailure s) eqn:F; [|intros [= _ <-]; split; congruence].
  unfold lexerFail, bind, syntaxError, lexerRecover, raise, log.
  destruct (debug s); discriminate.
Qed.

Lemma Silent_speculate m : Silent (speculate m).
Proof.
  intros s a s'. unfold speculate.
  destruct (m s) as [b s1|[e|msg] s1|]; try discriminate;
    try (intros [= _ <-]; split; reflexivity).
  destruct (String.eqb msg LEXER_ABORT);
    [discriminate | intros [= _ <-]; split; reflexivity].
Qed.

Create HintDb silent.

#[local] Hint Resolve Silent_ret Silent_raise Silent_LT Silent_speculate
  : silent.

Ltac silent_step :=
  lazy beta iota;
  match goal with
  | |- Silent (bind _ _) => apply Silent_bind; [|intros]
  | |- Silent (match ?x with _ => _ end) => destruct x
  | |- _ => solve [auto with silent]
  end.

Ltac silent := repeat silent_step.

Lemma Silent_LA k : Silent (LA k).
Proof. unfold LA. silent. Qed.

Lemma Silent_getCurrentToken : Silent getCurrentToken.
Proof. apply Silent_LT. Qed.

#[local] Hint Resolve Silent_LA Silent_getCurrentToken : silent.

Lemma Silent_noViableAlt A : Silent (@noViableAlt A).
Proof. unfold noViableAlt. silent. Qed.

Lemma Silent_checkPrecpred p k text : Silent (checkPrecpred p k text).
Proof. unfold checkPrecpred. silent. Qed.

Lemma Silent_nextIs t : Silent (nextIs t).
Proof. unfold nextIs. silent. Qed.

Lemma Silent_nextIn set : Silent (nextIn set).
Proof. unfold nextIn. silent. Qed.

#[local] Hint Resolve Silent_noViableAlt Silent_checkPrecpred Silent_nextIs
  Silent_nextIn : silent.

Lemma Silent_afterReal : Silent afterReal.
Proof. unfold afterReal. silent. Qed.

#[local] Hint Resolve Silent_afterReal : silent.

Lemma Silent_predict37 : Silent predict37.
Proof. unfold predict37. silent. Qed.

Lemma Silent_predict38 : Silent predict38.
Proof. unfold predict38. silent. Qed.

Lemma Silent_predictParameters : Silent predictParameters.
Proof. unfold predictParameters. silent. Qed.

Lemma Silent_predict35 : Silent predict35.
Proof. unfold predict35. silent. Qed.

Lemma Silent_complexAhead : Silent complexAhead.
Proof. unfold complexAhead. silent. Qed.

#[local] Hint Resolve Silent_complexAhead : silent.

Lemma Silent_predict32 : Silent predict32.
Proof. unfold predict32. silent. Qed.

Lemma Silent_predict34 p : Silent (predict34 p).
Proof. unfold predict34. silent. Qed.

Lemma Silent_predict33 : Silent predict33.
Proof. unfold predict33. silent. Qed.

Lemma Silent_predict4 rec : Silent (predict4 rec).
Proof. unfold predict4. silent. Qed.

Lemma Silent_predict16 : Silent predict16.
Proof. unfold predict16. silent. Qed.

Lemma Silent_predict17 : Silent predict17.
Proof. unfold predict17. silent. Qed.

Lemma Silent_predict21 rec : Silent (predict21 rec).
Proof. unfold predict21. silent. Qed.

Lemma Silent_predict22 : Silent predict22.
Proof. unfold predict22. silent. Qed.

#[local] Hint Resolve Silent_predict37 Silent_predict38
  Silent_predictParameters Silent_predict35 Silent_predict32
  Silent_predict34 Silent_predict33 Silent_predict4 Silent_predict16
  Silent_predict17 Silent_predict21 Silent_predict22 : silent.


(** ** Computations that put what they consume into what they return *)

Lemma Tracks_ret A (y : A -> list Token) pre (a : A) :
  y a = pre -> Tracks y pre (ret a).
Proof. intros E s x s' N [= <- <-]. rewrite E. auto. Qed.

Lemma Tracks_bind A B (y1 : A -> list Token) (y : B -> list Token) pre
      (m : M A) (f : A -> M B) :
  Tracks y1 [] m -> (forall a, Tracks y (pre ++ y1 a) (f a)) ->
  Tracks y pre (bind m f).
Proof.
  intros Hm Hf s b s' N. unfold bind.
  destruct (m s) as [a s1| |] eqn:E; try discriminate.
  intros H. destruct (Hm s a s1 N E) as (E1 & N1 & F1). simpl in E1.
  destruct (Hf a s1 b s' N1 H) as (E2 & N2 & F2).
  rewrite E2, <- E1, app_assoc. repeat split; auto. congruence.
Qed.

Lemma Tracks_silent A B (y : B -> list Token) pre (m : M A) (f : A -> M B) :
  Silent m -> (forall a, Tracks y pre (f a)) -> Tracks y pre (bind m f).
Proof.
  intros Hm Hf s b s' N. unfold bind.
  destruct (m s) as [a s1| |] eqn:E; try discriminate.
  intros H. destruct (Hm s a s1 E) as [E1 F1].
  rewrite <- E1 in N. destruct (Hf a s1 b s' N H) as (E2 & N2 & F2).
  rewrite E2, E1. repeat split; auto. congruence.
Qed.

Lemma Tracks_never A (y : A -> list Token) pre (m : M A) :
  (forall s a s', m s <> Ok a s') -> Tracks y pre m.
Proof. intros H s a s' _ E. destruct (H _ _ _ E). Qed.

Lemma recoverInline_never A (set : list Z) (s : State) (a : A) (s' : State) : recoverInline set s <> Ok a s'.
Proof.
  unfold recoverInline, bind, getCurrentToken.
  destruct (LT 1 s); unfold recover, raise; discriminate.
Qed.

Lemma noViableAlt_never A (s : State) (a : A) (s' : State) : noViableAlt s <> Ok a s'.
Proof.
  unfold noViableAlt, bind, getCurrentToken.
  destruct (LT 1 s); unfold raise; discriminate.
Qed.

Lemma Tracks_noViableAlt A (y : A -> list Token) pre :
  Tracks y pre noViableAlt.
Proof. apply Tracks_never. intros s a s'. apply noViableAlt_never. Qed.

(** The token matched is the next token of the stream, which [consume]
    removes; at the end of the stream it is the end-of-file token,
    which leaves no leaf. *)
Lemma matched_token (ok : Token -> bool) (set : list Z) (s s' : State)
      (t : ParseTree) :
  noEOF (input s) ->
  (t0 <- getCurrentToken ;;
   if ok t0 then reportMatch ;; consume ;; ret (TerminalNode t0)
   else recoverInline set) s = Ok t s' ->
  (leaves t ++ input s' = input s)%list /\ noEOF (input s')
  /\ lexFailure s' = lexFailure s.
Proof.
  intros N. unfold bind at 1, getCurrentToken, LT. cbn [Nat.sub nth_error].
  destruct s as [i l d r c]. cbn [input lexFailure] in *.
  destruct i as [|tok rest].
  - destruct l as [ch|].
    + unfold lexerFail, bind, syntaxError, lexerRecover, raise, log.
      cbn [debug]. destruct d; discriminate.
    + destruct (ok EOF_token).
      * intros [= <- <-]. auto.
      * intros H. destruct (@recoverInline_never _ _ _ _ _ H).
  - cbn [nth_error]. destruct (ok tok).
    + intros [= <- <-]. cbn [leaves input].
      inversion N as [|? ? T N']; subst.
      destruct (Z.eqb_spec (ttype tok) EOF); [contradiction | auto].
    + intros H. destruct (@recoverInline_never _ _ _ _ _ H).
Qed.

Lemma Tracks_match t : Tracks leaves [] (match_ t).
Proof.
  intros s a s' N H. apply (@matched_token (fun k => Z.eqb (ttype k) t) [t]);
    assumption.
Qed.

Lemma Tracks_matchSet set : Tracks leaves [] (matchSet set).
Proof.
  intros s a s' N H. apply (@matched_token (fun k => mem (ttype k) set) set);
    assumption.
Qed.

Lemma Tracks_ruleBody pre body :
  Tracks leaves pre body -> Tracks leaves pre (ruleBody body).
Proof.
  intros Hb s a s' N. unfold ruleBody.
  destruct (body s) as [x s1|[e|msg] s1|] eqn:E; try discriminate.
  - intros [= <- <-]. exact (Hb s x s1 N E).
  - unfold bind. destruct (reportError e s1); unfold recover, raise;
      discriminate.
Qed.

Lemma Tracks_loop n cond body acc :
  Silent cond -> Tracks (flat_map leaves) [] body ->
  Tracks (flat_map leaves) (flat_map leaves acc) (loop n cond body acc).
Proof.
  intros Hc Hb. revert acc. induction n as [|n IH]; intros acc; cbn [loop].
  - apply Tracks_never. discriminate.
  - apply Tracks_silent; [exact Hc|]. intros [|].
    + eapply Tracks_bind; [exact Hb|]. intros xs.
      rewrite <- flat_map_app. apply IH.
    + apply Tracks_ret. reflexivity.
Qed.

Lemma Tracks_while cond body :
  Silent cond -> Tracks (flat_map leaves) [] body ->
  Tracks (flat_map leaves) [] (while_ cond body).
Proof.
  intros Hc Hb s a s' N H. unfold while_ in H.
  exact (@Tracks_loop _ cond body [] Hc Hb s a s' N H).
Qed.

Create HintDb tracks.

#[local] Hint Resolve Tracks_match Tracks_matchSet Tracks_noViableAlt
  : tracks.

(** The leaves of the tree returned are the tokens gathered on the way. *)
Ltac leaves_eq :=
  cbn [leaves flat_map]; rewrite ?flat_map_app; cbn [leaves flat_map app];
  rewrite ?app_nil_r, <- ?app_assoc; cbn [app]; reflexivity.

Ltac tracks_step :=
  lazy beta iota;
  match goal with
  | |- Tracks _ _ (ret _) => apply Tracks_ret; leaves_eq
  | |- Tracks _ _ (ruleBody _) => apply Tracks_ruleBody
  | |- Tracks _ _ (while_ _ _) =>
      apply Tracks_while; [solve [auto with silent]|]
  | |- Tracks _ _ (bind ?m _) =>
      first [ apply Tracks_silent; [solve [auto with silent]|intros]
            | match type of m with
              | M ParseTree => apply Tracks_bind with (y1 := leaves)
              | M (list ParseTree) =>
                  apply Tracks_bind with (y1 := flat_map leaves)
              end; [|intros] ]
  | |- Tracks _ _ (match ?x with _ => _ end) => destruct x
  | H : forall r p, Tracks leaves [] (?rec r p) |- Tracks _ _ (?rec _ _) =>
      apply H
  | |- _ => solve [auto with tracks]
  end.

Ltac tracks := repeat tracks_step.

(** ** The rules that call no rule through [rec] *)

Lemma Tracks_label : Tracks leaves [] label.
Proof. unfold label. tracks. Qed.
#[local] Hint Resolve Tracks_label : tracks.

Lemma Tracks_variable : Tracks leaves [] variable.
Proof. unfold variable. tracks. Qed.
#[local] Hint Resolve Tracks_variable : tracks.

Lemma Tracks_name : Tracks leaves [] name.
Proof. unfold name. tracks. Qed.
#[local] Hint Resolve Tracks_name : tracks.

Lemma Tracks_binary : Tracks leaves [] binary.
Proof. unfold binary. tracks. Qed.
#[local] Hint Resolve Tracks_binary : tracks.

Lemma Tracks_duration : Tracks leaves [] duration.
Proof. unfold duration. tracks. Qed.
#[local] Hint Resolve Tracks_duration : tracks.

Lemma Tracks_moment : Tracks leaves [] moment.
Proof. unfold moment. tracks. Qed.
#[local] Hint Resolve Tracks_moment : tracks.

Lemma Tracks_reference : Tracks leaves [] reference.
Proof. unfold reference. tracks. Qed.
#[local] Hint Resolve Tracks_reference : tracks.

Lemma Tracks_symbol : Tracks leaves [] symbol.
Proof. unfold symbol. tracks. Qed.
#[local] Hint Resolve Tracks_symbol : tracks.

Lemma Tracks_tag : Tracks leaves [] tag.
Proof. unfold tag. tracks. Qed.
#[local] Hint Resolve Tracks_tag : tracks.

Lemma Tracks_version : Tracks leaves [] version.
Proof. unfold version. tracks. Qed.
#[local] Hint Resolve Tracks_version : tracks.

Lemma Tracks_template : Tracks leaves [] template.
Proof. unfold template. tracks. Qed.
#[local] Hint Resolve Tracks_template : tracks.

Lemma Tracks_text : Tracks leaves [] text.
Proof. unfold text. tracks. Qed.
#[local] Hint Resolve Tracks_text : tracks.

Lemma Tracks_probability : Tracks leaves [] probability.
Proof. unfold probability. tracks. Qed.
#[local] Hint Resolve Tracks_probability : tracks.

Lemma Tracks_real : Tracks leaves [] real.
Proof. unfold real. tracks. Qed.
#[local] Hint Resolve Tracks_real : tracks.

Lemma Tracks_imaginary : Tracks leaves [] imaginary.
Proof. unfold imaginary. tracks. Qed.
#[local] Hint Resolve Tracks_imaginary : tracks.

Lemma Tracks_number : Tracks leaves [] number.
Proof. unfold number. tracks. Qed.
#[local] Hint Resolve Tracks_number : tracks.

Lemma Tracks_percent : Tracks leaves [] percent.
Proof. unfold percent. tracks. Qed.
#[local] Hint Resolve Tracks_percent : tracks.

Lemma Tracks_continueClause : Tracks leaves [] continueClause.
Proof. unfold continueClause. tracks. Qed.
#[local] Hint Resolve Tracks_continueClause : tracks.

Lemma Tracks_breakClause : Tracks leaves [] breakClause.
Proof. unfold breakClause. tracks. Qed.
#[local] Hint Resolve Tracks_breakClause : tracks.

Lemma Tracks_optionalLabel : Tracks (flat_map leaves) [] optionalLabel.
Proof. unfold optionalLabel. tracks. Qed.
#[local] Hint Resolve Tracks_optionalLabel : tracks.

(** ** The rules that call other rules, given that the calls track *)

Section Rules.

Variable rec : Rec.
Hypothesis Hrec : forall r p, Tracks leaves [] (rec r p).

Lemma Tracks_document : Tracks leaves [] (document rec).
Proof. unfold document. tracks. Qed.

Lemma Tracks_component : Tracks leaves [] (component rec).
Proof. unfold component. tracks. Qed.

Lemma Tracks_structure : Tracks leaves [] (structure rec).
Proof. unfold structure. tracks. Qed.

Lemma Tracks_parameters : Tracks leaves [] (parameters rec).
Proof. unfold parameters. tracks. Qed.

Lemma Tracks_composite : Tracks leaves [] (composite rec).
Proof. unfold composite. tracks. Qed.

Lemma Tracks_range : Tracks leaves [] (range rec).
Proof. unfold range. tracks. Qed.

Lemma Tracks_array : Tracks leaves [] (array rec).
Proof. unfold array. tracks. Qed.

Lemma Tracks_table : Tracks leaves [] (table rec).
Proof. unfold table. tracks. Qed.

Lemma Tracks_association : Tracks leaves [] (association rec).
Proof. unfold association. tracks. Qed.

Lemma Tracks_block : Tracks leaves [] (block rec).
Proof. unfold block. tracks. Qed.

Lemma Tracks_procedure : Tracks leaves [] (procedure rec).
Proof. unfold procedure. tracks. Qed.

Lemma Tracks_statement : Tracks leaves [] (statement rec).
Proof. unfold statement. tracks. Qed.

Lemma Tracks_handleClause : Tracks leaves [] (handleClause rec).
Proof. unfold handleClause. tracks. Qed.

Lemma Tracks_finishClause : Tracks leaves [] (finishClause rec).
Proof. unfold finishClause. tracks. Qed.

Lemma Tracks_evaluateClause : Tracks leaves [] (evaluateClause rec).
Proof. unfold evaluateClause. tracks. Qed.

Lemma Tracks_checkoutClause : Tracks leaves [] (checkoutClause rec).
Proof. unfold checkoutClause. tracks. Qed.

Lemma Tracks_saveClause : Tracks leaves [] (saveClause rec).
Proof. unfold saveClause. tracks. Qed.

Lemma Tracks_discardClause : Tracks leaves [] (discardClause rec).
Proof. unfold discardClause. tracks. Qed.

Lemma Tracks_commitClause : Tracks leaves [] (commitClause rec).
Proof. unfold commitClause. tracks. Qed.

Lemma Tracks_publishClause : Tracks leaves [] (publishClause rec).
Proof. unfold publishClause. tracks. Qed.

Lemma Tracks_queueClause : Tracks leaves [] (queueClause rec).
Proof. unfold queueClause. tracks. Qed.

Lemma Tracks_waitClause : Tracks leaves [] (waitClause rec).
Proof. unfold waitClause. tracks. Qed.

Lemma Tracks_ifClause : Tracks leaves [] (ifClause rec).
Proof. unfold ifClause. tracks. Qed.

Lemma Tracks_selectClause : Tracks leaves [] (selectClause rec).
Proof. unfold selectClause. tracks. Qed.

Lemma Tracks_whileClause : Tracks leaves [] (whileClause rec).
Proof. unfold whileClause. tracks. Qed.

Lemma Tracks_withClause : Tracks leaves [] (withClause rec).
Proof. unfold withClause. tracks. Qed.

Lemma Tracks_returnClause : Tracks leaves [] (returnClause rec).
Proof. unfold returnClause. tracks. Qed.

Lemma Tracks_throwClause : Tracks leaves [] (throwClause rec).
Proof. unfold throwClause. tracks. Qed.

Lemma Tracks_indices : Tracks leaves [] (indices rec).
Proof. unfold indices. tracks. Qed.

Lemma Tracks_invocation : Tracks leaves [] (invocation rec).
Proof. unfold invocation. tracks. Qed.

Lemma Tracks_element : Tracks leaves [] (element rec).
Proof. unfold element. tracks. Qed.

Lemma Tracks_expressionPrimary : Tracks leaves [] (expressionPrimary rec).
Proof. unfold expressionPrimary. tracks. Qed.

Lemma Tracks_expressionOperator p localctx :
  Tracks leaves (leaves localctx) (expressionOperator rec p localctx).
Proof. unfold expressionOperator. tracks. Qed.

Lemma Tracks_expressionLoop n p localctx :
  Tracks leaves (leaves localctx) (expressionLoop n rec p localctx).
Proof.
  revert localctx; induction n as [|n IH]; intros localctx;
    cbn [expressionLoop].
  - apply Tracks_never. discriminate.
  - apply Tracks_silent; [apply Silent_predict34|]. intros alt.
    destruct (Nat.eqb alt 1); [|apply Tracks_ret; reflexivity].
    intros s a s' N. unfold bind.
    destruct (expressionOperator rec p localctx s) as [next s1| |] eqn:E;
      try discriminate.
    intros H.
    destruct (@Tracks_expressionOperator p localctx s next s1 N E)
      as (E1 & N1 & F1).
    destruct (IH next s1 a s' N1 H) as (E2 & N2 & F2).
    rewrite E2, E1. repeat split; auto. congruence.
Qed.

Lemma Tracks_expression p : Tracks leaves [] (expression rec p).
Proof.
  unfold expression. apply Tracks_ruleBody.
  apply Tracks_bind with (y1 := leaves); [apply Tracks_expressionPrimary|].
  intros first s a s' N H. cbn [app].
  exact (@Tracks_expressionLoop _ p first s a s' N H).
Qed.

End Rules.

Lemma Tracks_parse fuel r p : Tracks leaves [] (parse fuel r p).
Proof.
  revert r p; induction fuel as [|fuel IH]; intros r p.
  - apply Tracks_never. discriminate.
  - destruct r; cbn [parse];
      first [ solve [auto with tracks]
            | apply Tracks_expression; exact IH
            | apply Tracks_document; exact IH
            | apply Tracks_component; exact IH
            | apply Tracks_structure; exact IH
            | apply Tracks_parameters; exact IH
            | apply Tracks_composite; exact IH
            | apply Tracks_range; exact IH
            | apply Tracks_array; exact IH
            | apply Tracks_table; exact IH
            | apply Tracks_association; exact IH
            | apply Tracks_block; exact IH
            | apply Tracks_procedure; exact IH
            | apply Tracks_statement; exact IH
            | apply Tracks_handleClause; exact IH
            | apply Tracks_finishClause; exact IH
            | apply Tracks_evaluateClause; exact IH
            | apply Tracks_checkoutClause; exact IH
            | apply Tracks_saveClause; exact IH
            | apply Tracks_discardClause; exact IH
            | apply Tracks_commitClause; exact IH
            | apply Tracks_publishClause; exact IH
            | apply Tracks_queueClause; exact IH
            | apply Tracks_waitClause; exact IH
            | apply Tracks_ifClause; exact IH
            | apply Tracks_selectClause; exact IH
            | apply Tracks_whileClause; exact IH
            | apply Tracks_withClause; exact IH
            | apply Tracks_returnClause; exact IH
            | apply Tracks_throwClause; exact IH
            | apply Tracks_indices; exact IH
            | apply Tracks_invocation; exact IH
            | apply Tracks_element; exact IH ].
Qed.

(** ** The tokens of a source *)

Lemma rules_not_EOF ty r : In (ty, r) rules -> ty <> EOF.
Proof.
  assert (forallb (fun x => negb (Z.eqb (fst x) EOF)) rules = true) as H
    by (vm_compute; reflexivity).
  rewrite forallb_forall in H. intros I E. apply H in I. cbn [fst] in I.
  rewrite E in I. discriminate.
Qed.

Lemma tokenize_noEOF source : noEOF (tokens (tokenize source)).
Proof.
  apply Forall_forall. intros t H. unfold tokenize in H.
  apply LexerFacts.scan_tokens in H. destruct H as (w & n & N & _).
  apply LexerFacts.nextToken_rule in N. destruct N as (r & I & _).
  exact (@rules_not_EOF _ _ I).
Qed.

(** A match of the end of file leaves nothing to read, and means that
    the lexer has met no character it could not read. *)
Lemma match_EOF_exhausts s t s' :
  noEOF (input s) -> match_ EOF s = Ok t s' ->
  input s' = [] /\ lexFailure s = None.
Proof.
  intros N. unfold match_, bind at 1, getCurrentToken, LT.
  cbn [Nat.sub nth_error].
  destruct s as [i l d r c]. cbn [input lexFailure] in *.
  destruct i as [|tok rest].
  - destruct l as [ch|].
    + unfold lexerFail, bind, syntaxError, lexerRecover, raise, log.
      cbn [debug]. destruct d; discriminate.
    + intros [= <- <-]. split; reflexivity.
  - cbn [nth_error]. inversion N as [|? ? T N']; subst.
    destruct (Z.eqb_spec (ttype tok) EOF); [contradiction|].
    intros H. destruct (@recoverInline_never _ _ _ _ _ H).
Qed.

Lemma document_exhausts rec s t s' :
  (forall r p, Tracks leaves [] (rec r p)) ->
  noEOF (input s) -> document rec s = Ok t s' ->
  input s' = [] /\ lexFailure s = None.
Proof.
  intros Hrec N. unfold document, ruleBody.
  match goal with |- match ?b s with _ => _ end = _ -> _ =>
    destruct (b s) as [x s0|[e|msg] s0|] eqn:E end; try discriminate.
  - intros [= <- <-]. revert E. unfold bind at 1.
    destruct (while_ (nextIs NEWLINE) (n <- match_ NEWLINE;; ret [n]) s)
      as [before s1| |] eqn:E1; try discriminate.
    assert (Tracks (flat_map leaves) []
              (while_ (nextIs NEWLINE) (n <- match_ NEWLINE;; ret [n]))) as W
      by tracks.
    destruct (W s before s1 N E1) as (_ & N1 & F1).
    unfold bind at 1.
    destruct (rec RULE_component 0 s1) as [c s2| |] eqn:E2; try discriminate.
    destruct (Hrec RULE_component 0 s1 c s2 N1 E2) as (_ & N2 & F2).
    unfold bind at 1.
    destruct (while_ (nextIs NEWLINE) (n <- match_ NEWLINE;; ret [n]) s2)
      as [after s3| |] eqn:E3; try discriminate.
    destruct (W s2 after s3 N2 E3) as (_ & N3 & F3).
    unfold bind at 1.
    destruct (match_ EOF s3) as [e s4| |] eqn:E4; try discriminate.
    intros [= _ <-].
    destruct (@match_EOF_exhausts s3 e s4 N3 E4) as [X F4].
    split; [exact X | congruence].
  - unfold bind. destruct (reportError e s0); unfold recover, raise;
      discriminate.
Qed.

(** X19: when a rule function returns, the tokens at the leaves of
    its tree are, in order, exactly the tokens it consumed: the token
    stream it started from is those leaves followed by the tokens left
    unread. *)
Theorem tree_covers_the_tokens_consumed fuel r p s t s' :
  noEOF (input s) -> parse fuel r p s = Ok t s' ->
  input s = (leaves t ++ input s')%list.
Proof.
  intros N H. destruct (@Tracks_parse fuel r p s t s' N H) as [E _].
  symmetry. exact E.
Qed.

Lemma tree_covers_the_tokens_consumed_witness :
  exists t s',
    noEOF (input (Parser.initializeParser "1, 2 3" false))
    /\ parse 40 RULE_array 0 (Parser.initializeParser "1, 2 3" false) = Ok t s'
    /\ input (Parser.initializeParser "1, 2 3" false)
       = (leaves t ++ input s')%list.
Proof.
  eexists. eexists.
  split; [apply tokenize_noEOF|].
  split; [vm_compute; reflexivity|].
  apply (@tree_covers_the_tokens_consumed 40 RULE_array 0);
    [apply tokenize_noEOF | vm_compute; reflexivity].
Defined.

(** X20: when the rule [document] returns on a source, the lexer has
    read the whole source, the leaves of the tree are all its tokens, in
    order, none is left unread, and the source is the texts of those
    leaves with nothing but white space around them. *)
Theorem document_tree_covers_the_source fuel source debug t s' :
  parse fuel RULE_document 0 (Parser.initializeParser source debug) = Ok t s' ->
  leaves t = tokens (tokenize source)
  /\ input s' = []
  /\ failure (tokenize source) = None
  /\ Layout.Covers (list_ascii_of_string source) (leaves t).
Proof.
  intros H.
  assert (noEOF (input (Parser.initializeParser source debug))) as N
    by apply tokenize_noEOF.
  destruct (@Tracks_parse fuel RULE_document 0 _ t s' N H) as [E _].
  destruct fuel as [|fuel]; [discriminate|]. cbn [parse] in H.
  destruct (@document_exhausts _ _ t s' (Tracks_parse fuel) N H) as [X F].
  rewrite X, app_nil_r in E. cbn [Parser.initializeParser input lexFailure] in *.
  cbn [app] in E.
  split; [exact E|]. split; [exact X|]. split; [exact F|].
  rewrite E.
  pose proof (@MunchFacts.scan_covers
                (S (List.length (list_ascii_of_string source)))
                (list_ascii_of_string source) (Nat.lt_succ_diag_r _)) as C.
  unfold tokenize in F |- *. rewrite F in C. exact C.
Qed.

Lemma document_tree_covers_the_source_witness :
  exists t s',
    parse 40 RULE_document 0 (Parser.initializeParser "[1, 2]" false) = Ok t s'
    /\ leaves t = tokens (tokenize "[1, 2]")
    /\ input s' = []
    /\ failure (tokenize "[1, 2]") = None
    /\ Layout.Covers (list_ascii_of_string "[1, 2]") (leaves t).
Proof.
  eexists. eexists.
  split; [vm_compute; reflexivity|].
  apply (@document_tree_covers_the_source 40 "[1, 2]" false).
  vm_compute; reflexivity.
Defined.

Lemma document_reads_the_source fuel source debug t s' :
  parse fuel RULE_document 0 (Parser.initializeParser source debug)
  = Ok t s' ->
  failure (tokenize source) = None.
Proof.
  intros H.
  assert (noEOF (input (Parser.initializeParser source debug))) as N
    by apply tokenize_noEOF.
  destruct fuel as [|fuel]; [discriminate|]. cbn [parse] in H.
  destruct (@document_exhausts _ _ t s' (Tracks_parse fuel) N H) as [_ F].
  exact F.
Qed.

(** X27: a source with a character at which no token begins is never
    accepted as a document, wherever the character stands:
    [parseDocument] throws one of the two abort errors. *)
Theorem unreadable_character_fails_the_document source debug c :
  failure (tokenize source) = Some c ->
  exists message report,
    Parser.parseDocument source debug = (Parser.Threw message, report)
    /\ Coherence.abortMessage message.
Proof.
  intros F. unfold Parser.parseDocument, Parser.parseRule, Parser.parseWith.
  pose proof (ParserFacts.parse_fail_fast (Parser.fuelFor source)
                RULE_document source debug) as P.
  pose proof (@ParserFacts.parseRule_fuel RULE_document source debug) as U.
  destruct (parse (Parser.fuelFor source) RULE_document 0
                  (Parser.initializeParser source debug))
    as [t s'|[e|message] s'|] eqn:E.
  - apply document_reads_the_source in E. congruence.
  - destruct P.
  - exists message, (console s'). split; [reflexivity | apply P].
  - destruct (U eq_refl).
Qed.

Lemma unreadable_character_fails_the_document_witness :
  failure (tokenize "[1, 2] `") = Some "`"%char
  /\ exists message report,
       Parser.parseDocument "[1, 2] `" false
       = (Parser.Threw message, report)
       /\ Coherence.abortMessage message.
Proof.
  split; [vm_compute; reflexivity|].
  apply (@unreadable_character_fails_the_document "[1, 2] `" false "`"%char).
  vm_compute; reflexivity.
Defined.

End YieldFacts.

(* ================================================================== *)
(** * The lexer: the order of the rules *)
(* ================================================================== *)

Module RuleOrderFacts.
Import Regex Tokens Lexer TokenShapes.

(** ** Rules that cannot begin with a character *)

Lemma first_char_dead r c w :
  nullable r = false -> is_void (deriv c r) = true ->
  longest_match r (c :: w) = None.
Proof.
  intros N V. unfold longest_match. cbn [longest]. rewrite N, V. reflexivity.
Qed.

Lemma one_char_token r c w :
  nullable r = false -> deriv c r = Eps -> longest_match r (c :: w) = Some 1.
Proof.
  intros N D. unfold longest_match. cbn [longest]. rewrite N, D.
  cbn [is_void]. destruct w as [|d w]; reflexivity.
Qed.

Lemma two_char_token r c d w :
  nullable r = false -> nullable (deriv c r) = false ->
  is_void (deriv c r) = false -> deriv d (deriv c r) = Eps ->
  longest_match r (c :: d :: w) = Some 2.
Proof.
  intros N N' V D. unfold longest_match. cbn [longest].
  rewrite N, N', V, D. cbn [is_void]. destruct w as [|e w]; reflexivity.
Qed.

Lemma longest_le w : forall r n best m,
  longest r w n best = Some m -> best = Some m \/ m <= n + List.length w.
Proof.
  induction w as [|c w IH]; intros r n best m; cbn [longest List.length].
  - destruct (nullable r); intros H; [injection H as <-; right; lia | auto].
  - destruct (is_void (deriv c r)).
    + destruct (nullable r); intros H; [injection H as <-; right; lia | auto].
    + intros H. apply IH in H. destruct H as [H | H]; [|right; lia].
      destruct (nullable r); [injection H as <-; right; lia | auto].
Qed.

Lemma longest_match_le r w m :
  longest_match r w = Some m -> m <= List.length w.
Proof.
  unfold longest_match. destruct (longest r w 0 None) as [[|k]|] eqn:E;
    try discriminate.
  intros [= <-]. apply longest_le in E. destruct E as [E | E];
    [discriminate | exact E].
Qed.

Lemma best_rule_skip rs rs' w best :
  (forall x, In x rs -> rule_match (snd x) w = None) ->
  best_rule (rs ++ rs') w best = best_rule rs' w best.
Proof.
  induction rs as [|[ty r] rs IH]; intros H; [reflexivity|].
  cbn [app best_rule]. pose proof (H (ty, r) (or_introl eq_refl)) as E.
  cbn [snd] in E. rewrite E.
  apply IH. intros x I. apply H. right. exact I.
Qed.

(** No literal token of the parser grammar begins with [c]. *)
Lemma literals_dead c w :
  forallb (fun x => match snd x with
                    | Greedy r => negb (nullable r) && is_void (deriv c r)
                    | Scanner _ => false
                    end) (number_from 1 literalNames) = true ->
  forall x, In x (number_from 1 literalNames) ->
            rule_match (snd x) (c :: w) = None.
Proof.
  intros H x I. rewrite forallb_forall in H. apply H in I.
  destruct (snd x) as [r|f]; [|discriminate].
  apply andb_true_iff in I. destruct I as [N V].
  apply negb_true_iff in N. exact (@first_char_dead r c w N V).
Qed.

(** ** One rule at a time *)

Lemma best_rule_dead ty r rs c w best :
  nullable r = false -> is_void (deriv c r) = true ->
  best_rule ((ty, Greedy r) :: rs) (c :: w) best = best_rule rs (c :: w) best.
Proof.
  intros N V. cbn [best_rule rule_match].
  rewrite (@first_char_dead r c w N V). reflexivity.
Qed.

Lemma best_rule_silent ty f rs w best :
  f w = None ->
  best_rule ((ty, Scanner f) :: rs) w best = best_rule rs w best.
Proof. intros E. cbn [best_rule rule_match]. rewrite E. reflexivity. Qed.

Lemma best_rule_first ty r rs w n :
  rule_match r w = Some n ->
  best_rule ((ty, r) :: rs) w None = best_rule rs w (Some (ty, n)).
Proof. intros E. cbn [best_rule]. rewrite E. reflexivity. Qed.

Lemma best_rule_keep ty r rs w t m :
  (forall n, rule_match r w = Some n -> n <= m) ->
  best_rule ((ty, r) :: rs) w (Some (t, m)) = best_rule rs w (Some (t, m)).
Proof.
  intros H. cbn [best_rule]. destruct (rule_match r w) as [n|]; [|reflexivity].
  specialize (H n eq_refl). apply Nat.ltb_ge in H. rewrite H. reflexivity.
Qed.

Ltac dead_rules :=
  repeat first
    [ rewrite best_rule_dead by (vm_compute; reflexivity)
    | rewrite best_rule_silent by reflexivity ].

Lemma nextToken_line_feed w : nextToken (ch_lf :: w) = Some (NEWLINE, 1).
Proof.
  unfold nextToken, rules.
  rewrite best_rule_skip
    by (apply literals_dead; vm_compute; reflexivity).
  rewrite best_rule_silent by (destruct w as [|? [|? ?]]; reflexivity).
  dead_rules.
  rewrite best_rule_silent by (destruct w; reflexivity).
  dead_rules.
  rewrite (@best_rule_first NEWLINE (Greedy NEWLINE_r) _ _ 1)
    by (apply one_char_token; vm_compute; reflexivity).
  rewrite best_rule_keep; [reflexivity|].
  intros n H. cbn [rule_match] in H.
  rewrite one_char_token in H by (vm_compute; reflexivity).
  injection H as <-. lia.
Qed.

Lemma nextToken_carriage_return_line_feed w :
  nextToken (ch_cr :: ch_lf :: w) = Some (NEWLINE, 2).
Proof.
  unfold nextToken, rules.
  rewrite best_rule_skip
    by (apply literals_dead; vm_compute; reflexivity).
  rewrite best_rule_silent by (destruct w; reflexivity).
  dead_rules.
  rewrite (@best_rule_first NEWLINE (Greedy NEWLINE_r) _ _ 2)
    by (apply two_char_token; vm_compute; reflexivity).
  rewrite best_rule_keep; [reflexivity|].
  intros n H. cbn [rule_match] in H.
  rewrite one_char_token in H by (vm_compute; reflexivity).
  injection H as <-. lia.
Qed.


Lemma list_ascii_length source :
  List.length (list_ascii_of_string source) = String.length source.
Proof.
  induction source as [|c s IH]; simpl; [reflexivity|].
  rewrite IH; reflexivity.
Qed.

Lemma nextToken_version value :
  versionValue value ->
  nextToken ("v"%char :: value) = Some (VERSION, S (List.length value)).
Proof.
  intros V.
  assert (Lang VERSION_r ("v"%char :: value)) as L
    by (apply LexerFacts.Lang_VERSION; exists value; auto).
  destruct V as (level & levels & -> & (d & ds & -> & _ & _) & _).
  remember (ds ++ dotted levels)%list as rest eqn:R.
  cbn [app] in *. rewrite <- R in *. clear R.
  destruct (@MunchFacts.longest_match_complete VERSION_r
              ("v"%char :: d :: rest) (S (S (List.length rest))))
    as (m & M & G).
  { lia. } { reflexivity. }
  { change (S (S (List.length rest)))
      with (List.length ("v"%char :: d :: rest)).
    rewrite firstn_all. exact L. }
  pose proof (longest_match_le _ _ M) as U. cbn [List.length] in U.
  assert (m = S (S (List.length rest))) as -> by lia.
  unfold nextToken, rules.
  rewrite best_rule_skip
    by (apply literals_dead; vm_compute; reflexivity).
  rewrite best_rule_silent by (destruct rest; reflexivity).
  dead_rules.
  rewrite (@best_rule_first VERSION (Greedy VERSION_r) _ _ _ M).
  dead_rules.
  rewrite best_rule_keep.
  - dead_rules. reflexivity.
  - intros n H. cbn [rule_match] in H. apply longest_match_le in H.
    cbn [List.length] in H. exact H.
Qed.

(** X23: a version takes precedence over an identifier: a source that
    is the letter v and a version value is cut into one VERSION token,
    also when, as for v12, it is a word of the IDENTIFIER rule as well. *)
Theorem version_takes_precedence_over_identifier (value : string) :
  versionValue (list_ascii_of_string value) ->
  tokenize (versionLiteral value)
  = mkStream [mkToken VERSION (versionLiteral value)] None.
Proof.
  intros V. pose proof (nextToken_version V) as N.
  unfold tokenize, versionLiteral.
  cbn [list_ascii_of_string List.length scan]. rewrite N.
  change (S (List.length (list_ascii_of_string value)))
    with (List.length ("v"%char :: list_ascii_of_string value)).
  rewrite skipn_all, firstn_all.
  replace (scan (S (List.length (list_ascii_of_string value))) [])
    with (mkStream [] None) by reflexivity.
  cbn [tokens failure].
  change ("v"%char :: list_ascii_of_string value)
    with (list_ascii_of_string (String "v" value)).
  rewrite string_of_list_ascii_of_string. reflexivity.
Qed.

Lemma version_takes_precedence_over_identifier_witness :
  versionValue (list_ascii_of_string "12")
  /\ lexesAs IDENTIFIER_r (versionLiteral "12") = true
  /\ tokenize (versionLiteral "12")
     = mkStream [mkToken VERSION (versionLiteral "12")] None.
Proof.
  assert (versionValue (list_ascii_of_string "12")) as V.
  { exists ["1"; "2"]%char, []. split; [reflexivity|].
    split; [|constructor].
    exists "1"%char, ["2"%char]. split; [reflexivity|].
    split; [reflexivity | repeat constructor]. }
  split; [exact V|]. split; [reflexivity|].
  apply (@version_takes_precedence_over_identifier "12" V).
Defined.

(** X24: a line break is never hidden: at a line feed the lexer
    delivers a NEWLINE token of one character, and at a carriage return
    followed by a line feed one of two characters, although both
    characters are white space of the SPACE rule. *)
Theorem line_breaks_are_NEWLINE_tokens (w : list ascii) :
  nextToken (ch_lf :: w) = Some (NEWLINE, 1)
  /\ nextToken (ch_cr :: ch_lf :: w) = Some (NEWLINE, 2)
  /\ isSpace ch_lf = true /\ isSpace ch_cr = true.
Proof.
  split; [apply nextToken_line_feed|].
  split; [apply nextToken_carriage_return_line_feed|].
  split; reflexivity.
Qed.


Lemma nth_error_combine_seq A (l : list A) : forall start i x,
  nth_error l i = Some x ->
  In (start + i, x) (combine (seq start (List.length l)) l).
Proof.
  induction l as [|y l IH]; intros start [|i] x H; try discriminate.
  - injection H as <-. left. f_equal. lia.
  - right. cbn [List.length seq combine].
    replace (start + S i) with (S start + i) by lia. apply IH. exact H.
Qed.

(** X25: the literals of the parser grammar are reserved: a source
    that is one of them is cut into the one token of that literal, never
    into an IDENTIFIER or a token of another rule. *)
Theorem literals_are_reserved (i : nat) (name : string) :
  nth_error literalNames i = Some name ->
  tokenize name = mkStream [mkToken (Z.of_nat i + 1) name] None.
Proof.
  intros H.
  assert (forallb
            (fun p =>
               match tokenize (snd p) with
               | mkStream [t] None =>
                   Z.eqb (ttype t) (Z.of_nat (fst p) + 1)
                   && String.eqb (text t) (snd p)
               | _ => false
               end)
            (combine (seq 0 (List.length literalNames)) literalNames) = true)
    as C by (vm_compute; reflexivity).
  rewrite forallb_forall in C.
  specialize (C _ (@nth_error_combine_seq _ literalNames 0 i name H)).
  cbn [fst snd Nat.add] in C.
  destruct (tokenize name) as [[|t [|? ?]] [?|]]; try discriminate.
  apply andb_true_iff in C. destruct C as [T X].
  apply Z.eqb_eq in T. apply String.eqb_eq in X.
  destruct t as [ty tx]. cbn [ttype text] in *. subst. reflexivity.
Qed.

Lemma literals_are_reserved_witness :
  nth_error literalNames 64 = Some "true"
  /\ lexesAs IDENTIFIER_r "true" = true
  /\ tokenize "true" = mkStream [mkToken (Z.of_nat 64 + 1) "true"] None.
Proof.
  split; [reflexivity|]. split; [reflexivity|].
  apply (@literals_are_reserved 64 "true"). reflexivity.
Defined.

End RuleOrderFacts.

(* ================================================================== *)
(** * Expressions are grouped by precedence *)
(* ================================================================== *)

Module PrecedenceFacts.
Import Tokens Lexer ParseTrees Recognizer BaliLanguageParser Precedence.

Local Open Scope Z_scope.
Local Open Scope parser_scope.

(** ** Results with a property *)

Lemma Makes_ret A (P : A -> Prop) (a : A) : P a -> Makes P (ret a).
Proof. intros H s x s' [= <- _]. exact H. Qed.

Lemma Makes_bind A B (Q : A -> Prop) (P : B -> Prop) (m : M A)
      (f : A -> M B) :
  Makes Q m -> (forall a, Q a -> Makes P (f a)) -> Makes P (bind m f).
Proof.
  intros Hm Hf s b s'. unfold bind.
  destruct (m s) as [a s1| |] eqn:E; try discriminate.
  intros H. exact (Hf a (Hm s a s1 E) s1 b s' H).
Qed.

Lemma Makes_any A (m : M A) : Makes (fun _ => True) m.
Proof. intros s a s' _. exact I. Qed.

Lemma Makes_never A (P : A -> Prop) (m : M A) :
  (forall s a s', m s <> Ok a s') -> Makes P m.
Proof. intros H s a s' E. destruct (H _ _ _ E). Qed.

Lemma Makes_noViableAlt A (P : A -> Prop) : Makes P noViableAlt.
Proof.
  apply Makes_never. intros s a s'. apply YieldFacts.noViableAlt_never.
Qed.

Lemma Makes_ruleBody P body : Makes P body -> Makes P (ruleBody body).
Proof.
  intros Hb s a s'. unfold ruleBody.
  destruct (body s) as [x s1|[e|msg] s1|] eqn:E; try discriminate.
  - intros [= <- <-]. exact (Hb s x s1 E).
  - unfold bind. destruct (reportError e s1); unfold recover, raise;
      discriminate.
Qed.

(** A matched token is a terminal node. *)
Lemma matched_terminal (ok : Token -> bool) (set : list Z) :
  Makes (fun t => respects t = true)
        (t0 <- getCurrentToken ;;
         if ok t0 then reportMatch ;; consume ;; ret (TerminalNode t0)
         else recoverInline set).
Proof.
  intros s t s'. unfold bind at 1.
  destruct (getCurrentToken s) as [t0 s0| |]; try discriminate.
  destruct (ok t0).
  - unfold bind, reportMatch, endErrorCondition, setErrorRecoveryMode, consume.
    cbn [input]. destruct (input s0); intros [= <- _]; reflexivity.
  - intros H. destruct (@YieldFacts.recoverInline_never _ _ _ _ _ H).
Qed.

Lemma Makes_match t : Makes (fun x => respects x = true) (match_ t).
Proof. apply (matched_terminal (fun k => Z.eqb (ttype k) t) [t]). Qed.

Lemma Makes_matchSet set : Makes (fun x => respects x = true) (matchSet set).
Proof. apply (matched_terminal (fun k => mem (ttype k) set) set). Qed.

Lemma Makes_loop n cond body acc :
  Makes (fun l => forallb respects l = true) body ->
  forallb respects acc = true ->
  Makes (fun l => forallb respects l = true) (loop n cond body acc).
Proof.
  intros Hb. revert acc. induction n as [|n IH]; intros acc Ha; cbn [loop].
  - apply Makes_never. discriminate.
  - apply Makes_bind with (Q := fun _ => True); [apply Makes_any|].
    intros [|] _.
    + apply Makes_bind with (Q := fun l => forallb respects l = true);
        [exact Hb|].
      intros xs Hx. apply IH. rewrite forallb_app, Ha, Hx. reflexivity.
    + apply Makes_ret. exact Ha.
Qed.

Lemma Makes_while cond body :
  Makes (fun l => forallb respects l = true) body ->
  Makes (fun l => forallb respects l = true) (while_ cond body).
Proof.
  intros Hb s a s' H. unfold while_ in H.
  exact (@Makes_loop _ cond body [] Hb eq_refl s a s' H).
Qed.

Lemma Makes_Grouped r p m :
  Grouped r p m -> Makes (fun t => respects t = true) m.
Proof. intros H s t s' E. exact (proj1 (H s t s' E)). Qed.

Lemma Grouped_Makes r p m :
  r <> RULE_expression -> Makes (fun t => respects t = true) m ->
  Grouped r p m.
Proof.
  intros N H s t s' E. split; [exact (H s t s' E)|].
  intros X. destruct (N X).
Qed.

Create HintDb makes.

#[local] Hint Resolve Makes_match Makes_matchSet Makes_noViableAlt : makes.

(** The tree returned is grouped when its parts are. *)
Ltac parts_respect :=
  cbv beta; cbn [respects grouped levelOf operandLevel andb forallb];
  rewrite ?forallb_app; cbn [forallb];
  repeat match goal with H : _ = true |- _ => rewrite H; clear H end;
  reflexivity.

Ltac makes_step :=
  lazy beta iota;
  match goal with
  | |- Makes _ (ret _) => apply Makes_ret; parts_respect
  | |- Makes _ (ruleBody _) => apply Makes_ruleBody
  | |- Makes _ (while_ _ _) => apply Makes_while
  | |- Makes _ (bind ?m _) =>
      match type of m with
      | M ParseTree =>
          apply Makes_bind with (Q := fun t => respects t = true);
          [|intros ? ?]
      | M (list ParseTree) =>
          apply Makes_bind with (Q := fun l => forallb respects l = true);
          [|intros ? ?]
      | _ =>
          apply Makes_bind with (Q := fun _ => True);
          [apply Makes_any|intros ? _]
      end
  | |- Makes _ (match ?x with _ => _ end) => destruct x
  | H : forall r p, Grouped r p (?rec r p) |- Makes _ (?rec ?r ?p) =>
      apply (@Makes_Grouped r p), H
  | |- _ => solve [auto with makes]
  end.

Ltac makes := repeat makes_step.

(** ** The rules that call no rule through [rec] *)

Lemma Makes_label : Makes (fun t => respects t = true) label.
Proof. unfold label. makes. Qed.
#[local] Hint Resolve Makes_label : makes.

Lemma Makes_variable : Makes (fun t => respects t = true) variable.
Proof. unfold variable. makes. Qed.
#[local] Hint Resolve Makes_variable : makes.

Lemma Makes_name : Makes (fun t => respects t = true) name.
Proof. unfold name. makes. Qed.
#[local] Hint Resolve Makes_name : makes.

Lemma Makes_binary : Makes (fun t => respects t = true) binary.
Proof. unfold binary. makes. Qed.
#[local] Hint Resolve Makes_binary : makes.

Lemma Makes_duration : Makes (fun t => respects t = true) duration.
Proof. unfold duration. makes. Qed.
#[local] Hint Resolve Makes_duration : makes.

Lemma Makes_moment : Makes (fun t => respects t = true) moment.
Proof. unfold moment. makes. Qed.
#[local] Hint Resolve Makes_moment : makes.

Lemma Makes_reference : Makes (fun t => respects t = true) reference.
Proof. unfold reference. makes. Qed.
#[local] Hint Resolve Makes_reference : makes.

Lemma Makes_symbol : Makes (fun t => respects t = true) symbol.
Proof. unfold symbol. makes. Qed.
#[local] Hint Resolve Makes_symbol : makes.

Lemma Makes_tag : Makes (fun t => respects t = true) tag.
Proof. unfold tag. makes. Qed.
#[local] Hint Resolve Makes_tag : makes.

Lemma Makes_version : Makes (fun t => respects t = true) version.
Proof. unfold version. makes. Qed.
#[local] Hint Resolve Makes_version : makes.

Lemma Makes_template : Makes (fun t => respects t = true) template.
Proof. unfold template. makes. Qed.
#[local] Hint Resolve Makes_template : makes.

Lemma Makes_text : Makes (fun t => respects t = true) text.
Proof. unfold text. makes. Qed.
#[local] Hint Resolve Makes_text : makes.

Lemma Makes_probability : Makes (fun t => respects t = true) probability.
Proof. unfold probability. makes. Qed.
#[local] Hint Resolve Makes_probability : makes.

Lemma Makes_real : Makes (fun t => respects t = true) real.
Proof. unfold real. makes. Qed.
#[local] Hint Resolve Makes_real : makes.

Lemma Makes_imaginary : Makes (fun t => respects t = true) imaginary.
Proof. unfold imaginary. makes. Qed.
#[local] Hint Resolve Makes_imaginary : makes.

Lemma Makes_number : Makes (fun t => respects t = true) number.
Proof. unfold number. makes. Qed.
#[local] Hint Resolve Makes_number : makes.

Lemma Makes_percent : Makes (fun t => respects t = true) percent.
Proof. unfold percent. makes. Qed.
#[local] Hint Resolve Makes_percent : makes.

Lemma Makes_continueClause : Makes (fun t => respects t = true) continueClause.
Proof. unfold continueClause. makes. Qed.
#[local] Hint Resolve Makes_continueClause : makes.

Lemma Makes_breakClause : Makes (fun t => respects t = true) breakClause.
Proof. unfold breakClause. makes. Qed.
#[local] Hint Resolve Makes_breakClause : makes.

Lemma Makes_optionalLabel :
  Makes (fun l => forallb respects l = true) optionalLabel.
Proof. unfold optionalLabel. makes. Qed.
#[local] Hint Resolve Makes_optionalLabel : makes.

(** ** The next token and its level *)

Lemma LA1_nextLevel s la s' :
  LA 1 s = Ok la s' -> s' = s /\ operatorLevel la = nextLevel s.
Proof.
  unfold LA, bind, LT, nextLevel. cbn [Nat.sub nth_error].
  destruct (input s) as [|tok rest] eqn:E; cbn [nth_error].
  - destruct (lexFailure s).
    + unfold lexerFail, bind, syntaxError, lexerRecover, raise, log.
      destruct (debug s); discriminate.
    + intros [= <- <-]. split; reflexivity.
  - intros [= <- <-]. split; reflexivity.
Qed.

Lemma operatorLevel_bound la k : operatorLevel la = Some k -> k < 13.
Proof.
  unfold operatorLevel.
  repeat match goal with
         | |- context [if ?c then _ else _] => destruct c
         end; intros [= <-]; lia.
Qed.

Lemma stops_any s : stops 13 s.
Proof.
  unfold stops, nextLevel. destruct (input s) as [|tok rest]; [exact I|].
  destruct (operatorLevel (ttype tok)) as [k|] eqn:E; [|exact I].
  exact (@operatorLevel_bound _ _ E).
Qed.

(** ** The rules that call other rules, given that the calls are grouped *)

Section Rules.

Variable rec : Rec.
Hypothesis Hrec : forall r p, Grouped r p (rec r p).

Lemma Grouped_document p : Grouped RULE_document p (document rec).
Proof.
  apply Grouped_Makes; [discriminate|]. unfold document. makes.
Qed.

Lemma Grouped_component p : Grouped RULE_component p (component rec).
Proof.
  apply Grouped_Makes; [discriminate|]. unfold component. makes.
Qed.

Lemma Grouped_structure p : Grouped RULE_structure p (structure rec).
Proof.
  apply Grouped_Makes; [discriminate|]. unfold structure. makes.
Qed.

Lemma Grouped_parameters p : Grouped RULE_parameters p (parameters rec).
Proof.
  apply Grouped_Makes; [discriminate|]. unfold parameters. makes.
Qed.

Lemma Grouped_composite p : Grouped RULE_composite p (composite rec).
Proof.
  apply Grouped_Makes; [discriminate|]. unfold composite. makes.
Qed.

Lemma Grouped_range p : Grouped RULE_range p (range rec).
Proof.
  apply Grouped_Makes; [discriminate|]. unfold range. makes.
Qed.

Lemma Grouped_array p : Grouped RULE_array p (array rec).
Proof.
  apply Grouped_Makes; [discriminate|]. unfold array. makes.
Qed.

Lemma Grouped_table p : Grouped RULE_table p (table rec).
Proof.
  apply Grouped_Makes; [discriminate|]. unfold table. makes.
Qed.

Lemma Grouped_association p : Grouped RULE_association p (association rec).
Proof.
  apply Grouped_Makes; [discriminate|]. unfold association. makes.
Qed.

Lemma Grouped_block p : Grouped RULE_block p (block rec).
Proof.
  apply Grouped_Makes; [discriminate|]. unfold block. makes.
Qed.

Lemma Grouped_procedure p : Grouped RULE_procedure p (procedure rec).
Proof.
  apply Grouped_Makes; [discriminate|]. unfold procedure. makes.
Qed.

Lemma Grouped_statement p : Grouped RULE_statement p (statement rec).
Proof.
  apply Grouped_Makes; [discriminate|]. unfold statement. makes.
Qed.

Lemma Grouped_handleClause p : Grouped RULE_handleClause p (handleClause rec).
Proof.
  apply Grouped_Makes; [discriminate|]. unfold handleClause. makes.
Qed.

Lemma Grouped_finishClause p : Grouped RULE_finishClause p (finishClause rec).
Proof.
  apply Grouped_Makes; [discriminate|]. unfold finishClause. makes.
Qed.

Lemma Grouped_evaluateClause p : Grouped RULE_evaluateClause p (evaluateClause rec).
Proof.
  apply Grouped_Makes; [discriminate|]. unfold evaluateClause. makes.
Qed.

Lemma Grouped_checkoutClause p : Grouped RULE_checkoutClause p (checkoutClause rec).
Proof.
  apply Grouped_Makes; [discriminate|]. unfold checkoutClause. makes.
Qed.

Lemma Grouped_saveClause p : Grouped RULE_saveClause p (saveClause rec).
Proof.
  apply Grouped_Makes; [discriminate|]. unfold saveClause. makes.
Qed.

Lemma Grouped_discardClause p : Grouped RULE_discardClause p (discardClause rec).
Proof.
  apply Grouped_Makes; [discriminate|]. unfold discardClause. makes.
Qed.

Lemma Grouped_commitClause p : Grouped RULE_commitClause p (commitClause rec).
Proof.
  apply Grouped_Makes; [discriminate|]. unfold commitClause. makes.
Qed.

Lemma Grouped_publishClause p : Grouped RULE_publishClause p (publishClause rec).
Proof.
  apply Grouped_Makes; [discriminate|]. unfold publishClause. makes.
Qed.

Lemma Grouped_queueClause p : Grouped RULE_queueClause p (queueClause rec).
Proof.
  apply Grouped_Makes; [discriminate|]. unfold queueClause. makes.
Qed.

Lemma Grouped_waitClause p : Grouped RULE_waitClause p (waitClause rec).
Proof.
  apply Grouped_Makes; [discriminate|]. unfold waitClause. makes.
Qed.

Lemma Grouped_ifClause p : Grouped RULE_ifClause p (ifClause rec).
Proof.
  apply Grouped_Makes; [discriminate|]. unfold ifClause. makes.
Qed.

Lemma Grouped_selectClause p : Grouped RULE_selectClause p (selectClause rec).
Proof.
  apply Grouped_Makes; [discriminate|]. unfold selectClause. makes.
Qed.

Lemma Grouped_whileClause p : Grouped RULE_whileClause p (whileClause rec).
Proof.
  apply Grouped_Makes; [discriminate|]. unfold whileClause. makes.
Qed.

Lemma Grouped_withClause p : Grouped RULE_withClause p (withClause rec).
Proof.
  apply Grouped_Makes; [discriminate|]. unfold withClause. makes.
Qed.

Lemma Grouped_returnClause p : Grouped RULE_returnClause p (returnClause rec).
Proof.
  apply Grouped_Makes; [discriminate|]. unfold returnClause. makes.
Qed.

Lemma Grouped_throwClause p : Grouped RULE_throwClause p (throwClause rec).
Proof.
  apply Grouped_Makes; [discriminate|]. unfold throwClause. makes.
Qed.

Lemma Grouped_indices p : Grouped RULE_indices p (indices rec).
Proof.
  apply Grouped_Makes; [discriminate|]. unfold indices. makes.
Qed.

Lemma Grouped_invocation p : Grouped RULE_invocation p (invocation rec).
Proof.
  apply Grouped_Makes; [discriminate|]. unfold invocation. makes.
Qed.

Lemma Grouped_element p : Grouped RULE_element p (element rec).
Proof.
  apply Grouped_Makes; [discriminate|]. unfold element. makes.
Qed.

(** Running a sequence of calls: every call returned, and what it
    returned has the property of its kind. *)
Ltac run_step :=
  match goal with
  | |- bind ?m _ ?s = Ok _ _ -> _ =>
      unfold bind at 1;
      let E := fresh "E" in
      destruct (m s) as [? ?| |] eqn:E; [|discriminate|discriminate]
  | |- ret _ _ = Ok _ _ -> _ => intros [= <- <-]
  end.

Ltac learn :=
  repeat match goal with
  | E : match_ ?t ?s = Ok ?o ?s' |- _ =>
      apply Makes_match in E; cbv beta in E
  | E : matchSet ?t ?s = Ok ?o ?s' |- _ =>
      apply Makes_matchSet in E; cbv beta in E
  | E : variable ?s = Ok ?o ?s' |- _ =>
      apply Makes_variable in E; cbv beta in E
  | H : forall r p, Grouped r p (?f r p),
    E : ?f RULE_expression ?p ?s = Ok ?t ?s' |- _ =>
      let G := fresh "G" in
      pose proof (H RULE_expression p) as G; unfold Grouped in G;
      apply G in E; clear G;
      let R := fresh "R" in let X := fresh "X" in
      destruct E as [R X];
      let B := fresh "B" in let K := fresh "K" in
      destruct (X eq_refl) as [B K]; clear X
  | H : forall r p, Grouped r p (?f r p),
    E : ?f ?r ?p ?s = Ok ?t ?s' |- _ =>
      let G := fresh "G" in
      pose proof (H r p) as G; unfold Grouped in G;
      apply G in E; clear G; apply proj1 in E
  end.

Ltac grouped_node :=
  cbn [respects grouped levelOf operandLevel rootLevel closes andb forallb];
  repeat match goal with H : _ = true |- _ => rewrite H; clear H end.

Lemma primary_grouped s first s1 :
  expressionPrimary rec s = Ok first s1 ->
  respects first = true /\ rootLevel first = None
  /\ stops (closes first) s1.
Proof.
  unfold expressionPrimary. unfold bind at 1.
  destruct (predict32 s) as [alt s0| |]; [|discriminate|discriminate].
  do 8 (destruct alt as [|alt];
        [repeat run_step; learn; grouped_node;
         repeat split; solve [reflexivity | apply stops_any | assumption]|]).
  repeat run_step; learn; grouped_node.
  repeat split; solve [reflexivity | apply stops_any | assumption].
Qed.

Lemma checkPrecpred_holds p k text s u s' :
  checkPrecpred p k text s = Ok u s' -> s' = s /\ (p <=? k) = true.
Proof.
  unfold checkPrecpred, precpred. destruct (p <=? k).
  - intros [= _ <-]. split; reflexivity.
  - unfold bind. destruct (getCurrentToken s); unfold raise; discriminate.
Qed.

Lemma operator_grouped p localctx s next s1 :
  respects localctx = true -> stops (closes localctx) s ->
  expressionOperator rec p localctx s = Ok next s1 ->
  respects next = true /\ bindsAt p next = true
  /\ stops (closes next) s1.
Proof.
  intros RL SL. unfold expressionOperator, predict33.
  unfold bind at 1. unfold bind at 1.
  destruct (LA 1 s) as [la s0| |] eqn:L; [|discriminate|discriminate].
  apply LA1_nextLevel in L. destruct L as [-> L].
  unfold stops in SL. rewrite <- L in SL. clear L. revert SL.
  unfold operatorLevel.
  repeat match goal with
         | |- context [if ?c then _ else _] => destruct c
         end;
    intros SL;
    try (match goal with
         | |- context [@noViableAlt ?A ?x] =>
             let N := fresh "N" in
             destruct (@noViableAlt A x) as [? ?| |] eqn:N;
             [destruct (@YieldFacts.noViableAlt_never _ _ _ _ N)
             |discriminate|discriminate]
         end);
    unfold ret at 1; cbv beta iota;
    unfold bind at 1;
    match goal with
    | |- context [checkPrecpred ?a ?b ?c ?x] =>
        let C := fresh "C" in
        destruct (checkPrecpred a b c x) as [? ?| |] eqn:C;
        [|discriminate|discriminate];
        apply checkPrecpred_holds in C; destruct C as [-> C]
    end;
    repeat run_step; learn; grouped_node;
    cbn [bindsAt rootLevel levelOf];
    try match goal with
        | |- context [?k <? closes localctx] =>
            replace (k <? closes localctx) with true
              by (symmetry; apply Z.ltb_lt; exact SL)
        end;
    repeat split;
    solve [reflexivity | apply stops_any | assumption].
Qed.

Lemma loop_grouped n : forall p localctx s t s',
  respects localctx = true -> bindsAt p localctx = true ->
  stops (closes localctx) s ->
  expressionLoop n rec p localctx s = Ok t s' ->
  respects t = true /\ bindsAt p t = true /\ stops p s'.
Proof.
  induction n as [|n IH]; intros p localctx s t s' RL BL SL;
    cbn [expressionLoop]; [discriminate|].
  unfold predict34. unfold bind at 1. unfold bind at 1.
  destruct (LA 1 s) as [la s0| |] eqn:L; [|discriminate|discriminate].
  apply LA1_nextLevel in L. destruct L as [-> L].
  unfold ret at 1. cbv beta iota.
  destruct (operatorLevel la) as [k|] eqn:K.
  - unfold precpred. destruct (p <=? k) eqn:P; cbn [Nat.eqb].
    + unfold bind at 1.
      destruct (expressionOperator rec p localctx s) as [next s1| |] eqn:O;
        [|discriminate|discriminate].
      destruct (@operator_grouped p localctx s next s1 RL SL O)
        as (RN & BN & SN).
      apply IH; assumption.
    + intros [= <- <-]. repeat split; try assumption.
      unfold stops. rewrite <- L. apply Z.leb_gt. exact P.
  - cbn [Nat.eqb]. intros [= <- <-]. repeat split; try assumption.
    unfold stops. rewrite <- L. exact I.
Qed.

Lemma Grouped_expression p : Grouped RULE_expression p (expression rec p).
Proof.
  intros s t s'. unfold expression, ruleBody.
  match goal with |- match ?b s with _ => _ end = _ -> _ =>
    destruct (b s) as [x s0|[e|msg] s0|] eqn:E end; try discriminate.
  - intros [= <- <-]. revert E. unfold bind at 1.
    destruct (expressionPrimary rec s) as [first s1| |] eqn:F;
      [|discriminate|discriminate].
    destruct (@primary_grouped s first s1 F) as (RF & LF & SF).
    intros E.
    assert (bindsAt p first = true) as BF
      by (unfold bindsAt; rewrite LF; reflexivity).
    destruct (@loop_grouped _ p first s1 x s0 RF BF SF E) as (R & B & S).
    split; [exact R|]. intros _. split; assumption.
  - unfold bind. destruct (reportError e s0); unfold recover, raise;
      discriminate.
Qed.

End Rules.

Lemma Grouped_parse fuel : forall r p, Grouped r p (parse fuel r p).
Proof.
  induction fuel as [|fuel IH]; intros r p.
  - intros s t s'. discriminate.
  - destruct r; cbn [parse];
      first [ apply Grouped_expression; exact IH
            | apply Grouped_document; exact IH
            | apply Grouped_component; exact IH
            | apply Grouped_structure; exact IH
            | apply Grouped_parameters; exact IH
            | apply Grouped_composite; exact IH
            | apply Grouped_range; exact IH
            | apply Grouped_array; exact IH
            | apply Grouped_table; exact IH
            | apply Grouped_association; exact IH
            | apply Grouped_block; exact IH
            | apply Grouped_procedure; exact IH
            | apply Grouped_statement; exact IH
            | apply Grouped_handleClause; exact IH
            | apply Grouped_finishClause; exact IH
            | apply Grouped_evaluateClause; exact IH
            | apply Grouped_checkoutClause; exact IH
            | apply Grouped_saveClause; exact IH
            | apply Grouped_discardClause; exact IH
            | apply Grouped_commitClause; exact IH
            | apply Grouped_publishClause; exact IH
            | apply Grouped_queueClause; exact IH
            | apply Grouped_waitClause; exact IH
            | apply Grouped_ifClause; exact IH
            | apply Grouped_selectClause; exact IH
            | apply Grouped_whileClause; exact IH
            | apply Grouped_withClause; exact IH
            | apply Grouped_returnClause; exact IH
            | apply Grouped_throwClause; exact IH
            | apply Grouped_indices; exact IH
            | apply Grouped_invocation; exact IH
            | apply Grouped_element; exact IH
            | apply Grouped_Makes; [discriminate | apply Makes_label]
            | apply Grouped_Makes; [discriminate | apply Makes_variable]
            | apply Grouped_Makes; [discriminate | apply Makes_name]
            | apply Grouped_Makes; [discriminate | apply Makes_binary]
            | apply Grouped_Makes; [discriminate | apply Makes_duration]
            | apply Grouped_Makes; [discriminate | apply Makes_moment]
            | apply Grouped_Makes; [discriminate | apply Makes_reference]
            | apply Grouped_Makes; [discriminate | apply Makes_symbol]
            | apply Grouped_Makes; [discriminate | apply Makes_tag]
            | apply Grouped_Makes; [discriminate | apply Makes_version]
            | apply Grouped_Makes; [discriminate | apply Makes_template]
            | apply Grouped_Makes; [discriminate | apply Makes_text]
            | apply Grouped_Makes; [discriminate | apply Makes_probability]
            | apply Grouped_Makes; [discriminate | apply Makes_real]
            | apply Grouped_Makes; [discriminate | apply Makes_imaginary]
            | apply Grouped_Makes; [discriminate | apply Makes_number]
            | apply Grouped_Makes; [discriminate | apply Makes_percent]
            | apply Grouped_Makes; [discriminate | apply Makes_continueClause]
            | apply Grouped_Makes; [discriminate | apply Makes_breakClause] ].
Qed.

(** X26: the trees of the parser are grouped by precedence: in every
    operator node of a tree that a rule function returns, the right
    operand has at least the level with which it was parsed whenever
    the loop of [expression] made its root, and the level of the
    operator is below the level at which the last operand of its left
    operand was parsed; [expression(p)] returns a tree whose root has at
    least the level [p], and returns before an operator of level [p]
    or more. *)
Theorem expressions_group_by_precedence fuel r p s t s' :
  parse fuel r p s = Ok t s' ->
  respects t = true
  /\ (r = RULE_expression -> bindsAt p t = true /\ stops p s').
Proof. apply Grouped_parse. Qed.

Lemma expressions_group_by_precedence_witness :
  exists t s',
    parse 60 RULE_expression 0
          (Parser.initializeParser "a + b ^ c ^ d < e" false) = Ok t s'
    /\ respects t = true
    /\ (RULE_expression = RULE_expression ->
        bindsAt 0 t = true /\ stops 0 s').
Proof.
  eexists. eexists.
  split; [vm_compute; reflexivity|].
  apply (@expressions_group_by_precedence 60 RULE_expression 0
           (Parser.initializeParser "a + b ^ c ^ d < e" false)).
  vm_compute; reflexivity.
Defined.

End PrecedenceFacts.

(** * The labelled fields of the trees of the parser *)

Module LabelFacts.
Import Tokens Lexer ParseTrees Recognizer BaliLanguageParser Precedence Labels.
Import PrecedenceFacts.

Local Open Scope Z_scope.
Local Open Scope parser_scope.

(** ** Lists of labelled trees *)

Lemma allLabelled_nil : allLabelled [].
Proof. exact I. Qed.

Lemma allLabelled_cons t ts :
  labelled t -> allLabelled ts -> allLabelled (t :: ts).
Proof. intros H Hs. split; assumption. Qed.

Lemma allLabelled_app ts us :
  allLabelled ts -> allLabelled us -> allLabelled (ts ++ us).
Proof.
  induction ts as [|t ts IH]; intros Ht Hu; [exact Hu|].
  destruct Ht as [H Hs]. split; [exact H | exact (IH Hs Hu)].
Qed.

Lemma labelled_node c fs cs :
  labelsOf c cs = Some fs -> allLabelled cs -> labelled (RuleNode c fs cs).
Proof. intros H Hs. split; assumption. Qed.

(** ** The token matched is the token looked at *)

Lemma matched_is_terminal (ok : Token -> bool) (set : list Z) s
      (t : ParseTree) s' :
  (t0 <- getCurrentToken ;;
   if ok t0 then reportMatch ;; consume ;; ret (TerminalNode t0)
   else recoverInline set) s = Ok t s' ->
  exists k, LT 1 s = Ok k s /\ t = TerminalNode k.
Proof.
  unfold bind at 1, getCurrentToken.
  destruct (LT 1 s) as [t0 s0| |] eqn:E; try discriminate.
  assert (s0 = s) as ->.
  { revert E. unfold LT. destruct (nth_error (input s) (1 - 1)).
    - intros [= _ <-]. reflexivity.
    - destruct (lexFailure s).
      + unfold lexerFail, bind, syntaxError, lexerRecover, raise, log.
        destruct (debug s); discriminate.
      + intros [= _ <-]. reflexivity. }
  destruct (ok t0).
  - unfold bind, reportMatch, endErrorCondition, setErrorRecoveryMode, consume.
    cbn [input]. destruct (input s); intros [= <- _]; exists t0;
      split; reflexivity.
  - intros H. destruct (@YieldFacts.recoverInline_never _ _ _ _ _ H).
Qed.

Lemma Makes_match_terminal t : Makes terminal (match_ t).
Proof.
  intros s x s' E.
  destruct (@matched_is_terminal (fun k => Z.eqb (ttype k) t) [t] _ _ _ E)
    as [k [_ ->]].
  exists k. reflexivity.
Qed.

(** [localctx.op = this._input.LT(1)] before the test of the token:
    the label holds the token of the child that is added next. *)
Lemma Makes_labelled_token A (P : A -> Prop) set
      (f : Token -> ParseTree -> M A) :
  (forall k, Makes P (f k (TerminalNode k))) ->
  Makes P (op <- LT 1 ;; o <- matchSet set ;; f op o).
Proof.
  intros Hf s a s'. unfold bind at 1.
  destruct (LT 1 s) as [op s0| |] eqn:E; try discriminate.
  unfold bind at 1.
  destruct (matchSet set s0) as [o s1| |] eqn:E1; try discriminate.
  assert (s0 = s) as ->.
  { revert E. unfold LT. destruct (nth_error (input s) (1 - 1)).
    - intros [= _ <-]. reflexivity.
    - destruct (lexFailure s).
      + unfold lexerFail, bind, syntaxError, lexerRecover, raise, log.
        destruct (debug s); discriminate.
      + intros [= _ <-]. reflexivity. }
  destruct (@matched_is_terminal (fun k => mem (ttype k) set) set _ _ _ E1)
    as [k [E2 ->]].
  rewrite E in E2. injection E2 as ->.
  apply Hf.
Qed.

Lemma Labelled_loop n cond body acc :
  Makes allLabelled body -> allLabelled acc ->
  Makes allLabelled (loop n cond body acc).
Proof.
  intros Hb. revert acc. induction n as [|n IH]; intros acc Ha; cbn [loop].
  - apply Makes_never. discriminate.
  - apply Makes_bind with (Q := fun _ => True); [apply Makes_any|].
    intros [|] _.
    + apply Makes_bind with (Q := allLabelled); [exact Hb|].
      intros xs Hx. apply IH. apply allLabelled_app; assumption.
    + apply Makes_ret. exact Ha.
Qed.

Lemma Labelled_while cond body :
  Makes allLabelled body -> Makes allLabelled (while_ cond body).
Proof.
  intros Hb s a s' H. unfold while_ in H.
  exact (@Labelled_loop _ cond body [] Hb I s a s' H).
Qed.

Create HintDb labels.

#[local] Hint Resolve Makes_noViableAlt : labels.

Ltac all_labelled :=
  repeat first
    [ exact I
    | assumption
    | apply allLabelled_nil
    | apply allLabelled_cons
    | apply allLabelled_app ].

Ltac node_labelled :=
  cbv beta;
  first [ apply labelled_node;
          [cbn [labelsOf signField]; reflexivity | all_labelled]
        | all_labelled ].

Ltac labels_step :=
  lazy beta iota;
  match goal with
  | |- Makes _ (ret _) => apply Makes_ret; node_labelled
  | |- Makes _ (ruleBody _) => apply Makes_ruleBody
  | |- Makes _ (while_ _ _) => apply Labelled_while
  | |- Makes _ (bind (LT 1) _) => apply Makes_labelled_token; intros ?
  | |- Makes _ (bind (match_ _) _) =>
      apply Makes_bind with (Q := terminal);
      [apply Makes_match_terminal | intros ? [? ->]]
  | |- Makes _ (bind ?m _) =>
      match type of m with
      | M ParseTree =>
          apply Makes_bind with (Q := labelled); [|intros ? ?]
      | M (list ParseTree) =>
          apply Makes_bind with (Q := allLabelled); [|intros ? ?]
      | _ =>
          apply Makes_bind with (Q := fun _ => True);
          [apply Makes_any|intros ? _]
      end
  | |- Makes _ (match ?x with _ => _ end) => destruct x
  | H : forall r p, Makes labelled (?rec r p) |- Makes _ (?rec ?r ?p) =>
      apply H
  | |- _ => solve [auto with labels]
  end.

Ltac labels := repeat labels_step.

(** ** The rules that call no rule through [rec] *)

Lemma Labelled_label : Makes labelled label.
Proof. unfold label. labels. Qed.
#[local] Hint Resolve Labelled_label : labels.

Lemma Labelled_variable : Makes labelled variable.
Proof. unfold variable. labels. Qed.
#[local] Hint Resolve Labelled_variable : labels.

Lemma Labelled_name : Makes labelled name.
Proof. unfold name. labels. Qed.
#[local] Hint Resolve Labelled_name : labels.

Lemma Labelled_binary : Makes labelled binary.
Proof. unfold binary. labels. Qed.
#[local] Hint Resolve Labelled_binary : labels.

Lemma Labelled_duration : Makes labelled duration.
Proof. unfold duration. labels. Qed.
#[local] Hint Resolve Labelled_duration : labels.

Lemma Labelled_moment : Makes labelled moment.
Proof. unfold moment. labels. Qed.
#[local] Hint Resolve Labelled_moment : labels.

Lemma Labelled_reference : Makes labelled reference.
Proof. unfold reference. labels. Qed.
#[local] Hint Resolve Labelled_reference : labels.

Lemma Labelled_symbol : Makes labelled symbol.
Proof. unfold symbol. labels. Qed.
#[local] Hint Resolve Labelled_symbol : labels.

Lemma Labelled_tag : Makes labelled tag.
Proof. unfold tag. labels. Qed.
#[local] Hint Resolve Labelled_tag : labels.

Lemma Labelled_version : Makes labelled version.
Proof. unfold version. labels. Qed.
#[local] Hint Resolve Labelled_version : labels.

Lemma Labelled_template : Makes labelled template.
Proof. unfold template. labels. Qed.
#[local] Hint Resolve Labelled_template : labels.

Lemma Labelled_text : Makes labelled text.
Proof. unfold text. labels. Qed.
#[local] Hint Resolve Labelled_text : labels.

Lemma Labelled_probability : Makes labelled probability.
Proof. unfold probability. labels. Qed.
#[local] Hint Resolve Labelled_probability : labels.

Lemma Labelled_real : Makes labelled real.
Proof. unfold real. labels. Qed.
#[local] Hint Resolve Labelled_real : labels.

(** A [real] is a context, never a token: as the first child of an
    [imaginary] it is told from the sign. *)
Lemma real_is_a_context :
  Makes (fun t => exists c fs cs, t = RuleNode c fs cs) real.
Proof.
  unfold real. apply Makes_ruleBody.
  repeat (lazy beta iota;
          match goal with
          | |- Makes _ (ret _) => apply Makes_ret; do 3 eexists; reflexivity
          | |- Makes _ (bind _ _) =>
              apply Makes_bind with (Q := fun _ => True);
              [apply Makes_any | intros ? _]
          | |- Makes _ (if ?c then _ else _) => destruct c
          | |- Makes _ noViableAlt => apply Makes_noViableAlt
          end).
Qed.

Lemma Labelled_imaginary : Makes labelled imaginary.
Proof.
  unfold imaginary. apply Makes_ruleBody.
  apply Makes_bind with (Q := fun _ => True); [apply Makes_any|].
  intros [|[|[|la]]] _; lazy beta iota; try solve [labels].
  apply Makes_bind
    with (Q := fun t => labelled t /\ exists c fs cs, t = RuleNode c fs cs).
  - intros s t s' E. split;
      [exact (Labelled_real s E) | exact (real_is_a_context s E)].
  - intros r [Hr (c & fs & cs & ->)]. labels.
Qed.
#[local] Hint Resolve Labelled_imaginary : labels.

Lemma Labelled_number : Makes labelled number.
Proof. unfold number. labels. Qed.
#[local] Hint Resolve Labelled_number : labels.

Lemma Labelled_percent : Makes labelled percent.
Proof. unfold percent. labels. Qed.
#[local] Hint Resolve Labelled_percent : labels.

Lemma Labelled_continueClause : Makes labelled continueClause.
Proof. unfold continueClause. labels. Qed.
#[local] Hint Resolve Labelled_continueClause : labels.

Lemma Labelled_breakClause : Makes labelled breakClause.
Proof. unfold breakClause. labels. Qed.
#[local] Hint Resolve Labelled_breakClause : labels.

Lemma Labelled_optionalLabel : Makes allLabelled optionalLabel.
Proof. unfold optionalLabel. labels. Qed.
#[local] Hint Resolve Labelled_optionalLabel : labels.

(** ** The rules that call other rules, given that the calls are labelled *)

Section Rules.

Variable rec : Rec.
Hypothesis Hrec : forall r p, Makes labelled (rec r p).

Lemma Labelled_document : Makes labelled (document rec).
Proof. unfold document. labels. Qed.

Lemma Labelled_component : Makes labelled (component rec).
Proof. unfold component. labels. Qed.

Lemma Labelled_structure : Makes labelled (structure rec).
Proof. unfold structure. labels. Qed.

Lemma Labelled_parameters : Makes labelled (parameters rec).
Proof. unfold parameters. labels. Qed.

Lemma Labelled_composite : Makes labelled (composite rec).
Proof. unfold composite. labels. Qed.

Lemma Labelled_range : Makes labelled (range rec).
Proof. unfold range. labels. Qed.

Lemma Labelled_array : Makes labelled (array rec).
Proof. unfold array. labels. Qed.

Lemma Labelled_table : Makes labelled (table rec).
Proof. unfold table. labels. Qed.

Lemma Labelled_association : Makes labelled (association rec).
Proof. unfold association. labels. Qed.

Lemma Labelled_block : Makes labelled (block rec).
Proof. unfold block. labels. Qed.

Lemma Labelled_procedure : Makes labelled (procedure rec).
Proof. unfold procedure. labels. Qed.

Lemma Labelled_statement : Makes labelled (statement rec).
Proof. unfold statement. labels. Qed.

Lemma Labelled_handleClause : Makes labelled (handleClause rec).
Proof. unfold handleClause. labels. Qed.

Lemma Labelled_finishClause : Makes labelled (finishClause rec).
Proof. unfold finishClause. labels. Qed.

Lemma Labelled_evaluateClause : Makes labelled (evaluateClause rec).
Proof. unfold evaluateClause. labels. Qed.

Lemma Labelled_checkoutClause : Makes labelled (checkoutClause rec).
Proof. unfold checkoutClause. labels. Qed.

Lemma Labelled_saveClause : Makes labelled (saveClause rec).
Proof. unfold saveClause. labels. Qed.

Lemma Labelled_discardClause : Makes labelled (discardClause rec).
Proof. unfold discardClause. labels. Qed.

Lemma Labelled_commitClause : Makes labelled (commitClause rec).
Proof. unfold commitClause. labels. Qed.

Lemma Labelled_publishClause : Makes labelled (publishClause rec).
Proof. unfold publishClause. labels. Qed.

Lemma Labelled_queueClause : Makes labelled (queueClause rec).
Proof. unfold queueClause. labels. Qed.

Lemma Labelled_waitClause : Makes labelled (waitClause rec).
Proof. unfold waitClause. labels. Qed.

Lemma Labelled_ifClause : Makes labelled (ifClause rec).
Proof. unfold ifClause. labels. Qed.

Lemma Labelled_selectClause : Makes labelled (selectClause rec).
Proof. unfold selectClause. labels. Qed.

Lemma Labelled_whileClause : Makes labelled (whileClause rec).
Proof. unfold whileClause. labels. Qed.

Lemma Labelled_withClause : Makes labelled (withClause rec).
Proof. unfold withClause. labels. Qed.

Lemma Labelled_returnClause : Makes labelled (returnClause rec).
Proof. unfold returnClause. labels. Qed.

Lemma Labelled_throwClause : Makes labelled (throwClause rec).
Proof. unfold throwClause. labels. Qed.

Lemma Labelled_indices : Makes labelled (indices rec).
Proof. unfold indices. labels. Qed.

Lemma Labelled_invocation : Makes labelled (invocation rec).
Proof. unfold invocation. labels. Qed.

Lemma Labelled_element : Makes labelled (element rec).
Proof. unfold element. labels. Qed.

Lemma Labelled_expressionPrimary : Makes labelled (expressionPrimary rec).
Proof. unfold expressionPrimary. labels. Qed.

Lemma Labelled_expressionOperator p localctx :
  labelled localctx -> Makes labelled (expressionOperator rec p localctx).
Proof. intros H. unfold expressionOperator. labels. Qed.

Lemma Labelled_expressionLoop n : forall p localctx,
  labelled localctx -> Makes labelled (expressionLoop n rec p localctx).
Proof.
  induction n as [|n IH]; intros p localctx H; cbn [expressionLoop].
  - apply Makes_never. discriminate.
  - apply Makes_bind with (Q := fun _ => True); [apply Makes_any|].
    intros alt _. destruct (Nat.eqb alt 1).
    + apply Makes_bind with (Q := labelled);
        [exact (@Labelled_expressionOperator p localctx H)|].
      intros next Hn. exact (IH p next Hn).
    + apply Makes_ret. exact H.
Qed.

Lemma Labelled_expression p : Makes labelled (expression rec p).
Proof.
  unfold expression. apply Makes_ruleBody.
  apply Makes_bind with (Q := labelled); [exact Labelled_expressionPrimary|].
  intros first H s t s' E.
  exact (@Labelled_expressionLoop _ p first H s t s' E).
Qed.

End Rules.

#[local] Hint Resolve Labelled_document Labelled_component Labelled_structure Labelled_parameters Labelled_composite Labelled_range Labelled_array Labelled_table Labelled_association Labelled_block Labelled_procedure Labelled_statement Labelled_handleClause Labelled_finishClause Labelled_evaluateClause Labelled_checkoutClause Labelled_saveClause Labelled_discardClause Labelled_commitClause Labelled_publishClause Labelled_queueClause Labelled_waitClause Labelled_ifClause Labelled_selectClause Labelled_whileClause Labelled_withClause Labelled_returnClause Labelled_throwClause Labelled_indices Labelled_invocation Labelled_element Labelled_expression : labels.

Lemma Labelled_parse fuel : forall r p, Makes labelled (parse fuel r p).
Proof.
  induction fuel as [|fuel IH]; intros r p.
  - intros s t s'. discriminate.
  - destruct r; cbn [parse]; auto with labels.
Qed.

(** X28: in every tree that a rule function returns, the labelled
    fields are those of the children: [op] of an arithmetic, comparison
    or logical expression is the token of its second child and [op] of
    an inversion that of its first, [del] of a complex number is the
    token of its third child, [sign] of a real or an imaginary is the
    token of a first child that is a token, and no context has another
    field. *)
Theorem labels_hold_the_tokens_of_the_children fuel r p s t s' :
  parse fuel r p s = Ok t s' -> labelled t.
Proof. apply Labelled_parse. Qed.

Lemma labels_hold_the_tokens_of_the_children_witness :
  exists t s',
    parse 60 RULE_expression 0
          (Parser.initializeParser "-a * (-pi, 2i) < b and c" false) = Ok t s'
    /\ labelled t.
Proof.
  eexists. eexists.
  split; [vm_compute; reflexivity|].
  eapply (@labels_hold_the_tokens_of_the_children 60 RULE_expression 0
           (Parser.initializeParser "-a * (-pi, 2i) < b and c" false)).
  vm_compute; reflexivity.
Defined.

End LabelFacts.
